(** * Structural tags: parser, analyzer, fingerprinter and grammar converter

    A shallow embedding of [cpp/structural_tag.cc] (xgrammar) and the
    properties of its four passes:

    - [StructuralTagParser]: JSON value to typed [Format] tree;
    - [StructuralTagAnalyzer]: the "unlimited" flags, the detected end
      strings and the placement checks;
    - [FormatFingerprinter]: the deduplication key;
    - [StructuralTagGrammarConverter]: [Format] tree to grammar rules, with
      the regex-with-excludes path and its exclusion automaton.

    Strings are byte strings ([string], a list of 8-bit [ascii]); C++ [int]
    values are in [Z]; vectors are lists; [std::unordered_map] is [gmap]. *)

From Stdlib Require Import ZArith String Ascii Bool List.
From stdpp Require Import base option list gmap strings pretty.

Open Scope string_scope.
Open Scope list_scope.
Open Scope nat_scope.

#[local] Set Warnings "-register-all".

(** ** Results *)

(** [Result<T, ISTError>]: a value or an [InvalidStructuralTagError], which
    carries its message. *)
Definition ISTError := string.

Inductive Result (A : Type) : Type :=
| ROk (a : A)
| RErr (e : ISTError).
Arguments ROk {A} a.
Arguments RErr {A} e.

#[global] Instance Result_ret : MRet Result := fun _ a => ROk a.
#[global] Instance Result_bind : MBind Result := fun _ _ k r =>
  match r with
  | ROk a => k a
  | RErr e => RErr e
  end.
#[global] Instance Result_fmap : FMap Result := fun _ _ g r =>
  match r with
  | ROk a => ROk (g a)
  | RErr e => RErr e
  end.

Definition IsOk {A} (r : Result A) : bool :=
  match r with ROk _ => true | RErr _ => false end.
Definition IsErr {A} (r : Result A) : bool := negb (IsOk r).

(** [std::string::empty]. *)
Definition str_empty (s : string) : bool :=
  match s with EmptyString => true | String _ _ => false end.

(** Modelled from the spec: [RecursionGuard] (support/recursion_guard.h) is
    not part of the translated sources.  The specification says that the
    parser and the analyzer consult one configurable depth limit and that
    exceeding it is an error of the pass.  The limit is the [fuel] argument
    of the recursive passes below: every guarded call consumes one unit and
    a guarded call with no unit left is this error. *)
Definition recursion_depth_exceeded : ISTError :=
  "Maximum recursion depth exceeded".

(** ** The Format tree (structural_tag.h, as used by structural_tag.cc)

    The fields written by the analyzer ([detected_end_strs_],
    [is_unlimited_]) are part of the nodes. *)

Inductive Format : Type :=
| FConstString (value : string)
| FJSONSchema (json_schema : string)
| FQwenXmlParameter (xml_schema : string)
| FAnyText (excluded_strs : list string) (detected_end_strs_ : list string)
| FGrammar (grammar : string)
| FRegex (pattern : string) (excluded_strs : list string)
| FSequence (elements : list Format) (is_unlimited_ : bool)
| FOr (elements : list Format) (is_unlimited_ : bool)
| FTag (tag : TagFormat)
| FTriggeredTags (triggers : list string) (tags : list TagFormat)
    (excludes : list string) (detected_end_strs_ : list string)
    (at_least_one stop_after_first : bool)
| FTagsWithSeparator (tags : list TagFormat) (separator : string)
    (detected_end_strs_ : list string) (at_least_one stop_after_first : bool)
with TagFormat : Type :=
| MkTag (begin_ : string) (content : Format) (end_ : list string).

Definition tag_begin (t : TagFormat) : string :=
  match t with MkTag b _ _ => b end.
Definition tag_content (t : TagFormat) : Format :=
  match t with MkTag _ c _ => c end.
Definition tag_end (t : TagFormat) : list string :=
  match t with MkTag _ _ e => e end.

Record StructuralTag : Type := { format : Format }.

(** ** StructuralTagAnalyzer *)

Module Analyzer.

(** [stack_] holds pointers to the nodes under visit, the most recent first
    here.  The only field ever read through it is [end] of a [TagFormat]
    (in [DetectEndStrings]); that field is written once, at the end of the
    tag's own [VisitSub], when every descendant has been popped.  A stack
    entry is therefore the node as it was when pushed. *)
Fixpoint DetectEndStrings (stack_ : list Format) : list string :=
  match stack_ with
  | [] => []
  | FTag tag :: _ => tag_end tag
  | _ :: below => DetectEndStrings below
  end.

Definition IsUnlimited (format : Format) : bool :=
  match format with
  | FAnyText _ _ => true
  | FTriggeredTags _ _ _ _ _ _ => true
  | FTagsWithSeparator _ _ _ _ _ => true
  | FSequence _ is_unlimited_ => is_unlimited_
  | FOr _ is_unlimited_ => is_unlimited_
  | _ => false
  end.

Definition seq_unlimited_error (i : nat) : ISTError :=
  "Only the last element in a sequence can be unlimited, but the " +:+
  pretty i +:+ "th element of sequence format is unlimited".

Definition or_mixed_error : ISTError :=
  "Now we only support all elements in an or format to be unlimited or all limited, but the or format has both unlimited and limited elements".

Definition tag_end_error : ISTError :=
  "When the content is unlimited, at least one end string must be non-empty".

(** [elements] of a Sequence, from index [i] on.  The last element decides
    [is_unlimited_], every other one has to be limited.  On an empty vector
    the source computes [size() - 1] in [size_t] and indexes out of bounds;
    the parser rejects an empty Sequence, and the case is an error here. *)
Fixpoint visit_sequence (V : Format -> Result Format) (i : nat)
    (elements : list Format) : Result (list Format * bool) :=
  match elements with
  | [] => RErr "Sequence format must have at least one element"
  | [element] =>
      element' ← V element;
      ROk ([element'], IsUnlimited element')
  | element :: rest =>
      element' ← V element;
      if IsUnlimited element' then RErr (seq_unlimited_error i)
      else
        '(rest', u) ← visit_sequence V (S i) rest;
        ROk (element' :: rest', u)
  end.

(** The loop of [VisitSub(OrFormat* )] with its two accumulators. *)
Fixpoint visit_or (V : Format -> Result Format)
    (is_any_unlimited is_all_unlimited : bool) (elements : list Format)
    : Result (list Format * bool * bool) :=
  match elements with
  | [] => ROk ([], is_any_unlimited, is_all_unlimited)
  | element :: rest =>
      element' ← V element;
      let is_unlimited := IsUnlimited element' in
      '(rest', any, all) ← visit_or V (is_any_unlimited || is_unlimited)
                             (is_all_unlimited && is_unlimited) rest;
      ROk (element' :: rest', any, all)
  end.

(** The loops over [tags] of TriggeredTags and TagsWithSeparator. *)
Fixpoint visit_tags (V : TagFormat -> Result TagFormat)
    (tags : list TagFormat) : Result (list TagFormat) :=
  match tags with
  | [] => ROk []
  | tag :: rest =>
      tag' ← V tag;
      rest' ← visit_tags V rest;
      ROk (tag' :: rest')
  end.

Definition has_non_empty (end_ : list string) : bool :=
  existsb (fun end_str => negb (str_empty end_str)) end_.

(** [VisitSub(TagFormat* )]; [V] visits the content with the tag on the
    stack. *)
Definition VisitSub_Tag (V : Format -> Result Format) (tag : TagFormat)
    : Result TagFormat :=
  match tag with
  | MkTag begin_ content end_ =>
      content' ← V content;
      if IsUnlimited content' then
        if has_non_empty end_ then ROk (MkTag begin_ content' [])
        else RErr tag_end_error
      else ROk (MkTag begin_ content' end_)
  end.

(** [Visit(FormatPtrVariant)]: guard, push, dispatch to [VisitSub], pop.
    [VisitTag] is the same function at a [TagFormat*], as called on the
    tags of TriggeredTags and TagsWithSeparator.  The result is the node
    after the in-place updates. *)
Fixpoint Visit (fuel : nat) (stack_ : list Format) (format : Format)
    {struct fuel} : Result Format :=
  match fuel with
  | O => RErr recursion_depth_exceeded
  | S fuel =>
      let stack_ := format :: stack_ in
      match format with
      | FConstString _ | FJSONSchema _ | FQwenXmlParameter _
      | FGrammar _ | FRegex _ _ => ROk format
      | FAnyText excluded_strs _ =>
          ROk (FAnyText excluded_strs (DetectEndStrings stack_))
      | FSequence elements _ =>
          '(elements', u) ← visit_sequence (Visit fuel stack_) 0 elements;
          ROk (FSequence elements' u)
      | FOr elements _ =>
          '(elements', is_any_unlimited, is_all_unlimited) ←
            visit_or (Visit fuel stack_) false true elements;
          if is_any_unlimited && negb is_all_unlimited
          then RErr or_mixed_error
          else ROk (FOr elements' is_any_unlimited)
      | FTag tag =>
          tag' ← VisitSub_Tag (Visit fuel stack_) tag;
          ROk (FTag tag')
      | FTriggeredTags triggers tags excludes _ at_least_one stop_after_first =>
          tags' ← visit_tags (VisitTag fuel stack_) tags;
          ROk (FTriggeredTags triggers tags' excludes
                 (DetectEndStrings stack_) at_least_one stop_after_first)
      | FTagsWithSeparator tags separator _ at_least_one stop_after_first =>
          tags' ← visit_tags (VisitTag fuel stack_) tags;
          ROk (FTagsWithSeparator tags' separator
                 (DetectEndStrings stack_) at_least_one stop_after_first)
      end
  end
with VisitTag (fuel : nat) (stack_ : list Format) (tag : TagFormat)
    {struct fuel} : Result TagFormat :=
  match fuel with
  | O => RErr recursion_depth_exceeded
  | S fuel => VisitSub_Tag (Visit fuel (FTag tag :: stack_)) tag
  end.

(** [Analyze]: a fresh analyzer (empty stack, depth 0) on the root format. *)
Definition Analyze (max_recursion_depth : nat) (structural_tag : StructuralTag)
    : Result StructuralTag :=
  format' ← Visit max_recursion_depth [] (format structural_tag);
  ROk {| format := format' |}.

End Analyzer.

(** ** StructuralTagParser *)

(** A [picojson::value].  Numbers are never inspected by the parser. *)
Inductive json : Type :=
| JNull
| JBool (b : bool)
| JNumber (n : Z)
| JString (s : string)
| JArray (items : list json)
| JObject (members : list (string * json)).

Module Parser.

(** [obj.find(key)]: the member with that key.  A [picojson::object] keeps
    one member per key; on a list that repeats a key the first one counts. *)
Fixpoint find (key : string) (obj : list (string * json)) : option json :=
  match obj with
  | [] => None
  | (k, v) :: rest => if String.eqb k key then Some v else find key rest
  end.

(** The loops that copy an array of JSON strings, failing with [err] on an
    item that is not a string or, with [non_empty], on an empty string. *)
Fixpoint collect_strings (non_empty : bool) (err : ISTError)
    (items : list json) : Result (list string) :=
  match items with
  | [] => ROk []
  | JString s :: rest =>
      if non_empty && str_empty s then RErr err
      else
        rest' ← collect_strings non_empty err rest;
        ROk (s :: rest')
  | _ :: _ => RErr err
  end.

(** An optional boolean member ([at_least_one], [stop_after_first]). *)
Definition optional_bool (key : string) (err : ISTError)
    (obj : list (string * json)) : Result bool :=
  match find key obj with
  | None => ROk false
  | Some (JBool b) => ROk b
  | Some _ => RErr err
  end.

Section WithSerializer.

(** [picojson::value::serialize(false)], external. *)
Variable serialize : json -> string.

Definition ParseConstStringFormat (obj : list (string * json)) : Result Format :=
  match find "value" obj with
  | Some (JString s) =>
      if str_empty s
      then RErr "ConstString format must have a value field with a non-empty string"
      else ROk (FConstString s)
  | _ => RErr "ConstString format must have a value field with a non-empty string"
  end.

Definition ParseJSONSchemaFormat (obj : list (string * json)) : Result Format :=
  match find "json_schema" obj with
  | Some (JObject o) => ROk (FJSONSchema (serialize (JObject o)))
  | Some (JBool b) => ROk (FJSONSchema (serialize (JBool b)))
  | _ => RErr "JSON schema format must have a json_schema field with a object or boolean value"
  end.

Definition ParseQwenXmlParameterFormat (obj : list (string * json)) : Result Format :=
  match find "json_schema" obj with
  | Some (JObject o) => ROk (FQwenXmlParameter (serialize (JObject o)))
  | Some (JBool b) => ROk (FQwenXmlParameter (serialize (JBool b)))
  | _ => RErr "Qwen XML Parameter format must have a json_schema field with a object or boolean value"
  end.

Definition ParseAnyTextFormat (obj : list (string * json)) : Result Format :=
  match find "excludes" obj with
  | None =>
      match find "type" obj with
      | None => RErr "Any text format should not have any fields other than type"
      | Some _ => ROk (FAnyText [] [])
      end
  | Some (JArray excluded_strs_array) =>
      excluded_strs ← collect_strings false
        "AnyText format's excluded_strs array must contain strings"
        excluded_strs_array;
      ROk (FAnyText excluded_strs [])
  | Some _ => RErr "AnyText format's excluded_strs field must be an array"
  end.

Definition ParseGrammarFormat (obj : list (string * json)) : Result Format :=
  match find "grammar" obj with
  | Some (JString s) =>
      if str_empty s
      then RErr "Grammar format must have a grammar field with a non-empty string"
      else ROk (FGrammar s)
  | _ => RErr "Grammar format must have a grammar field with a non-empty string"
  end.

Definition ParseRegexFormat (obj : list (string * json)) : Result Format :=
  match find "pattern" obj with
  | Some (JString pattern) =>
      if str_empty pattern
      then RErr "Regex format must have a pattern field with a non-empty string"
      else
        match find "excludes" obj with
        | None => ROk (FRegex pattern [])
        | Some (JArray excluded_strs_array) =>
            excluded_strs ← collect_strings true
              "Regex format's excludes array must contain non-empty strings"
              excluded_strs_array;
            ROk (FRegex pattern excluded_strs)
        | Some _ => RErr "Regex format's excludes field must be an array"
        end
  | _ => RErr "Regex format must have a pattern field with a non-empty string"
  end.

(** The variant parsers below recurse through [ParseFormat], here the
    argument [PF] (the parser with the depth that is left). *)
Section Recursive.

Variable PF : json -> Result Format.

(** The element loop of [ParseSequenceFormat]: an element that is itself a
    Sequence is inlined. *)
Fixpoint parse_sequence_elements (elements_array : list json)
    : Result (list Format) :=
  match elements_array with
  | [] => ROk []
  | element :: rest =>
      parsed_format ← PF element;
      rest' ← parse_sequence_elements rest;
      match parsed_format with
      | FSequence nested _ => ROk (nested ++ rest')
      | _ => ROk (parsed_format :: rest')
      end
  end.

Definition ParseSequenceFormat (obj : list (string * json)) : Result Format :=
  match find "elements" obj with
  | Some (JArray elements_array) =>
      elements ← parse_sequence_elements elements_array;
      match elements with
      | [] => RErr "Sequence format must have at least one element"
      | _ :: _ => ROk (FSequence elements false)
      end
  | _ => RErr "Sequence format must have an elements field with an array"
  end.

Fixpoint parse_or_elements (elements_array : list json)
    : Result (list Format) :=
  match elements_array with
  | [] => ROk []
  | element :: rest =>
      parsed_format ← PF element;
      rest' ← parse_or_elements rest;
      ROk (parsed_format :: rest')
  end.

Definition ParseOrFormat (obj : list (string * json)) : Result Format :=
  match find "elements" obj with
  | Some (JArray elements_array) =>
      elements ← parse_or_elements elements_array;
      match elements with
      | [] => RErr "Or format must have at least one element"
      | _ :: _ => ROk (FOr elements false)
      end
  | _ => RErr "Or format must have an elements field with an array"
  end.

(** [ParseTagFormat(const picojson::object&)]. *)
Definition ParseTagFormat (obj : list (string * json)) : Result TagFormat :=
  match find "begin" obj with
  | Some (JString begin_) =>
      match find "content" obj with
      | None => RErr "Tag format must have a content field"
      | Some content_json =>
          content ← PF content_json;
          match find "end" obj with
          | None => RErr "Tag format must have an end field"
          | Some (JString end_str) => ROk (MkTag begin_ content [end_str])
          | Some (JArray end_array) =>
              match end_array with
              | [] => RErr "Tag format's end array cannot be empty"
              | _ :: _ =>
                  end_strings ← collect_strings false
                    "Tag format's end array must contain only strings" end_array;
                  ROk (MkTag begin_ content end_strings)
              end
          | Some _ => RErr "Tag format's end field must be a string or array of strings"
          end
      end
  | _ => RErr "Tag format's begin field must be a string"
  end.

Definition tag_type_error : ISTError :=
  "Tag format's type must be a string " +:+
  String (ascii_of_nat 34) "tag" +:+ String (ascii_of_nat 34) EmptyString.

(** [ParseTagFormat(const picojson::value&)], with the check of the value
    and of its type member. *)
Definition ParseTagFormat_value (value : json) : Result TagFormat :=
  match value with
  | JObject obj =>
      match find "type" obj with
      | None => ParseTagFormat obj
      | Some (JString type) =>
          if String.eqb type "tag" then ParseTagFormat obj
          else RErr tag_type_error
      | Some _ => RErr tag_type_error
      end
  | _ => RErr "Tag format must be an object"
  end.

Fixpoint parse_tags (tags_array : list json) : Result (list TagFormat) :=
  match tags_array with
  | [] => ROk []
  | tag :: rest =>
      tag_format ← ParseTagFormat_value tag;
      rest' ← parse_tags rest;
      ROk (tag_format :: rest')
  end.

Definition ParseTriggeredTagsFormat (obj : list (string * json)) : Result Format :=
  match find "triggers" obj with
  | Some (JArray triggers_array) =>
      triggers ← collect_strings true
        "Triggered tags format's triggers must be non-empty strings" triggers_array;
      match triggers with
      | [] => RErr "Triggered tags format's triggers must be non-empty"
      | _ :: _ =>
          match find "tags" obj with
          | Some (JArray tags_array) =>
              tags ← parse_tags tags_array;
              match tags with
              | [] => RErr "Triggered tags format's tags must be non-empty"
              | _ :: _ =>
                  excluded_strs ←
                    match find "excludes" obj with
                    | None => ROk []
                    | Some (JArray excludes_array) =>
                        collect_strings true
                          "Triggered tags format's excluded_strs must be non-empty strings"
                          excludes_array
                    | Some _ =>
                        RErr "Triggered tags format should have a excludes field with an array"
                    end;
                  at_least_one ←
                    optional_bool "at_least_one" "at_least_one must be a boolean" obj;
                  stop_after_first ←
                    optional_bool "stop_after_first" "stop_after_first must be a boolean" obj;
                  ROk (FTriggeredTags triggers tags excluded_strs []
                         at_least_one stop_after_first)
              end
          | _ => RErr "Triggered tags format must have a tags field with an array"
          end
      end
  | _ => RErr "Triggered tags format must have a triggers field with an array"
  end.

Definition ParseTagsWithSeparatorFormat (obj : list (string * json)) : Result Format :=
  match find "tags" obj with
  | Some (JArray tags_array) =>
      tags ← parse_tags tags_array;
      match tags with
      | [] => RErr "Tags with separator format's tags must be non-empty"
      | _ :: _ =>
          match find "separator" obj with
          | Some (JString separator) =>
              at_least_one ←
                optional_bool "at_least_one" "at_least_one must be a boolean" obj;
              stop_after_first ←
                optional_bool "stop_after_first" "stop_after_first must be a boolean" obj;
              ROk (FTagsWithSeparator tags separator [] at_least_one stop_after_first)
          | _ => RErr "Tags with separator format's separator field must be a string"
          end
      end
  | _ => RErr "Tags with separator format must have a tags field with an array"
  end.

End Recursive.

(** The part of [ParseFormat] that runs when the object has no type member:
    every variant parser in turn, Tag first. *)
Definition ParseFormat_untyped (PF : json -> Result Format) (value : json)
    (obj : list (string * json)) : Result Format :=
  match ParseTagFormat PF obj with
  | ROk tag_format => ROk (FTag tag_format)
  | RErr _ =>
  match ParseConstStringFormat obj with
  | ROk const_string_format => ROk const_string_format
  | RErr _ =>
  match ParseJSONSchemaFormat obj with
  | ROk json_schema_format => ROk json_schema_format
  | RErr _ =>
  match ParseAnyTextFormat obj with
  | ROk any_text_format => ROk any_text_format
  | RErr _ =>
  match ParseSequenceFormat PF obj with
  | ROk sequence_format => ROk sequence_format
  | RErr _ =>
  match ParseOrFormat PF obj with
  | ROk or_format => ROk or_format
  | RErr _ =>
  match ParseTriggeredTagsFormat PF obj with
  | ROk triggered_tags_format => ROk triggered_tags_format
  | RErr _ =>
  match ParseTagsWithSeparatorFormat PF obj with
  | ROk tags_with_separator_format => ROk tags_with_separator_format
  | RErr _ => RErr ("Invalid format: " +:+ serialize value)
  end end end end end end end end.

(** The dispatch of [ParseFormat] on a type member that is a string. *)
Definition ParseFormat_typed (PF : json -> Result Format) (type : string)
    (obj : list (string * json)) : Result Format :=
  if String.eqb type "const_string" then ParseConstStringFormat obj
  else if String.eqb type "json_schema" then ParseJSONSchemaFormat obj
  else if String.eqb type "any_text" then ParseAnyTextFormat obj
  else if String.eqb type "sequence" then ParseSequenceFormat PF obj
  else if String.eqb type "or" then ParseOrFormat PF obj
  else if String.eqb type "tag" then FTag <$> ParseTagFormat PF obj
  else if String.eqb type "triggered_tags" then ParseTriggeredTagsFormat PF obj
  else if String.eqb type "tags_with_separator" then ParseTagsWithSeparatorFormat PF obj
  else if String.eqb type "qwen_xml_parameter" then ParseQwenXmlParameterFormat obj
  else if String.eqb type "grammar" then ParseGrammarFormat obj
  else if String.eqb type "regex" then ParseRegexFormat obj
  else RErr ("Format type not recognized: " +:+ type).

(** [ParseFormat]; [fuel] is the recursion depth that is left. *)
Fixpoint ParseFormat (fuel : nat) (value : json) : Result Format :=
  match fuel with
  | O => RErr recursion_depth_exceeded
  | S fuel =>
      match value with
      | JObject obj =>
          match find "type" obj with
          | Some (JString type) => ParseFormat_typed (ParseFormat fuel) type obj
          | Some _ => RErr "Format's type must be a string"
          | None => ParseFormat_untyped (ParseFormat fuel) value obj
          end
      | _ => RErr "Format must be an object"
      end
  end.

Definition structural_tag_type_error : ISTError :=
  "Structural tag's type must be a string " +:+
  String (ascii_of_nat 34) "structural_tag" +:+ String (ascii_of_nat 34) EmptyString.

Definition ParseStructuralTag (max_recursion_depth : nat) (value : json)
    : Result StructuralTag :=
  match value with
  | JObject obj =>
      let parse_format_field :=
        match find "format" obj with
        | None => RErr "Structural tag must have a format field"
        | Some format_json =>
            format' ← ParseFormat max_recursion_depth format_json;
            ROk {| format := format' |}
        end in
      match find "type" obj with
      | None => parse_format_field
      | Some (JString type) =>
          if String.eqb type "structural_tag" then parse_format_field
          else RErr structural_tag_type_error
      | Some _ => RErr structural_tag_type_error
      end
  | _ => RErr "Structural tag must be an object"
  end.

End WithSerializer.
End Parser.

(** ** FormatFingerprinter *)

Module Fingerprinter.

(** [std::to_string] of a [bool] (promoted to [int]). *)
Definition bool_to_string (b : bool) : string := if b then "1" else "0".

(** The loops [for (s : strs) result += s + sep]. *)
Definition append_each (result : string) (sep : string) (strs : list string)
    : string :=
  fold_left (fun result s => result +:+ (s +:+ sep)) strs result.

Fixpoint ComputeImpl (format : Format) : string :=
  match format with
  | FConstString value => "CS:" +:+ value
  | FJSONSchema json_schema => "JS:" +:+ json_schema
  | FQwenXmlParameter xml_schema => "QX:" +:+ xml_schema
  | FAnyText excluded_strs detected_end_strs_ =>
      let result := append_each "AT:" "|" excluded_strs in
      let result := result +:+ "E:" in
      append_each result "|" detected_end_strs_
  | FGrammar grammar => "GR:" +:+ grammar
  | FRegex pattern excluded_strs =>
      let result := "RX:" +:+ pattern in
      match excluded_strs with
      | [] => result
      | _ :: _ => append_each (result +:+ ":X:") "|" excluded_strs
      end
  | FSequence elements _ =>
      let result :=
        fold_left (fun result element => result +:+ (ComputeImpl element +:+ ","))
          elements "SQ[" in
      result +:+ "]"
  | FOr elements _ =>
      let result :=
        fold_left (fun result element => result +:+ (ComputeImpl element +:+ ","))
          elements "OR[" in
      result +:+ "]"
  | FTag (MkTag begin_ content end_) =>
      let result := ("TG:" +:+ begin_) +:+ ":{" in
      let result := result +:+ ComputeImpl content in
      let result := result +:+ "}:" in
      append_each result "|" end_
  | FTriggeredTags triggers _ _ _ at_least_one stop_after_first =>
      let result := append_each "TT:" "," triggers in
      let result := result +:+ ":" in
      result +:+ ((bool_to_string at_least_one +:+ ",") +:+
                  bool_to_string stop_after_first)
  | FTagsWithSeparator _ separator _ at_least_one stop_after_first =>
      let result := ("TS:" +:+ separator) +:+ ":" in
      result +:+ ((bool_to_string at_least_one +:+ ",") +:+
                  bool_to_string stop_after_first)
  end.

Definition Compute (format : Format) : string := ComputeImpl format.

End Fingerprinter.

(** ** The grammar builder and the automata used by the converter *)

(** [Grammar::Impl::TagDispatch]. *)
Record TagDispatch : Type := {
  tag_rule_pairs : list (string * Z);
  stop_eos : bool;
  stop_str : list string;
  loop_after_dispatch : bool;
  excluded_str : list string
}.

Inductive GrammarExpr : Type :=
| EByteString (bytes : string)
| EEmptyStr
| ECharacterClass (ranges : list (Z * Z)) (is_negative : bool)
| ECharacterClassStar (ranges : list (Z * Z)) (is_negative : bool)
| ERuleRef (rule_id : Z)
| ESequence (elements : list Z)
| EChoices (choices : list Z)
| ETagDispatch (tag_dispatch : TagDispatch).

Record Rule : Type := { name : string; body_expr_id : Z }.

(** Modelled from the spec: [GrammarBuilder] (grammar_builder.h) is not part
    of the translated sources.  Following the builder contract of the
    specification, expressions and rules are appended to two tables and
    the handle returned is the index of the new entry; a rule keeps its
    name hint; an empty rule has body [-1] until [UpdateRuleBody]. *)
Module GrammarBuilder.

Record t : Type := { grammar_exprs : list GrammarExpr; rules : list Rule }.

Definition empty : t := {| grammar_exprs := []; rules := [] |}.

Definition AddExpr (e : GrammarExpr) (b : t) : Z * t :=
  (Z.of_nat (length (grammar_exprs b)),
   {| grammar_exprs := grammar_exprs b ++ [e]; rules := rules b |}).

Definition AddRuleWithHint (name_hint : string) (body : Z) (b : t) : Z * t :=
  (Z.of_nat (length (rules b)),
   {| grammar_exprs := grammar_exprs b;
      rules := rules b ++ [{| name := name_hint; body_expr_id := body |}] |}).

Definition AddEmptyRuleWithHint (name_hint : string) (b : t) : Z * t :=
  AddRuleWithHint name_hint (-1) b.

Definition UpdateRuleBody (rule_id : Z) (body : Z) (b : t) : t :=
  {| grammar_exprs := grammar_exprs b;
     rules := alter (fun r => {| name := name r; body_expr_id := body |})
                (Z.to_nat rule_id) (rules b) |}.

Definition NumRules (b : t) : nat := length (rules b).

End GrammarBuilder.

(** Modelled from the spec: [FSM], [FSMEdge] and [FSMWithStartEnd] (fsm.h)
    are not part of the translated sources.  An automaton is the vector of
    the edge lists of its states; an edge is a byte range [min..max] and a
    target; [GetNextState] follows the first edge whose range holds the
    byte and returns [kNoNextState] when there is none. *)
Module FSM.

Record FSMEdge : Type := { min : Z; max : Z; target : Z }.

Definition t : Type := list (list FSMEdge).

Definition kNoNextState : Z := -1.

Definition NumStates (fsm : t) : Z := Z.of_nat (length fsm).

Definition GetEdges (fsm : t) (state : Z) : list FSMEdge :=
  default [] (fsm !! Z.to_nat state).

Definition SetEdges (fsm : t) (state : Z) (edges : list FSMEdge) : t :=
  <[Z.to_nat state := edges]> fsm.

Definition IsCharRange (edge : FSMEdge) : bool := (0 <=? min edge)%Z.

Definition edge_has (ch : Z) (edge : FSMEdge) : bool :=
  IsCharRange edge && (min edge <=? ch)%Z && (ch <=? max edge)%Z.

Definition GetNextState (fsm : t) (from : Z) (ch : Z) : Z :=
  match List.find (edge_has ch) (GetEdges fsm from) with
  | Some edge => target edge
  | None => kNoNextState
  end.

Definition AddState (fsm : t) : Z * t := (NumStates fsm, fsm ++ [[]]).

Definition AddEdge (fsm : t) (from to min_ch max_ch : Z) : t :=
  SetEdges fsm from
    (GetEdges fsm from ++ [{| min := min_ch; max := max_ch; target := to |}]).

End FSM.

Record FSMWithStartEnd : Type := {
  fsm : FSM.t;
  start : Z;
  ends : list bool;
  is_dfa : bool
}.

Definition IsEndState (a : FSMWithStartEnd) (state : Z) : bool :=
  default false (ends a !! Z.to_nat state).

(** The value of a [char] as [static_cast<int16_t>(static_cast<uint8_t>(c))]. *)
Definition byte_value (c : ascii) : Z := Z.of_N (N_of_ascii c).

(** Running an automaton without epsilon edges on bytes: the states
    reachable from [start], and acceptance when one of them is an end state. *)
Module Run.

Definition step (m : FSM.t) (states : list Z) (ch : Z) : list Z :=
  flat_map (fun state =>
              map FSM.target (filter (fun e => FSM.edge_has ch e = true)
                                (FSM.GetEdges m state)))
           states.

Definition run (m : FSM.t) (states : list Z) (input : list Z) : list Z :=
  fold_left (step m) input states.

Definition bytes_of (s : string) : list Z :=
  map byte_value (list_ascii_of_string s).

Definition accepts (a : FSMWithStartEnd) (s : string) : bool :=
  existsb (IsEndState a) (run (fsm a) [start a] (bytes_of s)).

End Run.

(** [e] occurs in [s] as a substring. *)
Definition occurs_in (e s : string) : Prop :=
  exists before after, s = before +:+ (e +:+ after).

(** ** StructuralTagGrammarConverter *)

(** The collaborators of the converter that live in other files of the
    repository: the grammars built from a JSON schema, an EBNF text or a
    regex, the splice of such a grammar into the builder (which returns the
    id of the spliced root rule), the regex automaton builder and the
    intersection of automata. *)
Class Collaborators : Type := {
  Grammar : Type;
  Grammar_FromJSONSchema : string -> Grammar;
  Grammar_FromEBNF : string -> Grammar;
  Grammar_FromRegex : string -> Grammar;
  QwenXMLToolCallingToEBNF : string -> string;
  SubGrammarAdder_Apply : GrammarBuilder.t -> Grammar -> Z * GrammarBuilder.t;
  RegexFSMBuilder_Build : string -> Result FSMWithStartEnd;
  FSMWithStartEnd_Intersect :
    FSMWithStartEnd -> FSMWithStartEnd -> Result FSMWithStartEnd
}.

(** The exclusion automaton of [VisitSub(const RegexFormat&)]. *)
Module Exclusion.

Definition exclude_start : Z := 0.

(** Step 1, inner loop: walk or extend the trie along one excluded string. *)
Fixpoint walk_exclude_str (exclude_fsm : FSM.t) (current_state : Z)
    (chars : list ascii) : FSM.t * Z :=
  match chars with
  | [] => (exclude_fsm, current_state)
  | c :: rest =>
      let ch := byte_value c in
      let next_state := FSM.GetNextState exclude_fsm current_state ch in
      if (next_state =? FSM.kNoNextState)%Z then
        let '(next_state, exclude_fsm) := FSM.AddState exclude_fsm in
        let exclude_fsm := FSM.AddEdge exclude_fsm current_state next_state ch ch in
        walk_exclude_str exclude_fsm next_state rest
      else walk_exclude_str exclude_fsm next_state rest
  end.

(** Step 1: the trie and [dead_states].  ([exclude_ends] receives the same
    states and is not read afterwards.) *)
Definition build_trie (excluded_strs : list string) : FSM.t * gset Z :=
  fold_left
    (fun '(exclude_fsm, dead_states) exclude_str =>
       let '(exclude_fsm, current_state) :=
         walk_exclude_str exclude_fsm 0 (list_ascii_of_string exclude_str) in
       (exclude_fsm, {[current_state]} ∪ dead_states))
    excluded_strs ([[]], ∅).

(** Step 2 for one state. *)
Definition covered_bytes_of (edges : list FSM.FSMEdge) : gset Z :=
  fold_left
    (fun covered_bytes edge =>
       fold_left (fun covered_bytes b => {[b]} ∪ covered_bytes)
         (seqZ (FSM.min edge) (FSM.max edge - FSM.min edge + 1)) covered_bytes)
    edges ∅.

Definition copy_start_edges (start_edges : list FSM.FSMEdge)
    (edges : list FSM.FSMEdge) (covered_bytes : gset Z)
    : list FSM.FSMEdge * gset Z :=
  fold_left
    (fun '(edges, covered_bytes) start_edge =>
       if decide (FSM.min start_edge ∈ covered_bytes)
       then (edges, covered_bytes)
       else (edges ++ [start_edge], {[FSM.min start_edge]} ∪ covered_bytes))
    start_edges (edges, covered_bytes).

Definition fill_gaps (edges : list FSM.FSMEdge) (covered_bytes : gset Z)
    : list FSM.FSMEdge :=
  fold_left
    (fun edges b =>
       if decide (b ∈ covered_bytes) then edges
       else edges ++ [{| FSM.min := b; FSM.max := b; FSM.target := exclude_start |}])
    (seqZ 0 256) edges.

Definition add_back_edges_at (dead_states : gset Z) (exclude_fsm : FSM.t)
    (state : Z) : FSM.t :=
  if decide (state ∈ dead_states) then exclude_fsm
  else
    let edges := FSM.GetEdges exclude_fsm state in
    let covered_bytes := covered_bytes_of edges in
    let '(edges, covered_bytes) :=
      if (state =? exclude_start)%Z then (edges, covered_bytes)
      else copy_start_edges (FSM.GetEdges exclude_fsm exclude_start)
             edges covered_bytes in
    FSM.SetEdges exclude_fsm state (fill_gaps edges covered_bytes).

(** Step 2: the states in increasing order, each on the automaton as the
    earlier ones left it. *)
Definition add_back_edges (dead_states : gset Z) (exclude_fsm : FSM.t) : FSM.t :=
  fold_left (add_back_edges_at dead_states)
    (seqZ 0 (FSM.NumStates exclude_fsm)) exclude_fsm.

(** Step 3: drop the edges into dead states. *)
Definition remove_dead_edges (dead_states : gset Z) (exclude_fsm : FSM.t) : FSM.t :=
  map (filter (fun edge => FSM.target edge ∉ dead_states)) exclude_fsm.

Definition exclude_is_end (dead_states : gset Z) (exclude_fsm : FSM.t) : list bool :=
  map (fun state => bool_decide (state ∉ dead_states))
    (seqZ 0 (FSM.NumStates exclude_fsm)).

Definition exclude_filter (excluded_strs : list string) : FSMWithStartEnd :=
  let '(exclude_fsm, dead_states) := build_trie excluded_strs in
  let exclude_fsm := add_back_edges dead_states exclude_fsm in
  let exclude_fsm := remove_dead_edges dead_states exclude_fsm in
  {| fsm := exclude_fsm;
     start := exclude_start;
     ends := exclude_is_end dead_states exclude_fsm;
     is_dfa := true |}.

End Exclusion.

Module Converter.

(** The state of a [StructuralTagGrammarConverter]. *)
Record t : Type := {
  grammar_builder_ : GrammarBuilder.t;
  fingerprint_to_rule_id_ : gmap string Z
}.

Definition init : t :=
  {| grammar_builder_ := GrammarBuilder.empty; fingerprint_to_rule_id_ := ∅ |}.

(** A method of the converter: it reads and updates the state and returns a
    value or an error (the state is dropped with the error: a failed
    conversion returns no grammar). *)
Definition Conv (A : Type) : Type := t -> Result (A * t).

#[global] Instance Conv_ret : MRet Conv := fun _ a st => ROk (a, st).
#[global] Instance Conv_bind : MBind Conv := fun _ _ k m st =>
  match m st with
  | ROk (a, st') => k a st'
  | RErr e => RErr e
  end.

Definition fail {A} (e : ISTError) : Conv A := fun _ => RErr e.

Definition on_builder (op : GrammarBuilder.t -> Z * GrammarBuilder.t) : Conv Z :=
  fun st =>
    let '(id, b) := op (grammar_builder_ st) in
    ROk (id, {| grammar_builder_ := b;
                fingerprint_to_rule_id_ := fingerprint_to_rule_id_ st |}).

Definition AddByteString (s : string) : Conv Z :=
  on_builder (GrammarBuilder.AddExpr (EByteString s)).
Definition AddEmptyStr : Conv Z :=
  on_builder (GrammarBuilder.AddExpr EEmptyStr).
Definition AddCharacterClass (ranges : list (Z * Z)) : Conv Z :=
  on_builder (GrammarBuilder.AddExpr (ECharacterClass ranges false)).
Definition AddCharacterClassStar (ranges : list (Z * Z)) (is_negative : bool)
    : Conv Z :=
  on_builder (GrammarBuilder.AddExpr (ECharacterClassStar ranges is_negative)).
Definition AddRuleRef (rule_id : Z) : Conv Z :=
  on_builder (GrammarBuilder.AddExpr (ERuleRef rule_id)).
Definition AddSequence (elements : list Z) : Conv Z :=
  on_builder (GrammarBuilder.AddExpr (ESequence elements)).
Definition AddChoices (choices : list Z) : Conv Z :=
  on_builder (GrammarBuilder.AddExpr (EChoices choices)).
Definition AddTagDispatch (td : TagDispatch) : Conv Z :=
  on_builder (GrammarBuilder.AddExpr (ETagDispatch td)).
Definition AddRuleWithHint (name_hint : string) (body : Z) : Conv Z :=
  on_builder (GrammarBuilder.AddRuleWithHint name_hint body).
Definition AddEmptyRuleWithHint (name_hint : string) : Conv Z :=
  on_builder (GrammarBuilder.AddEmptyRuleWithHint name_hint).
Definition UpdateRuleBody (rule_id body : Z) : Conv unit :=
  fun st =>
    ROk (tt, {| grammar_builder_ :=
                  GrammarBuilder.UpdateRuleBody rule_id body (grammar_builder_ st);
                fingerprint_to_rule_id_ := fingerprint_to_rule_id_ st |}).

(** A loop that runs [body] on every item and collects the results. *)
Section ForEach.
Context {A B : Type}.
Variable body : A -> Conv B.

Fixpoint for_each (items : list A) : Conv (list B) :=
  match items with
  | [] => mret []
  | item :: rest =>
      r ← body item;
      rs ← for_each rest;
      mret (r :: rs)
  end.

End ForEach.

(** [v[i]] on a vector of ids and the items of a vector with their index. *)
Definition at_ (v : list Z) (i : Z) : Z := default (-1)%Z (v !! Z.to_nat i).

Definition indexed {A} (v : list A) : list (Z * A) :=
  zip (seqZ 0 (Z.of_nat (length v))) v.

(** [IsPrefix]. *)
Definition IsPrefix (prefix full_str : string) : bool :=
  (String.length prefix <=? String.length full_str) &&
  String.eqb (substring 0 (String.length prefix) full_str) prefix.

(** [s.substr(pos)]. *)
Definition substr_from (pos : nat) (s : string) : string :=
  substring pos (String.length s - pos) s.

Definition non_empty_strs (strs : list string) : list string :=
  filter (fun s => str_empty s = false) strs.

(** The expression for an end string: [AddEmptyStr] for the empty string. *)
Definition end_str_expr (end_str : string) : Conv Z :=
  if str_empty end_str then AddEmptyStr else AddByteString end_str.

(** [Choice(Seq(end1), Seq(end2), ...)] as a rule with the given hint; the
    result is the reference to that rule. *)
Definition end_choices_rule_ref (name_hint : string) (ends_ : list string)
    : Conv Z :=
  end_sequence_ids ← for_each (fun end_str =>
                                 end_expr ← end_str_expr end_str;
                                 AddSequence [end_expr]) ends_;
  end_choices_expr ← AddChoices end_sequence_ids;
  end_choices_rule_id ← AddRuleWithHint name_hint end_choices_expr;
  AddRuleRef end_choices_rule_id.

(** The sequence [begin content end] of one tag, written out in the source
    in [VisitSub(const TagFormat&)] and three times in
    [VisitSub(const TriggeredTagsFormat&)]: no end expression when [end] is
    empty, the string itself for one end string, a [tag_end] rule for more. *)
Definition tag_sequence (begin_str : string) (content_rule_id : Z)
    (end_ : list string) : Conv Z :=
  begin_expr_id ← AddByteString begin_str;
  rule_ref_expr_id ← AddRuleRef content_rule_id;
  match end_ with
  | [] => AddSequence [begin_expr_id; rule_ref_expr_id]
  | [end0] =>
      end_expr_id ← end_str_expr end0;
      AddSequence [begin_expr_id; rule_ref_expr_id; end_expr_id]
  | _ :: _ :: _ =>
      end_rule_ref_expr ← end_choices_rule_ref "tag_end" end_;
      AddSequence [begin_expr_id; rule_ref_expr_id; end_rule_ref_expr]
  end.

Definition multiple_triggers_error : ISTError :=
  "One tag matches multiple triggers in a triggered tags format".
Definition no_trigger_error : ISTError :=
  "One tag does not match any trigger in a triggered tags format".

(** The inner loop of step 1 of TriggeredTags: the index of the trigger that
    is a prefix of [begin], [-1] when there is none so far. *)
Fixpoint match_triggers (begin_ : string) (triggers : list string)
    (it_trigger matched_trigger_id : Z) : Result Z :=
  match triggers with
  | [] => ROk matched_trigger_id
  | trigger :: rest =>
      if IsPrefix trigger begin_ then
        if (matched_trigger_id =? -1)%Z
        then match_triggers begin_ rest (it_trigger + 1)%Z it_trigger
        else RErr multiple_triggers_error
      else match_triggers begin_ rest (it_trigger + 1)%Z matched_trigger_id
  end.

Definition matched_trigger (begin_ : string) (triggers : list string) : Result Z :=
  matched_trigger_id ← match_triggers begin_ triggers 0%Z (-1)%Z;
  if (matched_trigger_id =? -1)%Z then RErr no_trigger_error
  else ROk matched_trigger_id.

Definition lift {A} (r : Result A) : Conv A := fun st =>
  match r with
  | ROk a => ROk (a, st)
  | RErr e => RErr e
  end.

Definition push_back_at (i : Z) (x : Z) (v : list (list Z)) : list (list Z) :=
  alter (fun ids => ids ++ [x]) (Z.to_nat i) v.

Section Visitors.

Context `{Collaborators}.

(** The body of [Visit]: look the fingerprint up, otherwise run [VisitSub]
    and record the rule id when it succeeds. *)
Definition cached (fingerprint : string) (visit_sub : Conv Z) : Conv Z :=
  fun st =>
    match fingerprint_to_rule_id_ st !! fingerprint with
    | Some rule_id => ROk (rule_id, st)
    | None =>
        match visit_sub st with
        | ROk (rule_id, st') =>
            ROk (rule_id,
                 {| grammar_builder_ := grammar_builder_ st';
                    fingerprint_to_rule_id_ :=
                      <[fingerprint := rule_id]> (fingerprint_to_rule_id_ st') |})
        | RErr e => RErr e
        end
    end.

Definition add_sub_grammar (sub_grammar : Grammar) : Conv Z :=
  on_builder (fun b => SubGrammarAdder_Apply b sub_grammar).

Definition VisitSub_ConstString (value : string) : Conv Z :=
  expr ← AddByteString value;
  sequence_expr ← AddSequence [expr];
  choices_expr ← AddChoices [sequence_expr];
  AddRuleWithHint "const_string" choices_expr.

Definition VisitSub_JSONSchema (json_schema : string) : Conv Z :=
  add_sub_grammar (Grammar_FromJSONSchema json_schema).

Definition VisitSub_QwenXmlParameter (xml_schema : string) : Conv Z :=
  add_sub_grammar (Grammar_FromEBNF (QwenXMLToolCallingToEBNF xml_schema)).

Definition VisitSub_Grammar (grammar : string) : Conv Z :=
  add_sub_grammar (Grammar_FromEBNF grammar).

Definition VisitSub_AnyText (excluded_strs detected_end_strs_ : list string)
    : Conv Z :=
  match detected_end_strs_ with
  | _ :: _ =>
      let non_empty_ends := non_empty_strs detected_end_strs_ in
      tag_dispatch_expr ← AddTagDispatch
        {| tag_rule_pairs := []; stop_eos := false; stop_str := non_empty_ends;
           loop_after_dispatch := false; excluded_str := excluded_strs |};
      AddRuleWithHint "any_text" tag_dispatch_expr
  | [] =>
      any_text_expr ← AddCharacterClassStar [(0, 1114111)%Z] false;
      sequence_expr ← AddSequence [any_text_expr];
      choices_expr ← AddChoices [sequence_expr];
      AddRuleWithHint "any_text" choices_expr
  end.

(** The rules of the product automaton: one rule per state. *)
Definition regex_state_rule (result_fsm : FSMWithStartEnd)
    (state_rule_ids : list Z) (state : Z) : Conv unit :=
  end_seqs ← (if IsEndState result_fsm state
              then empty_expr ← AddEmptyStr;
                   seq ← AddSequence [empty_expr];
                   mret [seq]
              else mret []);
  edge_seqs ← for_each (fun edge =>
                          char_expr ← AddCharacterClass
                            [(FSM.min edge, FSM.max edge)];
                          target_ref ← AddRuleRef
                            (at_ state_rule_ids (FSM.target edge));
                          AddSequence [char_expr; target_ref])
                 (filter (fun edge => FSM.IsCharRange edge = true)
                    (FSM.GetEdges (fsm result_fsm) state));
  let choice_seqs := end_seqs ++ edge_seqs in
  match choice_seqs with
  | [] =>
      empty_expr ← AddEmptyStr;
      seq ← AddSequence [empty_expr];
      body ← AddChoices [seq];
      UpdateRuleBody (at_ state_rule_ids state) body
  | _ :: _ =>
      body ← AddChoices choice_seqs;
      UpdateRuleBody (at_ state_rule_ids state) body
  end.

Definition VisitSub_Regex (pattern : string) (excluded_strs : list string)
    : Conv Z :=
  match excluded_strs with
  | [] => add_sub_grammar (Grammar_FromRegex pattern)
  | _ :: _ =>
      match RegexFSMBuilder_Build pattern with
      | RErr e => fail ("Failed to build FSM from regex pattern: " +:+ e)
      | ROk regex_fsm =>
          let exclude_filter := Exclusion.exclude_filter excluded_strs in
          match FSMWithStartEnd_Intersect regex_fsm exclude_filter with
          | RErr e =>
              fail ("Failed to compute intersection for regex with excludes: " +:+ e)
          | ROk result_fsm =>
              let num_states := FSM.NumStates (fsm result_fsm) in
              if (num_states =? 0)%Z
              then fail "Regex with excludes results in empty language (nothing matches)"
              else
                state_rule_ids ← for_each
                  (fun _ => AddEmptyRuleWithHint "regex_state")
                  (seqZ 0 num_states);
                _ ← for_each (regex_state_rule result_fsm state_rule_ids)
                      (seqZ 0 num_states);
                mret (at_ state_rule_ids (start result_fsm))
          end
      end
  end.

(** The visitors of the composite formats; [V] is [Visit] on a sub-format. *)
Section Composite.

Variable V : Format -> Conv Z.

Definition VisitSub_Sequence (elements : list Format) : Conv Z :=
  rule_ref_ids ← for_each (fun element =>
                             sub_rule_id ← V element;
                             AddRuleRef sub_rule_id) elements;
  sequence_expr ← AddSequence rule_ref_ids;
  expr ← AddChoices [sequence_expr];
  AddRuleWithHint "sequence" expr.

Definition VisitSub_Or (elements : list Format) : Conv Z :=
  sequence_ids ← for_each (fun element =>
                             sub_rule_id ← V element;
                             rule_ref_expr ← AddRuleRef sub_rule_id;
                             AddSequence [rule_ref_expr]) elements;
  expr ← AddChoices sequence_ids;
  AddRuleWithHint "or" expr.

Definition VisitSub_Tag (tag : TagFormat) : Conv Z :=
  sub_rule_id ← V (tag_content tag);
  sequence_expr_id ← tag_sequence (tag_begin tag) sub_rule_id (tag_end tag);
  choices_expr ← AddChoices [sequence_expr_id];
  AddRuleWithHint "tag" choices_expr.

(** Step 1 of TriggeredTags: every tag gets its trigger, then its content is
    converted. *)
Section TriggeredTagsStep1.

Variable triggers : list string.

Fixpoint visit_triggered_tags (tags : list TagFormat) (it_tag : Z)
    (trigger_to_tag_ids : list (list Z)) (tag_content_rule_ids : list Z)
    : Conv (list (list Z) * list Z) :=
  match tags with
  | [] => mret (trigger_to_tag_ids, tag_content_rule_ids)
  | tag :: rest =>
      matched_trigger_id ← lift (matched_trigger (tag_begin tag) triggers);
      let trigger_to_tag_ids :=
        push_back_at matched_trigger_id it_tag trigger_to_tag_ids in
      rule_id ← V (tag_content tag);
      visit_triggered_tags rest (it_tag + 1)%Z trigger_to_tag_ids
        (tag_content_rule_ids ++ [rule_id])
  end.

End TriggeredTagsStep1.

(** [tags[tag_id]]. *)
Definition tag_at (tags : list TagFormat) (tag_id : Z) : TagFormat :=
  default (MkTag EmptyString (FConstString EmptyString) []) (tags !! Z.to_nat tag_id).

(** One alternative per tag, with the whole [begin]: the choice of step 2
    and the [triggered_tags_first] rule of step 3.3. *)
Definition all_tags_choices (tags : list TagFormat)
    (tag_content_rule_ids : list Z) : Conv (list Z) :=
  for_each (fun '(it_tag, tag) =>
              tag_sequence (tag_begin tag) (at_ tag_content_rule_ids it_tag)
                (tag_end tag))
    (indexed tags).

(** Step 2, [at_least_one && stop_after_first]: exactly one tag, no text. *)
Definition triggered_tags_one_tag (tags : list TagFormat)
    (detected_end_strs_ : list string) (tag_content_rule_ids : list Z) : Conv Z :=
  choice_elements ← all_tags_choices tags tag_content_rule_ids;
  choice_expr_id ← AddChoices choice_elements;
  choice_expr_id ←
    match detected_end_strs_ with
    | [] => mret choice_expr_id
    | [end0] =>
        sub_rule_id ← AddRuleWithHint "triggered_tags_sub" choice_expr_id;
        ref_sub_rule_expr_id ← AddRuleRef sub_rule_id;
        end_str_expr_id ← end_str_expr end0;
        sequence_expr_id ← AddSequence [ref_sub_rule_expr_id; end_str_expr_id];
        AddChoices [sequence_expr_id]
    | _ :: _ :: _ =>
        sub_rule_id ← AddRuleWithHint "triggered_tags_sub" choice_expr_id;
        ref_sub_rule_expr_id ← AddRuleRef sub_rule_id;
        end_rule_ref_expr ← end_choices_rule_ref "end_choices" detected_end_strs_;
        sequence_expr_id ← AddSequence [ref_sub_rule_expr_id; end_rule_ref_expr];
        AddChoices [sequence_expr_id]
    end;
  AddRuleWithHint "triggered_tags" choice_expr_id.

(** Step 3.1: one [triggered_tags_group] rule per trigger, over the tags of
    that trigger with the trigger cut off their [begin]. *)
Definition trigger_groups (triggers : list string) (tags : list TagFormat)
    (trigger_to_tag_ids : list (list Z)) (tag_content_rule_ids : list Z)
    : Conv (list (string * Z)) :=
  for_each (fun '(it_trigger, trigger) =>
              choice_elements ←
                for_each (fun tag_id =>
                            let tag := tag_at tags tag_id in
                            tag_sequence
                              (substr_from (String.length trigger) (tag_begin tag))
                              (at_ tag_content_rule_ids tag_id) (tag_end tag))
                  (default [] (trigger_to_tag_ids !! Z.to_nat it_trigger));
              choice_expr_id ← AddChoices choice_elements;
              sub_rule_id ← AddRuleWithHint "triggered_tags_group" choice_expr_id;
              mret (trigger, sub_rule_id))
    (indexed triggers).

(** Steps 3.1 to 3.3: text mixed with triggered tags. *)
Definition triggered_tags_dispatch (triggers : list string)
    (tags : list TagFormat) (excludes detected_end_strs_ : list string)
    (at_least_one stop_after_first : bool)
    (trigger_to_tag_ids : list (list Z)) (tag_content_rule_ids : list Z)
    : Conv Z :=
  tag_rule_pairs ← trigger_groups triggers tags trigger_to_tag_ids
                     tag_content_rule_ids;
  let loop_after_dispatch := negb stop_after_first in
  rule_expr_id ←
    match detected_end_strs_ with
    | _ :: _ =>
        AddTagDispatch
          {| tag_rule_pairs := tag_rule_pairs; stop_eos := false;
             stop_str := non_empty_strs detected_end_strs_;
             loop_after_dispatch := loop_after_dispatch;
             excluded_str := excludes |}
    | [] =>
        AddTagDispatch
          {| tag_rule_pairs := tag_rule_pairs; stop_eos := true;
             stop_str := [];
             loop_after_dispatch := loop_after_dispatch;
             excluded_str := excludes |}
    end;
  rule_expr_id ←
    (if at_least_one then
       first_choice_elements ← all_tags_choices tags tag_content_rule_ids;
       first_choice_expr_id ← AddChoices first_choice_elements;
       first_rule_id ← AddRuleWithHint "triggered_tags_first" first_choice_expr_id;
       tag_dispatch_rule_id ← AddRuleWithHint "triggered_tags_sub" rule_expr_id;
       ref_first_rule_expr_id ← AddRuleRef first_rule_id;
       ref_tag_dispatch_rule_expr_id ← AddRuleRef tag_dispatch_rule_id;
       sequence_expr_id ← AddSequence
         [ref_first_rule_expr_id; ref_tag_dispatch_rule_expr_id];
       AddChoices [sequence_expr_id]
     else mret rule_expr_id);
  AddRuleWithHint "triggered_tags" rule_expr_id.

Definition VisitSub_TriggeredTags (triggers : list string)
    (tags : list TagFormat) (excludes detected_end_strs_ : list string)
    (at_least_one stop_after_first : bool) : Conv Z :=
  '(trigger_to_tag_ids, tag_content_rule_ids) ←
    visit_triggered_tags triggers tags 0%Z
      (replicate (length triggers) []) [];
  if at_least_one && stop_after_first
  then triggered_tags_one_tag tags detected_end_strs_ tag_content_rule_ids
  else triggered_tags_dispatch triggers tags excludes detected_end_strs_
         at_least_one stop_after_first trigger_to_tag_ids tag_content_rule_ids.

End Composite.

(** TagsWithSeparator after step 1: the root rule, given the reference to
    the rule of all tags. *)
Section TagsWithSeparator.

Variables (separator : string) (detected_end_strs_ : list string).
Variables (at_least_one stop_after_first : bool).

Definition separator_matches_end : bool :=
  existsb (fun end_str => String.eqb end_str separator) detected_end_strs_.

(** Step 2: no repetition. *)
Definition tags_with_separator_single (all_tags_rule_ref_id : Z)
    (end_str_expr_ids : list Z) : Conv Z :=
  let has_end_strs := negb (bool_decide (end_str_expr_ids = [])) in
  rule_body_expr_id ←
    (if at_least_one then
       if negb has_end_strs then
         seq ← AddSequence [all_tags_rule_ref_id];
         AddChoices [seq]
       else
         choices ← for_each (fun end_str_expr_id =>
                               AddSequence [all_tags_rule_ref_id; end_str_expr_id])
                     end_str_expr_ids;
         AddChoices choices
     else
       if negb has_end_strs then
         seq ← AddSequence [all_tags_rule_ref_id];
         empty_expr ← AddEmptyStr;
         AddChoices [seq; empty_expr]
       else
         with_tags ← for_each (fun end_str_expr_id =>
                                 AddSequence [all_tags_rule_ref_id; end_str_expr_id])
                       end_str_expr_ids;
         only_end ← for_each (fun end_str_expr_id =>
                                AddSequence [end_str_expr_id])
                      end_str_expr_ids;
         AddChoices (with_tags ++ only_end));
  AddRuleWithHint "tags_with_separator" rule_body_expr_id.

(** Step 3: the recursive form with [tags_with_separator_sub]. *)
Definition tags_with_separator_list (all_tags_rule_ref_id : Z)
    (end_str_expr_ids : list Z) : Conv Z :=
  sub_rule_id ← AddEmptyRuleWithHint "tags_with_separator_sub";
  end_str_sequence_id ←
    match end_str_expr_ids with
    | [] => AddEmptyStr
    | [end_str_expr_id] => AddSequence [end_str_expr_id]
    | _ :: _ :: _ =>
        end_str_choices ← for_each (fun end_str_expr_id =>
                                      AddSequence [end_str_expr_id])
                            end_str_expr_ids;
        AddChoices end_str_choices
    end;
  separator_elements ←
    (if str_empty separator then mret []
     else separator_expr ← AddByteString separator;
          mret [separator_expr]);
  sub_rule_ref ← AddRuleRef sub_rule_id;
  let sub_sequence_elements :=
    separator_elements ++ [all_tags_rule_ref_id; sub_rule_ref] in
  sub_sequence ← AddSequence sub_sequence_elements;
  sub_rule_body_id ← AddChoices [sub_sequence; end_str_sequence_id];
  _ ← UpdateRuleBody sub_rule_id sub_rule_body_id;
  sub_rule_ref' ← AddRuleRef sub_rule_id;
  first_choice ← AddSequence [all_tags_rule_ref_id; sub_rule_ref'];
  let choices :=
    if at_least_one then [first_choice]
    else [first_choice; end_str_sequence_id] in
  rule_body_expr_id ← AddChoices choices;
  AddRuleWithHint "tags_with_separator" rule_body_expr_id.

(** [VT] is [Visit] on a tag of the format (as a [Format]). *)
Definition VisitSub_TagsWithSeparator (VT : TagFormat -> Conv Z)
    (tags : list TagFormat) : Conv Z :=
  choice_ids ← for_each (fun tag =>
                           tag_rule_id ← VT tag;
                           tag_rule_ref_id ← AddRuleRef tag_rule_id;
                           AddSequence [tag_rule_ref_id]) tags;
  choice_expr_id ← AddChoices choice_ids;
  all_tags_rule_id ← AddRuleWithHint "tags_with_separator_tags" choice_expr_id;
  all_tags_rule_ref_id ← AddRuleRef all_tags_rule_id;
  end_str_expr_ids ← for_each AddByteString (non_empty_strs detected_end_strs_);
  let has_end_strs := negb (bool_decide (end_str_expr_ids = [])) in
  if stop_after_first || (has_end_strs && separator_matches_end)
  then tags_with_separator_single all_tags_rule_ref_id end_str_expr_ids
  else tags_with_separator_list all_tags_rule_ref_id end_str_expr_ids.

End TagsWithSeparator.

(** [Visit] and, for the content of a tag, [VisitSub(const TagFormat&)]. *)
Fixpoint Visit (format : Format) {struct format} : Conv Z :=
  cached (Fingerprinter.Compute format)
    match format with
    | FConstString value => VisitSub_ConstString value
    | FJSONSchema json_schema => VisitSub_JSONSchema json_schema
    | FQwenXmlParameter xml_schema => VisitSub_QwenXmlParameter xml_schema
    | FAnyText excluded_strs detected_end_strs_ =>
        VisitSub_AnyText excluded_strs detected_end_strs_
    | FGrammar grammar => VisitSub_Grammar grammar
    | FRegex pattern excluded_strs => VisitSub_Regex pattern excluded_strs
    | FSequence elements _ => VisitSub_Sequence Visit elements
    | FOr elements _ => VisitSub_Or Visit elements
    | FTag tag => VisitSub_Tag Visit tag
    | FTriggeredTags triggers tags excludes detected_end_strs_
        at_least_one stop_after_first =>
        VisitSub_TriggeredTags Visit triggers tags excludes detected_end_strs_
          at_least_one stop_after_first
    | FTagsWithSeparator tags separator detected_end_strs_
        at_least_one stop_after_first =>
        VisitSub_TagsWithSeparator separator detected_end_strs_
          at_least_one stop_after_first
          (fun tag =>
             cached (Fingerprinter.Compute (FTag tag)) (VisitSub_Tag Visit tag))
          tags
    end.

Definition VisitSub (format : Format) : Conv Z :=
  match format with
  | FConstString value => VisitSub_ConstString value
  | FJSONSchema json_schema => VisitSub_JSONSchema json_schema
  | FQwenXmlParameter xml_schema => VisitSub_QwenXmlParameter xml_schema
  | FAnyText excluded_strs detected_end_strs_ =>
      VisitSub_AnyText excluded_strs detected_end_strs_
  | FGrammar grammar => VisitSub_Grammar grammar
  | FRegex pattern excluded_strs => VisitSub_Regex pattern excluded_strs
  | FSequence elements _ => VisitSub_Sequence Visit elements
  | FOr elements _ => VisitSub_Or Visit elements
  | FTag tag => VisitSub_Tag Visit tag
  | FTriggeredTags triggers tags excludes detected_end_strs_
      at_least_one stop_after_first =>
      VisitSub_TriggeredTags Visit triggers tags excludes detected_end_strs_
        at_least_one stop_after_first
  | FTagsWithSeparator tags separator detected_end_strs_
      at_least_one stop_after_first =>
      VisitSub_TagsWithSeparator separator detected_end_strs_
        at_least_one stop_after_first (fun tag => Visit (FTag tag)) tags
  end.

Definition AddRootRuleAndGetGrammar (ref_rule_id : Z) : Conv Z :=
  expr ← AddRuleRef ref_rule_id;
  sequence_expr ← AddSequence [expr];
  choices_expr ← AddChoices [sequence_expr];
  AddRuleWithHint "root" choices_expr.

(** [Convert]: the builder after the root rule is added, with the id of
    the root rule. *)
Definition Convert (structural_tag : StructuralTag)
    : Result (Z * GrammarBuilder.t) :=
  match (root_rule_id ← Visit (format structural_tag);
         AddRootRuleAndGetGrammar root_rule_id) init with
  | ROk (root, st) => ROk (root, grammar_builder_ st)
  | RErr e => RErr e
  end.

End Visitors.
End Converter.

(** Collaborators for running the converter on formats that need none of
    them (no JSON schema, grammar or regex node): a spliced grammar is one
    opaque rule and no regex automaton is available. *)
#[global] Instance standalone : Collaborators := {|
  Grammar := string;
  Grammar_FromJSONSchema := fun s => s;
  Grammar_FromEBNF := fun s => s;
  Grammar_FromRegex := fun s => s;
  QwenXMLToolCallingToEBNF := fun s => s;
  SubGrammarAdder_Apply := fun b g => GrammarBuilder.AddEmptyRuleWithHint g b;
  RegexFSMBuilder_Build := fun _ => RErr "no regex automaton builder";
  FSMWithStartEnd_Intersect := fun _ _ => RErr "no automaton intersection"
|}.

(** ** The public API *)

(** [StructuralTagError]: the variant of [InvalidJSONError] and
    [InvalidStructuralTagError]. *)
Inductive StructuralTagError : Type :=
| InvalidJSONError (message : string)
| InvalidStructuralTagError (message : ISTError).

(** [Result<T, StructuralTagError>]. *)
Inductive APIResult (A : Type) : Type :=
| AOk (a : A)
| AErr (e : StructuralTagError).
Arguments AOk {A} a.
Arguments AErr {A} e.

(** [Result<T, StructuralTagError>::Convert] on a [Result<T, ISTError>]. *)
Definition Result_Convert {A} (r : Result A) : APIResult A :=
  match r with
  | ROk a => AOk a
  | RErr e => AErr (InvalidStructuralTagError e)
  end.

Module API.
Section API.

Context `{Collaborators}.

(** picojson and [GrammarNormalizer] (grammar_functor.h) are not part of the
    translated sources.  [picojson_parse json] is the value that
    [picojson::parse] stores and the error text that it returns, empty when
    the text was parsed; [serialize] is [picojson::value::serialize];
    [GrammarNormalizer_Apply] takes the grammar of the converter, its
    builder with the id of the root rule.  The two depths are the limits
    of the recursion guards of the parser and of the analyzer. *)
Variable picojson_parse : string -> json * string.
Variable serialize : json -> string.
Variables parser_depth analyzer_depth : nat.
Variable NormalizedGrammar : Type.
Variable GrammarNormalizer_Apply : Z * GrammarBuilder.t -> NormalizedGrammar.

(** [StructuralTagParser::FromJSON]. *)
Definition FromJSON (json_text : string) : APIResult StructuralTag :=
  let '(value, err) := picojson_parse json_text in
  if negb (str_empty err)
  then AErr (InvalidJSONError ("Failed to parse JSON: " +:+ err))
  else Result_Convert (Parser.ParseStructuralTag serialize parser_depth value).

(** [StructuralTagToGrammar]. *)
Definition StructuralTagToGrammar (structural_tag_json : string)
    : APIResult NormalizedGrammar :=
  match FromJSON structural_tag_json with
  | AErr e => AErr e
  | AOk structural_tag =>
      match Analyzer.Analyze analyzer_depth structural_tag with
      | RErr err => AErr (InvalidStructuralTagError err)
      | ROk structural_tag =>
          match Converter.Convert structural_tag with
          | RErr e => AErr (InvalidStructuralTagError e)
          | ROk grammar => AOk (GrammarNormalizer_Apply grammar)
          end
      end
  end.

End API.
End API.

(** * Specifications

    The vocabulary of the properties proved below: what the claims about
    the passes say, in terms of the model. *)

Module ParserSpec.
Import Parser.

(** "Return the first that succeeds, fail if none succeeds", over the
    results of the attempts in their order. *)
Fixpoint first_success {A} (attempts : list (Result A)) (otherwise : ISTError)
    : Result A :=
  match attempts with
  | [] => RErr otherwise
  | ROk a :: _ => ROk a
  | RErr _ :: rest => first_success rest otherwise
  end.

(** The variants that can come out of a format object without a type. *)
Definition inferable (f : Format) : bool :=
  match f with
  | FQwenXmlParameter _ | FGrammar _ | FRegex _ _ => false
  | _ => true
  end.

(** The format is an AnyText. *)
Definition is_any_text (f : Format) : bool :=
  match f with FAnyText _ _ => true | _ => false end.

(** The member that each of the eight attempts on an object without a type
    looks up first ([elements] for Sequence and Or, [tags] for
    TagsWithSeparator): an attempt fails at once when its member is
    missing.  Every other member that a variant parser reads ([content],
    [end], [separator], [at_least_one], [stop_after_first]) is read after
    one of these. *)
Definition leading_fields : list string :=
  ["begin"; "value"; "json_schema"; "excludes"; "elements"; "triggers"; "tags"].

(** The object has none of the members [fields]. *)
Definition lacks (fields : list string) (obj : list (string * json)) : bool :=
  forallb (fun field => match find field obj with
                        | None => true
                        | Some _ => false
                        end) fields.

(** The attempts of [ParseFormat] on an object without a type, in the
    order of the source. *)
Definition attempts (serialize : json -> string) (PF : json -> Result Format)
    (obj : list (string * json)) : list (Result Format) :=
  [ FTag <$> ParseTagFormat PF obj;
    ParseConstStringFormat obj;
    ParseJSONSchemaFormat serialize obj;
    ParseAnyTextFormat obj;
    ParseSequenceFormat PF obj;
    ParseOrFormat PF obj;
    ParseTriggeredTagsFormat PF obj;
    ParseTagsWithSeparatorFormat PF obj ].

(** What the parser guarantees of a tree: no Sequence, Or, trigger list or
    tag list is empty, and every Tag has an end string. *)
Fixpoint well_formed (f : Format) : bool :=
  match f with
  | FSequence elements _ =>
      negb (bool_decide (elements = [])) && forallb well_formed elements
  | FOr elements _ =>
      negb (bool_decide (elements = [])) && forallb well_formed elements
  | FTag (MkTag _ content end_) =>
      well_formed content && negb (bool_decide (end_ = []))
  | FTriggeredTags triggers tags _ _ _ _ =>
      negb (bool_decide (triggers = [])) && negb (bool_decide (tags = [])) &&
      forallb (fun tag => well_formed (tag_content tag) &&
                          negb (bool_decide (tag_end tag = []))) tags
  | FTagsWithSeparator tags _ _ _ _ =>
      negb (bool_decide (tags = [])) &&
      forallb (fun tag => well_formed (tag_content tag) &&
                          negb (bool_decide (tag_end tag = []))) tags
  | _ => true
  end.

End ParserSpec.

Module AnalyzerSpec.
Import Analyzer.

Section LastSat.
Context {A : Type} (p : A -> bool).

(** [p] holds of the last item of a list (false on the empty list). *)
Fixpoint last_sat (l : list A) : bool :=
  match l with
  | [] => false
  | [a] => p a
  | _ :: rest => last_sat rest
  end.

End LastSat.

(** The value of the "unlimited" predicate that analysis derives for a
    format: AnyText, TriggeredTags and TagsWithSeparator are unlimited, a
    Sequence is as its last element, an Or is unlimited when one of its
    elements is, everything else is limited. *)
Fixpoint unlimited (f : Format) : bool :=
  match f with
  | FAnyText _ _ => true
  | FTriggeredTags _ _ _ _ _ _ => true
  | FTagsWithSeparator _ _ _ _ _ => true
  | FSequence elements _ => last_sat unlimited elements
  | FOr elements _ => existsb unlimited elements
  | _ => false
  end.

(** The placement rule, with the predicate [U] for "unlimited": in every
    Sequence all elements but the last are limited, in every Or all
    elements are unlimited or none is. *)
Section Placement.
Variable U : Format -> bool.

Fixpoint placement (f : Format) : bool :=
  match f with
  | FSequence elements _ =>
      forallb placement elements &&
      forallb (fun e => negb (U e)) (removelast elements)
  | FOr elements _ =>
      forallb placement elements &&
      (forallb U elements || negb (existsb U elements))
  | FTag (MkTag _ content _) => placement content
  | FTriggeredTags _ tags _ _ _ _ =>
      forallb (fun tag => placement (tag_content tag)) tags
  | FTagsWithSeparator tags _ _ _ _ =>
      forallb (fun tag => placement (tag_content tag)) tags
  | _ => true
  end.

End Placement.

(** The flags and the placement rule after a successful visit. *)
Definition flags_ok (f f' : Format) : Prop :=
  IsUnlimited f' = unlimited f /\
  placement IsUnlimited f' = true /\
  placement unlimited f = true.

(** The same for the content of a tag. *)
Definition tag_flags_ok (t t' : TagFormat) : Prop :=
  placement IsUnlimited (tag_content t') = true /\
  placement unlimited (tag_content t) = true.

(** [Annotated nearest f f']: [f'] is [f] with the annotations of the
    analyzer, where [nearest] is the end set of the nearest Tag around [f]
    (empty when there is none).  Every AnyText, TriggeredTags and
    TagsWithSeparator carries in [detected_end_strs_] the end set that the
    nearest enclosing Tag had in the input; a Tag whose content comes out
    unlimited had a non-empty end string in the input and has no end string
    left; a Tag whose content comes out limited keeps its end set; nothing
    else changes but the derived flags of Sequence and Or. *)
Inductive Annotated : list string -> Format -> Format -> Prop :=
| An_const_string nearest value :
    Annotated nearest (FConstString value) (FConstString value)
| An_json_schema nearest schema :
    Annotated nearest (FJSONSchema schema) (FJSONSchema schema)
| An_qwen nearest schema :
    Annotated nearest (FQwenXmlParameter schema) (FQwenXmlParameter schema)
| An_any_text nearest excluded detected :
    Annotated nearest (FAnyText excluded detected) (FAnyText excluded nearest)
| An_grammar nearest grammar :
    Annotated nearest (FGrammar grammar) (FGrammar grammar)
| An_regex nearest pattern excluded :
    Annotated nearest (FRegex pattern excluded) (FRegex pattern excluded)
| An_sequence nearest elements elements' u u' :
    Forall2 (Annotated nearest) elements elements' ->
    Annotated nearest (FSequence elements u) (FSequence elements' u')
| An_or nearest elements elements' u u' :
    Forall2 (Annotated nearest) elements elements' ->
    Annotated nearest (FOr elements u) (FOr elements' u')
| An_tag nearest tag tag' :
    AnnotatedTag tag tag' ->
    Annotated nearest (FTag tag) (FTag tag')
| An_triggered_tags nearest triggers tags tags' excludes detected a s :
    Forall2 AnnotatedTag tags tags' ->
    Annotated nearest (FTriggeredTags triggers tags excludes detected a s)
      (FTriggeredTags triggers tags' excludes nearest a s)
| An_tags_with_separator nearest tags tags' separator detected a s :
    Forall2 AnnotatedTag tags tags' ->
    Annotated nearest (FTagsWithSeparator tags separator detected a s)
      (FTagsWithSeparator tags' separator nearest a s)
with AnnotatedTag : TagFormat -> TagFormat -> Prop :=
| An_tag_unlimited begin_ content content' end_ :
    Annotated end_ content content' ->
    IsUnlimited content' = true ->
    has_non_empty end_ = true ->
    AnnotatedTag (MkTag begin_ content end_) (MkTag begin_ content' [])
| An_tag_limited begin_ content content' end_ :
    Annotated end_ content content' ->
    IsUnlimited content' = false ->
    AnnotatedTag (MkTag begin_ content end_) (MkTag begin_ content' end_).

(** The AnyText nodes of a tree: their excluded strings and their detected
    end strings. *)
Fixpoint any_texts (f : Format) : list (list string * list string) :=
  match f with
  | FAnyText excluded detected => [(excluded, detected)]
  | FSequence elements _ => flat_map any_texts elements
  | FOr elements _ => flat_map any_texts elements
  | FTag (MkTag _ content _) => any_texts content
  | FTriggeredTags _ tags _ _ _ _ =>
      flat_map (fun tag => any_texts (tag_content tag)) tags
  | FTagsWithSeparator tags _ _ _ _ =>
      flat_map (fun tag => any_texts (tag_content tag)) tags
  | _ => []
  end.

(** The condition of the check in [VisitSub(const AnyTextFormat&)]: when
    there are detected end strings, one of them is not empty. *)
Definition ends_ok (detected : list string) : Prop :=
  detected <> [] -> Converter.non_empty_strs detected <> [].

(** The condition holds of every AnyText node of a tree. *)
Definition any_texts_ok (f : Format) : Prop :=
  Forall (fun any_text => ends_ok (snd any_text)) (any_texts f).

(** The invariant of a visit under the end set [nearest]: the AnyText nodes
    of the result are fine as soon as [nearest] is, or the result is
    limited. *)
Definition ends_inv (nearest : list string) (f' : Format) : Prop :=
  (ends_ok nearest -> any_texts_ok f') /\
  (IsUnlimited f' = false -> any_texts_ok f').

End AnalyzerSpec.

Module ConverterSpec.
Import Converter.

(** The value returned by a method of the converter run on a state. *)
Definition result_of {A} (m : Conv A) (c : Converter.t) : Result A :=
  match m c with
  | ROk (a, _) => ROk a
  | RErr e => RErr e
  end.

(** The grammar rules are those of [c] and [added] after them. *)
Definition rules_extended (c c' : Converter.t) (added : list Rule) : Prop :=
  GrammarBuilder.rules (grammar_builder_ c') =
  GrammarBuilder.rules (grammar_builder_ c) ++ added.

(** A grammar mentions the byte string [s]. *)
Definition has_byte_string (s : string) (b : GrammarBuilder.t) : bool :=
  existsb (fun e => match e with
                    | EByteString bytes => String.eqb bytes s
                    | _ => false
                    end)
    (GrammarBuilder.grammar_exprs b).

(** A method that cannot fail. *)
Definition total {A} (m : Conv A) : Prop :=
  forall c, exists a c', m c = ROk (a, c').

(** The triggers of the format that are prefixes of [begin]. *)
Definition matching_triggers (begin_ : string) (triggers : list string)
    : list string :=
  filter (fun trigger => IsPrefix trigger begin_ = true) triggers.

(** The position of the first trigger that is a prefix of [begin]. *)
Fixpoint first_match (begin_ : string) (triggers : list string) : nat :=
  match triggers with
  | [] => 0
  | trigger :: rest =>
      if IsPrefix trigger begin_ then 0 else S (first_match begin_ rest)
  end.

(** Exactly one trigger of the format is a prefix of the [begin] of [tag]. *)
Definition one_trigger (triggers : list string) (tag : TagFormat) : Prop :=
  length (matching_triggers (tag_begin tag) triggers) = 1.

(** The expressions and the rules of the grammar under construction. *)
Definition exprs_of (c : Converter.t) : list GrammarExpr :=
  GrammarBuilder.grammar_exprs (grammar_builder_ c).
Definition rules_of (c : Converter.t) : list Rule :=
  GrammarBuilder.rules (grammar_builder_ c).

(** The expression with handle [id] is [e]. *)
Definition expr_at (c : Converter.t) (id : Z) (e : GrammarExpr) : Prop :=
  (0 <= id)%Z /\ exprs_of c !! Z.to_nat id = Some e.

(** Expressions are only ever appended. *)
Definition exprs_grow (c c' : Converter.t) : Prop :=
  exists added, exprs_of c' = exprs_of c ++ added.

Section Alternatives.
Variable detected : list string.

(** [alt] is a sequence of one non-empty detected end string. *)
Definition end_sequence (c : Converter.t) (alt : Z) : Prop :=
  exists x s, expr_at c alt (ESequence [x]) /\ expr_at c x (EByteString s) /\
              In s detected /\ s <> EmptyString.

(** [alt] is an empty/end alternative: the empty string, one end string, or
    a choice between end strings. *)
Definition end_alternative (c : Converter.t) (alt : Z) : Prop :=
  expr_at c alt EEmptyStr \/
  end_sequence c alt \/
  exists alts, expr_at c alt (EChoices alts) /\ alts <> [] /\
               Forall (end_sequence c) alts.

(** [alt] is a sequence that starts with the reference [tags_ref]. *)
Definition tags_alternative (c : Converter.t) (tags_ref alt : Z) : Prop :=
  exists rest, expr_at c alt (ESequence (tags_ref :: rest)).

(** The handles in [ids] are the non-empty detected end strings. *)
Definition end_str_ids (c : Converter.t) (ids : list Z) : Prop :=
  Forall (fun id => exists s, expr_at c id (EByteString s) /\
                              In s detected /\ s <> EmptyString) ids.

End Alternatives.

(** The choices of the root rule: alternatives that start with the rule of
    all tags, then empty/end alternatives, which are there exactly when
    [at_least_one] is false. *)
Definition root_choices (detected : list string) (at_least_one : bool)
    (c : Converter.t) (tags_ref body : Z) : Prop :=
  exists choices tag_alts end_alts,
    expr_at c body (EChoices choices) /\
    choices = tag_alts ++ end_alts /\
    tag_alts <> [] /\
    Forall (tags_alternative c tags_ref) tag_alts /\
    Forall (end_alternative detected c) end_alts /\
    (end_alts = [] <-> at_least_one = true).

(** The condition of the special case: [stop_after_first], or some
    detected end string is non-empty and the separator is one of the
    detected end strings. *)
Definition special_case (separator : string) (detected : list string)
    (stop_after_first : bool) : bool :=
  stop_after_first ||
  (existsb (fun s => negb (str_empty s)) detected &&
   bool_decide (separator ∈ detected)).

(** The rules added after the tags are converted, in the non-recursive
    form: the rule of all tags and the root rule. *)
Definition single_form (detected : list string) (at_least_one : bool)
    (c1 c' : Converter.t) (rule_id : Z) : Prop :=
  exists tags_body tags_ref body,
    rules_of c' =
      rules_of c1 ++
      [{| name := "tags_with_separator_tags"; body_expr_id := tags_body |};
       {| name := "tags_with_separator"; body_expr_id := body |}] /\
    rule_id = Z.of_nat (S (length (rules_of c1))) /\
    expr_at c' tags_ref (ERuleRef (Z.of_nat (length (rules_of c1)))) /\
    root_choices detected at_least_one c' tags_ref body.

(** The same in the recursive form: between the two, the sub rule
    [separator tags sub | end], which refers to itself. *)
Definition recursive_form (separator : string) (detected : list string)
    (at_least_one : bool) (c1 c' : Converter.t) (rule_id : Z) : Prop :=
  exists tags_body tags_ref sub_body body,
    rules_of c' =
      rules_of c1 ++
      [{| name := "tags_with_separator_tags"; body_expr_id := tags_body |};
       {| name := "tags_with_separator_sub"; body_expr_id := sub_body |};
       {| name := "tags_with_separator"; body_expr_id := body |}] /\
    rule_id = Z.of_nat (S (S (length (rules_of c1)))) /\
    expr_at c' tags_ref (ERuleRef (Z.of_nat (length (rules_of c1)))) /\
    root_choices detected at_least_one c' tags_ref body /\
    exists cons end_alt before sub_ref,
      expr_at c' sub_body (EChoices [cons; end_alt]) /\
      expr_at c' cons (ESequence (before ++ [tags_ref; sub_ref])) /\
      expr_at c' sub_ref (ERuleRef (Z.of_nat (S (length (rules_of c1))))) /\
      end_alternative detected c' end_alt /\
      Forall (fun x => expr_at c' x (EByteString separator)) before /\
      (before = [] <-> separator = EmptyString).

End ConverterSpec.

(** ** The nodes of a tree *)

Module FormatSpec.

(** The name of a variant, as the [type] member of a format object spells
    it in [ParseFormat]. *)
Definition type_name (f : Format) : string :=
  match f with
  | FConstString _ => "const_string"
  | FJSONSchema _ => "json_schema"
  | FQwenXmlParameter _ => "qwen_xml_parameter"
  | FAnyText _ _ => "any_text"
  | FGrammar _ => "grammar"
  | FRegex _ _ => "regex"
  | FSequence _ _ => "sequence"
  | FOr _ _ => "or"
  | FTag _ => "tag"
  | FTriggeredTags _ _ _ _ _ _ => "triggered_tags"
  | FTagsWithSeparator _ _ _ _ _ => "tags_with_separator"
  end.

Definition is_sequence (f : Format) : bool :=
  match f with FSequence _ _ => true | _ => false end.

(** Every node of a tree, the root first; a tag of a TriggeredTags or of a
    TagsWithSeparator counts as the Tag format it is. *)
Fixpoint nodes (f : Format) : list Format :=
  f :: match f with
       | FSequence elements _ | FOr elements _ => flat_map nodes elements
       | FTag (MkTag _ content _) => nodes content
       | FTriggeredTags _ tags _ _ _ _ | FTagsWithSeparator tags _ _ _ _ =>
           flat_map (fun tag => FTag tag :: nodes (tag_content tag)) tags
       | _ => []
       end.

Definition non_empty_str (s : string) : bool := negb (str_empty s).

(** The string fields that the parser wants non-empty: the value of a
    ConstString, the text of a Grammar, the pattern and the excluded
    strings of a Regex, the triggers and the excluded strings of a
    TriggeredTags. *)
Definition strings_ok (f : Format) : bool :=
  match f with
  | FConstString value => non_empty_str value
  | FGrammar grammar => non_empty_str grammar
  | FRegex pattern excluded_strs =>
      non_empty_str pattern && forallb non_empty_str excluded_strs
  | FTriggeredTags triggers _ excludes _ _ _ =>
      forallb non_empty_str triggers && forallb non_empty_str excludes
  | _ => true
  end.

(** No element of a Sequence is a Sequence. *)
Definition flat_ok (f : Format) : bool :=
  match f with
  | FSequence elements _ => forallb (fun e => negb (is_sequence e)) elements
  | _ => true
  end.

End FormatSpec.

Module AnalysisSpec.
Import Analyzer FormatSpec.

(** The tree with the fields of the analyzer reset to what the constructors
    give them. *)
Fixpoint clear_annotations (f : Format) : Format :=
  match f with
  | FAnyText excluded_strs _ => FAnyText excluded_strs []
  | FSequence elements _ => FSequence (map clear_annotations elements) false
  | FOr elements _ => FOr (map clear_annotations elements) false
  | FTag (MkTag begin_ content end_) =>
      FTag (MkTag begin_ (clear_annotations content) end_)
  | FTriggeredTags triggers tags excludes _ at_least_one stop_after_first =>
      FTriggeredTags triggers
        (map (fun tag => MkTag (tag_begin tag)
                           (clear_annotations (tag_content tag)) (tag_end tag))
           tags)
        excludes [] at_least_one stop_after_first
  | FTagsWithSeparator tags separator _ at_least_one stop_after_first =>
      FTagsWithSeparator
        (map (fun tag => MkTag (tag_begin tag)
                           (clear_annotations (tag_content tag)) (tag_end tag))
           tags)
        separator [] at_least_one stop_after_first
  | _ => f
  end.

Definition clear_tag (tag : TagFormat) : TagFormat :=
  MkTag (tag_begin tag) (clear_annotations (tag_content tag)) (tag_end tag).

(** The error that stands, in [Analyzer.visit_sequence], for the visit of a
    Sequence without elements, where the source indexes its vector out of
    bounds. *)
Definition empty_sequence_error : ISTError :=
  "Sequence format must have at least one element".

(** A set of detected end strings can stop a dispatch: it is empty (the
    dispatch then stops at the end of the text) or holds a non-empty
    string. *)
Definition can_stop (detected_end_strs_ : list string) : bool :=
  bool_decide (detected_end_strs_ = []) || has_non_empty detected_end_strs_.

(** The condition on the nodes that carry detected end strings: AnyText,
    TriggeredTags and TagsWithSeparator. *)
Definition stop_strings_ok (f : Format) : bool :=
  match f with
  | FAnyText _ detected_end_strs_
  | FTriggeredTags _ _ _ detected_end_strs_ _ _
  | FTagsWithSeparator _ _ detected_end_strs_ _ _ => can_stop detected_end_strs_
  | _ => true
  end.

(** A Tag has no end string exactly when its content is unlimited. *)
Definition tag_end_ok (f : Format) : bool :=
  match f with
  | FTag (MkTag _ content end_) =>
      Bool.eqb (bool_decide (end_ = [])) (IsUnlimited content)
  | _ => true
  end.

End AnalysisSpec.

Module FingerprintSpec.

(** The variants whose fingerprint is a tag and one text, whole. *)
Definition is_text_leaf (f : Format) : bool :=
  match f with
  | FConstString _ | FJSONSchema _ | FQwenXmlParameter _ | FGrammar _ => true
  | _ => false
  end.

(** [s] starts with the three characters [a], [b], [c]. *)
Definition starts_with (a b c : ascii) (s : string) : Prop :=
  exists rest, s = String a (String b (String c rest)).

End FingerprintSpec.

Module PrefixSpec.

(** [prefix] is a prefix of [full_str]. *)
Definition is_prefix_of (prefix full_str : string) : Prop :=
  exists rest, full_str = prefix +:+ rest.

End PrefixSpec.

(** ** The exclusion automaton as a labelled trie *)

Module ExclusionSpec.

(** An edge for exactly one byte. *)
Definition single_byte (e : FSM.FSMEdge) : Prop :=
  FSM.max e = FSM.min e /\ (0 <= FSM.min e < 256)%Z.

(** [labels] gives every state of the trie [m] the bytes spelled on the
    way from the start state: the start state has the empty label, the
    edges of a state are for single bytes, no two for the same byte, and
    an edge for [b] leads from the state labelled [l] to the state labelled
    [l ++ [b]]. *)
Definition trie_inv (m : FSM.t) (labels : list (list Z)) : Prop :=
  length labels = length m /\
  labels !! 0 = Some [] /\
  forall (s : nat) edges, m !! s = Some edges ->
    NoDup (FSM.min <$> edges) /\
    forall e, e ∈ edges ->
      single_byte e /\ (0 <= FSM.target e)%Z /\
      exists l, labels !! s = Some l /\
                labels !! Z.to_nat (FSM.target e) = Some (l ++ [FSM.min e]).

(** The edges of [m] lead from [s] to [t] along the bytes [bs]. *)
Inductive path (m : FSM.t) : Z -> list Z -> Z -> Prop :=
| path_nil s : path m s [] s
| path_cons s e bs t :
    e ∈ FSM.GetEdges m s -> path m (FSM.target e) bs t ->
    path m s (FSM.min e :: bs) t.

(** [m'] has the states and the edges of [m], and maybe more after them. *)
Definition grows (m m' : FSM.t) : Prop :=
  forall (s : nat) edges, m !! s = Some edges ->
    exists added, m' !! s = Some (edges ++ added).

(** The dead states are the ends of the excluded strings [done]: every
    dead state is labelled by one of them and every one of them spells a
    path from the start state to a dead state. *)
Definition dead_inv (m : FSM.t) (labels : list (list Z)) (dead : gset Z)
    (done : list string) : Prop :=
  (forall d, d ∈ dead ->
     (0 <= d)%Z /\
     exists x, x ∈ done /\ labels !! Z.to_nat d = Some (Run.bytes_of x)) /\
  (forall x, x ∈ done -> exists d, d ∈ dead /\ path m 0 (Run.bytes_of x) d).

(** What step 2 leaves at state [s] of the trie [m]: a dead state keeps its
    edges; any other state has its edges, then edges for single bytes that
    go to the start state or are edges of the start state in the trie, and
    then has exactly one edge for every byte. *)
Definition back_edges_ok (m : FSM.t) (dead : gset Z) (s : nat)
    (edges' : list FSM.FSMEdge) : Prop :=
  exists trie_edges, m !! s = Some trie_edges /\
    if decide (Z.of_nat s ∈ dead) then edges' = trie_edges
    else exists extra,
        edges' = trie_edges ++ extra /\
        NoDup (FSM.min <$> edges') /\
        (forall b, (0 <= b < 256)%Z -> exists e, e ∈ edges' /\ FSM.min e = b) /\
        forall e, e ∈ extra ->
          single_byte e /\ (FSM.target e = 0%Z \/ e ∈ FSM.GetEdges m 0).

(** The automaton that [Exclusion.exclude_filter] returns, in terms of the
    trie of step 1. *)
Definition filter_of (m : FSM.t) (dead : gset Z) (a : FSMWithStartEnd)
    : Prop :=
  start a = 0%Z /\
  length (fsm a) = length m /\
  (forall s : nat, s < length m ->
     exists edges', back_edges_ok m dead s edges' /\
       fsm a !! s = Some (filter (fun e => FSM.target e ∉ dead) edges')) /\
  (forall s : nat, s < length m ->
     ends a !! s = Some (bool_decide (Z.of_nat s ∉ dead))).

(** The bytes [e] occur in the bytes [w]. *)
Definition occurs (e w : list Z) : Prop :=
  exists before after, w = before ++ e ++ after.

End ExclusionSpec.

Module OccursSpec.

(** The decision of "[p] is a prefix of [s]" and of [occurs_in]. *)
Fixpoint prefixb (p s : string) : bool :=
  match p, s with
  | EmptyString, _ => true
  | String a p', String b s' => Ascii.eqb a b && prefixb p' s'
  | String _ _, EmptyString => false
  end.

Fixpoint occursb (e s : string) : bool :=
  prefixb e s ||
  match s with
  | EmptyString => false
  | String _ s' => occursb e s'
  end.

End OccursSpec.

Module GrammarSpec.
Import Converter ConverterSpec.

(** Every fingerprint that has a rule in [c] has one in [c']. *)
Definition cache_keys_kept (c c' : Converter.t) : Prop :=
  forall fingerprint,
    is_Some (fingerprint_to_rule_id_ c !! fingerprint) ->
    is_Some (fingerprint_to_rule_id_ c' !! fingerprint).

(** The grammar of [c'] is the grammar of [c] with expressions and rules
    added after it: nothing that [c] holds is changed or removed. *)
Definition grammar_extends (c c' : Converter.t) : Prop :=
  exprs_grow c c' /\
  (exists added, rules_extended c c' added) /\
  cache_keys_kept c c'.

(** A method that only ever adds to the grammar. *)
Definition append_only {A} (m : Conv A) : Prop :=
  forall c a c', m c = ROk (a, c') -> grammar_extends c c'.

(** The contract of [SubGrammarAdder::Apply] that the converter relies on:
    the rules and the expressions of the sub-grammar are added after
    those of the builder. *)
Definition splice_appends `{Collaborators} : Prop :=
  forall b g,
    (exists added,
       GrammarBuilder.grammar_exprs (SubGrammarAdder_Apply b g).2 =
       GrammarBuilder.grammar_exprs b ++ added) /\
    (exists added,
       GrammarBuilder.rules (SubGrammarAdder_Apply b g).2 =
       GrammarBuilder.rules b ++ added).

End GrammarSpec.

Module DispatchSpec.
Import Converter ConverterSpec.

(** A TagDispatch can stop: it stops at the end of the text or has a stop
    string, and none of its stop strings is empty. *)
Definition dispatch_ok (e : GrammarExpr) : bool :=
  match e with
  | ETagDispatch td =>
      (stop_eos td || negb (bool_decide (stop_str td = []))) &&
      forallb (fun s => negb (str_empty s)) (stop_str td)
  | _ => true
  end.

Definition dispatches_ok (b : GrammarBuilder.t) : bool :=
  forallb dispatch_ok (GrammarBuilder.grammar_exprs b).

(** A method that keeps [dispatches_ok]. *)
Definition keeps_dispatches {A} (m : Conv A) : Prop :=
  forall c a c',
    dispatches_ok (grammar_builder_ c) = true ->
    m c = ROk (a, c') ->
    dispatches_ok (grammar_builder_ c') = true.

(** What is asked of [SubGrammarAdder::Apply]: the sub-grammars that are
    spliced in (JSON schema, EBNF, regex) bring no TagDispatch that cannot
    stop. *)
Definition splice_keeps_dispatches `{Collaborators} : Prop :=
  forall b g,
    dispatches_ok b = true ->
    dispatches_ok (SubGrammarAdder_Apply b g).2 = true.

End DispatchSpec.

Module FailureSpec.
Import FormatSpec Converter ConverterSpec.

(** The errors that the converter makes itself. *)
Definition conversion_error (e : ISTError) : Prop :=
  e = multiple_triggers_error \/
  e = no_trigger_error \/
  (exists what, e = "Failed to build FSM from regex pattern: " +:+ what) \/
  (exists what,
     e = "Failed to compute intersection for regex with excludes: " +:+ what) \/
  e = "Regex with excludes results in empty language (nothing matches)".

(** A method whose errors are those of [conversion_error]. *)
Definition fails_as_listed {A} (m : Conv A) : Prop :=
  forall c e, m c = RErr e -> conversion_error e.

(** The nodes at which the converter can fail: a TriggeredTags, when a tag
    has not exactly one trigger that is a prefix of its [begin], and a
    Regex with excluded strings, when the automaton of the pattern or the
    product with the exclusion automaton cannot be built or is empty. *)
Definition node_converts `{Collaborators} (f : Format) : bool :=
  match f with
  | FTriggeredTags triggers tags _ _ _ _ =>
      forallb (fun tag =>
                 length (matching_triggers (tag_begin tag) triggers) =? 1) tags
  | FRegex pattern ((_ :: _) as excluded_strs) =>
      match RegexFSMBuilder_Build pattern with
      | ROk regex_fsm =>
          match FSMWithStartEnd_Intersect regex_fsm
                  (Exclusion.exclude_filter excluded_strs) with
          | ROk result_fsm => negb (FSM.NumStates (fsm result_fsm) =? 0)%Z
          | RErr _ => false
          end
      | RErr _ => false
      end
  | _ => true
  end.

End FailureSpec.

Module ClosedSpec.
Import Converter ConverterSpec.

(** [id] is an index into a table of [n] entries. *)
Definition in_range (n : nat) (id : Z) : bool :=
  (0 <=? id)%Z && (id <? Z.of_nat n)%Z.

(** Every id that [e] holds refers to one of [num_exprs] expressions or
    one of [num_rules] rules. *)
Definition expr_closed (num_exprs num_rules : nat) (e : GrammarExpr) : bool :=
  match e with
  | ERuleRef rule_id => in_range num_rules rule_id
  | ESequence elements => forallb (in_range num_exprs) elements
  | EChoices choices => forallb (in_range num_exprs) choices
  | ETagDispatch td =>
      forallb (fun pair => in_range num_rules pair.2) (tag_rule_pairs td)
  | _ => true
  end.

(** The body of [r] is one of [num_exprs] expressions: it is not the [-1]
    of an empty rule. *)
Definition rule_closed (num_exprs : nat) (r : Rule) : bool :=
  in_range num_exprs (body_expr_id r).

(** A grammar in which every id refers to an entry that exists. *)
Definition closed (b : GrammarBuilder.t) : bool :=
  forallb (expr_closed (length (GrammarBuilder.grammar_exprs b))
             (length (GrammarBuilder.rules b)))
    (GrammarBuilder.grammar_exprs b) &&
  forallb (rule_closed (length (GrammarBuilder.grammar_exprs b)))
    (GrammarBuilder.rules b).

(** The numbers of expressions and of rules of a state. *)
Definition ne (c : Converter.t) : Z := Z.of_nat (length (exprs_of c)).
Definition nr (c : Converter.t) : Z := Z.of_nat (length (rules_of c)).

(** The invariant of the converter: the grammar is closed but for the
    bodies of the rules in [pending] (the empty rules whose body is still to
    be set), and the rule ids of the cache exist. *)
Definition wf (pending : Z -> Prop) (c : Converter.t) : Prop :=
  Forall (fun e => expr_closed (length (exprs_of c)) (length (rules_of c)) e = true)
    (exprs_of c) /\
  (forall (i : nat) r,
     rules_of c !! i = Some r ->
     rule_closed (length (exprs_of c)) r = true \/ pending (Z.of_nat i)) /\
  (forall fingerprint rule_id,
     fingerprint_to_rule_id_ c !! fingerprint = Some rule_id ->
     (0 <= rule_id < nr c)%Z).

Definition none_pending : Z -> Prop := fun _ => False.

(** The value is an expression, a rule. *)
Definition is_expr (id : Z) (c : Converter.t) : Prop := (0 <= id < ne c)%Z.
Definition is_rule (id : Z) (c : Converter.t) : Prop := (0 <= id < nr c)%Z.

(** The tag ids of the groups of step 1 of TriggeredTags are below [n]. *)
Definition groups_in_range (trigger_to_tag_ids : list (list Z)) (n : Z) : Prop :=
  Forall (Forall (fun tag_id => (0 <= tag_id < n)%Z)) trigger_to_tag_ids.

(** A visit that keeps the grammar closed and returns a rule of it. *)
Definition closed_visit (m : Conv Z) : Prop :=
  forall c id c',
    wf none_pending c -> m c = ROk (id, c') ->
    wf none_pending c' /\ (ne c <= ne c')%Z /\ (nr c <= nr c')%Z /\
    (0 <= id < nr c')%Z.

(** What is asked of [SubGrammarAdder::Apply]: spliced into a closed
    grammar, a sub-grammar gives a closed grammar with no entry less, and
    the id returned is a rule of it. *)
Definition splice_closed `{Collaborators} : Prop :=
  forall b g,
    closed b = true ->
    let r := SubGrammarAdder_Apply b g in
    closed r.2 = true /\
    length (GrammarBuilder.grammar_exprs b) <=
      length (GrammarBuilder.grammar_exprs r.2) /\
    length (GrammarBuilder.rules b) <= length (GrammarBuilder.rules r.2) /\
    in_range (length (GrammarBuilder.rules r.2)) r.1 = true.

(** The start state and the targets of the edges of an automaton are
    states of it. *)
Definition states_in_range (a : FSMWithStartEnd) : bool :=
  in_range (length (fsm a)) (start a) &&
  forallb (forallb (fun edge => in_range (length (fsm a)) (FSM.target edge)))
    (fsm a).

(** What is asked of [FSMWithStartEnd::Intersect]. *)
Definition intersect_in_range `{Collaborators} : Prop :=
  forall a b r,
    FSMWithStartEnd_Intersect a b = ROk r -> states_in_range r = true.

(** Collaborators with a splice that adds one rule for the text of the
    sub-grammar, and no regex automata. *)
Definition one_rule_splice : Collaborators := {|
  Grammar := string;
  Grammar_FromJSONSchema := fun s => s;
  Grammar_FromEBNF := fun s => s;
  Grammar_FromRegex := fun s => s;
  QwenXMLToolCallingToEBNF := fun s => s;
  SubGrammarAdder_Apply := fun b g =>
    let '(e, b1) := GrammarBuilder.AddExpr (EByteString g) b in
    let '(s, b2) := GrammarBuilder.AddExpr (ESequence [e]) b1 in
    let '(ch, b3) := GrammarBuilder.AddExpr (EChoices [s]) b2 in
    GrammarBuilder.AddRuleWithHint "sub_grammar" ch b3;
  RegexFSMBuilder_Build := fun _ => RErr "no regex automaton builder";
  FSMWithStartEnd_Intersect := fun _ _ => RErr "no automaton intersection"
|}.

End ClosedSpec.

(** * Properties *)

(** ** Parser: formats without a type member *)

Module ParserFacts.
Import Parser ParserSpec.

Lemma first_success_ok {A} (attempts : list (Result A)) otherwise a :
  first_success attempts otherwise = ROk a <->
  exists i, attempts !! i = Some (ROk a) /\
            forall j, j < i -> exists e, attempts !! j = Some (RErr e).
Proof.
  induction attempts as [|r rest IH]; simpl.
  - split; [discriminate|]. intros [i [Hi _]]. destruct i; discriminate.
  - destruct r as [a'|e'].
    + split.
      * intros [= ->]. exists 0. split; [reflexivity|]. intros j Hj. lia.
      * intros [i [Hi Hlt]]. destruct i as [|i]; [simpl in Hi; congruence|].
        destruct (Hlt 0) as [e He]; [lia|]. discriminate.
    + rewrite IH. split.
      * intros [i [Hi Hlt]]. exists (S i). split; [exact Hi|].
        intros [|j] Hj; [eexists; reflexivity|]. apply Hlt. lia.
      * intros [i [Hi Hlt]]. destruct i as [|i]; [discriminate|].
        exists i. split; [exact Hi|]. intros j Hj. apply (Hlt (S j)). lia.
Qed.

Lemma first_success_none {A} (attempts : list (Result A)) otherwise :
  Forall (fun r => IsErr r = true) attempts ->
  first_success attempts otherwise = RErr otherwise.
Proof.
  induction 1 as [|r rest Hr _ IH]; [reflexivity|].
  destruct r; [discriminate|]. exact IH.
Qed.

Section WithSerializer.

Variable serialize : json -> string.
Variable PF : json -> Result Format.

Lemma ParseFormat_untyped_first_success value obj :
  ParseFormat_untyped serialize PF value obj =
  first_success (attempts serialize PF obj) ("Invalid format: " +:+ serialize value).
Proof.
  unfold ParseFormat_untyped, attempts. simpl.
  destruct (ParseTagFormat PF obj); simpl; [reflexivity|].
  destruct (ParseConstStringFormat obj); [reflexivity|].
  destruct (ParseJSONSchemaFormat serialize obj); [reflexivity|].
  destruct (ParseAnyTextFormat obj); [reflexivity|].
  destruct (ParseSequenceFormat PF obj); [reflexivity|].
  destruct (ParseOrFormat PF obj); [reflexivity|].
  destruct (ParseTriggeredTagsFormat PF obj); [reflexivity|].
  destruct (ParseTagsWithSeparatorFormat PF obj); reflexivity.
Qed.

(** What each variant parser can return. *)
Ltac parser_cases :=
  repeat match goal with
         | |- context [match ?x with _ => _ end] => destruct x; simpl
         | |- context [if ?x then _ else _] => destruct x; simpl
         end;
  try discriminate.

Lemma ParseConstStringFormat_shape obj f :
  ParseConstStringFormat obj = ROk f -> exists v, f = FConstString v.
Proof.
  unfold ParseConstStringFormat. parser_cases. intros [= <-]. eauto.
Qed.

Lemma ParseJSONSchemaFormat_shape obj f :
  ParseJSONSchemaFormat serialize obj = ROk f -> exists v, f = FJSONSchema v.
Proof.
  unfold ParseJSONSchemaFormat. parser_cases; intros [= <-]; eauto.
Qed.

Lemma ParseAnyTextFormat_shape obj f :
  ParseAnyTextFormat obj = ROk f -> is_any_text f = true.
Proof.
  unfold ParseAnyTextFormat.
  destruct (find "excludes" obj) as [[]|]; try discriminate.
  - destruct (collect_strings _ _ _); simpl; [|discriminate].
    intros [= <-]. reflexivity.
  - destruct (find "type" obj); [|discriminate]. intros [= <-]. reflexivity.
Qed.

Lemma ParseSequenceFormat_shape obj f :
  ParseSequenceFormat PF obj = ROk f -> exists es u, f = FSequence es u.
Proof.
  unfold ParseSequenceFormat.
  destruct (find "elements" obj) as [[]|]; try discriminate.
  destruct (parse_sequence_elements PF items) as [[|e es]|]; simpl;
    try discriminate.
  intros [= <-]. eauto.
Qed.

Lemma ParseOrFormat_shape obj f :
  ParseOrFormat PF obj = ROk f -> exists es u, f = FOr es u.
Proof.
  unfold ParseOrFormat.
  destruct (find "elements" obj) as [[]|]; try discriminate.
  destruct (parse_or_elements PF items) as [[|e es]|]; simpl;
    try discriminate.
  intros [= <-]. eauto.
Qed.

Lemma ParseTriggeredTagsFormat_shape obj f :
  ParseTriggeredTagsFormat PF obj = ROk f ->
  exists tr tg ex d a s, f = FTriggeredTags tr tg ex d a s.
Proof.
  unfold ParseTriggeredTagsFormat, mbind, Result_bind. intros Hf.
  repeat (case_match; try discriminate).
  all: injection Hf as <-; repeat eexists.
Qed.

Lemma ParseTagsWithSeparatorFormat_shape obj f :
  ParseTagsWithSeparatorFormat PF obj = ROk f ->
  exists tg sep d a s, f = FTagsWithSeparator tg sep d a s.
Proof.
  unfold ParseTagsWithSeparatorFormat, mbind, Result_bind. intros Hf.
  repeat (case_match; try discriminate).
  all: injection Hf as <-; repeat eexists.
Qed.

Lemma attempts_inferable obj i f :
  attempts serialize PF obj !! i = Some (ROk f) -> inferable f = true.
Proof.
  unfold attempts. intros Hi.
  destruct i as [|[|[|[|[|[|[|[|i]]]]]]]]; simpl in Hi; try discriminate;
    injection Hi as Hi.
  - destruct (ParseTagFormat PF obj); simpl in Hi; [|discriminate].
    injection Hi as <-. reflexivity.
  - apply ParseConstStringFormat_shape in Hi as [? ->]. reflexivity.
  - apply ParseJSONSchemaFormat_shape in Hi as [? ->]. reflexivity.
  - apply ParseAnyTextFormat_shape in Hi. destruct f; try discriminate; reflexivity.
  - apply ParseSequenceFormat_shape in Hi as (? & ? & ->). reflexivity.
  - apply ParseOrFormat_shape in Hi as (? & ? & ->). reflexivity.
  - apply ParseTriggeredTagsFormat_shape in Hi as (? & ? & ? & ? & ? & ? & ->).
    reflexivity.
  - apply ParseTagsWithSeparatorFormat_shape in Hi as (? & ? & ? & ? & ? & ->).
    reflexivity.
Qed.

Lemma attempts_any_text obj i f :
  attempts serialize PF obj !! i = Some (ROk f) -> is_any_text f = true ->
  ParseAnyTextFormat obj = ROk f.
Proof.
  unfold attempts. intros Hi Hf.
  destruct i as [|[|[|[|[|[|[|[|i]]]]]]]]; simpl in Hi; try discriminate;
    injection Hi as Hi.
  - destruct (ParseTagFormat PF obj); simpl in Hi; [|discriminate].
    injection Hi as <-. discriminate.
  - apply ParseConstStringFormat_shape in Hi as [? ->]. discriminate.
  - apply ParseJSONSchemaFormat_shape in Hi as [? ->]. discriminate.
  - exact Hi.
  - apply ParseSequenceFormat_shape in Hi as (? & ? & ->). discriminate.
  - apply ParseOrFormat_shape in Hi as (? & ? & ->). discriminate.
  - apply ParseTriggeredTagsFormat_shape in Hi as (? & ? & ? & ? & ? & ? & ->).
    discriminate.
  - apply ParseTagsWithSeparatorFormat_shape in Hi as (? & ? & ? & ? & ? & ->).
    discriminate.
Qed.

End WithSerializer.

(** The parser returns well-formed trees only; in particular it never
    returns the empty Sequence on which the analyzer would index out of
    bounds. *)
Section WellFormed.

Variable serialize : json -> string.
Variable PF : json -> Result Format.
Hypothesis PF_wf : forall v f, PF v = ROk f -> well_formed f = true.

Lemma parse_sequence_elements_wf items es :
  parse_sequence_elements PF items = ROk es ->
  forallb well_formed es = true.
Proof.
  revert es. induction items as [|item rest IH]; intros es; simpl.
  - intros [= <-]. reflexivity.
  - destruct (PF item) as [f|] eqn:Hf; simpl; [|discriminate].
    destruct (parse_sequence_elements PF rest) as [rest'|]; simpl;
      [|discriminate].
    specialize (IH _ eq_refl). apply PF_wf in Hf.
    destruct f; intros [= <-]; simpl in *; rewrite ?Hf, ?IH; try reflexivity.
    apply andb_prop in Hf as [_ Hf].
    rewrite forallb_app, Hf, IH. reflexivity.
Qed.

Lemma parse_or_elements_wf items es :
  parse_or_elements PF items = ROk es -> forallb well_formed es = true.
Proof.
  revert es. induction items as [|item rest IH]; intros es; simpl.
  - intros [= <-]. reflexivity.
  - destruct (PF item) as [f|] eqn:Hf; simpl; [|discriminate].
    destruct (parse_or_elements PF rest) as [rest'|]; simpl; [|discriminate].
    intros [= <-]. simpl. rewrite (PF_wf _ _ Hf), (IH _ eq_refl). reflexivity.
Qed.

Lemma ParseTagFormat_wf obj tag :
  ParseTagFormat PF obj = ROk tag ->
  well_formed (tag_content tag) && negb (bool_decide (tag_end tag = [])) = true.
Proof.
  unfold ParseTagFormat.
  destruct (find "begin" obj) as [[]|]; try discriminate.
  destruct (find "content" obj) as [cj|]; [|discriminate].
  destruct (PF cj) as [c|] eqn:Hc; simpl; [|discriminate].
  apply PF_wf in Hc.
  destruct (find "end" obj) as [[| | | |[|e es]|]|]; try discriminate.
  - intros [= <-]. simpl. rewrite Hc. reflexivity.
  - destruct (collect_strings _ _ _) as [[|e' es']|] eqn:Hcs; simpl;
      try discriminate.
    + destruct e; simpl in Hcs; try discriminate.
      destruct (collect_strings _ _ es); discriminate.
    + intros [= <-]. simpl. rewrite Hc. reflexivity.
Qed.

Lemma parse_tags_wf items tags :
  parse_tags PF items = ROk tags ->
  forallb (fun tag => well_formed (tag_content tag) &&
                      negb (bool_decide (tag_end tag = []))) tags = true.
Proof.
  revert tags. induction items as [|item rest IH]; intros tags; simpl.
  - intros [= <-]. reflexivity.
  - destruct (ParseTagFormat_value PF item) as [tag|] eqn:Ht; simpl;
      [|discriminate].
    destruct (parse_tags PF rest) as [rest'|]; simpl; [|discriminate].
    intros [= <-]. simpl. rewrite (IH _ eq_refl), andb_true_r.
    unfold ParseTagFormat_value in Ht.
    destruct item; try discriminate.
    destruct (find "type" members) as [[]|]; try discriminate.
    + destruct (String.eqb s "tag"); [|discriminate].
      eapply ParseTagFormat_wf. exact Ht.
    + eapply ParseTagFormat_wf. exact Ht.
Qed.

Lemma attempts_wf obj (i : nat) f :
  attempts serialize PF obj !! i = Some (ROk f) -> well_formed f = true.
Proof.
  unfold attempts. intros Hi.
  destruct i as [|[|[|[|[|[|[|[|i]]]]]]]]; simpl in Hi; try discriminate;
    injection Hi as Hi.
  - destruct (ParseTagFormat PF obj) as [[b c e]|] eqn:Ht; simpl in Hi;
      [|discriminate].
    injection Hi as <-. apply ParseTagFormat_wf in Ht. exact Ht.
  - apply ParseConstStringFormat_shape in Hi as [? ->]. reflexivity.
  - apply (ParseJSONSchemaFormat_shape serialize) in Hi as [? ->]. reflexivity.
  - apply ParseAnyTextFormat_shape in Hi. destruct f; try discriminate; reflexivity.
  - unfold ParseSequenceFormat in Hi.
    destruct (find "elements" obj) as [[]|]; try discriminate.
    destruct (parse_sequence_elements PF items) as [[|e es]|] eqn:Hes;
      simpl in Hi; try discriminate.
    injection Hi as <-. apply parse_sequence_elements_wf in Hes. exact Hes.
  - unfold ParseOrFormat in Hi.
    destruct (find "elements" obj) as [[]|]; try discriminate.
    destruct (parse_or_elements PF items) as [[|e es]|] eqn:Hes;
      simpl in Hi; try discriminate.
    injection Hi as <-. apply parse_or_elements_wf in Hes. exact Hes.
  - unfold ParseTriggeredTagsFormat, mbind, Result_bind in Hi.
    destruct (find "triggers" obj) as [[]|]; try discriminate.
    destruct (collect_strings _ _ _) as [[|t ts]|]; try discriminate.
    destruct (find "tags" obj) as [[]|]; try discriminate.
    destruct (parse_tags PF _) as [[|g gs]|] eqn:Hts; try discriminate.
    apply parse_tags_wf in Hts.
    repeat (case_match; try discriminate); injection Hi as <-; exact Hts.
  - unfold ParseTagsWithSeparatorFormat, mbind, Result_bind in Hi.
    destruct (find "tags" obj) as [[]|]; try discriminate.
    destruct (parse_tags PF _) as [[|g gs]|] eqn:Hts; try discriminate.
    apply parse_tags_wf in Hts.
    repeat (case_match; try discriminate); injection Hi as <-; exact Hts.
Qed.

End WellFormed.

Lemma ParseFormat_well_formed serialize fuel value f :
  ParseFormat serialize fuel value = ROk f -> well_formed f = true.
Proof.
  revert value f. induction fuel as [|fuel IH]; intros value f; [discriminate|].
  simpl. destruct value; try discriminate.
  destruct (find "type" members) as [[]|] eqn:Htype; try discriminate.
  - rename s into type. unfold ParseFormat_typed.
    pose proof (attempts_wf serialize _ IH members) as Hatt.
    unfold attempts in Hatt.
    repeat match goal with
           | |- (if ?b then _ else _) = _ -> _ => destruct b
           end; intros Hf.
    + exact (Hatt 1 f (f_equal Some Hf)).
    + exact (Hatt 2 f (f_equal Some Hf)).
    + exact (Hatt 3 f (f_equal Some Hf)).
    + exact (Hatt 4 f (f_equal Some Hf)).
    + exact (Hatt 5 f (f_equal Some Hf)).
    + exact (Hatt 0 f (f_equal Some Hf)).
    + exact (Hatt 6 f (f_equal Some Hf)).
    + exact (Hatt 7 f (f_equal Some Hf)).
    + unfold ParseQwenXmlParameterFormat in Hf.
      destruct (find "json_schema" members) as [[]|]; try discriminate;
        injection Hf as <-; reflexivity.
    + unfold ParseGrammarFormat in Hf.
      destruct (find "grammar" members) as [[]|]; try discriminate.
      destruct (str_empty s); [discriminate|]. injection Hf as <-. reflexivity.
    + unfold ParseRegexFormat, mbind, Result_bind in Hf.
      repeat (case_match; try discriminate); injection Hf as <-; reflexivity.
    + discriminate.
  - rewrite ParseFormat_untyped_first_success. intros Hf.
    apply first_success_ok in Hf as [i [Hi _]].
    eapply attempts_wf; [exact IH|exact Hi].
Qed.

(** C7.  On a format object without a type member, [ParseFormat] tries the
    variant parsers in the order Tag, ConstString, JSONSchema, AnyText,
    Sequence, Or, TriggeredTags, TagsWithSeparator: it returns [f] exactly
    when some attempt returns [f] and every earlier attempt failed, it
    fails when all of them fail, and what it returns is never a
    QwenXmlParameter, Grammar or Regex format. *)
Theorem untyped_format_order (serialize : json -> string) (fuel : nat)
    (obj : list (string * json)) :
  find "type" obj = None ->
  let tries := attempts serialize (ParseFormat serialize fuel) obj in
  let result := ParseFormat serialize (S fuel) (JObject obj) in
  (forall f, result = ROk f <->
     exists i : nat, tries !! i = Some (ROk f) /\
       forall j : nat, j < i -> exists e, tries !! j = Some (RErr e)) /\
  (Forall (fun r => IsErr r = true) tries -> exists e, result = RErr e) /\
  (forall f, result = ROk f -> inferable f = true).
Proof.
  intros Htype tries result.
  assert (Hres : result = first_success tries
                   ("Invalid format: " +:+ serialize (JObject obj))).
  { subst result tries. simpl. rewrite Htype.
    apply ParseFormat_untyped_first_success. }
  assert (Hfirst : forall f, result = ROk f <->
     exists i : nat, tries !! i = Some (ROk f) /\
       forall j : nat, j < i -> exists e, tries !! j = Some (RErr e)).
  { intros f. rewrite Hres. apply first_success_ok. }
  split; [exact Hfirst|]. split.
  - intros Hall. rewrite Hres. eexists. apply first_success_none. exact Hall.
  - intros f Hf. apply Hfirst in Hf as [i [Hi _]].
    eapply attempts_inferable. exact Hi.
Qed.

Lemma untyped_format_order_witness :
  let obj := [("value", JString "hi"); ("elements", JArray [])] in
  let tries := attempts (fun _ => EmptyString) (ParseFormat (fun _ => EmptyString) 1) obj in
  let result := ParseFormat (fun _ => EmptyString) 2 (JObject obj) in
  find "type" obj = None /\
  ((forall f, result = ROk f <->
     exists i : nat, tries !! i = Some (ROk f) /\
       forall j : nat, j < i -> exists e, tries !! j = Some (RErr e)) /\
   (Forall (fun r => IsErr r = true) tries -> exists e, result = RErr e) /\
   (forall f, result = ROk f -> inferable f = true)).
Proof.
  split; [reflexivity|].
  apply (untyped_format_order (fun _ => EmptyString) 1
           [("value", JString "hi"); ("elements", JArray [])]).
  reflexivity.
Defined.

Lemma lacks_leading_fields obj :
  lacks leading_fields obj = true ->
  find "begin" obj = None /\ find "value" obj = None /\
  find "json_schema" obj = None /\ find "excludes" obj = None /\
  find "elements" obj = None /\ find "triggers" obj = None /\
  find "tags" obj = None.
Proof.
  unfold lacks, leading_fields. cbn [forallb]. intros H.
  repeat (apply andb_prop in H as [?H H]).
  repeat match goal with
         | Hf : match find ?k obj with None => true | Some _ => false end = true
           |- _ => destruct (find k obj); [discriminate Hf|clear Hf]
         end.
  repeat split; reflexivity.
Qed.

(** An object without a type and without any of the leading members fails
    in every attempt. *)
Lemma attempts_all_fail (serialize : json -> string) (PF : json -> Result Format)
    (obj : list (string * json)) :
  find "type" obj = None -> lacks leading_fields obj = true ->
  Forall (fun r => IsErr r = true) (attempts serialize PF obj).
Proof.
  intros Htype Hlacks.
  apply lacks_leading_fields in Hlacks
    as (Hbegin & Hvalue & Hschema & Hexcludes & Helements & Htriggers & Htags).
  unfold attempts, ParseTagFormat, ParseConstStringFormat,
    ParseJSONSchemaFormat, ParseAnyTextFormat, ParseSequenceFormat,
    ParseOrFormat, ParseTriggeredTagsFormat, ParseTagsWithSeparatorFormat.
  rewrite Hbegin, Hvalue, Hschema, Hexcludes, Htype, Helements, Htriggers,
    Htags.
  repeat constructor.
Qed.

(** C9.  Without a type member and without an excludes member the AnyText
    parser fails; a format object without a type is parsed as AnyText only
    if it has an excludes member; an object without a type that has none
    of the members [begin], [value], [json_schema], [excludes], [elements],
    [triggers] and [tags] (so every object with none of the members that
    the parsers know, the empty object among them) is no format: parsing
    it fails, with the error "Invalid format: ..." when the depth limit is
    not reached; and an object of type "any_text" without excludes is the
    AnyText format with no excluded string. *)
Theorem any_text_needs_type_or_excludes (serialize : json -> string) :
  (forall obj, find "type" obj = None -> find "excludes" obj = None ->
     exists e, ParseAnyTextFormat obj = RErr e) /\
  (forall fuel obj f,
     find "type" obj = None ->
     ParseFormat serialize fuel (JObject obj) = ROk f ->
     is_any_text f = true -> find "excludes" obj <> None) /\
  (forall fuel obj,
     find "type" obj = None -> lacks leading_fields obj = true ->
     (exists e, ParseFormat serialize fuel (JObject obj) = RErr e) /\
     ParseFormat serialize (S fuel) (JObject obj) =
       RErr ("Invalid format: " +:+ serialize (JObject obj))) /\
  (forall fuel obj,
     find "type" obj = Some (JString "any_text") ->
     find "excludes" obj = None ->
     ParseFormat serialize (S fuel) (JObject obj) = ROk (FAnyText [] [])).
Proof.
  assert (Hfail : forall obj, find "type" obj = None ->
            find "excludes" obj = None ->
            exists e, ParseAnyTextFormat obj = RErr e).
  { intros obj Htype Hex. unfold ParseAnyTextFormat. rewrite Hex, Htype.
    eexists. reflexivity. }
  split; [exact Hfail|]. split; [|split].
  - intros fuel obj f Htype Hparse Hany Hex.
    destruct fuel as [|fuel]; [discriminate|].
    simpl in Hparse. rewrite Htype in Hparse.
    rewrite ParseFormat_untyped_first_success in Hparse.
    apply first_success_ok in Hparse as [i [Hi _]].
    apply attempts_any_text in Hi; [|exact Hany].
    destruct (Hfail obj Htype Hex) as [e He]. congruence.
  - intros fuel obj Htype Hlacks.
    assert (Hinvalid : forall n,
              ParseFormat serialize (S n) (JObject obj) =
              RErr ("Invalid format: " +:+ serialize (JObject obj))).
    { intros n. simpl. rewrite Htype.
      rewrite ParseFormat_untyped_first_success.
      apply first_success_none, attempts_all_fail; assumption. }
    split; [|apply Hinvalid].
    destruct fuel as [|n]; eexists; [reflexivity|apply Hinvalid].
  - intros fuel obj Htype Hex. simpl. rewrite Htype.
    unfold ParseFormat_typed. simpl.
    unfold ParseAnyTextFormat. rewrite Hex, Htype. reflexivity.
Qed.

Lemma any_text_needs_type_or_excludes_witness :
  (exists e, ParseAnyTextFormat [("value", JNull)] = RErr e) /\
  find "excludes" [("excludes", JArray [JString "x"])] <> None /\
  ((exists e, ParseFormat (fun _ => EmptyString) 3 (JObject []) = RErr e) /\
   ParseFormat (fun _ => EmptyString) 4 (JObject []) =
     RErr ("Invalid format: " +:+ EmptyString)) /\
  ((exists e,
      ParseFormat (fun _ => EmptyString) 3
        (JObject [("content", JObject []); ("pattern", JString "a")]) = RErr e) /\
   ParseFormat (fun _ => EmptyString) 4
     (JObject [("content", JObject []); ("pattern", JString "a")]) =
     RErr ("Invalid format: " +:+ EmptyString)) /\
  ParseFormat (fun _ => EmptyString) 1 (JObject [("type", JString "any_text")]) =
    ROk (FAnyText [] []).
Proof.
  destruct (any_text_needs_type_or_excludes (fun _ => EmptyString))
    as (H1 & H2 & H3 & H4).
  split; [|split; [|split; [|split]]].
  - apply (H1 [("value", JNull)]); reflexivity.
  - apply (H2 1 [("excludes", JArray [JString "x"])] (FAnyText ["x"] []));
      reflexivity.
  - apply (H3 3 []); reflexivity.
  - apply (H3 3 [("content", JObject []); ("pattern", JString "a")]);
      reflexivity.
  - apply (H4 0 [("type", JString "any_text")]); reflexivity.
Defined.

End ParserFacts.

(** ** Analyzer: flags, placement and detected end strings *)

Module AnalyzerFacts.
Import Analyzer AnalyzerSpec.

(** What the loops of the analyzer return, given that [V] relates every
    element to its result by [R]. *)
Section Loops.
Variable V : Format -> Result Format.
Variable R : Format -> Format -> Prop.
Hypothesis V_R : forall e e', V e = ROk e' -> R e e'.

Lemma visit_sequence_spec i es es' u :
  visit_sequence V i es = ROk (es', u) ->
  Forall2 R es es' /\
  u = last_sat IsUnlimited es' /\
  forallb (fun e => negb (IsUnlimited e)) (removelast es') = true.
Proof.
  revert i es' u. induction es as [|e rest IH]; intros i es' u; [discriminate|].
  destruct rest as [|e2 rest].
  - simpl. destruct (V e) as [e'|] eqn:He; simpl; [|discriminate].
    intros [= <- <-]. repeat split. constructor; [auto|constructor].
  - change (visit_sequence V i (e :: e2 :: rest)) with
      (e' ← V e;
       if IsUnlimited e' then RErr (seq_unlimited_error i)
       else '(rest', u) ← visit_sequence V (S i) (e2 :: rest);
            ROk (e' :: rest', u)).
    cbv beta iota delta [mbind Result_bind].
    destruct (V e) as [e'|] eqn:He; [|discriminate].
    destruct (IsUnlimited e') eqn:Hu; [discriminate|].
    destruct (visit_sequence V (S i) (e2 :: rest)) as [[rest' u']|] eqn:Hrest;
      [|discriminate].
    intros [= <- <-].
    destruct (IH _ _ _ Hrest) as (HF & Hlast & Hnl).
    inversion HF as [|? e2' ? rest2' ? ? Heq]; subst.
    repeat split.
    + constructor; auto.
    + change (removelast (e' :: e2' :: rest2'))
        with (e' :: removelast (e2' :: rest2')).
      simpl forallb. rewrite Hu. exact Hnl.
Qed.

Lemma visit_or_spec any all es es' any' all' :
  visit_or V any all es = ROk (es', any', all') ->
  Forall2 R es es' /\
  any' = any || existsb IsUnlimited es' /\
  all' = all && forallb IsUnlimited es'.
Proof.
  revert any all es' any' all'.
  induction es as [|e rest IH]; intros any all es' any' all'; simpl.
  - intros [= <- <- <-]. repeat split; [constructor|..].
    + rewrite orb_false_r. reflexivity.
    + rewrite andb_true_r. reflexivity.
  - destruct (V e) as [e'|] eqn:He; simpl; [|discriminate].
    destruct (visit_or V _ _ rest) as [[[rest' a1] a2]|] eqn:Hrest;
      simpl; [|discriminate].
    intros [= <- <- <-].
    destruct (IH _ _ _ _ _ Hrest) as (HF & -> & ->).
    repeat split.
    + constructor; auto.
    + simpl. rewrite orb_assoc. reflexivity.
    + simpl. rewrite andb_assoc. reflexivity.
Qed.

End Loops.

Lemma visit_tags_spec (V : TagFormat -> Result TagFormat)
    (R : TagFormat -> TagFormat -> Prop) tags tags' :
  (forall t t', V t = ROk t' -> R t t') ->
  visit_tags V tags = ROk tags' -> Forall2 R tags tags'.
Proof.
  intros V_R. revert tags'.
  induction tags as [|t rest IH]; intros tags'; simpl.
  - intros [= <-]. constructor.
  - destruct (V t) as [t'|] eqn:Ht; simpl; [|discriminate].
    destruct (visit_tags V rest) as [rest'|] eqn:Hrest; simpl; [|discriminate].
    intros [= <-]. constructor; auto.
Qed.

Lemma VisitSub_Tag_spec V tag tag' :
  VisitSub_Tag V tag = ROk tag' ->
  exists content',
    V (tag_content tag) = ROk content' /\
    tag' = MkTag (tag_begin tag) content'
             (if IsUnlimited content' then [] else tag_end tag) /\
    (IsUnlimited content' = true -> has_non_empty (tag_end tag) = true).
Proof.
  destruct tag as [b c e]. unfold VisitSub_Tag. simpl.
  destruct (V c) as [c'|] eqn:Hc; simpl; [|discriminate].
  destruct (IsUnlimited c') eqn:Hu.
  - destruct (has_non_empty e) eqn:He; [|discriminate].
    intros [= <-]. exists c'. rewrite Hu. auto.
  - intros [= <-]. exists c'. rewrite Hu. repeat split. discriminate.
Qed.

(** Lists related elementwise. *)
Section Forall2Facts.
Context {A B : Type} (p : A -> bool) (q : B -> bool).

Lemma Forall2_existsb l l' :
  Forall2 (fun a b => p a = q b) l l' -> existsb p l = existsb q l'.
Proof. induction 1 as [|a b l l' H _ IH]; simpl; congruence. Qed.

Lemma Forall2_forallb l l' :
  Forall2 (fun a b => p a = q b) l l' -> forallb p l = forallb q l'.
Proof. induction 1 as [|a b l l' H _ IH]; simpl; congruence. Qed.

Lemma Forall2_last_sat l l' :
  Forall2 (fun a b => p a = q b) l l' -> last_sat p l = last_sat q l'.
Proof.
  induction 1 as [|a b l l' H HF IH]; [reflexivity|].
  destruct HF; simpl in *; congruence.
Qed.

Lemma Forall2_removelast (R : A -> B -> Prop) l l' :
  Forall2 R l l' -> Forall2 R (removelast l) (removelast l').
Proof.
  induction 1 as [|a b l l' H HF IH]; [constructor|].
  destruct HF; simpl in *; constructor; auto.
Qed.

Lemma Forall2_forallb_r (R : A -> B -> Prop) l l' :
  Forall2 R l l' -> (forall a b, R a b -> q b = true) -> forallb q l' = true.
Proof.
  intros HF Hq. induction HF as [|a b l l' H _ IH]; simpl; [reflexivity|].
  rewrite (Hq _ _ H), IH. reflexivity.
Qed.

Lemma Forall2_forallb_l (R : A -> B -> Prop) l l' :
  Forall2 R l l' -> (forall a b, R a b -> p a = true) -> forallb p l = true.
Proof.
  intros HF Hp. induction HF as [|a b l l' H _ IH]; simpl; [reflexivity|].
  rewrite (Hp _ _ H), IH. reflexivity.
Qed.

End Forall2Facts.

Lemma flags_ok_elements es es' :
  Forall2 flags_ok es es' ->
  Forall2 (fun e' e => IsUnlimited e' = unlimited e) es' es /\
  forallb (placement IsUnlimited) es' = true /\
  forallb (placement unlimited) es = true.
Proof.
  intros HF. repeat split.
  - induction HF as [|e e' es es' [H _] _ IH]; constructor; auto.
  - eapply Forall2_forallb_r; [exact HF|]. intros a b (_ & H & _). exact H.
  - eapply Forall2_forallb_l; [exact HF|]. intros a b (_ & _ & H). exact H.
Qed.

Lemma tag_flags_ok_tags tags tags' :
  Forall2 tag_flags_ok tags tags' ->
  forallb (fun tag => placement IsUnlimited (tag_content tag)) tags' = true /\
  forallb (fun tag => placement unlimited (tag_content tag)) tags = true.
Proof.
  intros HF. split.
  - eapply Forall2_forallb_r; [exact HF|]. intros a b [H _]. exact H.
  - eapply Forall2_forallb_l; [exact HF|]. intros a b [_ H]. exact H.
Qed.

Lemma Visit_flags fuel :
  (forall stack_ f f', Visit fuel stack_ f = ROk f' -> flags_ok f f') /\
  (forall stack_ t t', VisitTag fuel stack_ t = ROk t' -> tag_flags_ok t t').
Proof.
  induction fuel as [|fuel [IHf IHt]]; [split; discriminate|].
  assert (Htag : forall V t t',
             (forall c c', V c = ROk c' -> flags_ok c c') ->
             VisitSub_Tag V t = ROk t' -> tag_flags_ok t t').
  { intros V t t' HV Ht.
    apply VisitSub_Tag_spec in Ht as (c' & Hc & -> & _).
    apply HV in Hc as (_ & H1 & H2). split; assumption. }
  split.
  - intros stack_ f f'. destruct f; simpl;
      try (intros [= <-]; repeat split; reflexivity).
    + (* Sequence *)
      destruct (visit_sequence _ 0 elements) as [[es' u]|] eqn:Hseq;
        simpl; [|discriminate].
      intros [= <-].
      eapply visit_sequence_spec in Hseq as (HF & -> & Hnl);
        [|intros e e' He; exact (IHf _ _ _ He)].
      destruct (flags_ok_elements _ _ HF) as (HU & Hp' & Hp).
      repeat split; simpl.
      * apply Forall2_last_sat. exact HU.
      * rewrite Hp', Hnl. reflexivity.
      * rewrite Hp. simpl.
        rewrite <- Hnl. symmetry.
        apply (Forall2_forallb (fun e => negb (IsUnlimited e))
                 (fun e => negb (unlimited e))).
        apply Forall2_removelast.
        eapply Forall2_impl; [exact HU|]. simpl. intros ? ? ->. reflexivity.
    + (* Or *)
      destruct (visit_or _ false true elements) as [[[es' any] all]|] eqn:Hor;
        simpl; [|discriminate].
      eapply visit_or_spec in Hor as (HF & -> & ->);
        [|intros e e' He; exact (IHf _ _ _ He)].
      simpl.
      destruct (existsb IsUnlimited es' && negb (forallb IsUnlimited es'))
        eqn:Hmixed; [discriminate|].
      intros [= <-].
      destruct (flags_ok_elements _ _ HF) as (HU & Hp' & Hp).
      assert (Hex : existsb IsUnlimited es' = existsb unlimited elements)
        by (apply Forall2_existsb; exact HU).
      assert (Hall : forallb IsUnlimited es' = forallb unlimited elements)
        by (apply Forall2_forallb; exact HU).
      repeat split; simpl.
      * exact Hex.
      * rewrite Hp'. simpl.
        destruct (existsb IsUnlimited es'), (forallb IsUnlimited es');
          simpl in *; congruence.
      * rewrite Hp, <- Hex, <- Hall. simpl.
        destruct (existsb IsUnlimited es'), (forallb IsUnlimited es');
          simpl in *; congruence.
    + (* Tag *)
      destruct (VisitSub_Tag _ tag) as [t'|] eqn:Ht; simpl; [|discriminate].
      intros [= <-].
      apply Htag in Ht as [H1 H2]; [|intros c c' Hc; exact (IHf _ _ _ Hc)].
      destruct tag, t'. repeat split; assumption.
    + (* TriggeredTags *)
      destruct (visit_tags _ tags) as [tags'|] eqn:Hts; simpl; [|discriminate].
      intros [= <-].
      eapply visit_tags_spec in Hts; [|intros t t' Ht; exact (IHt _ _ _ Ht)].
      destruct (tag_flags_ok_tags _ _ Hts). repeat split; assumption.
    + (* TagsWithSeparator *)
      destruct (visit_tags _ tags) as [tags'|] eqn:Hts; simpl; [|discriminate].
      intros [= <-].
      eapply visit_tags_spec in Hts; [|intros t t' Ht; exact (IHt _ _ _ Ht)].
      destruct (tag_flags_ok_tags _ _ Hts). repeat split; assumption.
  - intros stack_ t t' Ht. simpl in Ht.
    eapply Htag; [|exact Ht]. intros c c' Hc. exact (IHf _ _ _ Hc).
Qed.

(** C4.  Analysis fails on a structural tag in which some Sequence has an
    unlimited element before its last one or some Or has both unlimited and
    limited elements; and in every structural tag that analysis returns,
    every Sequence has only limited elements before its last one and every
    Or has all elements unlimited or none, for the predicate [IsUnlimited]
    of the source read on the returned tree (where it is the value
    [unlimited] derived from the input). *)
Theorem unlimited_placement (max_recursion_depth : nat) (st : StructuralTag) :
  (placement unlimited (format st) = false ->
   exists e, Analyze max_recursion_depth st = RErr e) /\
  (forall st', Analyze max_recursion_depth st = ROk st' ->
     placement IsUnlimited (format st') = true /\
     IsUnlimited (format st') = unlimited (format st)).
Proof.
  unfold Analyze.
  destruct (Visit max_recursion_depth [] (format st)) as [f'|e] eqn:Hv; simpl.
  - apply (proj1 (Visit_flags _)) in Hv as (HU & Hp' & Hp). split.
    + congruence.
    + intros st' [= <-]. simpl. auto.
  - split; [eauto|discriminate].
Qed.

Lemma unlimited_placement_witness :
  let bad := {| format := FSequence [FAnyText [] []; FConstString "z"] false |} in
  let good := {| format := FSequence [FConstString "k="; FAnyText [] []] false |} in
  (exists e, Analyze 8 bad = RErr e) /\
  placement IsUnlimited (FSequence [FConstString "k="; FAnyText [] []] true) = true /\
  IsUnlimited (FSequence [FConstString "k="; FAnyText [] []] true) =
    unlimited (format good).
Proof.
  intros bad good. split.
  - apply (proj1 (unlimited_placement 8 bad)). reflexivity.
  - apply (proj2 (unlimited_placement 8 good)
             {| format := FSequence [FConstString "k="; FAnyText [] []] true |}).
    reflexivity.
Defined.

Lemma DetectEndStrings_push stack_ f :
  DetectEndStrings (f :: stack_) =
  match f with
  | FTag tag => tag_end tag
  | _ => DetectEndStrings stack_
  end.
Proof. destruct f; reflexivity. Qed.

Lemma Visit_annotated fuel :
  (forall stack_ f f', Visit fuel stack_ f = ROk f' ->
     Annotated (DetectEndStrings stack_) f f') /\
  (forall stack_ t t', VisitTag fuel stack_ t = ROk t' -> AnnotatedTag t t').
Proof.
  induction fuel as [|fuel [IHf IHt]]; [split; discriminate|].
  assert (Htag : forall stack_ t t',
             VisitSub_Tag (Visit fuel (FTag t :: stack_)) t = ROk t' ->
             AnnotatedTag t t').
  { intros stack_ t t' Ht.
    apply VisitSub_Tag_spec in Ht as (c' & Hc & -> & Hne).
    apply IHf in Hc. rewrite DetectEndStrings_push in Hc.
    destruct t as [b c e]. simpl in *.
    destruct (IsUnlimited c') eqn:Hu.
    - apply An_tag_unlimited; auto.
    - apply An_tag_limited; auto. }
  split.
  - intros stack_ f f'. destruct f; simpl;
      try (intros [= <-]; constructor).
    + destruct (visit_sequence _ 0 elements) as [[es' u]|] eqn:Hseq;
        simpl; [|discriminate].
      intros [= <-]. constructor.
      eapply visit_sequence_spec in Hseq as (HF & _);
        [exact HF|].
      intros e e' He. apply IHf in He. exact He.
    + destruct (visit_or _ false true elements) as [[[es' any] all]|] eqn:Hor;
        simpl; [|discriminate].
      destruct (any && negb all); [discriminate|].
      intros [= <-]. constructor.
      eapply visit_or_spec in Hor as (HF & _); [exact HF|].
      intros e e' He. apply IHf in He. exact He.
    + destruct (VisitSub_Tag _ tag) as [t'|] eqn:Ht; simpl; [|discriminate].
      intros [= <-]. constructor. eapply Htag. exact Ht.
    + destruct (visit_tags _ tags) as [tags'|] eqn:Hts; simpl; [|discriminate].
      intros [= <-]. constructor.
      eapply visit_tags_spec; [|exact Hts]. intros t t' Ht. eapply IHt. exact Ht.
    + destruct (visit_tags _ tags) as [tags'|] eqn:Hts; simpl; [|discriminate].
      intros [= <-]. constructor.
      eapply visit_tags_spec; [|exact Hts]. intros t t' Ht. eapply IHt. exact Ht.
  - intros stack_ t t' Ht. simpl in Ht. eapply Htag. exact Ht.
Qed.

(** C5.  When analysis succeeds the returned tree is the input annotated
    as [Annotated] says: a Tag whose content is unlimited had a non-empty
    string in its end set and has its end cleared; every AnyText,
    TriggeredTags and TagsWithSeparator carries the whole end set that its
    nearest enclosing Tag had in the input (none at the root); a Tag whose
    content is limited keeps its end. *)
Theorem tag_end_moves_to_descendants (max_recursion_depth : nat)
    (st st' : StructuralTag) :
  Analyze max_recursion_depth st = ROk st' ->
  Annotated [] (format st) (format st').
Proof.
  unfold Analyze.
  destruct (Visit max_recursion_depth [] (format st)) as [f'|e] eqn:Hv; simpl;
    [|discriminate].
  intros [= <-]. simpl.
  exact (proj1 (Visit_annotated _) [] _ _ Hv).
Qed.

Lemma tag_end_moves_to_descendants_witness :
  Annotated []
    (FTag (MkTag "<a>"
             (FSequence [FTag (MkTag "<b>" (FConstString "x") ["</b>"; EmptyString]);
                         FAnyText ["no"] []] false)
             [EmptyString; "</a>"; "</A>"]))
    (FTag (MkTag "<a>"
             (FSequence [FTag (MkTag "<b>" (FConstString "x") ["</b>"; EmptyString]);
                         FAnyText ["no"] [EmptyString; "</a>"; "</A>"]] true)
             [])).
Proof.
  apply (tag_end_moves_to_descendants 8
           {| format :=
                FTag (MkTag "<a>"
                  (FSequence [FTag (MkTag "<b>" (FConstString "x") ["</b>"; EmptyString]);
                              FAnyText ["no"] []] false)
                  [EmptyString; "</a>"; "</A>"]) |}
           {| format :=
                FTag (MkTag "<a>"
                  (FSequence [FTag (MkTag "<b>" (FConstString "x") ["</b>"; EmptyString]);
                              FAnyText ["no"] [EmptyString; "</a>"; "</A>"]] true)
                  []) |}).
  reflexivity.
Defined.

Lemma has_non_empty_ends_ok end_ : has_non_empty end_ = true -> ends_ok end_.
Proof.
  unfold has_non_empty, ends_ok, Converter.non_empty_strs. intros H _.
  apply existsb_exists in H as (s & Hin & Hs).
  intros Hnil.
  assert (Hs' : s ∈ filter (fun s => str_empty s = false) end_).
  { apply list_elem_of_filter. split; [|apply list_elem_of_In; exact Hin].
    destruct (str_empty s); [discriminate|reflexivity]. }
  rewrite Hnil in Hs'. inversion Hs'.
Qed.

Lemma Forall2_right {A B} (P : B -> Prop) (l : list A) (l' : list B) :
  Forall2 (fun _ b => P b) l l' -> Forall P l'.
Proof. induction 1; constructor; auto. Qed.

Lemma limited_all {A} (p : A -> bool) (l : list A) :
  forallb (fun a => negb (p a)) (removelast l) = true ->
  last_sat p l = false ->
  Forall (fun a => p a = false) l.
Proof.
  induction l as [|a [|b l] IH]; simpl; intros Hnl Hlast.
  - constructor.
  - constructor; [exact Hlast|constructor].
  - apply andb_prop in Hnl as [Ha Hnl]. constructor.
    + destruct (p a); [discriminate|reflexivity].
    + apply IH; assumption.
Qed.

Lemma any_texts_ok_flat_map {A} (g : A -> list (list string * list string))
    (l : list A) :
  Forall (fun a => Forall (fun any_text => ends_ok (snd any_text)) (g a)) l ->
  Forall (fun any_text => ends_ok (snd any_text)) (flat_map g l).
Proof.
  induction 1 as [|a l Ha _ IH]; simpl; [constructor|].
  apply Forall_app. split; assumption.
Qed.

Lemma Visit_any_texts fuel :
  (forall stack_ f f', Visit fuel stack_ f = ROk f' ->
     ends_inv (DetectEndStrings stack_) f') /\
  (forall stack_ t t', VisitTag fuel stack_ t = ROk t' ->
     any_texts_ok (tag_content t')).
Proof.
  induction fuel as [|fuel [IHf IHt]]; [split; discriminate|].
  assert (Htag : forall stack_ t t',
             VisitSub_Tag (Visit fuel (FTag t :: stack_)) t = ROk t' ->
             any_texts_ok (tag_content t')).
  { intros stack_ t t' Ht.
    apply VisitSub_Tag_spec in Ht as (c' & Hc & -> & Hne).
    apply IHf in Hc as [Hgood Hlim]. rewrite DetectEndStrings_push in Hgood.
    simpl. destruct (IsUnlimited c') eqn:Hu.
    - apply Hgood. apply has_non_empty_ends_ok. auto.
    - apply Hlim. reflexivity. }
  assert (Htags : forall stack_ tags tags',
             visit_tags (VisitTag fuel stack_) tags = ROk tags' ->
             Forall (fun any_text => ends_ok (snd any_text))
               (flat_map (fun tag => any_texts (tag_content tag)) tags')).
  { intros stack_ tags tags' Hts.
    apply any_texts_ok_flat_map.
    apply (Forall2_right (fun t' => any_texts_ok (tag_content t')) tags).
    eapply visit_tags_spec; [|exact Hts].
    intros t t' Ht. eapply IHt. exact Ht. }
  split.
  - intros stack_ f f'. unfold ends_inv, any_texts_ok. destruct f; simpl;
      try solve [intros [= <-]; split; intros _; constructor].
    + (* AnyText *)
      intros [= <-]. split; [|discriminate].
      intros Hok. constructor; [exact Hok|constructor].
    + (* Sequence *)
      destruct (visit_sequence _ 0 elements) as [[es' u]|] eqn:Hseq;
        simpl; [|discriminate].
      intros [= <-].
      eapply (visit_sequence_spec _ (fun _ e' => ends_inv _ e'))
        in Hseq as (HF & -> & Hnl);
        [|intros e e' He; apply IHf in He; exact He].
      apply Forall2_right in HF.
      split; intros Hyp; apply any_texts_ok_flat_map.
      * eapply Forall_impl; [exact HF|]. intros e' [H1 _]. exact (H1 Hyp).
      * simpl in Hyp. pose proof (limited_all _ _ Hnl Hyp) as Hlim.
        rewrite Forall_forall in *. intros e' Hin.
        apply (HF e' Hin). apply (Hlim e' Hin).
    + (* Or *)
      destruct (visit_or _ false true elements) as [[[es' any] all]|] eqn:Hor;
        simpl; [|discriminate].
      eapply (visit_or_spec _ (fun _ e' => ends_inv _ e'))
        in Hor as (HF & -> & ->);
        [|intros e e' He; apply IHf in He; exact He].
      simpl.
      destruct (existsb IsUnlimited es' && negb (forallb IsUnlimited es'));
        [discriminate|].
      intros [= <-].
      apply Forall2_right in HF.
      split; intros Hyp; apply any_texts_ok_flat_map.
      * eapply Forall_impl; [exact HF|]. intros e' [H1 _]. exact (H1 Hyp).
      * simpl in Hyp. rewrite Forall_forall in *. intros e' Hin.
        apply (HF e' Hin).
        destruct (IsUnlimited e') eqn:Hu; [|reflexivity].
        rewrite <- Hyp. symmetry. apply existsb_exists.
        exists e'. split; [apply list_elem_of_In; exact Hin|exact Hu].
    + (* Tag *)
      destruct (VisitSub_Tag _ tag) as [t'|] eqn:Ht; simpl; [|discriminate].
      intros [= <-]. apply Htag in Ht.
      destruct t'. split; intros _; exact Ht.
    + (* TriggeredTags *)
      destruct (visit_tags _ tags) as [tags'|] eqn:Hts; simpl; [|discriminate].
      intros [= <-]. apply Htags in Hts. split; intros _; exact Hts.
    + (* TagsWithSeparator *)
      destruct (visit_tags _ tags) as [tags'|] eqn:Hts; simpl; [|discriminate].
      intros [= <-]. apply Htags in Hts. split; intros _; exact Hts.
  - intros stack_ t t' Ht. simpl in Ht. eapply Htag. exact Ht.
Qed.

(** C10.  After a successful analysis every AnyText whose detected end
    strings are not empty has a non-empty string among them; its filtered
    list in [VisitSub(const AnyTextFormat&)] is therefore not empty (the
    check there holds) and the TagDispatch that the converter emits for it
    has these non-empty strings as its stop strings. *)
Theorem any_text_stop_strings (max_recursion_depth : nat)
    (st st' : StructuralTag) (excluded detected : list string) :
  Analyze max_recursion_depth st = ROk st' ->
  In (excluded, detected) (any_texts (format st')) ->
  detected <> [] ->
  Converter.non_empty_strs detected <> [] /\
  forall c : Converter.t,
    exists rule_id c',
      Converter.VisitSub_AnyText excluded detected c = ROk (rule_id, c') /\
      GrammarBuilder.grammar_exprs (Converter.grammar_builder_ c') =
        GrammarBuilder.grammar_exprs (Converter.grammar_builder_ c) ++
        [ETagDispatch
           {| tag_rule_pairs := []; stop_eos := false;
              stop_str := Converter.non_empty_strs detected;
              loop_after_dispatch := false; excluded_str := excluded |}].
Proof.
  unfold Analyze.
  destruct (Visit max_recursion_depth [] (format st)) as [f'|e] eqn:Hv; simpl;
    [|discriminate].
  intros [= <-] Hin Hne. simpl in Hin. split.
  - apply (proj1 (Visit_any_texts _)) in Hv as [Hgood _].
    assert (Hroot : ends_ok []) by (intros H; contradiction).
    specialize (Hgood Hroot). unfold any_texts_ok in Hgood.
    rewrite Forall_forall in Hgood.
    apply list_elem_of_In in Hin. apply (Hgood _ Hin). exact Hne.
  - intros c. destruct detected as [|d ds]; [contradiction|].
    eexists _, _. split; reflexivity.
Qed.

Lemma any_text_stop_strings_witness :
  Converter.non_empty_strs [EmptyString; "</a>"] <> [] /\
  forall c : Converter.t,
    exists rule_id c',
      Converter.VisitSub_AnyText ["no"] [EmptyString; "</a>"] c = ROk (rule_id, c') /\
      GrammarBuilder.grammar_exprs (Converter.grammar_builder_ c') =
        GrammarBuilder.grammar_exprs (Converter.grammar_builder_ c) ++
        [ETagDispatch
           {| tag_rule_pairs := []; stop_eos := false;
              stop_str := Converter.non_empty_strs [EmptyString; "</a>"];
              loop_after_dispatch := false; excluded_str := ["no"] |}].
Proof.
  apply (any_text_stop_strings 8
           {| format := FTag (MkTag "<a>" (FAnyText ["no"] []) [EmptyString; "</a>"]) |}
           {| format := FTag (MkTag "<a>" (FAnyText ["no"] [EmptyString; "</a>"]) []) |}).
  - reflexivity.
  - simpl. left. reflexivity.
  - discriminate.
Defined.

End AnalyzerFacts.

(** ** Converter: the fingerprint cache *)

Module ConverterFacts.
Import Converter ConverterSpec.

Lemma bind_run {A B} (m : Conv A) (k : A -> Conv B) (c : Converter.t) :
  (m ≫= k) c =
  match m c with
  | ROk (a, c') => k a c'
  | RErr e => RErr e
  end.
Proof. reflexivity. Qed.

Lemma ret_run {A} (a : A) (c : Converter.t) :
  (mret a : Conv A) c = ROk (a, c).
Proof. reflexivity. Qed.

Section Cache.
Context `{Collaborators}.

Lemma Visit_unfold (f : Format) :
  Visit f = cached (Fingerprinter.Compute f) (VisitSub f).
Proof. destruct f; reflexivity. Qed.

Lemma cached_hit fingerprint visit_sub (c : Converter.t) rule_id :
  fingerprint_to_rule_id_ c !! fingerprint = Some rule_id ->
  cached fingerprint visit_sub c = ROk (rule_id, c).
Proof. intros Hc. unfold cached. rewrite Hc. reflexivity. Qed.

Lemma cached_records fingerprint visit_sub (c c' : Converter.t) rule_id :
  cached fingerprint visit_sub c = ROk (rule_id, c') ->
  fingerprint_to_rule_id_ c' !! fingerprint = Some rule_id.
Proof.
  unfold cached.
  destruct (fingerprint_to_rule_id_ c !! fingerprint) as [r|] eqn:Hc.
  - intros [= <- <-]. exact Hc.
  - destruct (visit_sub c) as [[r c1]|]; [|discriminate].
    intros [= <- <-]. simpl. apply lookup_insert_eq.
Qed.

(** A format whose fingerprint is in the cache is resolved from the cache:
    the state does not change. *)
Lemma Visit_hit (g : Format) (c : Converter.t) rule_id :
  fingerprint_to_rule_id_ c !! Fingerprinter.Compute g = Some rule_id ->
  Visit g c = ROk (rule_id, c).
Proof. intros Hc. rewrite Visit_unfold. apply cached_hit. exact Hc. Qed.

Lemma AddRuleRef_run rule_id (c : Converter.t) :
  AddRuleRef rule_id c =
  ROk (Z.of_nat (length (GrammarBuilder.grammar_exprs (grammar_builder_ c))),
       {| grammar_builder_ :=
            {| GrammarBuilder.grammar_exprs :=
                 GrammarBuilder.grammar_exprs (grammar_builder_ c) ++
                 [ERuleRef rule_id];
               GrammarBuilder.rules := GrammarBuilder.rules (grammar_builder_ c) |};
          fingerprint_to_rule_id_ := fingerprint_to_rule_id_ c |}).
Proof. reflexivity. Qed.

(** Visiting copies of a format whose fingerprint is in the cache adds
    rule references and nothing else. *)
Lemma for_each_cached_copies (f : Format) rule_id n (c : Converter.t) :
  fingerprint_to_rule_id_ c !! Fingerprinter.Compute f = Some rule_id ->
  exists refs c',
    for_each (fun element => sub_rule_id ← Visit element; AddRuleRef sub_rule_id)
      (replicate n f) c = ROk (refs, c') /\
    GrammarBuilder.rules (grammar_builder_ c') =
      GrammarBuilder.rules (grammar_builder_ c) /\
    fingerprint_to_rule_id_ c' = fingerprint_to_rule_id_ c.
Proof.
  revert c. induction n as [|n IH]; intros c Hc; simpl.
  - eexists _, _. split; [reflexivity|]. split; reflexivity.
  - rewrite !bind_run, (Visit_hit f c rule_id Hc), AddRuleRef_run, bind_run.
    match goal with
    | |- context [for_each ?b (replicate n f) ?c1] =>
        destruct (IH c1) as (refs & c' & Hrun & Hrules & Hcache);
          [exact Hc|]
    end.
    rewrite Hrun, ret_run. eexists _, _. split; [reflexivity|].
    split; assumption.
Qed.

End Cache.

(** C3 (as stated, contradicted).  The contents of the two tags below are
    the same format in the input, [any_text] without excluded strings.
    Analysis gives them the end strings of their tags, which are part of
    the fingerprint, and the conversion resolves them to two rules: rule 0
    for the first, rule 2 for the second. *)
Lemma equal_subtrees_two_rules :
  let any_text := FAnyText [] [] in
  let input :=
    {| format := FSequence [FTag (MkTag "<a>" any_text ["</a>"]);
                            FTag (MkTag "<b>" any_text ["</b>"])] false |} in
  let first := FTag (MkTag "<a>" (FAnyText [] ["</a>"]) []) in
  let second_content := FAnyText [] ["</b>"] in
  Analyzer.Analyze 8 input =
    ROk {| format := FSequence [first; FTag (MkTag "<b>" second_content [])]
                       false |} /\
  result_of (Visit (FAnyText [] ["</a>"])) init = ROk 0%Z /\
  result_of (_ ← Visit first; Visit second_content) init = ROk 2%Z /\
  (fun r => map name (GrammarBuilder.rules (snd r))) <$>
    Convert {| format := FSequence [first; FTag (MkTag "<b>" second_content [])]
                           false |} =
    ROk ["any_text"; "tag"; "any_text"; "tag"; "sequence"; "root"].
Proof. vm_compute. repeat split; reflexivity. Qed.

(** C3 (amended).  A successful visit of a format leaves its rule id in the
    cache under its fingerprint; from any state whose cache maps that
    fingerprint to this rule id (the state after the visit in particular),
    a visit of a format with the same fingerprint (an equal format in
    particular) returns the same rule id and changes nothing; so a Sequence
    of [n + 1] copies of a format has the rules of one copy and the rule of
    the Sequence, whatever [n] is. *)
Theorem dedup_after_visit `{Collaborators} (f : Format)
    (c c1 : Converter.t) (rule_id : Z) :
  Visit f c = ROk (rule_id, c1) ->
  fingerprint_to_rule_id_ c1 !! Fingerprinter.Compute f = Some rule_id /\
  (forall g c2,
     Fingerprinter.Compute g = Fingerprinter.Compute f ->
     fingerprint_to_rule_id_ c2 !! Fingerprinter.Compute f = Some rule_id ->
     Visit g c2 = ROk (rule_id, c2)) /\
  (forall n, exists seq_id c2 body,
      VisitSub_Sequence Visit (replicate (S n) f) c = ROk (seq_id, c2) /\
      rules_extended c1 c2 [{| name := "sequence"; body_expr_id := body |}]).
Proof.
  intros Hvisit.
  assert (Hcache : fingerprint_to_rule_id_ c1 !! Fingerprinter.Compute f =
                   Some rule_id).
  { rewrite Visit_unfold in Hvisit. eapply cached_records. exact Hvisit. }
  split; [exact Hcache|]. split.
  - intros g c2 Hg Hc2. apply Visit_hit. rewrite Hg. exact Hc2.
  - intros n. unfold VisitSub_Sequence, rules_extended.
    change (replicate (S n) f) with (f :: replicate n f).
    simpl for_each.
    rewrite !bind_run, Hvisit, AddRuleRef_run, bind_run.
    match goal with
    | |- context [for_each ?b (replicate n f) ?c1'] =>
        destruct (for_each_cached_copies f rule_id n c1')
          as (refs & c' & Hrun & Hrules & _); [exact Hcache|]
    end.
    rewrite Hrun, ret_run.
    eexists _, _, _. split; [reflexivity|].
    simpl. rewrite Hrules. reflexivity.
Qed.

Lemma dedup_after_visit_witness :
  let f := FConstString "x" in
  let c1 :=
    {| grammar_builder_ :=
         {| GrammarBuilder.grammar_exprs :=
              [EByteString "x"; ESequence [0%Z]; EChoices [1%Z]];
            GrammarBuilder.rules :=
              [{| name := "const_string"; body_expr_id := 2 |}] |};
       fingerprint_to_rule_id_ := {["CS:x" := 0%Z]} |} in
  fingerprint_to_rule_id_ c1 !! Fingerprinter.Compute f = Some 0%Z /\
  (forall g c2,
     Fingerprinter.Compute g = Fingerprinter.Compute f ->
     fingerprint_to_rule_id_ c2 !! Fingerprinter.Compute f = Some 0%Z ->
     Visit g c2 = ROk (0%Z, c2)) /\
  (forall n, exists seq_id c2 body,
      VisitSub_Sequence Visit (replicate (S n) f) init = ROk (seq_id, c2) /\
      rules_extended c1 c2 [{| name := "sequence"; body_expr_id := body |}]).
Proof.
  intros f c1. apply (dedup_after_visit f init c1 0%Z). reflexivity.
Defined.

(** Why the amended statement speaks of a cache that still holds the rule
    id: the fingerprint of a TriggeredTags format leaves its tags out, so a
    format can have the fingerprint of a format nested in it, and its own
    rule id then replaces the nested one in the cache.  Below, the inner
    format is resolved to rule 2 inside the outer one and, after the outer
    one is done, an equal copy of it is resolved to rule 4, the rule of the
    outer format. *)
Lemma cache_entry_overwritten :
  let inner := FTriggeredTags ["<"] [MkTag "<b" (FConstString "x") ["y"]]
                 [] ["e"] false false in
  let outer := FTriggeredTags ["<"] [MkTag "<a" inner []] [] ["z"] false false in
  Analyzer.Analyze 8
    {| format :=
         FSequence
           [FTag (MkTag "c"
                    (FTriggeredTags ["<"]
                       [MkTag "<a"
                          (FTriggeredTags ["<"]
                             [MkTag "<b" (FConstString "x") ["y"]]
                             [] [] false false)
                          ["e"]]
                       [] [] false false)
                    ["z"]);
            FTag (MkTag "d"
                    (FTriggeredTags ["<"]
                       [MkTag "<b" (FConstString "x") ["y"]]
                       [] [] false false)
                    ["e"])] false |} =
    ROk {| format := FSequence [FTag (MkTag "c" outer []);
                                FTag (MkTag "d" inner [])] false |} /\
  Fingerprinter.Compute inner = Fingerprinter.Compute outer /\
  result_of (Visit inner) init = ROk 2%Z /\
  result_of (_ ← Visit (FTag (MkTag "c" outer [])); Visit inner) init = ROk 4%Z.
Proof. vm_compute. repeat split; reflexivity. Qed.

(** C2 (defect of the code).  Two TagsWithSeparator formats with different
    tags have the same fingerprint, although the grammar of the second alone
    mentions its tag; converting an Or of the two, the second is resolved
    from the cache to the rule of the first, and the grammar never mentions
    the tag of the second. *)
Theorem fingerprint_collision :
  let f := FTagsWithSeparator [MkTag "<a>" (FConstString "a") ["</a>"]]
             "," [] false false in
  let g := FTagsWithSeparator [MkTag "<b>" (FConstString "b") ["</b>"]]
             "," [] false false in
  Analyzer.Analyze 8 {| format := FOr [f; g] false |} =
    ROk {| format := FOr [f; g] true |} /\
  Fingerprinter.Compute f = Fingerprinter.Compute g /\
  f <> g /\
  result_of (Visit f) init = ROk 4%Z /\
  result_of (_ ← Visit f; Visit g) init = ROk 4%Z /\
  (fun r => has_byte_string "<b>" (snd r)) <$> Convert {| format := g |} =
    ROk true /\
  (fun r => (has_byte_string "<a>" (snd r), has_byte_string "<b>" (snd r))) <$>
    Convert {| format := FOr [f; g] true |} = ROk (true, false).
Proof.
  intros f g. split; [reflexivity|]. split; [reflexivity|].
  split; [discriminate|]. vm_compute. repeat split; reflexivity.
Qed.

(** C1 (defect of the code).  With the excluded string "aab", the exclusion
    automaton accepts "aaab", in which "aab" occurs: after "aa" the third
    "a" falls back to the state of "a", and "b" then leads to the start
    state.  So the automaton does not accept exactly the strings without
    an excluded substring. *)
Theorem exclusion_accepts_excluded_substring :
  Run.accepts (Exclusion.exclude_filter ["aab"]) "aaab" = true /\
  occurs_in "aab" "aaab" /\
  ~ (forall excluded s,
       Forall (fun e => e <> EmptyString) excluded ->
       Run.accepts (Exclusion.exclude_filter excluded) s = true <->
       Forall (fun e => ~ occurs_in e s) excluded).
Proof.
  assert (Hacc : Run.accepts (Exclusion.exclude_filter ["aab"]) "aaab" = true)
    by (vm_compute; reflexivity).
  assert (Hocc : occurs_in "aab" "aaab")
    by (exists "a", EmptyString; reflexivity).
  split; [exact Hacc|]. split; [exact Hocc|].
  intros Hclaim.
  assert (Hne : Forall (fun e => e <> EmptyString) ["aab"])
    by (constructor; [discriminate|constructor]).
  apply (Hclaim ["aab"] "aaab" Hne) in Hacc.
  inversion Hacc as [|? ? Hno _]; subst. exact (Hno Hocc).
Qed.

(** *** Methods that cannot fail *)

Lemma total_ret {A} (a : A) : total (mret a : Conv A).
Proof. intros c. eexists _, _. reflexivity. Qed.

Lemma total_bind {A B} (m : Conv A) (k : A -> Conv B) :
  total m -> (forall a, total (k a)) -> total (m ≫= k).
Proof.
  intros Hm Hk c. rewrite bind_run.
  destruct (Hm c) as (a & c' & ->). apply Hk.
Qed.

Lemma total_on_builder op : total (on_builder op).
Proof.
  intros c. unfold on_builder. destruct (op _). eexists _, _. reflexivity.
Qed.

Lemma total_UpdateRuleBody rule_id body : total (UpdateRuleBody rule_id body).
Proof. intros c. eexists _, _. reflexivity. Qed.

Lemma total_for_each {A B} (body : A -> Conv B) (items : list A) :
  (forall item, total (body item)) -> total (for_each body items).
Proof.
  intros Hbody. induction items as [|item rest IH]; simpl.
  - apply total_ret.
  - apply total_bind; [apply Hbody|]. intros r.
    apply total_bind; [exact IH|]. intros rs. apply total_ret.
Qed.

Ltac total_step :=
  match goal with
  | |- total (mret _) => apply total_ret
  | |- total (_ ≫= _) => apply total_bind; [|intros ?]
  | |- total (for_each _ _) => apply total_for_each; intros ?
  | |- total (on_builder _) => apply total_on_builder
  | |- total (UpdateRuleBody _ _) => apply total_UpdateRuleBody
  | |- total (if ?b then _ else _) => destruct b
  | |- total (match ?l with [] => _ | _ :: _ => _ end) => destruct l
  | |- total (let '(_, _) := ?p in _) => destruct p
  | |- total (AddByteString _) => apply total_on_builder
  | |- total AddEmptyStr => apply total_on_builder
  | |- total (AddRuleRef _) => apply total_on_builder
  | |- total (AddSequence _) => apply total_on_builder
  | |- total (AddChoices _) => apply total_on_builder
  | |- total (AddTagDispatch _) => apply total_on_builder
  | |- total (AddRuleWithHint _ _) => apply total_on_builder
  | |- total (AddEmptyRuleWithHint _) => apply total_on_builder
  end.

Lemma total_end_str_expr end_str : total (end_str_expr end_str).
Proof. unfold end_str_expr. repeat total_step. Qed.

Lemma total_end_choices_rule_ref hint ends_ :
  total (end_choices_rule_ref hint ends_).
Proof.
  unfold end_choices_rule_ref. repeat total_step. apply total_end_str_expr.
Qed.

Lemma total_tag_sequence begin_str content_rule_id end_ :
  total (tag_sequence begin_str content_rule_id end_).
Proof.
  unfold tag_sequence.
  repeat first [apply total_end_str_expr | apply total_end_choices_rule_ref
               | total_step].
Qed.

Lemma total_all_tags_choices tags ids : total (all_tags_choices tags ids).
Proof.
  unfold all_tags_choices. apply total_for_each. intros [it_tag tag].
  apply total_tag_sequence.
Qed.

Lemma total_triggered_tags_one_tag tags detected ids :
  total (triggered_tags_one_tag tags detected ids).
Proof.
  unfold triggered_tags_one_tag.
  repeat first [apply total_all_tags_choices | apply total_end_str_expr
               | apply total_end_choices_rule_ref | total_step].
Qed.

Lemma total_trigger_groups triggers tags ttt ids :
  total (trigger_groups triggers tags ttt ids).
Proof.
  unfold trigger_groups. apply total_for_each. intros [it_trigger trigger].
  repeat first [apply total_tag_sequence | total_step].
Qed.

Lemma total_triggered_tags_dispatch triggers tags excludes detected a s ttt ids :
  total (triggered_tags_dispatch triggers tags excludes detected a s ttt ids).
Proof.
  unfold triggered_tags_dispatch.
  repeat first [apply total_trigger_groups | apply total_all_tags_choices
               | total_step].
Qed.

(** *** TriggeredTags: the trigger of a tag *)

Lemma matching_triggers_cons begin_ trigger rest :
  matching_triggers begin_ (trigger :: rest) =
  if IsPrefix trigger begin_
  then trigger :: matching_triggers begin_ rest
  else matching_triggers begin_ rest.
Proof.
  unfold matching_triggers. rewrite filter_cons.
  destruct (IsPrefix trigger begin_); case_decide; congruence.
Qed.

Lemma match_triggers_spec begin_ triggers it_trigger matched :
  (0 <= it_trigger)%Z ->
  match_triggers begin_ triggers it_trigger matched =
  match matching_triggers begin_ triggers with
  | [] => ROk matched
  | [_] =>
      if (matched =? -1)%Z
      then ROk (it_trigger + Z.of_nat (first_match begin_ triggers))%Z
      else RErr multiple_triggers_error
  | _ :: _ :: _ => RErr multiple_triggers_error
  end.
Proof.
  revert it_trigger matched.
  induction triggers as [|trigger rest IH]; intros i m Hi; [reflexivity|].
  simpl. rewrite matching_triggers_cons.
  destruct (IsPrefix trigger begin_) eqn:Hp.
  - destruct (m =? -1)%Z eqn:Hm.
    + rewrite IH by lia.
      assert (Hi' : (i =? -1)%Z = false) by (apply Z.eqb_neq; lia).
      rewrite Hi'.
      destruct (matching_triggers begin_ rest) as [|t1 [|t2 ts]];
        [|reflexivity..].
      f_equal. lia.
    + destruct (matching_triggers begin_ rest) as [|t1 ts]; reflexivity.
  - rewrite IH by lia.
    destruct (matching_triggers begin_ rest) as [|t1 [|t2 ts]];
      [reflexivity| |reflexivity].
    destruct (m =? -1)%Z; [|reflexivity]. f_equal. lia.
Qed.

Lemma matched_trigger_spec begin_ triggers :
  matched_trigger begin_ triggers =
  match matching_triggers begin_ triggers with
  | [] => RErr no_trigger_error
  | [_] => ROk (Z.of_nat (first_match begin_ triggers))
  | _ :: _ :: _ => RErr multiple_triggers_error
  end.
Proof.
  unfold matched_trigger. rewrite match_triggers_spec by lia.
  destruct (matching_triggers begin_ triggers) as [|t1 [|t2 ts]];
    [reflexivity| |reflexivity].
  rewrite Z.eqb_refl, Z.add_0_l. simpl.
  assert (H : (Z.of_nat (first_match begin_ triggers) =? -1)%Z = false)
    by (apply Z.eqb_neq; lia).
  rewrite H. reflexivity.
Qed.

Lemma first_match_lookup begin_ triggers trigger rest :
  matching_triggers begin_ triggers = trigger :: rest ->
  triggers !! first_match begin_ triggers = Some trigger /\
  IsPrefix trigger begin_ = true.
Proof.
  induction triggers as [|t ts IH]; [discriminate|].
  rewrite matching_triggers_cons. simpl.
  destruct (IsPrefix t begin_) eqn:Hp.
  - intros [= <- _]. split; [reflexivity|exact Hp].
  - exact IH.
Qed.

Lemma one_trigger_dec triggers tags :
  Forall (one_trigger triggers) tags \/
  Exists (fun tag => ~ one_trigger triggers tag) tags.
Proof.
  induction tags as [|tag rest [IH|IH]].
  - left. constructor.
  - destruct (decide (length (matching_triggers (tag_begin tag) triggers) = 1)).
    + left. constructor; assumption.
    + right. apply Exists_cons_hd. assumption.
  - right. apply Exists_cons_tl. exact IH.
Qed.

Section TriggeredTags.
Variable V : Format -> Conv Z.
Variable triggers : list string.

Lemma visit_triggered_tags_bad tags :
  Exists (fun tag => ~ one_trigger triggers tag) tags ->
  forall it_tag ttt ids c,
    exists e, visit_triggered_tags V triggers tags it_tag ttt ids c = RErr e.
Proof.
  induction tags as [|tag rest IH]; intros Hex it_tag ttt ids c.
  - inversion Hex.
  - simpl. rewrite (bind_run (lift _)). unfold lift.
    rewrite matched_trigger_spec.
    destruct (matching_triggers (tag_begin tag) triggers) as [|t1 [|t2 ts]] eqn:Hm;
      [eexists; reflexivity| |eexists; reflexivity].
    rewrite bind_run.
    destruct (V (tag_content tag) c) as [[rule_id c']|e]; [|eexists; reflexivity].
    apply IH. inversion Hex as [? ? Hbad|]; subst; [|assumption].
    exfalso. apply Hbad. unfold one_trigger. rewrite Hm. reflexivity.
Qed.

Lemma visit_triggered_tags_good tags :
  Forall (one_trigger triggers) tags ->
  forall it_tag ttt ids c,
    match for_each (fun tag => V (tag_content tag)) tags c with
    | ROk (rule_ids, c') =>
        exists ttt',
          visit_triggered_tags V triggers tags it_tag ttt ids c =
          ROk ((ttt', ids ++ rule_ids), c')
    | RErr e => visit_triggered_tags V triggers tags it_tag ttt ids c = RErr e
    end.
Proof.
  induction 1 as [|tag rest Hone _ IH]; intros it_tag ttt ids c.
  - simpl. rewrite ret_run. exists ttt. rewrite app_nil_r. reflexivity.
  - simpl. rewrite (bind_run (lift _)). unfold lift.
    rewrite matched_trigger_spec. unfold one_trigger in Hone.
    destruct (matching_triggers (tag_begin tag) triggers) as [|t1 [|t2 ts]];
      try discriminate.
    rewrite !bind_run.
    destruct (V (tag_content tag) c) as [[rule_id c']|e]; [|reflexivity].
    rewrite bind_run.
    specialize (IH (it_tag + 1)%Z
                  (push_back_at (Z.of_nat (first_match (tag_begin tag) triggers))
                     it_tag ttt)
                  (ids ++ [rule_id]) c').
    destruct (for_each _ rest c') as [[rule_ids c'']|e]; [|exact IH].
    destruct IH as [ttt' IH]. rewrite ret_run. exists ttt'.
    rewrite IH, <- app_assoc. reflexivity.
Qed.

End TriggeredTags.

(** C6 (as stated, contradicted).  Every tag of the outer format below has
    exactly one matching trigger, and its conversion fails all the same:
    the content of its tag is a TriggeredTags format whose tag matches no
    trigger, and the error of a content is the error of the format. *)
Lemma triggered_tags_content_failure :
  let inner := FTriggeredTags ["x"] [MkTag "y" (FConstString "z") ["w"]]
                 [] [] false false in
  let inner' := FTriggeredTags ["x"] [MkTag "y" (FConstString "z") ["w"]]
                  [] ["e"] false false in
  let tags := [MkTag "<a" inner' []] in
  Analyzer.Analyze 8
    {| format := FTriggeredTags ["<"] [MkTag "<a" inner ["e"]] [] [] false false |} =
    ROk {| format := FTriggeredTags ["<"] tags [] [] false false |} /\
  Forall (fun tag => length (matching_triggers (tag_begin tag) ["<"]) = 1) tags /\
  VisitSub_TriggeredTags Visit ["<"] tags [] [] false false init =
    RErr no_trigger_error.
Proof.
  intros inner inner' tags. split; [reflexivity|]. split.
  - constructor; [reflexivity|constructor].
  - vm_compute. reflexivity.
Qed.

(** C6 (amended).  The conversion of a TriggeredTags format fails when some
    tag has no trigger or more than one trigger among the triggers of the
    format that are prefixes of its [begin]; when every tag has exactly one,
    it fails exactly when the conversion of the content of some tag fails,
    with that error; and when it succeeds every tag is mapped to one
    trigger, the only trigger of the format that is a prefix of its
    [begin]. *)
Theorem triggered_tags_trigger_match `{Collaborators}
    (triggers : list string) (tags : list TagFormat)
    (excludes detected : list string) (at_least_one stop_after_first : bool)
    (c : Converter.t) :
  let convert :=
    VisitSub_TriggeredTags Visit triggers tags excludes detected
      at_least_one stop_after_first in
  (Exists (fun tag => length (matching_triggers (tag_begin tag) triggers) <> 1)
     tags ->
   exists e, convert c = RErr e) /\
  (Forall (fun tag => length (matching_triggers (tag_begin tag) triggers) = 1)
     tags ->
   forall e, convert c = RErr e <->
             for_each (fun tag => Visit (tag_content tag)) tags c = RErr e) /\
  (forall r, convert c = ROk r ->
     Forall (fun tag =>
               exists (k : nat) trigger,
                 matched_trigger (tag_begin tag) triggers = ROk (Z.of_nat k) /\
                 triggers !! k = Some trigger /\
                 IsPrefix trigger (tag_begin tag) = true /\
                 matching_triggers (tag_begin tag) triggers = [trigger])
       tags).
Proof.
  intros convert.
  assert (Hbad : Exists (fun tag => ~ one_trigger triggers tag) tags ->
                 exists e, convert c = RErr e).
  { intros Hex. unfold convert, VisitSub_TriggeredTags. rewrite bind_run.
    destruct (visit_triggered_tags_bad Visit triggers tags Hex 0%Z
                (replicate (length triggers) []) [] c) as [e ->].
    eexists. reflexivity. }
  split; [exact Hbad|]. split.
  - intros Hall e. unfold convert, VisitSub_TriggeredTags. rewrite bind_run.
    pose proof (visit_triggered_tags_good Visit triggers tags Hall 0%Z
                  (replicate (length triggers) []) [] c) as Hgood.
    destruct (for_each _ tags c) as [[rule_ids c']|e'].
    + destruct Hgood as [ttt' ->].
      assert (Htotal : forall ids,
                total (if at_least_one && stop_after_first
                       then triggered_tags_one_tag tags detected ids
                       else triggered_tags_dispatch triggers tags excludes
                              detected at_least_one stop_after_first ttt' ids)).
      { intros ids. destruct (at_least_one && stop_after_first).
        - apply total_triggered_tags_one_tag.
        - apply total_triggered_tags_dispatch. }
      destruct (Htotal ([] ++ rule_ids) c') as (a & c'' & ->).
      split; discriminate.
    + rewrite Hgood. split; intros [= ->]; reflexivity.
  - intros r Hok.
    destruct (one_trigger_dec triggers tags) as [Hall|Hex].
    + eapply Forall_impl; [exact Hall|]. intros tag Hone.
      unfold one_trigger in Hone. rewrite matched_trigger_spec.
      destruct (matching_triggers (tag_begin tag) triggers)
        as [|trigger [|t2 ts]] eqn:Hm; try discriminate.
      destruct (first_match_lookup _ _ _ _ Hm) as [Hlook Hpre].
      exists (first_match (tag_begin tag) triggers), trigger. auto.
    + destruct (Hbad Hex) as [e He]. congruence.
Qed.

Lemma triggered_tags_trigger_match_witness :
  let triggers := ["<f"; "<g"] in
  let tags := [MkTag "<foo>" (FConstString "x") ["</foo>"];
               MkTag "<goo>" (FConstString "y") ["</goo>"]] in
  (exists e, VisitSub_TriggeredTags Visit ["<"; "<f"] tags [] [] false false init
             = RErr e) /\
  (forall e,
     VisitSub_TriggeredTags Visit triggers tags [] [] false false init = RErr e <->
     for_each (fun tag => Visit (tag_content tag)) tags init = RErr e) /\
  Forall (fun tag =>
            exists (k : nat) trigger,
              matched_trigger (tag_begin tag) triggers = ROk (Z.of_nat k) /\
              triggers !! k = Some trigger /\
              IsPrefix trigger (tag_begin tag) = true /\
              matching_triggers (tag_begin tag) triggers = [trigger])
    tags.
Proof.
  intros triggers tags. split; [|split].
  - apply (triggered_tags_trigger_match ["<"; "<f"] tags [] [] false false init).
    apply Exists_cons_hd. vm_compute. discriminate.
  - apply (triggered_tags_trigger_match triggers tags [] [] false false init).
    repeat constructor.
  - destruct (VisitSub_TriggeredTags Visit triggers tags [] [] false false init)
      as [r|e] eqn:Hrun; [|vm_compute in Hrun; discriminate].
    exact (proj2 (proj2 (triggered_tags_trigger_match triggers tags [] []
                           false false init)) r Hrun).
Defined.

(** *** What the builder holds after a method has run *)

Lemma exprs_grow_refl c : exprs_grow c c.
Proof. exists []. rewrite app_nil_r. reflexivity. Qed.

Lemma exprs_grow_trans c1 c2 c3 :
  exprs_grow c1 c2 -> exprs_grow c2 c3 -> exprs_grow c1 c3.
Proof.
  intros [l1 H1] [l2 H2]. exists (l1 ++ l2). rewrite H2, H1, app_assoc.
  reflexivity.
Qed.

Lemma expr_at_grow c c' id e :
  exprs_grow c c' -> expr_at c id e -> expr_at c' id e.
Proof.
  intros [l Hl] [Hid He]. split; [exact Hid|].
  rewrite Hl. apply lookup_app_l_Some. exact He.
Qed.

Lemma bind_inv {A B} (m : Conv A) (k : A -> Conv B) c r :
  (m ≫= k) c = ROk r ->
  exists a c1, m c = ROk (a, c1) /\ k a c1 = ROk r.
Proof.
  rewrite bind_run. destruct (m c) as [[a c1]|]; [|discriminate].
  intros Hk. exists a, c1. auto.
Qed.

Lemma ret_inv {A} (a a' : A) (c c' : Converter.t) :
  (mret a : Conv A) c = ROk (a', c') -> a' = a /\ c' = c.
Proof. rewrite ret_run. intros [= <- <-]. auto. Qed.

Lemma AddExpr_inv e c id c' :
  on_builder (GrammarBuilder.AddExpr e) c = ROk (id, c') ->
  exprs_grow c c' /\ expr_at c' id e /\ rules_of c' = rules_of c.
Proof.
  unfold on_builder. simpl. intros [= <- <-].
  unfold exprs_grow, expr_at, exprs_of, rules_of. simpl.
  split; [eexists; reflexivity|]. split; [|reflexivity].
  split; [lia|]. rewrite Nat2Z.id. apply list_lookup_middle. reflexivity.
Qed.

Lemma AddRule_inv name_hint body c id c' :
  AddRuleWithHint name_hint body c = ROk (id, c') ->
  exprs_of c' = exprs_of c /\
  rules_of c' = rules_of c ++ [{| name := name_hint; body_expr_id := body |}] /\
  id = Z.of_nat (length (rules_of c)).
Proof.
  unfold AddRuleWithHint, on_builder. simpl. intros [= <- <-]. auto.
Qed.

Lemma UpdateRuleBody_inv rule_id body c u c' :
  UpdateRuleBody rule_id body c = ROk (u, c') ->
  exprs_of c' = exprs_of c /\
  rules_of c' =
    alter (fun r => {| name := name r; body_expr_id := body |})
      (Z.to_nat rule_id) (rules_of c).
Proof. unfold UpdateRuleBody. intros [= <- <-]. auto. Qed.

Lemma exprs_eq_grow c c' : exprs_of c' = exprs_of c -> exprs_grow c c'.
Proof. intros Heq. exists []. rewrite app_nil_r. exact Heq. Qed.

(** A loop that adds one expression per item. *)
Lemma for_each_AddExpr_inv {A} (g : A -> GrammarExpr) items c ids c' :
  for_each (fun item => on_builder (GrammarBuilder.AddExpr (g item))) items c =
    ROk (ids, c') ->
  exprs_grow c c' /\ rules_of c' = rules_of c /\
  Forall2 (fun item id => expr_at c' id (g item)) items ids.
Proof.
  revert c ids c'. induction items as [|item rest IH]; intros c ids c'; simpl.
  - intros Hr. apply ret_inv in Hr as [-> ->].
    split; [apply exprs_grow_refl|]. split; [reflexivity|constructor].
  - intros Hr.
    apply bind_inv in Hr as (id & c1 & Hadd & Hr).
    apply bind_inv in Hr as (ids' & c2 & Hrest & Hr).
    apply ret_inv in Hr as [-> ->].
    apply AddExpr_inv in Hadd as (Hg1 & Hat & Hr1).
    apply IH in Hrest as (Hg2 & Hr2 & HF).
    split; [eapply exprs_grow_trans; eassumption|].
    split; [congruence|].
    constructor; [|exact HF]. eapply expr_at_grow; eassumption.
Qed.

(** *** TagsWithSeparator: the two forms of the root rule *)

Section Alternatives.
Variable detected : list string.

Lemma end_sequence_grow c c' alt :
  exprs_grow c c' -> end_sequence detected c alt -> end_sequence detected c' alt.
Proof.
  intros Hg (x & s & H1 & H2 & H3). exists x, s.
  split; [eapply expr_at_grow; eassumption|].
  split; [eapply expr_at_grow; eassumption|assumption].
Qed.

Lemma end_alternative_grow c c' alt :
  exprs_grow c c' -> end_alternative detected c alt -> end_alternative detected c' alt.
Proof.
  intros Hg [H|[H|(alts & H1 & H2 & H3)]].
  - left. eapply expr_at_grow; eassumption.
  - right. left. eapply end_sequence_grow; eassumption.
  - right. right. exists alts. split; [eapply expr_at_grow; eassumption|].
    split; [assumption|]. eapply Forall_impl; [exact H3|].
    intros a. apply end_sequence_grow. exact Hg.
Qed.

Lemma tags_alternative_grow c c' tags_ref alt :
  exprs_grow c c' -> tags_alternative c tags_ref alt ->
  tags_alternative c' tags_ref alt.
Proof. intros Hg [rest H]. exists rest. eapply expr_at_grow; eassumption. Qed.

Lemma end_str_ids_grow c c' ids :
  exprs_grow c c' -> end_str_ids detected c ids -> end_str_ids detected c' ids.
Proof.
  intros Hg H. eapply Forall_impl; [exact H|].
  intros id (s & H1 & H2). exists s. split; [|assumption].
  eapply expr_at_grow; eassumption.
Qed.

(** The loops of the root rule over the end strings. *)
Lemma with_tags_loop tags_ref ids c seqs c' :
  for_each (fun end_str_expr_id => AddSequence [tags_ref; end_str_expr_id])
    ids c = ROk (seqs, c') ->
  exprs_grow c c' /\ rules_of c' = rules_of c /\
  length seqs = length ids /\ Forall (tags_alternative c' tags_ref) seqs.
Proof.
  intros Hrun.
  apply (for_each_AddExpr_inv (fun id => ESequence [tags_ref; id])) in Hrun
    as (Hg & Hr & HF).
  split; [exact Hg|]. split; [exact Hr|].
  split; [symmetry; eapply Forall2_length; exact HF|].
  clear Hg Hr. induction HF; constructor; auto.
  eexists. eassumption.
Qed.

Lemma only_end_loop ids c seqs c' :
  end_str_ids detected c ids ->
  for_each (fun end_str_expr_id => AddSequence [end_str_expr_id]) ids c =
    ROk (seqs, c') ->
  exprs_grow c c' /\ rules_of c' = rules_of c /\
  length seqs = length ids /\ Forall (end_sequence detected c') seqs.
Proof.
  intros Hids Hrun.
  apply (for_each_AddExpr_inv (fun id => ESequence [id])) in Hrun
    as (Hg & Hr & HF).
  split; [exact Hg|]. split; [exact Hr|].
  split; [symmetry; eapply Forall2_length; exact HF|].
  apply (end_str_ids_grow _ _ _ Hg) in Hids. clear Hg Hr.
  induction HF as [|id seq ids seqs Hseq _ IH]; constructor.
  - inversion Hids as [|? ? (s & Hs & Hin) _]; subst.
    exists id, s. split; [exact Hseq|]. split; [exact Hs|exact Hin].
  - apply IH. inversion Hids; assumption.
Qed.

End Alternatives.
Ltac grow :=
  first [ assumption
        | apply exprs_grow_refl
        | eapply exprs_grow_trans; [eassumption|grow] ].

Lemma tags_with_separator_single_spec detected at_least_one tags_ref
    end_ids c rule_id c' :
  end_str_ids detected c end_ids ->
  tags_with_separator_single at_least_one tags_ref end_ids c =
    ROk (rule_id, c') ->
  exists body,
    rules_of c' =
      rules_of c ++ [{| name := "tags_with_separator"; body_expr_id := body |}] /\
    rule_id = Z.of_nat (length (rules_of c)) /\
    exprs_grow c c' /\
    root_choices detected at_least_one c' tags_ref body.
Proof.
  intros Hids Hrun. unfold tags_with_separator_single in Hrun.
  apply bind_inv in Hrun as (body & c3 & Hbody & Hrule).
  apply AddRule_inv in Hrule as (Hexprs & Hrules & ->).
  exists body.
  assert (Hgoal : rules_of c3 = rules_of c /\ exprs_grow c c3 /\
                  root_choices detected at_least_one c3 tags_ref body).
  { assert (Hnonempty : forall seqs : list Z,
               end_ids <> [] -> length seqs = length end_ids -> seqs <> []).
    { intros seqs Hne Hlen ->. destruct end_ids; [congruence|discriminate]. }
    destruct at_least_one;
      (destruct (decide (end_ids = [])) as [->|Hne];
       [rewrite bool_decide_eq_true_2 in Hbody by reflexivity
       |rewrite bool_decide_eq_false_2 in Hbody by assumption]);
      simpl in Hbody.
    - (* at_least_one, no end string: tags_rule *)
      apply bind_inv in Hbody as (seq & c1 & Hseq & Hbody).
      apply AddExpr_inv in Hseq as (Hg1 & Hseq & Hr1).
      apply AddExpr_inv in Hbody as (Hg2 & Hch & Hr2).
      split; [congruence|]. split; [grow|].
      exists [seq], [seq], []. split; [exact Hch|]. split; [reflexivity|].
      split; [discriminate|]. split; [|split; [constructor|tauto]].
      constructor; [|constructor]. exists [].
      eapply expr_at_grow; eassumption.
    - (* at_least_one, end strings: tags_rule end_i *)
      apply bind_inv in Hbody as (seqs & c1 & Hseqs & Hbody).
      apply with_tags_loop in Hseqs as (Hg1 & Hr1 & Hlen & Htags).
      apply AddExpr_inv in Hbody as (Hg2 & Hch & Hr2).
      split; [congruence|]. split; [grow|].
      exists seqs, seqs, []. split; [exact Hch|].
      split; [rewrite app_nil_r; reflexivity|].
      split; [apply Hnonempty; assumption|].
      split; [|split; [constructor|tauto]].
      eapply Forall_impl; [exact Htags|]. intros a.
      apply tags_alternative_grow. exact Hg2.
    - (* no end string: tags_rule or the empty string *)
      apply bind_inv in Hbody as (seq & c1 & Hseq & Hbody).
      apply bind_inv in Hbody as (empty_expr & c2 & Hempty & Hbody).
      apply AddExpr_inv in Hseq as (Hg1 & Hseq & Hr1).
      apply AddExpr_inv in Hempty as (Hg2 & Hempty & Hr2).
      apply AddExpr_inv in Hbody as (Hg3 & Hch & Hr3).
      split; [congruence|]. split; [grow|].
      exists [seq; empty_expr], [seq], [empty_expr]. split; [exact Hch|].
      split; [reflexivity|]. split; [discriminate|].
      split; [|split].
      + constructor; [|constructor]. exists [].
        eapply expr_at_grow; [exact Hg3|].
        eapply expr_at_grow; [exact Hg2|exact Hseq].
      + constructor; [|constructor]. left.
        eapply expr_at_grow; [exact Hg3|exact Hempty].
      + split; discriminate.
    - (* end strings: tags_rule end_i, or end_i *)
      apply bind_inv in Hbody as (with_tags & c1 & Hwith & Hbody).
      apply bind_inv in Hbody as (only_end & c2 & Honly & Hbody).
      apply with_tags_loop in Hwith as (Hg1 & Hr1 & Hlen1 & Htags).
      apply (only_end_loop detected) in Honly as (Hg2 & Hr2 & Hlen2 & Hends);
        [|eapply end_str_ids_grow; eassumption].
      apply AddExpr_inv in Hbody as (Hg3 & Hch & Hr3).
      split; [congruence|]. split; [grow|].
      exists (with_tags ++ only_end), with_tags, only_end. split; [exact Hch|].
      split; [reflexivity|].
      split; [apply Hnonempty; assumption|].
      split; [|split].
      + eapply Forall_impl; [exact Htags|]. intros a Ha.
        eapply tags_alternative_grow; [|exact Ha].
        eapply exprs_grow_trans; eassumption.
      + eapply Forall_impl; [exact Hends|]. intros a Ha. right. left.
        eapply end_sequence_grow; eassumption.
      + split; [|discriminate]. intros ->. exfalso.
        apply (Hnonempty [] Hne). exact Hlen2. reflexivity. }
  destruct Hgoal as (Hr3 & Hgrow & Hroot).
  split; [rewrite Hrules, Hr3; reflexivity|].
  split; [rewrite Hr3; reflexivity|].
  split; [eapply exprs_grow_trans; [exact Hgrow|];
          apply exprs_eq_grow; exact Hexprs|].
  destruct Hroot as (choices & tag_alts & end_alts & H1 & H2 & H3 & H4 & H5 & H6).
  exists choices, tag_alts, end_alts.
  split; [eapply expr_at_grow; [apply exprs_eq_grow|]; eassumption|].
  split; [exact H2|]. split; [exact H3|]. split; [|split; [|exact H6]].
  - eapply Forall_impl; [exact H4|]. intros a.
    apply tags_alternative_grow. apply exprs_eq_grow. exact Hexprs.
  - eapply Forall_impl; [exact H5|]. intros a.
    apply end_alternative_grow. apply exprs_eq_grow. exact Hexprs.
Qed.

Lemma alter_last {A} (g : A -> A) (l : list A) (x : A) :
  alter g (length l) (l ++ [x]) = l ++ [g x].
Proof. induction l as [|a l IH]; simpl; [reflexivity|]. f_equal. exact IH. Qed.

(** The end expression of the recursive form. *)
Lemma end_str_sequence_spec detected end_ids c end_id c' :
  end_str_ids detected c end_ids ->
  match end_ids with
  | [] => AddEmptyStr
  | [end_str_expr_id] => AddSequence [end_str_expr_id]
  | _ :: _ :: _ =>
      end_str_choices ← for_each (fun end_str_expr_id =>
                                    AddSequence [end_str_expr_id]) end_ids;
      AddChoices end_str_choices
  end c = ROk (end_id, c') ->
  exprs_grow c c' /\ rules_of c' = rules_of c /\
  end_alternative detected c' end_id.
Proof.
  intros Hids Hrun. destruct end_ids as [|id1 [|id2 ids]].
  - apply AddExpr_inv in Hrun as (Hg & Hat & Hr).
    split; [exact Hg|]. split; [exact Hr|]. left. exact Hat.
  - apply AddExpr_inv in Hrun as (Hg & Hat & Hr).
    split; [exact Hg|]. split; [exact Hr|]. right. left.
    inversion Hids as [|? ? (s & Hs & Hin) _]; subst.
    exists id1, s. split; [exact Hat|].
    split; [eapply expr_at_grow; eassumption|exact Hin].
  - apply bind_inv in Hrun as (seqs & c1 & Hseqs & Hrun).
    apply (only_end_loop detected) in Hseqs as (Hg1 & Hr1 & Hlen & Hends);
      [|exact Hids].
    apply AddExpr_inv in Hrun as (Hg2 & Hat & Hr2).
    split; [eapply exprs_grow_trans; eassumption|].
    split; [congruence|]. right. right. exists seqs.
    split; [exact Hat|]. split.
    + intros ->. discriminate.
    + eapply Forall_impl; [exact Hends|]. intros a.
      apply end_sequence_grow. exact Hg2.
Qed.

Lemma tags_with_separator_list_spec detected separator at_least_one tags_ref
    end_ids c rule_id c' :
  end_str_ids detected c end_ids ->
  tags_with_separator_list separator at_least_one tags_ref end_ids c =
    ROk (rule_id, c') ->
  exists sub_body body,
    rules_of c' =
      rules_of c ++
      [{| name := "tags_with_separator_sub"; body_expr_id := sub_body |};
       {| name := "tags_with_separator"; body_expr_id := body |}] /\
    rule_id = Z.of_nat (S (length (rules_of c))) /\
    exprs_grow c c' /\
    root_choices detected at_least_one c' tags_ref body /\
    exists cons end_alt before sub_ref,
      expr_at c' sub_body (EChoices [cons; end_alt]) /\
      expr_at c' cons (ESequence (before ++ [tags_ref; sub_ref])) /\
      expr_at c' sub_ref (ERuleRef (Z.of_nat (length (rules_of c)))) /\
      end_alternative detected c' end_alt /\
      Forall (fun x => expr_at c' x (EByteString separator)) before /\
      (before = [] <-> separator = EmptyString).
Proof.
  intros Hids Hrun. unfold tags_with_separator_list in Hrun.
  apply bind_inv in Hrun as (sub_rule_id & c1 & Hsub & Hrun).
  apply AddRule_inv in Hsub as (He1 & Hr1 & ->).
  apply bind_inv in Hrun as (end_id & c2 & Hend & Hrun).
  apply (end_str_sequence_spec detected) in Hend as (Hg2 & Hr2 & Hend);
    [|eapply end_str_ids_grow; [apply exprs_eq_grow; exact He1|exact Hids]].
  apply bind_inv in Hrun as (before & c3 & Hsep & Hrun).
  assert (Hbefore : exprs_grow c2 c3 /\ rules_of c3 = rules_of c2 /\
                    Forall (fun x => expr_at c3 x (EByteString separator)) before /\
                    (before = [] <-> separator = EmptyString)).
  { destruct separator as [|a sep']; simpl in Hsep.
    - apply ret_inv in Hsep as [-> ->].
      split; [apply exprs_grow_refl|]. split; [reflexivity|].
      split; [constructor|tauto].
    - apply bind_inv in Hsep as (x & cx & Hx & Hsep).
      apply ret_inv in Hsep as [-> ->].
      apply AddExpr_inv in Hx as (Hg & Hat & Hr).
      split; [exact Hg|]. split; [exact Hr|].
      split; [constructor; [exact Hat|constructor]|].
      split; discriminate. }
  destruct Hbefore as (Hg3 & Hr3 & Hbefore & Hempty).
  apply bind_inv in Hrun as (sub_ref & c4 & Hsubref & Hrun).
  apply AddExpr_inv in Hsubref as (Hg4 & Hsubref & Hr4).
  apply bind_inv in Hrun as (cons & c5 & Hcons & Hrun).
  apply AddExpr_inv in Hcons as (Hg5 & Hcons & Hr5).
  apply bind_inv in Hrun as (sub_body & c6 & Hbody & Hrun).
  apply AddExpr_inv in Hbody as (Hg6 & Hbody & Hr6).
  apply bind_inv in Hrun as (u & c7 & Hupd & Hrun).
  apply UpdateRuleBody_inv in Hupd as (He7 & Hr7).
  apply bind_inv in Hrun as (sub_ref' & c8 & Hsubref' & Hrun).
  apply AddExpr_inv in Hsubref' as (Hg8 & Hsubref' & Hr8).
  apply bind_inv in Hrun as (first_choice & c9 & Hfirst & Hrun).
  apply AddExpr_inv in Hfirst as (Hg9 & Hfirst & Hr9).
  apply bind_inv in Hrun as (body & c10 & Hroot & Hrun).
  apply AddExpr_inv in Hroot as (Hg10 & Hroot & Hr10).
  apply AddRule_inv in Hrun as (He11 & Hr11 & ->).
  pose proof (exprs_eq_grow _ _ He7) as Hg7.
  pose proof (exprs_eq_grow _ _ He11) as Hg11.
  assert (Hrules7 : rules_of c7 =
            rules_of c ++
            [{| name := "tags_with_separator_sub"; body_expr_id := sub_body |}]).
  { rewrite Hr7, Hr6, Hr5, Hr4, Hr3, Hr2, Hr1, Nat2Z.id, alter_last.
    reflexivity. }
  assert (Hrules10 : rules_of c10 = rules_of c7) by congruence.
  assert (G10 : exprs_grow c10 c') by grow.
  assert (G9 : exprs_grow c9 c') by grow.
  assert (G6 : exprs_grow c6 c') by grow.
  assert (G5 : exprs_grow c5 c') by grow.
  assert (G4 : exprs_grow c4 c') by grow.
  assert (G3 : exprs_grow c3 c') by grow.
  assert (G2 : exprs_grow c2 c') by grow.
  assert (G1 : exprs_grow c1 c') by grow.
  exists sub_body, body.
  split; [rewrite Hr11, Hrules10, Hrules7, <- app_assoc; reflexivity|].
  split; [rewrite Hrules10, Hrules7, length_app; simpl; f_equal; lia|].
  split.
  { eapply exprs_grow_trans; [apply exprs_eq_grow; exact He1|exact G1]. }
  split.
  - exists (if at_least_one then [first_choice] else [first_choice; end_id]),
      [first_choice], (if at_least_one then [] else [end_id]).
    split; [exact (expr_at_grow _ _ _ _ G10 Hroot)|].
    split; [destruct at_least_one; reflexivity|].
    split; [discriminate|]. split; [|split].
    + constructor; [|constructor]. exists [sub_ref'].
      exact (expr_at_grow _ _ _ _ G9 Hfirst).
    + destruct at_least_one; constructor; [|constructor].
      exact (end_alternative_grow _ _ _ _ G2 Hend).
    + destruct at_least_one; split; congruence.
  - exists cons, end_id, before, sub_ref.
    split; [exact (expr_at_grow _ _ _ _ G6 Hbody)|].
    split; [exact (expr_at_grow _ _ _ _ G5 Hcons)|].
    split; [exact (expr_at_grow _ _ _ _ G4 Hsubref)|].
    split; [exact (end_alternative_grow _ _ _ _ G2 Hend)|].
    split; [|exact Hempty].
    eapply Forall_impl; [exact Hbefore|]. intros x.
    apply expr_at_grow. exact G3.
Qed.

Lemma separator_matches_end_In separator detected :
  separator_matches_end separator detected = bool_decide (separator ∈ detected).
Proof.
  unfold separator_matches_end.
  induction detected as [|d ds IH]; cbn [existsb].
  - symmetry. apply bool_decide_eq_false. intros Hin. inversion Hin.
  - rewrite IH. destruct (String.eqb d separator) eqn:Heq; cbn [orb].
    + apply String.eqb_eq in Heq as ->. symmetry.
      apply bool_decide_eq_true. apply list_elem_of_here.
    + apply String.eqb_neq in Heq.
      destruct (decide (separator ∈ ds)) as [Hin|Hnin].
      * rewrite !bool_decide_eq_true_2; [reflexivity| |exact Hin].
        apply list_elem_of_further. exact Hin.
      * rewrite !bool_decide_eq_false_2; [reflexivity| |exact Hnin].
        intros Hin. inversion Hin; subst; [congruence|contradiction].
Qed.

Lemma non_empty_strs_spec detected s :
  In s (non_empty_strs detected) -> In s detected /\ s <> EmptyString.
Proof.
  unfold non_empty_strs. intros Hin.
  apply list_elem_of_In, list_elem_of_filter in Hin as [Hs Hin].
  split; [apply list_elem_of_In; exact Hin|].
  intros ->. discriminate.
Qed.

Lemma non_empty_strs_nil detected :
  bool_decide (non_empty_strs detected = []) =
  negb (existsb (fun s => negb (str_empty s)) detected).
Proof.
  unfold non_empty_strs. induction detected as [|d ds IH]; [reflexivity|].
  rewrite filter_cons. simpl. destruct (str_empty d) eqn:Hd; simpl.
  - exact IH.
  - reflexivity.
Qed.

Lemma end_ids_of_strs detected c strs ids :
  Forall2 (fun s id => expr_at c id (EByteString s)) strs ids ->
  (forall s, In s strs -> In s detected /\ s <> EmptyString) ->
  end_str_ids detected c ids.
Proof.
  unfold end_str_ids.
  induction 1 as [|s id ss ids Hs _ IH]; intros Hin; constructor.
  - exists s. split; [exact Hs|]. apply Hin. left. reflexivity.
  - apply IH. intros s' Hs'. apply Hin. right. exact Hs'.
Qed.

Lemma has_end_strs_spec detected (end_ids : list Z) :
  length (non_empty_strs detected) = length end_ids ->
  negb (bool_decide (end_ids = [])) =
  existsb (fun s => negb (str_empty s)) detected.
Proof.
  intros Hlen. rewrite <- (negb_involutive (existsb _ detected)).
  rewrite <- non_empty_strs_nil. f_equal.
  destruct end_ids, (non_empty_strs detected); try discriminate; reflexivity.
Qed.

(** C8.  When the conversion of a TagsWithSeparator format succeeds, the
    rules added after its tags are converted have the non-recursive form
    exactly when [stop_after_first] holds or some detected end string is
    non-empty and the separator is among the detected end strings (an empty
    one included); otherwise they have the recursive form with the sub
    rule.  In both forms the choices of the root rule are alternatives
    that start with the rule of all tags, followed by empty/end
    alternatives exactly when [at_least_one] is false. *)
Theorem tags_with_separator_forms (separator : string)
    (detected : list string) (at_least_one stop_after_first : bool)
    (VT : TagFormat -> Conv Z) (tags : list TagFormat)
    (c c' : Converter.t) (rule_id : Z) :
  VisitSub_TagsWithSeparator separator detected at_least_one stop_after_first
    VT tags c = ROk (rule_id, c') ->
  exists choice_ids c1,
    for_each (fun tag =>
                tag_rule_id ← VT tag;
                tag_rule_ref_id ← AddRuleRef tag_rule_id;
                AddSequence [tag_rule_ref_id]) tags c = ROk (choice_ids, c1) /\
    ((special_case separator detected stop_after_first = true /\
      single_form detected at_least_one c1 c' rule_id) \/
     (special_case separator detected stop_after_first = false /\
      recursive_form separator detected at_least_one c1 c' rule_id)).
Proof.
  intros Hrun. unfold VisitSub_TagsWithSeparator in Hrun.
  apply bind_inv in Hrun as (choice_ids & c1 & Htags & Hrun).
  exists choice_ids, c1. split; [exact Htags|].
  apply bind_inv in Hrun as (tags_body & c2 & Hchoice & Hrun).
  apply AddExpr_inv in Hchoice as (Hg2 & Hchoice & Hr2).
  apply bind_inv in Hrun as (tags_rule_id & c3 & Hrule & Hrun).
  apply AddRule_inv in Hrule as (He3 & Hr3 & ->).
  apply bind_inv in Hrun as (tags_ref & c4 & Href & Hrun).
  apply AddExpr_inv in Href as (Hg4 & Href & Hr4).
  apply bind_inv in Hrun as (end_ids & c5 & Hends & Hrun).
  apply (for_each_AddExpr_inv EByteString) in Hends as (Hg5 & Hr5 & Hends).
  assert (Hids : end_str_ids detected c5 end_ids).
  { eapply end_ids_of_strs; [exact Hends|]. apply non_empty_strs_spec. }
  assert (Hcond : stop_after_first ||
                  negb (bool_decide (end_ids = [])) &&
                  separator_matches_end separator detected =
                  special_case separator detected stop_after_first).
  { unfold special_case.
    rewrite (has_end_strs_spec detected end_ids),
      separator_matches_end_In; [reflexivity|].
    eapply Forall2_length. exact Hends. }
  rewrite Hcond in Hrun.
  assert (Hrules5 : rules_of c5 =
            rules_of c1 ++
            [{| name := "tags_with_separator_tags";
                body_expr_id := tags_body |}]) by congruence.
  assert (Hlen : length (rules_of c5) = S (length (rules_of c1))).
  { rewrite Hrules5, length_app. simpl. lia. }
  assert (Hnum : length (rules_of c2) = length (rules_of c1)) by congruence.
  rewrite Hnum in Href.
  destruct (special_case separator detected stop_after_first).
  - left. split; [reflexivity|].
    apply (tags_with_separator_single_spec detected) in Hrun
      as (body & Hrules & -> & G5 & Hroot); [|exact Hids].
    exists tags_body, tags_ref, body.
    split; [rewrite Hrules, Hrules5, <- app_assoc; reflexivity|].
    split; [rewrite Hlen; reflexivity|].
    split; [|exact Hroot].
    eapply expr_at_grow; [|exact Href].
    eapply exprs_grow_trans; [exact Hg5|exact G5].
  - right. split; [reflexivity|].
    apply (tags_with_separator_list_spec detected) in Hrun
      as (sub_body & body & Hrules & -> & G5 & Hroot & Hrec); [|exact Hids].
    exists tags_body, tags_ref, sub_body, body.
    split; [rewrite Hrules, Hrules5, <- app_assoc; reflexivity|].
    split; [rewrite Hlen; reflexivity|].
    split; [|split; [exact Hroot|]].
    + eapply expr_at_grow; [|exact Href].
      eapply exprs_grow_trans; [exact Hg5|exact G5].
    + rewrite Hlen in Hrec. exact Hrec.
Qed.

Lemma tags_with_separator_forms_witness :
  let tags := [MkTag "<a>" (FConstString "x") ["</a>"]] in
  (exists rule_id c' choice_ids c1,
     VisitSub_TagsWithSeparator "," ["]"] false false
       (fun tag => Visit (FTag tag)) tags init = ROk (rule_id, c') /\
     for_each (fun tag =>
                 tag_rule_id ← Visit (FTag tag);
                 tag_rule_ref_id ← AddRuleRef tag_rule_id;
                 AddSequence [tag_rule_ref_id]) tags init = ROk (choice_ids, c1) /\
     recursive_form "," ["]"] false c1 c' rule_id) /\
  (exists rule_id c' choice_ids c1,
     VisitSub_TagsWithSeparator "]" [EmptyString; "]"] true false
       (fun tag => Visit (FTag tag)) tags init = ROk (rule_id, c') /\
     for_each (fun tag =>
                 tag_rule_id ← Visit (FTag tag);
                 tag_rule_ref_id ← AddRuleRef tag_rule_id;
                 AddSequence [tag_rule_ref_id]) tags init = ROk (choice_ids, c1) /\
     single_form [EmptyString; "]"] true c1 c' rule_id).
Proof.
  intros tags. split.
  - destruct (VisitSub_TagsWithSeparator "," ["]"] false false
                (fun tag => Visit (FTag tag)) tags init)
      as [[rule_id c']|e] eqn:Hrun; [|vm_compute in Hrun; discriminate].
    destruct (tags_with_separator_forms _ _ _ _ _ _ _ _ _ Hrun)
      as (choice_ids & c1 & Hloop & [[Hcase _]|[_ Hform]]);
      [vm_compute in Hcase; discriminate|].
    exists rule_id, c', choice_ids, c1. auto.
  - destruct (VisitSub_TagsWithSeparator "]" [EmptyString; "]"] true false
                (fun tag => Visit (FTag tag)) tags init)
      as [[rule_id c']|e] eqn:Hrun; [|vm_compute in Hrun; discriminate].
    destruct (tags_with_separator_forms _ _ _ _ _ _ _ _ _ Hrun)
      as (choice_ids & c1 & Hloop & [[_ Hform]|[Hcase _]]);
      [|vm_compute in Hcase; discriminate].
    exists rule_id, c', choice_ids, c1. auto.
Defined.

End ConverterFacts.

(** ** Lists of nodes and strings *)

Module TreeFacts.
Import FormatSpec.

Lemma flat_map_cons_app {A B} (g : A -> list B) (a : A) (l : list A) :
  flat_map g (a :: l) = g a ++ flat_map g l.
Proof. reflexivity. Qed.

Lemma forallb_flat_map {A B} (p : B -> bool) (g : A -> list B) (l : list A) :
  Forall (fun a => forallb p (g a) = true) l ->
  forallb p (flat_map g l) = true.
Proof.
  induction 1 as [|a l Ha _ IH]; simpl; [reflexivity|].
  rewrite forallb_app, Ha, IH. reflexivity.
Qed.

Lemma nodes_tag tag : nodes (FTag tag) = FTag tag :: nodes (tag_content tag).
Proof. destruct tag. reflexivity. Qed.

Lemma append_cons a s t : String a s +:+ t = String a (s +:+ t).
Proof. reflexivity. Qed.

(** Induction on a tree, with the hypothesis for every element and for the
    content of every tag. *)
Lemma Format_induction (P : Format -> Prop) :
  (forall value, P (FConstString value)) ->
  (forall json_schema, P (FJSONSchema json_schema)) ->
  (forall xml_schema, P (FQwenXmlParameter xml_schema)) ->
  (forall excluded detected, P (FAnyText excluded detected)) ->
  (forall grammar, P (FGrammar grammar)) ->
  (forall pattern excluded, P (FRegex pattern excluded)) ->
  (forall elements u, Forall P elements -> P (FSequence elements u)) ->
  (forall elements u, Forall P elements -> P (FOr elements u)) ->
  (forall begin_ content end_, P content -> P (FTag (MkTag begin_ content end_))) ->
  (forall triggers tags excludes detected a s,
     Forall (fun tag => P (tag_content tag)) tags ->
     P (FTriggeredTags triggers tags excludes detected a s)) ->
  (forall tags separator detected a s,
     Forall (fun tag => P (tag_content tag)) tags ->
     P (FTagsWithSeparator tags separator detected a s)) ->
  forall f, P f.
Proof.
  intros Hcs Hjs Hqx Hat Hgr Hrx Hsq Hor Htg Htt Hts.
  fix IH 1. intros f.
  destruct f as [| | | | | | elements u | elements u | [b c e]
                | triggers tags excludes detected a s
                | tags separator detected a s].
  - apply Hcs.
  - apply Hjs.
  - apply Hqx.
  - apply Hat.
  - apply Hgr.
  - apply Hrx.
  - apply Hsq. induction elements as [|x l IHl]; constructor; [apply IH|exact IHl].
  - apply Hor. induction elements as [|x l IHl]; constructor; [apply IH|exact IHl].
  - apply Htg. apply IH.
  - apply Htt. induction tags as [|[b c e] l IHl]; constructor;
      [apply IH|exact IHl].
  - apply Hts. induction tags as [|[b c e] l IHl]; constructor;
      [apply IH|exact IHl].
Qed.

Lemma forallb_flat_map_inv {A B} (p : B -> bool) (g : A -> list B) (l : list A) :
  forallb p (flat_map g l) = true ->
  Forall (fun a => forallb p (g a) = true) l.
Proof.
  induction l as [|a l IH]; simpl; [constructor|].
  rewrite forallb_app. intros Hl. apply andb_prop in Hl as [Ha Hl].
  constructor; [exact Ha|apply IH; exact Hl].
Qed.

Lemma Forall_modus {A} (P Q : A -> Prop) (l : list A) :
  Forall (fun a => P a -> Q a) l -> Forall P l -> Forall Q l.
Proof. induction 1; intros Hp; inversion Hp; subst; constructor; auto. Qed.

Lemma nodes_of_tags p (tags : list TagFormat) :
  forallb p (flat_map (fun tag => FTag tag :: nodes (tag_content tag)) tags) = true ->
  Forall (fun tag => forallb p (nodes (tag_content tag)) = true) tags.
Proof.
  intros Hn. apply forallb_flat_map_inv in Hn.
  eapply Forall_impl; [exact Hn|]. intros tag Ht. simpl in Ht.
  apply andb_prop in Ht as [_ Ht]. exact Ht.
Qed.

End TreeFacts.

(** ** Parser: what every parsed tree looks like *)

Module ParserInvariants.
Import Parser ParserSpec FormatSpec.

Lemma collect_strings_non_empty err items strs :
  collect_strings true err items = ROk strs ->
  forallb non_empty_str strs = true.
Proof.
  revert strs. induction items as [|item rest IH]; intros strs; simpl.
  - intros [= <-]. reflexivity.
  - destruct item; try discriminate.
    destruct (str_empty s) eqn:Hs; simpl; [discriminate|].
    destruct (collect_strings true err rest) as [rest'|]; simpl; [|discriminate].
    intros [= <-]. simpl. unfold non_empty_str at 1. rewrite Hs.
    apply IH. reflexivity.
Qed.

Lemma collect_strings_length non_empty err items strs :
  collect_strings non_empty err items = ROk strs ->
  length strs = length items.
Proof.
  revert strs. induction items as [|item rest IH]; intros strs; simpl.
  - intros [= <-]. reflexivity.
  - destruct item; try discriminate.
    destruct (non_empty && str_empty s); [discriminate|].
    destruct (collect_strings non_empty err rest) as [rest'|]; simpl;
      [|discriminate].
    intros [= <-]. simpl. rewrite (IH _ eq_refl). reflexivity.
Qed.

(** Every node of a parsed tree satisfies a condition [local] that holds
    of the nodes as the variant parsers build them. *)
Section Image.

Variable serialize : json -> string.
Variable local : Format -> bool.

Hypothesis local_const_string : forall value,
  str_empty value = false -> local (FConstString value) = true.
Hypothesis local_json_schema : forall json_schema,
  local (FJSONSchema json_schema) = true.
Hypothesis local_qwen : forall xml_schema,
  local (FQwenXmlParameter xml_schema) = true.
Hypothesis local_any_text : forall excluded_strs,
  local (FAnyText excluded_strs []) = true.
Hypothesis local_grammar : forall grammar,
  str_empty grammar = false -> local (FGrammar grammar) = true.
Hypothesis local_regex : forall pattern excluded_strs,
  str_empty pattern = false ->
  forallb non_empty_str excluded_strs = true ->
  local (FRegex pattern excluded_strs) = true.
Hypothesis local_sequence : forall elements,
  elements <> [] ->
  forallb (fun e => negb (is_sequence e)) elements = true ->
  local (FSequence elements false) = true.
Hypothesis local_or : forall elements,
  elements <> [] -> local (FOr elements false) = true.
Hypothesis local_tag : forall begin_ content end_,
  end_ <> [] -> local (FTag (MkTag begin_ content end_)) = true.
Hypothesis local_triggered_tags : forall triggers tags excludes a s,
  triggers <> [] -> forallb non_empty_str triggers = true ->
  tags <> [] -> forallb non_empty_str excludes = true ->
  local (FTriggeredTags triggers tags excludes [] a s) = true.
Hypothesis local_tags_with_separator : forall tags separator a s,
  tags <> [] -> local (FTagsWithSeparator tags separator [] a s) = true.

Section Step.

Variable PF : json -> Result Format.
Hypothesis PF_image : forall v f, PF v = ROk f ->
  forallb local (nodes f) = true /\ flat_ok f = true.

Lemma parse_sequence_elements_image items es :
  parse_sequence_elements PF items = ROk es ->
  forallb local (flat_map nodes es) = true /\
  forallb (fun e => negb (is_sequence e)) es = true.
Proof.
  revert es. induction items as [|item rest IH]; intros es; simpl.
  - intros [= <-]. split; reflexivity.
  - destruct (PF item) as [f|] eqn:Hf; simpl; [|discriminate].
    destruct (parse_sequence_elements PF rest) as [rest'|]; simpl;
      [|discriminate].
    destruct (IH _ eq_refl) as [IH1 IH2].
    apply PF_image in Hf as [Hnodes Hflat].
    destruct f; intros [= <-];
      try solve [split; [rewrite TreeFacts.flat_map_cons_app, forallb_app, Hnodes, IH1;
                         reflexivity
                        |simpl; exact IH2]].
    simpl in Hnodes, Hflat. apply andb_prop in Hnodes as [_ Hnodes].
    rewrite flat_map_app, !forallb_app, Hnodes, IH1, Hflat, IH2.
    split; reflexivity.
Qed.

Lemma parse_or_elements_image items es :
  parse_or_elements PF items = ROk es ->
  forallb local (flat_map nodes es) = true.
Proof.
  revert es. induction items as [|item rest IH]; intros es; simpl.
  - intros [= <-]. reflexivity.
  - destruct (PF item) as [f|] eqn:Hf; simpl; [|discriminate].
    destruct (parse_or_elements PF rest) as [rest'|]; simpl; [|discriminate].
    intros [= <-]. apply PF_image in Hf as [Hnodes _].
    change (forallb local (nodes f ++ flat_map nodes rest') = true).
    rewrite forallb_app, Hnodes, (IH _ eq_refl). reflexivity.
Qed.

Lemma ParseTagFormat_image obj tag :
  ParseTagFormat PF obj = ROk tag ->
  forallb local (nodes (FTag tag)) = true.
Proof.
  unfold ParseTagFormat.
  destruct (find "begin" obj) as [[]|]; try discriminate.
  destruct (find "content" obj) as [cj|]; [|discriminate].
  destruct (PF cj) as [c|] eqn:Hc; simpl; [|discriminate].
  apply PF_image in Hc as [Hc _].
  destruct (find "end" obj) as [[| | | |[|e es]|]|]; try discriminate.
  - intros [= <-]. simpl.
    rewrite local_tag, Hc by discriminate. reflexivity.
  - destruct (collect_strings _ _ _) as [[|e' es']|] eqn:Hcs; simpl;
      try discriminate.
    + apply collect_strings_length in Hcs. discriminate.
    + intros [= <-]. simpl.
      rewrite local_tag, Hc by discriminate. reflexivity.
Qed.

Lemma parse_tags_image items tags :
  parse_tags PF items = ROk tags ->
  forallb local
    (flat_map (fun tag => FTag tag :: nodes (tag_content tag)) tags) = true.
Proof.
  revert tags. induction items as [|item rest IH]; intros tags; simpl.
  - intros [= <-]. reflexivity.
  - destruct (ParseTagFormat_value PF item) as [tag|] eqn:Ht; simpl;
      [|discriminate].
    destruct (parse_tags PF rest) as [rest'|]; simpl; [|discriminate].
    intros [= <-].
    assert (Htag : forallb local (nodes (FTag tag)) = true).
    { unfold ParseTagFormat_value in Ht.
      destruct item; try discriminate.
      destruct (find "type" members) as [[]|]; try discriminate.
      - destruct (String.eqb s "tag"); [|discriminate].
        eapply ParseTagFormat_image. exact Ht.
      - eapply ParseTagFormat_image. exact Ht. }
    rewrite TreeFacts.nodes_tag in Htag.
    change (forallb local
              ((FTag tag :: nodes (tag_content tag)) ++
               flat_map (fun tag => FTag tag :: nodes (tag_content tag)) rest')
            = true).
    rewrite forallb_app, Htag, (IH _ eq_refl). reflexivity.
Qed.

Lemma ParseSequenceFormat_image obj f :
  ParseSequenceFormat PF obj = ROk f ->
  forallb local (nodes f) = true /\ flat_ok f = true.
Proof.
  unfold ParseSequenceFormat.
  destruct (find "elements" obj) as [[]|]; try discriminate.
  destruct (parse_sequence_elements PF items) as [[|e es]|] eqn:Hes;
    simpl; try discriminate.
  intros [= <-]. apply parse_sequence_elements_image in Hes as [H1 H2].
  split; [|exact H2].
  change (local (FSequence (e :: es) false) &&
          forallb local (flat_map nodes (e :: es)) = true).
  rewrite local_sequence, H1 by (discriminate || exact H2). reflexivity.
Qed.

Lemma ParseOrFormat_image obj f :
  ParseOrFormat PF obj = ROk f ->
  forallb local (nodes f) = true /\ flat_ok f = true.
Proof.
  unfold ParseOrFormat.
  destruct (find "elements" obj) as [[]|]; try discriminate.
  destruct (parse_or_elements PF items) as [[|e es]|] eqn:Hes;
    simpl; try discriminate.
  intros [= <-]. apply parse_or_elements_image in Hes.
  split; [|reflexivity].
  change (local (FOr (e :: es) false) &&
          forallb local (flat_map nodes (e :: es)) = true).
  rewrite local_or, Hes by discriminate. reflexivity.
Qed.

Lemma ParseTriggeredTagsFormat_image obj f :
  ParseTriggeredTagsFormat PF obj = ROk f ->
  forallb local (nodes f) = true /\ flat_ok f = true.
Proof.
  unfold ParseTriggeredTagsFormat, mbind, Result_bind. intros Hf.
  destruct (find "triggers" obj) as [[]|]; try discriminate.
  destruct (collect_strings _ _ _) as [[|t ts]|] eqn:Htr; try discriminate.
  apply collect_strings_non_empty in Htr.
  destruct (find "tags" obj) as [[]|]; try discriminate.
  destruct (parse_tags PF _) as [[|g gs]|] eqn:Hts; try discriminate.
  apply parse_tags_image in Hts.
  assert (Hex : forall excluded_strs,
            match find "excludes" obj with
            | Some (JArray excludes_array) =>
                collect_strings true
                  "Triggered tags format's excluded_strs must be non-empty strings"
                  excludes_array
            | Some _ =>
                RErr "Triggered tags format should have a excludes field with an array"
            | None => ROk []
            end = ROk excluded_strs ->
            forallb non_empty_str excluded_strs = true).
  { intros ex. destruct (find "excludes" obj) as [[]|]; try discriminate.
    - apply collect_strings_non_empty.
    - intros [= <-]. reflexivity. }
  match type of Hf with
  | match ?x with _ => _ end = _ => destruct x as [ex|] eqn:Hx; [|discriminate]
  end.
  specialize (Hex _ eq_refl).
  destruct (optional_bool "at_least_one" _ obj); [|discriminate].
  destruct (optional_bool "stop_after_first" _ obj); [|discriminate].
  injection Hf as <-. split; [|reflexivity].
  change (local (FTriggeredTags (t :: ts) (g :: gs) ex [] a a0) &&
          forallb local
            (flat_map (fun tag => FTag tag :: nodes (tag_content tag)) (g :: gs))
          = true).
  rewrite local_triggered_tags, Hts by (discriminate || assumption).
  reflexivity.
Qed.

Lemma ParseTagsWithSeparatorFormat_image obj f :
  ParseTagsWithSeparatorFormat PF obj = ROk f ->
  forallb local (nodes f) = true /\ flat_ok f = true.
Proof.
  unfold ParseTagsWithSeparatorFormat, mbind, Result_bind. intros Hf.
  destruct (find "tags" obj) as [[]|]; try discriminate.
  destruct (parse_tags PF _) as [[|g gs]|] eqn:Hts; try discriminate.
  apply parse_tags_image in Hts.
  destruct (find "separator" obj) as [[]|]; try discriminate.
  destruct (optional_bool "at_least_one" _ obj); [|discriminate].
  destruct (optional_bool "stop_after_first" _ obj); [|discriminate].
  injection Hf as <-. split; [|reflexivity].
  change (local (FTagsWithSeparator (g :: gs) s [] a a0) &&
          forallb local
            (flat_map (fun tag => FTag tag :: nodes (tag_content tag)) (g :: gs))
          = true).
  rewrite local_tags_with_separator, Hts by discriminate.
  reflexivity.
Qed.

Lemma ParseConstStringFormat_image obj f :
  ParseConstStringFormat obj = ROk f ->
  forallb local (nodes f) = true /\ flat_ok f = true.
Proof.
  unfold ParseConstStringFormat.
  destruct (find "value" obj) as [[]|]; try discriminate.
  destruct (str_empty s) eqn:Hs; [discriminate|].
  intros [= <-]. simpl. rewrite local_const_string by exact Hs.
  split; reflexivity.
Qed.

Lemma ParseJSONSchemaFormat_image obj f :
  ParseJSONSchemaFormat serialize obj = ROk f ->
  forallb local (nodes f) = true /\ flat_ok f = true.
Proof.
  unfold ParseJSONSchemaFormat.
  destruct (find "json_schema" obj) as [[]|]; try discriminate;
    intros [= <-]; simpl; rewrite local_json_schema; split; reflexivity.
Qed.

Lemma ParseQwenXmlParameterFormat_image obj f :
  ParseQwenXmlParameterFormat serialize obj = ROk f ->
  forallb local (nodes f) = true /\ flat_ok f = true.
Proof.
  unfold ParseQwenXmlParameterFormat.
  destruct (find "json_schema" obj) as [[]|]; try discriminate;
    intros [= <-]; simpl; rewrite local_qwen; split; reflexivity.
Qed.

Lemma ParseAnyTextFormat_image obj f :
  ParseAnyTextFormat obj = ROk f ->
  forallb local (nodes f) = true /\ flat_ok f = true.
Proof.
  unfold ParseAnyTextFormat.
  destruct (find "excludes" obj) as [[]|]; try discriminate.
  - destruct (collect_strings _ _ _); simpl; [|discriminate].
    intros [= <-]. simpl. rewrite local_any_text. split; reflexivity.
  - destruct (find "type" obj); [|discriminate].
    intros [= <-]. simpl. rewrite local_any_text. split; reflexivity.
Qed.

Lemma ParseGrammarFormat_image obj f :
  ParseGrammarFormat obj = ROk f ->
  forallb local (nodes f) = true /\ flat_ok f = true.
Proof.
  unfold ParseGrammarFormat.
  destruct (find "grammar" obj) as [[]|]; try discriminate.
  destruct (str_empty s) eqn:Hs; [discriminate|].
  intros [= <-]. simpl. rewrite local_grammar by exact Hs.
  split; reflexivity.
Qed.

Lemma ParseRegexFormat_image obj f :
  ParseRegexFormat obj = ROk f ->
  forallb local (nodes f) = true /\ flat_ok f = true.
Proof.
  unfold ParseRegexFormat.
  destruct (find "pattern" obj) as [[]|]; try discriminate.
  destruct (str_empty s) eqn:Hs; [discriminate|].
  destruct (find "excludes" obj) as [[]|]; try discriminate.
  - destruct (collect_strings _ _ _) as [ex|] eqn:Hex; simpl; [|discriminate].
    apply collect_strings_non_empty in Hex.
    intros [= <-]. simpl. rewrite local_regex by assumption.
    split; reflexivity.
  - intros [= <-]. simpl. rewrite local_regex by (assumption || reflexivity).
    split; reflexivity.
Qed.

Lemma ParseFormat_tag_image obj f :
  FTag <$> ParseTagFormat PF obj = ROk f ->
  forallb local (nodes f) = true /\ flat_ok f = true.
Proof.
  destruct (ParseTagFormat PF obj) as [tag|] eqn:Ht; simpl; [|discriminate].
  intros [= <-]. split; [|reflexivity].
  eapply ParseTagFormat_image. exact Ht.
Qed.

End Step.

Lemma ParseFormat_image fuel value f :
  ParseFormat serialize fuel value = ROk f ->
  forallb local (nodes f) = true /\ flat_ok f = true.
Proof.
  revert value f. induction fuel as [|fuel IH]; intros value f; [discriminate|].
  simpl. destruct value; try discriminate.
  destruct (find "type" members) as [[]|] eqn:Htype; try discriminate.
  - unfold ParseFormat_typed.
    repeat match goal with
           | |- (if ?b then _ else _) = _ -> _ => destruct b
           end.
    + apply ParseConstStringFormat_image.
    + apply ParseJSONSchemaFormat_image.
    + apply ParseAnyTextFormat_image.
    + apply ParseSequenceFormat_image. exact IH.
    + apply ParseOrFormat_image. exact IH.
    + apply ParseFormat_tag_image. exact IH.
    + apply ParseTriggeredTagsFormat_image. exact IH.
    + apply ParseTagsWithSeparatorFormat_image. exact IH.
    + apply ParseQwenXmlParameterFormat_image.
    + apply ParseGrammarFormat_image.
    + apply ParseRegexFormat_image.
    + discriminate.
  - rewrite ParserFacts.ParseFormat_untyped_first_success. intros Hf.
    apply ParserFacts.first_success_ok in Hf as [i [Hi _]].
    unfold attempts in Hi.
    destruct i as [|[|[|[|[|[|[|[|i]]]]]]]]; simpl in Hi; try discriminate;
      injection Hi as Hi.
    + eapply ParseFormat_tag_image; [exact IH|exact Hi].
    + eapply ParseConstStringFormat_image. exact Hi.
    + eapply ParseJSONSchemaFormat_image. exact Hi.
    + eapply ParseAnyTextFormat_image. exact Hi.
    + eapply ParseSequenceFormat_image; [exact IH|exact Hi].
    + eapply ParseOrFormat_image; [exact IH|exact Hi].
    + eapply ParseTriggeredTagsFormat_image; [exact IH|exact Hi].
    + eapply ParseTagsWithSeparatorFormat_image; [exact IH|exact Hi].
Qed.

End Image.

Ltac image_premises :=
  intros; simpl;
  repeat match goal with
         | H : _ = _ |- _ => rewrite H
         end;
  unfold non_empty_str;
  repeat match goal with
         | H : _ = _ |- _ => rewrite H
         end;
  try reflexivity.

(** X1.  Every list that the parser requires to be non-empty is non-empty
    in every tree it returns: the elements of a Sequence and of an Or, the
    end strings of a Tag (also of the tags of TriggeredTags and
    TagsWithSeparator), the triggers and the tags of a TriggeredTags, the
    tags of a TagsWithSeparator. *)
Theorem parsed_lists_non_empty (serialize : json -> string) (fuel : nat)
    (value : json) (f : Format) :
  ParseFormat serialize fuel value = ROk f -> well_formed f = true.
Proof. apply ParserFacts.ParseFormat_well_formed. Qed.

Lemma parsed_lists_non_empty_witness :
  well_formed
    (FTriggeredTags ["<"] [MkTag "<a>" (FConstString "x") ["</a>"; "</A>"]]
       [] [] false false) = true.
Proof.
  apply (parsed_lists_non_empty (fun _ => EmptyString) 3
           (JObject [("triggers", JArray [JString "<"]);
                     ("tags", JArray [JObject
                        [("begin", JString "<a>");
                         ("content", JObject [("value", JString "x")]);
                         ("end", JArray [JString "</a>"; JString "</A>"])]])])).
  reflexivity.
Defined.

(** X2.  In every tree that the parser returns the value of a ConstString,
    the text of a Grammar, the pattern and every excluded string of a
    Regex, and every trigger and every excluded string of a TriggeredTags
    are non-empty strings. *)
Theorem parsed_strings_non_empty (serialize : json -> string) (fuel : nat)
    (value : json) (f : Format) :
  ParseFormat serialize fuel value = ROk f ->
  forallb strings_ok (nodes f) = true.
Proof.
  intros Hf.
  eapply (ParseFormat_image serialize strings_ok); [..|exact Hf];
    image_premises.
Qed.

Lemma parsed_strings_non_empty_witness :
  forallb strings_ok
    (nodes (FOr [FRegex "[a-z]+" ["bad"]; FConstString "x"] false)) = true.
Proof.
  apply (parsed_strings_non_empty (fun _ => EmptyString) 2
           (JObject [("elements", JArray
              [JObject [("type", JString "regex");
                        ("pattern", JString "[a-z]+");
                        ("excludes", JArray [JString "bad"])];
               JObject [("value", JString "x")]]);
                     ("type", JString "or")])).
  reflexivity.
Defined.

(** X3.  The parser flattens nested sequences: in every tree it returns,
    at any depth, no element of a Sequence is itself a Sequence. *)
Theorem parsed_sequences_flat (serialize : json -> string) (fuel : nat)
    (value : json) (f : Format) :
  ParseFormat serialize fuel value = ROk f ->
  forallb flat_ok (nodes f) = true.
Proof.
  intros Hf.
  eapply (ParseFormat_image serialize flat_ok); [..|exact Hf];
    image_premises.
Qed.

Lemma parsed_sequences_flat_witness :
  forallb flat_ok
    (nodes (FSequence [FConstString "a"; FConstString "b"; FConstString "c"]
              false)) = true.
Proof.
  apply (parsed_sequences_flat (fun _ => EmptyString) 4
           (JObject [("elements", JArray
              [JObject [("value", JString "a")];
               JObject [("elements", JArray
                  [JObject [("elements", JArray [JObject [("value", JString "b")]])];
                   JObject [("value", JString "c")]])]])])).
  reflexivity.
Defined.

Lemma ParseFormat_typed_kind serialize PF type obj :
  (forall f, ParseFormat_typed serialize PF type obj = ROk f ->
     type_name f = type) /\
  ((forall f, type_name f <> type) ->
   ParseFormat_typed serialize PF type obj =
     RErr ("Format type not recognized: " +:+ type)).
Proof.
  unfold ParseFormat_typed. split.
  - intros f.
    repeat match goal with
           | |- (if String.eqb type ?n then _ else _) = _ -> _ =>
               let E := fresh "E" in
               destruct (String.eqb type n) eqn:E;
               [apply String.eqb_eq in E; subst type|clear E]
           end; intros Hf; try discriminate.
    + apply ParserFacts.ParseConstStringFormat_shape in Hf as [? ->].
      reflexivity.
    + apply ParserFacts.ParseJSONSchemaFormat_shape in Hf as [? ->].
      reflexivity.
    + apply ParserFacts.ParseAnyTextFormat_shape in Hf.
      destruct f; try discriminate; reflexivity.
    + apply ParserFacts.ParseSequenceFormat_shape in Hf as (? & ? & ->).
      reflexivity.
    + apply ParserFacts.ParseOrFormat_shape in Hf as (? & ? & ->).
      reflexivity.
    + destruct (ParseTagFormat PF obj); simpl in Hf; [|discriminate].
      injection Hf as <-. reflexivity.
    + apply ParserFacts.ParseTriggeredTagsFormat_shape
        in Hf as (? & ? & ? & ? & ? & ? & ->).
      reflexivity.
    + apply ParserFacts.ParseTagsWithSeparatorFormat_shape
        in Hf as (? & ? & ? & ? & ? & ->).
      reflexivity.
    + unfold ParseQwenXmlParameterFormat in Hf.
      destruct (find "json_schema" obj) as [[]|]; try discriminate;
        injection Hf as <-; reflexivity.
    + unfold ParseGrammarFormat in Hf.
      destruct (find "grammar" obj) as [[]|]; try discriminate.
      destruct (str_empty s); [discriminate|]. injection Hf as <-. reflexivity.
    + unfold ParseRegexFormat, mbind, Result_bind in Hf.
      repeat (case_match; try discriminate); injection Hf as <-; reflexivity.
  - intros Hno.
    repeat match goal with
           | |- (if String.eqb type ?n then _ else _) = _ =>
               let E := fresh "E" in
               destruct (String.eqb type n) eqn:E;
               [apply String.eqb_eq in E; exfalso|clear E]
           end; try reflexivity.
    + exact (Hno (FConstString EmptyString) (eq_sym E)).
    + exact (Hno (FJSONSchema EmptyString) (eq_sym E)).
    + exact (Hno (FAnyText [] []) (eq_sym E)).
    + exact (Hno (FSequence [] false) (eq_sym E)).
    + exact (Hno (FOr [] false) (eq_sym E)).
    + exact (Hno (FTag (MkTag EmptyString (FAnyText [] []) [])) (eq_sym E)).
    + exact (Hno (FTriggeredTags [] [] [] [] false false) (eq_sym E)).
    + exact (Hno (FTagsWithSeparator [] EmptyString [] false false) (eq_sym E)).
    + exact (Hno (FQwenXmlParameter EmptyString) (eq_sym E)).
    + exact (Hno (FGrammar EmptyString) (eq_sym E)).
    + exact (Hno (FRegex EmptyString []) (eq_sym E)).
Qed.

(** X4.  A format object whose [type] member is a string is parsed by the
    parser of that variant only: what [ParseFormat] returns for it is of
    the variant that [type] names, and a [type] that names no variant is
    the error "Format type not recognized". *)
Theorem typed_format_kind (serialize : json -> string) (fuel : nat)
    (obj : list (string * json)) (type : string) :
  find "type" obj = Some (JString type) ->
  (forall f, ParseFormat serialize fuel (JObject obj) = ROk f ->
     type_name f = type) /\
  ((forall f, type_name f <> type) ->
   ParseFormat serialize (S fuel) (JObject obj) =
     RErr ("Format type not recognized: " +:+ type)).
Proof.
  intros Htype. split.
  - intros f. destruct fuel as [|fuel]; [discriminate|].
    simpl. rewrite Htype.
    apply (proj1 (ParseFormat_typed_kind serialize _ type obj)).
  - intros Hno. simpl. rewrite Htype.
    apply (proj2 (ParseFormat_typed_kind serialize _ type obj)). exact Hno.
Qed.

Lemma typed_format_kind_witness :
  type_name (FConstString "hi") = "const_string" /\
  ((forall f, type_name f <> "text") ->
   ParseFormat (fun _ => EmptyString) 1
     (JObject [("type", JString "text"); ("value", JString "hi")]) =
     RErr ("Format type not recognized: " +:+ "text")).
Proof.
  split.
  - apply (proj1 (typed_format_kind (fun _ => EmptyString) 1
                    [("type", JString "const_string"); ("value", JString "hi");
                     ("elements", JArray [])]
                    "const_string" eq_refl) (FConstString "hi")).
    reflexivity.
  - apply (proj2 (typed_format_kind (fun _ => EmptyString) 0
                    [("type", JString "text"); ("value", JString "hi")]
                    "text" eq_refl)).
Defined.

End ParserInvariants.

(** ** Analyzer: what it reads and what it leaves in the tree *)

Module AnalyzerInvariants.
Import Analyzer AnalyzerSpec FormatSpec AnalysisSpec.

(** *** The fields of the analyzer are outputs only *)

Section ClearLoops.
Variables V1 V2 : Format -> Result Format.
Hypothesis V12 : forall e, V1 e = V2 (clear_annotations e).

Lemma visit_sequence_clear i es :
  visit_sequence V1 i es = visit_sequence V2 i (map clear_annotations es).
Proof.
  revert i. induction es as [|e rest IH]; intros i; [reflexivity|].
  destruct rest as [|e2 rest].
  - simpl. rewrite V12. reflexivity.
  - change (visit_sequence V1 i (e :: e2 :: rest)) with
      (e' ← V1 e;
       if IsUnlimited e' then RErr (seq_unlimited_error i)
       else '(rest', u) ← visit_sequence V1 (S i) (e2 :: rest);
            ROk (e' :: rest', u)).
    change (visit_sequence V2 i (map clear_annotations (e :: e2 :: rest))) with
      (e' ← V2 (clear_annotations e);
       if IsUnlimited e' then RErr (seq_unlimited_error i)
       else '(rest', u) ← visit_sequence V2 (S i)
                            (map clear_annotations (e2 :: rest));
            ROk (e' :: rest', u)).
    rewrite V12, IH. reflexivity.
Qed.

Lemma visit_or_clear any all es :
  visit_or V1 any all es = visit_or V2 any all (map clear_annotations es).
Proof.
  revert any all. induction es as [|e rest IH]; intros any all; [reflexivity|].
  simpl. rewrite V12. destruct (V2 (clear_annotations e)); simpl; [|reflexivity].
  rewrite IH. reflexivity.
Qed.

Lemma VisitSub_Tag_clear tag :
  VisitSub_Tag V1 tag = VisitSub_Tag V2 (clear_tag tag).
Proof. destruct tag as [b c e]. simpl. rewrite V12. reflexivity. Qed.

End ClearLoops.

Lemma visit_tags_clear (V1 V2 : TagFormat -> Result TagFormat) tags :
  (forall t, V1 t = V2 (clear_tag t)) ->
  visit_tags V1 tags = visit_tags V2 (map clear_tag tags).
Proof.
  intros V12. induction tags as [|t rest IH]; [reflexivity|].
  simpl. rewrite V12, IH. reflexivity.
Qed.

Lemma DetectEndStrings_clear s1 s2 f :
  DetectEndStrings s1 = DetectEndStrings s2 ->
  DetectEndStrings (f :: s1) = DetectEndStrings (clear_annotations f :: s2).
Proof. intros H. destruct f as [| | | | | | | |[b c e]| |]; simpl; auto. Qed.

Lemma Visit_clear fuel :
  (forall s1 s2 f, DetectEndStrings s1 = DetectEndStrings s2 ->
     Visit fuel s1 f = Visit fuel s2 (clear_annotations f)) /\
  (forall s1 s2 t, DetectEndStrings s1 = DetectEndStrings s2 ->
     VisitTag fuel s1 t = VisitTag fuel s2 (clear_tag t)).
Proof.
  induction fuel as [|fuel [IHf IHt]]; [split; reflexivity|].
  split.
  - intros s1 s2 f Hs.
    pose proof (DetectEndStrings_clear s1 s2 f Hs) as Hpush.
    destruct f as [| | | | | | | |[b c e]| |]; try reflexivity.
    + simpl in *. rewrite Hs. reflexivity.
    + cbn [Visit clear_annotations].
      rewrite (visit_sequence_clear _ (Visit fuel (FSequence (map clear_annotations elements) false :: s2))
                 (fun e => IHf _ _ e Hpush)).
      reflexivity.
    + cbn [Visit clear_annotations].
      rewrite (visit_or_clear _ (Visit fuel (FOr (map clear_annotations elements) false :: s2))
                 (fun e => IHf _ _ e Hpush)).
      reflexivity.
    + cbn [Visit clear_annotations].
      rewrite (VisitSub_Tag_clear _
                 (Visit fuel (FTag (MkTag b (clear_annotations c) e) :: s2))
                 (fun e' => IHf _ _ e' Hpush)).
      reflexivity.
    + cbn [Visit clear_annotations].
      rewrite (visit_tags_clear _ (VisitTag fuel (clear_annotations (FTriggeredTags triggers tags excludes detected_end_strs_ at_least_one stop_after_first) :: s2)) tags
                 (fun t => IHt _ _ t Hpush)).
      rewrite Hpush. reflexivity.
    + cbn [Visit clear_annotations].
      rewrite (visit_tags_clear _ (VisitTag fuel (clear_annotations (FTagsWithSeparator tags separator detected_end_strs_ at_least_one stop_after_first) :: s2)) tags
                 (fun t => IHt _ _ t Hpush)).
      rewrite Hpush. reflexivity.
  - intros s1 s2 t Hs. cbn [VisitTag].
    apply VisitSub_Tag_clear. intros e. apply IHf.
    destruct t as [b c e']. simpl. reflexivity.
Qed.

(** X5.  The analyzer never reads [detected_end_strs_] or [is_unlimited_]:
    a tree and the same tree with these fields reset have the same
    analysis, error or annotated tree. *)
Theorem analysis_ignores_old_annotations (max_recursion_depth : nat)
    (st : StructuralTag) :
  Analyze max_recursion_depth st =
  Analyze max_recursion_depth {| format := clear_annotations (format st) |}.
Proof.
  unfold Analyze. simpl.
  rewrite (proj1 (Visit_clear max_recursion_depth) [] [] (format st) eq_refl).
  reflexivity.
Qed.

(** *** The analyzer on parsed trees stays in bounds *)

Lemma ParseStructuralTag_well_formed serialize n value st :
  Parser.ParseStructuralTag serialize n value = ROk st ->
  ParserSpec.well_formed (format st) = true.
Proof.
  unfold Parser.ParseStructuralTag. destruct value; try discriminate.
  assert (Hfield : forall r,
            match Parser.find "format" members with
            | Some format_json =>
                format' ← Parser.ParseFormat serialize n format_json;
                ROk {| format := format' |}
            | None => RErr "Structural tag must have a format field"
            end = ROk r ->
            ParserSpec.well_formed (format r) = true).
  { intros r. destruct (Parser.find "format" members) as [fj|]; [|discriminate].
    destruct (Parser.ParseFormat serialize n fj) as [f|] eqn:Hf; simpl;
      [|discriminate].
    intros [= <-]. simpl. eapply ParserFacts.ParseFormat_well_formed. exact Hf. }
  cbv zeta.
  destruct (Parser.find "type" members) as [[]|]; try discriminate.
  - destruct (String.eqb s "structural_tag"); [|discriminate]. apply Hfield.
  - apply Hfield.
Qed.

Lemma forallb_In {A} (p : A -> bool) (l : list A) (a : A) :
  forallb p l = true -> In a l -> p a = true.
Proof. intros H Hin. rewrite forallb_forall in H. auto. Qed.

Lemma RErr_neq {A B} (e e' : ISTError) :
  @RErr A e <> RErr e' -> @RErr B e <> RErr e'.
Proof. intros H [= ->]. apply H. reflexivity. Qed.

Section InBounds.
Variable V : Format -> Result Format.

Lemma visit_sequence_in_bounds i es :
  es <> [] ->
  (forall e, In e es -> V e <> RErr empty_sequence_error) ->
  visit_sequence V i es <> RErr empty_sequence_error.
Proof.
  revert i. induction es as [|e rest IH]; intros i Hne HV; [contradiction|].
  destruct rest as [|e2 rest].
  - simpl. specialize (HV e (or_introl eq_refl)).
    destruct (V e); simpl; [discriminate|exact (RErr_neq _ _ HV)].
  - change (visit_sequence V i (e :: e2 :: rest)) with
      (e' ← V e;
       if IsUnlimited e' then RErr (seq_unlimited_error i)
       else '(rest', u) ← visit_sequence V (S i) (e2 :: rest);
            ROk (e' :: rest', u)).
    cbv beta iota delta [mbind Result_bind].
    pose proof (HV e (or_introl eq_refl)) as He.
    destruct (V e) as [e'|]; [|exact (RErr_neq _ _ He)].
    destruct (IsUnlimited e'); [discriminate|].
    assert (Hrest : visit_sequence V (S i) (e2 :: rest)
                    <> RErr empty_sequence_error).
    { apply IH; [discriminate|]. intros e0 Hin. apply HV. right. exact Hin. }
    destruct (visit_sequence V (S i) (e2 :: rest)) as [[rest' u]|];
      [discriminate|exact (RErr_neq _ _ Hrest)].
Qed.

Lemma visit_or_in_bounds any all es :
  (forall e, In e es -> V e <> RErr empty_sequence_error) ->
  forall r, visit_or V any all es = r -> r <> RErr empty_sequence_error.
Proof.
  revert any all. induction es as [|e rest IH]; intros any all HV r <-; simpl.
  - discriminate.
  - pose proof (HV e (or_introl eq_refl)) as He.
    destruct (V e) as [e'|]; simpl; [|exact (RErr_neq _ _ He)].
    specialize (IH (any || IsUnlimited e') (all && IsUnlimited e')
                  (fun e0 Hin => HV e0 (or_intror Hin)) _ eq_refl).
    destruct (visit_or V _ _ rest) as [[[rest' a1] a2]|]; simpl;
      [discriminate|exact (RErr_neq _ _ IH)].
Qed.

Lemma VisitSub_Tag_in_bounds tag :
  V (tag_content tag) <> RErr empty_sequence_error ->
  VisitSub_Tag V tag <> RErr empty_sequence_error.
Proof.
  destruct tag as [b c e]. simpl. intros Hc.
  destruct (V c) as [c'|]; simpl; [|exact (RErr_neq _ _ Hc)].
  destruct (IsUnlimited c'); [|discriminate].
  destruct (has_non_empty e); discriminate.
Qed.

End InBounds.

Lemma visit_tags_in_bounds (V : TagFormat -> Result TagFormat) tags :
  (forall t, In t tags -> V t <> RErr empty_sequence_error) ->
  visit_tags V tags <> RErr empty_sequence_error.
Proof.
  induction tags as [|t rest IH]; intros HV; simpl; [discriminate|].
  pose proof (HV t (or_introl eq_refl)) as Ht.
  destruct (V t) as [t'|]; simpl; [|exact (RErr_neq _ _ Ht)].
  specialize (IH (fun t0 Hin => HV t0 (or_intror Hin))).
  destruct (visit_tags V rest); simpl; [discriminate|exact (RErr_neq _ _ IH)].
Qed.

Lemma Visit_in_bounds fuel :
  (forall stack_ f, ParserSpec.well_formed f = true ->
     Visit fuel stack_ f <> RErr empty_sequence_error) /\
  (forall stack_ t, ParserSpec.well_formed (tag_content t) = true ->
     VisitTag fuel stack_ t <> RErr empty_sequence_error).
Proof.
  induction fuel as [|fuel [IHf IHt]]; [split; discriminate|].
  assert (Htags : forall stack_ tags,
            forallb (fun tag => ParserSpec.well_formed (tag_content tag) &&
                       negb (bool_decide (tag_end tag = []))) tags = true ->
            visit_tags (VisitTag fuel stack_) tags <> RErr empty_sequence_error).
  { intros stack_ tags Hwf. apply visit_tags_in_bounds. intros t Hin.
    apply IHt. eapply forallb_In in Hwf; [|exact Hin].
    apply andb_prop in Hwf as [Hwf _]. exact Hwf. }
  split.
  - intros stack_ f Hwf.
    destruct f as [| | | | | | | |[b c e]| |]; cbn [Visit]; try discriminate.
    + simpl in Hwf. apply andb_prop in Hwf as [Hne Hwf].
      assert (Hseq : visit_sequence (Visit fuel (FSequence elements is_unlimited_ :: stack_)) 0 elements
                     <> RErr empty_sequence_error).
      { apply visit_sequence_in_bounds.
        - intros ->. discriminate.
        - intros e Hin. apply IHf. eapply forallb_In; eassumption. }
      destruct (visit_sequence _ 0 elements) as [[es' u]|]; simpl;
        [discriminate|exact (RErr_neq _ _ Hseq)].
    + simpl in Hwf. apply andb_prop in Hwf as [Hne Hwf].
      pose proof (visit_or_in_bounds
                    (Visit fuel (FOr elements is_unlimited_ :: stack_))
                    false true elements
                    (fun e Hin => IHf _ e (forallb_In _ _ _ Hwf Hin))
                    _ eq_refl) as Hor.
      destruct (visit_or _ false true elements) as [[[es' any] all]|]; simpl;
        [|exact (RErr_neq _ _ Hor)].
      destruct (any && negb all); discriminate.
    + simpl in Hwf. apply andb_prop in Hwf as [Hwf _].
      pose proof (VisitSub_Tag_in_bounds
                    (Visit fuel (FTag (MkTag b c e) :: stack_)) (MkTag b c e)
                    (IHf _ c Hwf)) as Ht.
      destruct (VisitSub_Tag _ (MkTag b c e)); simpl; [discriminate|exact (RErr_neq _ _ Ht)].
    + simpl in Hwf. apply andb_prop in Hwf as [_ Hwf].
      specialize (Htags (FTriggeredTags triggers tags excludes detected_end_strs_
                           at_least_one stop_after_first :: stack_) tags Hwf).
      destruct (visit_tags _ tags); simpl; [discriminate|exact (RErr_neq _ _ Htags)].
    + simpl in Hwf. apply andb_prop in Hwf as [_ Hwf].
      specialize (Htags (FTagsWithSeparator tags separator detected_end_strs_
                           at_least_one stop_after_first :: stack_) tags Hwf).
      destruct (visit_tags _ tags); simpl; [discriminate|exact (RErr_neq _ _ Htags)].
  - intros stack_ t Hwf. cbn [VisitTag].
    apply VisitSub_Tag_in_bounds. apply IHf. exact Hwf.
Qed.

(** X6.  On a structural tag that the parser returned, the analyzer never
    visits a Sequence without elements: the case in which
    [VisitSub(SequenceFormat* )] computes [size() - 1] on an empty vector
    and reads [elements.back()] is not reached, whatever the depth limit. *)
Theorem analyzer_stays_in_bounds (serialize : json -> string)
    (parse_depth analyze_depth : nat) (value : json) (st : StructuralTag) :
  Parser.ParseStructuralTag serialize parse_depth value = ROk st ->
  Analyze analyze_depth st <> RErr empty_sequence_error.
Proof.
  intros Hparse. apply ParseStructuralTag_well_formed in Hparse.
  unfold Analyze.
  pose proof (proj1 (Visit_in_bounds analyze_depth) [] (format st) Hparse) as Hv.
  destruct (Visit analyze_depth [] (format st)); simpl; [discriminate|exact (RErr_neq _ _ Hv)].
Qed.

Lemma analyzer_stays_in_bounds_witness :
  Analyze 4 {| format := FSequence [FConstString "a"; FAnyText [] []] false |}
  <> RErr empty_sequence_error.
Proof.
  apply (analyzer_stays_in_bounds (fun _ => EmptyString) 4 4
           (JObject [("format", JObject [("elements", JArray
              [JObject [("value", JString "a")];
               JObject [("type", JString "any_text")]])])])).
  reflexivity.
Defined.

(** *** Stop strings of the dispatching nodes *)

Lemma Visit_stop_strings fuel :
  (forall stack_ f f', Visit fuel stack_ f = ROk f' ->
     (can_stop (DetectEndStrings stack_) = true ->
      forallb stop_strings_ok (nodes f') = true) /\
     (IsUnlimited f' = false -> forallb stop_strings_ok (nodes f') = true)) /\
  (forall stack_ t t', VisitTag fuel stack_ t = ROk t' ->
     forallb stop_strings_ok (nodes (FTag t')) = true).
Proof.
  induction fuel as [|fuel [IHf IHt]]; [split; discriminate|].
  assert (Htag : forall stack_ t t',
             VisitSub_Tag (Visit fuel (FTag t :: stack_)) t = ROk t' ->
             forallb stop_strings_ok (nodes (FTag t')) = true).
  { intros stack_ t t' Ht.
    apply AnalyzerFacts.VisitSub_Tag_spec in Ht as (c' & Hc & -> & Hne).
    apply IHf in Hc as [Hgood Hlim].
    rewrite AnalyzerFacts.DetectEndStrings_push in Hgood.
    rewrite TreeFacts.nodes_tag. simpl. destruct (IsUnlimited c') eqn:Hu.
    - apply Hgood. unfold can_stop. rewrite Hne by reflexivity.
      apply orb_true_r.
    - apply Hlim. reflexivity. }
  assert (Htags : forall stack_ tags tags',
             visit_tags (VisitTag fuel stack_) tags = ROk tags' ->
             forallb stop_strings_ok
               (flat_map (fun tag => FTag tag :: nodes (tag_content tag)) tags')
             = true).
  { intros stack_ tags tags' Hts.
    apply TreeFacts.forallb_flat_map.
    apply (AnalyzerFacts.Forall2_right
             (fun t' => forallb stop_strings_ok
                          (FTag t' :: nodes (tag_content t')) = true) tags).
    eapply AnalyzerFacts.visit_tags_spec; [|exact Hts].
    intros t t' Ht. rewrite <- TreeFacts.nodes_tag. eapply IHt. exact Ht. }
  split.
  - intros stack_ f f'. destruct f; cbn [Visit];
      try solve [intros [= <-]; split; intros _; reflexivity].
    + (* AnyText *)
      intros [= <-]. split; [|discriminate].
      intros Hyp. simpl. rewrite Hyp. reflexivity.
    + (* Sequence *)
      destruct (visit_sequence _ 0 elements) as [[es' u]|] eqn:Hseq;
        simpl; [|discriminate].
      intros [= <-].
      eapply (AnalyzerFacts.visit_sequence_spec _
                (fun _ e' =>
                   (can_stop (DetectEndStrings stack_) = true ->
                    forallb stop_strings_ok (nodes e') = true) /\
                   (IsUnlimited e' = false ->
                    forallb stop_strings_ok (nodes e') = true)))
        in Hseq as (HF & -> & Hnl);
        [|intros e e' He; apply IHf in He; exact He].
      apply AnalyzerFacts.Forall2_right in HF.
      split; intros Hyp; simpl; apply TreeFacts.forallb_flat_map.
      * eapply Forall_impl; [exact HF|]. intros e' [H1 _]. exact (H1 Hyp).
      * simpl in Hyp. pose proof (AnalyzerFacts.limited_all _ _ Hnl Hyp) as Hlim.
        rewrite Forall_forall in *. intros e' Hin.
        apply (HF e' Hin). apply (Hlim e' Hin).
    + (* Or *)
      destruct (visit_or _ false true elements) as [[[es' any] all]|] eqn:Hor;
        simpl; [|discriminate].
      eapply (AnalyzerFacts.visit_or_spec _
                (fun _ e' =>
                   (can_stop (DetectEndStrings stack_) = true ->
                    forallb stop_strings_ok (nodes e') = true) /\
                   (IsUnlimited e' = false ->
                    forallb stop_strings_ok (nodes e') = true)))
        in Hor as (HF & -> & ->);
        [|intros e e' He; apply IHf in He; exact He].
      simpl.
      destruct (existsb IsUnlimited es' && negb (forallb IsUnlimited es'));
        [discriminate|].
      intros [= <-].
      apply AnalyzerFacts.Forall2_right in HF.
      split; intros Hyp; simpl; apply TreeFacts.forallb_flat_map.
      * eapply Forall_impl; [exact HF|]. intros e' [H1 _]. exact (H1 Hyp).
      * simpl in Hyp. rewrite Forall_forall in *. intros e' Hin.
        apply (HF e' Hin).
        destruct (IsUnlimited e') eqn:Hu; [|reflexivity].
        rewrite <- Hyp. symmetry. apply existsb_exists.
        exists e'. split; [apply list_elem_of_In; exact Hin|exact Hu].
    + (* Tag *)
      destruct (VisitSub_Tag _ tag) as [t'|] eqn:Ht; simpl; [|discriminate].
      intros [= <-]. apply Htag in Ht. split; intros _; exact Ht.
    + (* TriggeredTags *)
      destruct (visit_tags _ tags) as [tags'|] eqn:Hts; simpl; [|discriminate].
      intros [= <-]. apply Htags in Hts. split; [|discriminate].
      intros Hyp. simpl. rewrite Hyp. exact Hts.
    + (* TagsWithSeparator *)
      destruct (visit_tags _ tags) as [tags'|] eqn:Hts; simpl; [|discriminate].
      intros [= <-]. apply Htags in Hts. split; [|discriminate].
      intros Hyp. simpl. rewrite Hyp. exact Hts.
  - intros stack_ t t' Ht. cbn [VisitTag] in Ht. eapply Htag. exact Ht.
Qed.

Lemma Analyze_stop_strings max_recursion_depth st st' :
  Analyze max_recursion_depth st = ROk st' ->
  forallb stop_strings_ok (nodes (format st')) = true.
Proof.
  unfold Analyze.
  destruct (Visit max_recursion_depth [] (format st)) as [f'|e] eqn:Hv; simpl;
    [|discriminate].
  intros [= <-]. simpl.
  apply (proj1 (Visit_stop_strings _)) in Hv as [Hgood _].
  apply Hgood. reflexivity.
Qed.

(** X7.  After a successful analysis every AnyText, every TriggeredTags
    and every TagsWithSeparator whose detected end strings are not empty
    has a non-empty string among them: a dispatch that does not run to the
    end of the text always has a string to stop at. *)
Theorem dispatch_stop_strings (max_recursion_depth : nat)
    (st st' : StructuralTag) :
  Analyze max_recursion_depth st = ROk st' ->
  forallb stop_strings_ok (nodes (format st')) = true.
Proof. apply Analyze_stop_strings. Qed.

Lemma dispatch_stop_strings_witness :
  forallb stop_strings_ok
    (nodes (FTag (MkTag "<r>"
              (FTriggeredTags ["<f"] [MkTag "<f>" (FConstString "x") ["</f>"]]
                 [] [EmptyString; "</r>"] false false) []))) = true.
Proof.
  apply (dispatch_stop_strings 8
           {| format :=
                FTag (MkTag "<r>"
                  (FTriggeredTags ["<f"] [MkTag "<f>" (FConstString "x") ["</f>"]]
                     [] [] false false) [EmptyString; "</r>"]) |}
           {| format :=
                FTag (MkTag "<r>"
                  (FTriggeredTags ["<f"] [MkTag "<f>" (FConstString "x") ["</f>"]]
                     [] [EmptyString; "</r>"] false false) []) |}).
  reflexivity.
Defined.

(** *** Tags without end strings *)

Lemma Forall2_wf {Q : Format -> Prop} es es' :
  Forall2 (fun e e' => ParserSpec.well_formed e = true -> Q e') es es' ->
  forallb ParserSpec.well_formed es = true -> Forall Q es'.
Proof.
  induction 1 as [|e e' es es' H _ IH]; simpl; intros Hwf; [constructor|].
  apply andb_prop in Hwf as [He Hes]. constructor; auto.
Qed.

Lemma Visit_tag_ends fuel :
  (forall stack_ f f', ParserSpec.well_formed f = true ->
     Visit fuel stack_ f = ROk f' ->
     forallb tag_end_ok (nodes f') = true) /\
  (forall stack_ t t',
     ParserSpec.well_formed (tag_content t) &&
     negb (bool_decide (tag_end t = [])) = true ->
     VisitTag fuel stack_ t = ROk t' ->
     forallb tag_end_ok (nodes (FTag t')) = true).
Proof.
  induction fuel as [|fuel [IHf IHt]]; [split; discriminate|].
  assert (Htag : forall stack_ t t',
             ParserSpec.well_formed (tag_content t) &&
             negb (bool_decide (tag_end t = [])) = true ->
             VisitSub_Tag (Visit fuel (FTag t :: stack_)) t = ROk t' ->
             forallb tag_end_ok (nodes (FTag t')) = true).
  { intros stack_ t t' Hwf Ht.
    apply andb_prop in Hwf as [Hwf Hend].
    apply AnalyzerFacts.VisitSub_Tag_spec in Ht as (c' & Hc & -> & Hne).
    apply IHf in Hc; [|exact Hwf].
    simpl. rewrite Hc, andb_true_r.
    destruct (IsUnlimited c'); [reflexivity|].
    apply negb_true_iff in Hend. rewrite Hend. reflexivity. }
  assert (Htags : forall stack_ tags tags',
             forallb (fun tag => ParserSpec.well_formed (tag_content tag) &&
                        negb (bool_decide (tag_end tag = []))) tags = true ->
             visit_tags (VisitTag fuel stack_) tags = ROk tags' ->
             forallb tag_end_ok
               (flat_map (fun tag => FTag tag :: nodes (tag_content tag)) tags')
             = true).
  { intros stack_ tags tags' Hwf Hts.
    apply TreeFacts.forallb_flat_map.
    eapply (AnalyzerFacts.visit_tags_spec _
              (fun t t' =>
                 ParserSpec.well_formed (tag_content t) &&
                 negb (bool_decide (tag_end t = [])) = true ->
                 forallb tag_end_ok (FTag t' :: nodes (tag_content t')) = true))
      in Hts.
    - clear -Hts Hwf. induction Hts as [|t t' ts ts' H _ IH]; simpl in Hwf;
        [constructor|].
      apply andb_prop in Hwf as [Ht Hwf]. constructor; auto.
    - intros t t' Ht Hwf'. rewrite <- TreeFacts.nodes_tag. eapply IHt; eassumption. }
  split.
  - intros stack_ f f' Hwf. destruct f; cbn [Visit];
      try solve [intros [= <-]; reflexivity].
    + simpl in Hwf. apply andb_prop in Hwf as [_ Hwf].
      destruct (visit_sequence _ 0 elements) as [[es' u]|] eqn:Hseq;
        simpl; [|discriminate].
      intros [= <-].
      eapply (AnalyzerFacts.visit_sequence_spec _
                (fun e e' => ParserSpec.well_formed e = true ->
                             forallb tag_end_ok (nodes e') = true))
        in Hseq as (HF & _);
        [|intros e e' He Hwfe; eapply IHf; eassumption].
      simpl. apply TreeFacts.forallb_flat_map. eapply Forall2_wf; eassumption.
    + simpl in Hwf. apply andb_prop in Hwf as [_ Hwf].
      destruct (visit_or _ false true elements) as [[[es' any] all]|] eqn:Hor;
        simpl; [|discriminate].
      destruct (any && negb all); [discriminate|].
      intros [= <-].
      eapply (AnalyzerFacts.visit_or_spec _
                (fun e e' => ParserSpec.well_formed e = true ->
                             forallb tag_end_ok (nodes e') = true))
        in Hor as (HF & _);
        [|intros e e' He Hwfe; eapply IHf; eassumption].
      simpl. apply TreeFacts.forallb_flat_map. eapply Forall2_wf; eassumption.
    + destruct (VisitSub_Tag _ tag) as [t'|] eqn:Ht; simpl; [|discriminate].
      intros [= <-]. eapply Htag; [|exact Ht].
      destruct tag. exact Hwf.
    + simpl in Hwf. apply andb_prop in Hwf as [_ Hwf].
      destruct (visit_tags _ tags) as [tags'|] eqn:Hts; simpl; [|discriminate].
      intros [= <-]. simpl. eapply Htags; eassumption.
    + simpl in Hwf. apply andb_prop in Hwf as [_ Hwf].
      destruct (visit_tags _ tags) as [tags'|] eqn:Hts; simpl; [|discriminate].
      intros [= <-]. simpl. eapply Htags; eassumption.
  - intros stack_ t t' Hwf Ht. cbn [VisitTag] in Ht. eapply Htag; eassumption.
Qed.

(** X8.  In the analysis of a structural tag that the parser returned, a
    Tag is left without end strings exactly when its content is unlimited:
    the branch of the converter for a Tag with no end string is the
    unlimited-content case and no other. *)
Theorem tag_end_empty_iff_unlimited (serialize : json -> string)
    (parse_depth analyze_depth : nat) (value : json) (st st' : StructuralTag) :
  Parser.ParseStructuralTag serialize parse_depth value = ROk st ->
  Analyze analyze_depth st = ROk st' ->
  forallb tag_end_ok (nodes (format st')) = true.
Proof.
  intros Hparse. apply ParseStructuralTag_well_formed in Hparse.
  unfold Analyze.
  destruct (Visit analyze_depth [] (format st)) as [f'|e] eqn:Hv; simpl;
    [|discriminate].
  intros [= <-]. simpl.
  eapply (proj1 (Visit_tag_ends _)); eassumption.
Qed.

Lemma tag_end_empty_iff_unlimited_witness :
  forallb tag_end_ok
    (nodes (FTag (MkTag "<a>"
              (FSequence [FTag (MkTag "<b>" (FConstString "x") ["</b>"]);
                          FAnyText [] ["</a>"]] true) []))) = true.
Proof.
  apply (tag_end_empty_iff_unlimited (fun _ => EmptyString) 8 8
           (JObject [("format", JObject
              [("begin", JString "<a>");
               ("content", JObject [("elements", JArray
                  [JObject [("begin", JString "<b>");
                            ("content", JObject [("value", JString "x")]);
                            ("end", JString "</b>")];
                   JObject [("type", JString "any_text")]])]);
               ("end", JString "</a>")])])
           {| format := FTag (MkTag "<a>"
                (FSequence [FTag (MkTag "<b>" (FConstString "x") ["</b>"]);
                            FAnyText [] []] false) ["</a>"]) |}
           {| format := FTag (MkTag "<a>"
                (FSequence [FTag (MkTag "<b>" (FConstString "x") ["</b>"]);
                            FAnyText [] ["</a>"]] true) []) |});
    reflexivity.
Defined.

End AnalyzerInvariants.

(** ** Fingerprinter: what a fingerprint still tells *)

Module FingerprinterFacts.
Import Fingerprinter FormatSpec FingerprintSpec.

Lemma starts_with_app a b c s t :
  starts_with a b c s -> starts_with a b c (s +:+ t).
Proof. intros [rest ->]. eexists. reflexivity. Qed.

Lemma starts_with_append_each a b c result sep strs :
  starts_with a b c result -> starts_with a b c (append_each result sep strs).
Proof.
  unfold append_each. revert result.
  induction strs as [|s strs IH]; intros result H; simpl; [exact H|].
  apply IH. apply starts_with_app. exact H.
Qed.

Lemma starts_with_fold {A} (g : A -> string) a b c result (l : list A) :
  starts_with a b c result ->
  starts_with a b c (fold_left (fun result x => result +:+ g x) l result).
Proof.
  revert result. induction l as [|x l IH]; intros result H; simpl; [exact H|].
  apply IH. apply starts_with_app. exact H.
Qed.

Lemma starts_with_inj a b c a' b' c' s :
  starts_with a b c s -> starts_with a' b' c' s ->
  a = a' /\ b = b' /\ c = c'.
Proof. intros [r ->] [r' [= -> -> -> _]]. auto. Qed.

(** The first three characters of a fingerprint name the variant. *)
Lemma Compute_starts_with f :
  match f with
  | FConstString _ => starts_with "C" "S" ":"
  | FJSONSchema _ => starts_with "J" "S" ":"
  | FQwenXmlParameter _ => starts_with "Q" "X" ":"
  | FAnyText _ _ => starts_with "A" "T" ":"
  | FGrammar _ => starts_with "G" "R" ":"
  | FRegex _ _ => starts_with "R" "X" ":"
  | FSequence _ _ => starts_with "S" "Q" "["
  | FOr _ _ => starts_with "O" "R" "["
  | FTag _ => starts_with "T" "G" ":"
  | FTriggeredTags _ _ _ _ _ _ => starts_with "T" "T" ":"
  | FTagsWithSeparator _ _ _ _ _ => starts_with "T" "S" ":"
  end%char (Compute f).
Proof.
  unfold Compute.
  destruct f as [| | | | | p ex | | |[b c e]| |]; cbn [ComputeImpl];
    try (eexists; reflexivity).
  - apply starts_with_append_each, starts_with_app, starts_with_append_each.
    eexists. reflexivity.
  - destruct ex; [eexists; reflexivity|].
    apply starts_with_append_each. eexists. reflexivity.
  - apply starts_with_app, starts_with_fold. eexists. reflexivity.
  - apply starts_with_app, starts_with_fold. eexists. reflexivity.
  - apply starts_with_append_each. eexists. reflexivity.
  - apply starts_with_app, starts_with_app, starts_with_append_each.
    eexists. reflexivity.
Qed.

(** X9.  Two formats with the same fingerprint are of the same variant,
    and when one of them is a ConstString, a JSONSchema, a
    QwenXmlParameter or a Grammar they are the same format: a cache hit
    never replaces a format by one of another variant, nor one of these
    four by anything but itself. *)
Theorem fingerprint_keeps_variant (f g : Format) :
  Compute f = Compute g ->
  type_name f = type_name g /\ (is_text_leaf f = true -> f = g).
Proof.
  intros Heq.
  pose proof (Compute_starts_with f) as Hf.
  pose proof (Compute_starts_with g) as Hg.
  rewrite Heq in Hf.
  assert (Hkind : type_name f = type_name g).
  { destruct f, g; try reflexivity;
      destruct (starts_with_inj _ _ _ _ _ _ _ Hf Hg) as (Ha & Hb & Hc);
      discriminate. }
  split; [exact Hkind|].
  intros Hleaf. unfold Compute in Heq.
  destruct f; try discriminate Hleaf; destruct g; try discriminate Hkind;
    cbv [ComputeImpl String.append] in Heq; injection Heq as ->; reflexivity.
Qed.

Lemma fingerprint_keeps_variant_witness :
  type_name (FAnyText ["a|b"] []) = type_name (FAnyText ["a"; "b"] []) /\
  (is_text_leaf (FAnyText ["a|b"] []) = true ->
   FAnyText ["a|b"] [] = FAnyText ["a"; "b"] []).
Proof.
  apply (fingerprint_keeps_variant (FAnyText ["a|b"] []) (FAnyText ["a"; "b"] [])).
  reflexivity.
Defined.

End FingerprinterFacts.

(** ** Converter: prefixes *)

Module PrefixFacts.
Import Converter PrefixSpec.

Lemma substring_all s : substring 0 (String.length s) s = s.
Proof. induction s as [|a s IH]; simpl; [reflexivity|]. rewrite IH. reflexivity. Qed.

Lemma substring_0_0 s : substring 0 0 s = EmptyString.
Proof. destruct s; reflexivity. Qed.

Lemma IsPrefix_cons a prefix b full_str :
  IsPrefix (String a prefix) (String b full_str) =
  Ascii.eqb a b && IsPrefix prefix full_str.
Proof.
  unfold IsPrefix. simpl.
  rewrite (Ascii.eqb_sym b a).
  destruct (String.length prefix <=? String.length full_str);
    destruct (Ascii.eqb a b); reflexivity.
Qed.

Lemma substr_from_cons n b s :
  substr_from (S n) (String b s) = substr_from n s.
Proof. reflexivity. Qed.

Lemma IsPrefix_split prefix full_str :
  IsPrefix prefix full_str = true <->
  prefix +:+ substr_from (String.length prefix) full_str = full_str.
Proof.
  revert full_str. induction prefix as [|a prefix IH]; intros full_str.
  - unfold IsPrefix, substr_from. simpl.
    rewrite substring_0_0, Nat.sub_0_r, substring_all. split; reflexivity.
  - destruct full_str as [|b full_str].
    + split; discriminate.
    + rewrite IsPrefix_cons. cbn [String.length]. rewrite substr_from_cons.
      rewrite TreeFacts.append_cons, andb_true_iff, IH, Ascii.eqb_eq.
      split.
      * intros [-> H]. rewrite H. reflexivity.
      * intros [= -> H]. auto.
Qed.

(** X10.  [IsPrefix prefix full_str] holds exactly when [full_str] is
    [prefix] followed by some text, and that text is then
    [full_str.substr(prefix.size())]: the trigger of a tag followed by what
    the converter keeps of its begin string is the begin string. *)
Theorem IsPrefix_correct (prefix full_str : string) :
  (IsPrefix prefix full_str = true <-> is_prefix_of prefix full_str) /\
  (IsPrefix prefix full_str = true ->
   prefix +:+ substr_from (String.length prefix) full_str = full_str).
Proof.
  split; [|apply IsPrefix_split].
  rewrite IsPrefix_split. split.
  - intros H. eexists. symmetry. exact H.
  - intros [rest ->]. f_equal.
    induction prefix as [|a prefix IH].
    + unfold substr_from. simpl. rewrite Nat.sub_0_r. apply substring_all.
    + rewrite TreeFacts.append_cons. cbn [String.length].
      rewrite substr_from_cons. exact IH.
Qed.

Lemma IsPrefix_correct_witness :
  "<function=" +:+ substr_from (String.length "<function=") "<function=f>" =
  "<function=f>".
Proof.
  apply (proj2 (IsPrefix_correct "<function=" "<function=f>")). reflexivity.
Defined.

End PrefixFacts.

(** ** The exclusion automaton of a Regex with excludes *)

Module ExclusionFacts.
Import Exclusion ExclusionSpec.

Lemma byte_value_range c : (0 <= byte_value c < 256)%Z.
Proof.
  unfold byte_value. pose proof (N_ascii_bounded c) as H. lia.
Qed.

Lemma byte_value_inj c1 c2 : byte_value c1 = byte_value c2 -> c1 = c2.
Proof.
  unfold byte_value. intros H. apply N2Z.inj in H.
  rewrite <- (ascii_N_embedding c1), <- (ascii_N_embedding c2), H.
  reflexivity.
Qed.

Lemma edge_has_single ch e :
  single_byte e -> (FSM.edge_has ch e = true <-> FSM.min e = ch).
Proof.
  intros [Hmax Hrange]. unfold FSM.edge_has, FSM.IsCharRange. rewrite Hmax.
  rewrite !andb_true_iff, !Z.leb_le. lia.
Qed.

Lemma GetEdges_lookup m (s : nat) edges :
  m !! s = Some edges -> FSM.GetEdges m (Z.of_nat s) = edges.
Proof. unfold FSM.GetEdges. rewrite Nat2Z.id. intros ->. reflexivity. Qed.

Lemma GetEdges_elem m s e :
  e ∈ FSM.GetEdges m s ->
  exists edges, m !! Z.to_nat s = Some edges /\ e ∈ edges.
Proof.
  unfold FSM.GetEdges. destruct (m !! Z.to_nat s) as [edges|]; simpl.
  - eauto.
  - intros H. inversion H.
Qed.

Lemma GetEdges_Some m s edges :
  m !! Z.to_nat s = Some edges -> FSM.GetEdges m s = edges.
Proof.
  intros H. unfold FSM.GetEdges, FSM.t in *. rewrite H. reflexivity.
Qed.

Lemma GetNextState_find m s ch edges :
  m !! Z.to_nat s = Some edges ->
  FSM.GetNextState m s ch =
  match List.find (FSM.edge_has ch) edges with
  | Some e => FSM.target e
  | None => FSM.kNoNextState
  end.
Proof. unfold FSM.GetNextState, FSM.GetEdges. intros ->. reflexivity. Qed.

Lemma grows_refl m : grows m m.
Proof. intros s edges H. exists []. rewrite app_nil_r. exact H. Qed.

Lemma grows_trans m1 m2 m3 : grows m1 m2 -> grows m2 m3 -> grows m1 m3.
Proof.
  intros H12 H23 s edges H.
  destruct (H12 _ _ H) as [a1 H1]. destruct (H23 _ _ H1) as [a2 H2].
  exists (a1 ++ a2). rewrite app_assoc. exact H2.
Qed.

Lemma grows_GetEdges m m' s e :
  grows m m' -> e ∈ FSM.GetEdges m s -> e ∈ FSM.GetEdges m' s.
Proof.
  intros Hg He. apply GetEdges_elem in He as (edges & Hs & He).
  destruct (Hg _ _ Hs) as [added Hs']. unfold FSM.GetEdges. rewrite Hs'. simpl.
  apply elem_of_app. left. exact He.
Qed.

Lemma path_grows m m' s bs t : grows m m' -> path m s bs t -> path m' s bs t.
Proof.
  intros Hg. induction 1 as [|s e bs t He _ IH]; [constructor|].
  econstructor; [|exact IH]. eapply grows_GetEdges; eassumption.
Qed.

(** *** Step 1: the trie *)

Lemma walk_exclude_str_spec chars :
  forall m labels cur lc m' d,
    trie_inv m labels -> (0 <= cur)%Z ->
    labels !! Z.to_nat cur = Some lc ->
    walk_exclude_str m cur chars = (m', d) ->
    exists labels',
      trie_inv m' labels' /\
      (exists added, labels' = labels ++ added) /\
      grows m m' /\
      (0 <= d)%Z /\
      labels' !! Z.to_nat d = Some (lc ++ map byte_value chars) /\
      path m' cur (map byte_value chars) d.
Proof.
  induction chars as [|c rest IH]; intros m labels cur lc m' d Hinv Hcur Hlc.
  - simpl. intros [= <- <-]. exists labels. rewrite app_nil_r.
    split; [exact Hinv|]. split; [exists []; rewrite app_nil_r; reflexivity|].
    split; [apply grows_refl|]. split; [exact Hcur|].
    split; [exact Hlc|constructor].
  - cbn [walk_exclude_str]. cbv zeta.
    pose proof (byte_value_range c) as Hch.
    set (ch := byte_value c) in *.
    destruct Hinv as (Hlen & H0 & Hedges).
    assert (Hc : Z.to_nat cur < length m).
    { rewrite <- Hlen. eapply lookup_lt_Some. exact Hlc. }
    destruct (lookup_lt_is_Some_2 m _ Hc) as [edges Hcur_edges].
    destruct (Hedges _ _ Hcur_edges) as [Hnodup Hcur_inv].
    rewrite (GetNextState_find _ _ ch _ Hcur_edges).
    destruct (List.find (FSM.edge_has ch) edges) as [e|] eqn:Hfind.
    + (* the byte has an edge already *)
      apply find_some in Hfind as [Hin Hhas].
      apply list_elem_of_In in Hin.
      destruct (Hcur_inv e Hin) as (Hsingle & Htarget & l & Hl & Hnext).
      rewrite Hlc in Hl. injection Hl as <-.
      apply edge_has_single in Hhas; [|exact Hsingle].
      replace (FSM.target e =? FSM.kNoNextState)%Z with false
        by (symmetry; apply Z.eqb_neq; unfold FSM.kNoNextState; lia).
      intros Hwalk.
      rewrite Hhas in Hnext.
      destruct (IH m labels (FSM.target e) (lc ++ [ch]) m' d
                  (conj Hlen (conj H0 Hedges)) Htarget Hnext Hwalk)
        as (labels' & Hinv' & Hext & Hg & Hd & Hld & Hpath).
      exists labels'. split; [exact Hinv'|]. split; [exact Hext|].
      split; [exact Hg|]. split; [exact Hd|]. split.
      * rewrite Hld, <- app_assoc. reflexivity.
      * simpl. fold ch. rewrite <- Hhas. econstructor; [|exact Hpath].
        eapply grows_GetEdges; [exact Hg|].
        rewrite (GetEdges_Some _ _ _ Hcur_edges). exact Hin.
    + (* a new state and a new edge *)
      replace (FSM.kNoNextState =? FSM.kNoNextState)%Z with true by reflexivity.
      unfold FSM.AddState, FSM.AddEdge, FSM.SetEdges, FSM.NumStates.
      rewrite (GetEdges_Some _ _ _ (lookup_app_l_Some _ [[]] _ _ Hcur_edges)).
      set (new := {| FSM.min := ch; FSM.max := ch;
                     FSM.target := Z.of_nat (length m) |}).
      set (m1 := <[Z.to_nat cur := edges ++ [new]]> (m ++ [[]])).
      intros Hwalk.
      assert (Hfresh : ch ∉ FSM.min <$> edges).
      { intros Hin. apply list_elem_of_fmap in Hin as (e & Hmin & Hin).
        pose proof (find_none _ _ Hfind e (proj1 (list_elem_of_In _ _) Hin))
          as Hno.
        destruct (Hcur_inv e Hin) as (Hsingle & _).
        apply (edge_has_single ch) in Hsingle.
        rewrite (proj2 Hsingle (eq_sym Hmin)) in Hno. discriminate. }
      assert (Hinv1 : trie_inv m1 (labels ++ [lc ++ [ch]])).
      { split; [|split].
        - subst m1. unfold FSM.t in *.
          rewrite length_insert, !length_app, Hlen. reflexivity.
        - apply lookup_app_l_Some. exact H0.
        - intros s edges' Hs. subst m1. unfold FSM.t in *.
          destruct (decide (s = Z.to_nat cur)) as [->|Hne].
          + rewrite list_lookup_insert_eq in Hs
              by (rewrite length_app; simpl; lia).
            injection Hs as <-. split.
            * rewrite fmap_app. apply NoDup_app. split; [exact Hnodup|].
              split; [|apply NoDup_singleton].
              intros x Hx Hx'. apply list_elem_of_singleton in Hx'. subst x.
              exact (Hfresh Hx).
            * intros e He. apply elem_of_app in He as [He|He].
              -- destruct (Hcur_inv e He) as (Hsingle & Htarget & l & Hl & Hnext).
                 repeat split; try apply Hsingle; auto.
                 exists l. split; apply lookup_app_l_Some; assumption.
              -- apply list_elem_of_singleton in He. subst e.
                 repeat split; simpl; try lia.
                 exists lc. split; [apply lookup_app_l_Some; exact Hlc|].
                 rewrite Nat2Z.id, <- Hlen. apply list_lookup_middle. reflexivity.
          + rewrite list_lookup_insert_ne in Hs by auto.
            destruct (decide (s < length m)) as [Hlt|Hge].
            * rewrite lookup_app_l in Hs by exact Hlt.
              destruct (Hedges _ _ Hs) as [Hnd Hs_inv]. split; [exact Hnd|].
              intros e He.
              destruct (Hs_inv e He) as (Hsingle & Htarget & l & Hl & Hnext).
              repeat split; try apply Hsingle; auto.
              exists l. split; apply lookup_app_l_Some; assumption.
            * rewrite lookup_app_r in Hs by lia.
              destruct (s - length m) as [|k]; simpl in Hs; [|discriminate].
              injection Hs as <-. split; [constructor|].
              intros e He. inversion He. }
      assert (Hg1 : grows m m1).
      { intros s edges' Hs. subst m1. unfold FSM.t in *.
        destruct (decide (s = Z.to_nat cur)) as [->|Hne].
        - rewrite Hcur_edges in Hs. injection Hs as <-.
          exists [new]. apply list_lookup_insert_eq.
          rewrite length_app. simpl. lia.
        - exists []. rewrite app_nil_r, list_lookup_insert_ne by auto.
          apply lookup_app_l_Some. exact Hs. }
      assert (Hnew : (labels ++ [lc ++ [ch]]) !! Z.to_nat (Z.of_nat (length m))
                     = Some (lc ++ [ch])).
      { rewrite Nat2Z.id, <- Hlen. apply list_lookup_middle. reflexivity. }
      destruct (IH m1 _ (Z.of_nat (length m)) (lc ++ [ch]) m' d
                  Hinv1 (Nat2Z.is_nonneg _) Hnew Hwalk)
        as (labels' & Hinv' & [added Hext] & Hg & Hd & Hld & Hpath).
      exists labels'. split; [exact Hinv'|]. split; [|split; [|split; [exact Hd|split]]].
      * exists ([lc ++ [ch]] ++ added). rewrite Hext, app_assoc. reflexivity.
      * eapply grows_trans; eassumption.
      * rewrite Hld, <- app_assoc. reflexivity.
      * simpl. fold ch. change ch with (FSM.min new).
        econstructor; [|exact Hpath].
        eapply grows_GetEdges; [exact Hg|].
        assert (Hm1 : m1 !! Z.to_nat cur = Some (edges ++ [new])).
        { subst m1. unfold FSM.t in *. apply list_lookup_insert_eq.
          rewrite length_app. simpl. lia. }
        rewrite (GetEdges_Some _ _ _ Hm1).
        apply elem_of_app. right. apply list_elem_of_singleton.
        reflexivity.
Qed.

Lemma trie_inv_init : trie_inv [[]] [[]].
Proof.
  split; [reflexivity|]. split; [reflexivity|].
  intros [|s] edges Hs; [|discriminate]. injection Hs as <-.
  split; [constructor|]. intros e He. inversion He.
Qed.

Lemma build_trie_fold strs :
  forall m dead labels done r,
    trie_inv m labels -> dead_inv m labels dead done ->
    fold_left
      (fun '(exclude_fsm, dead_states) exclude_str =>
         let '(exclude_fsm, current_state) :=
           walk_exclude_str exclude_fsm 0 (list_ascii_of_string exclude_str) in
         (exclude_fsm, {[current_state]} ∪ dead_states))
      strs (m, dead) = r ->
    exists labels', trie_inv r.1 labels' /\ dead_inv r.1 labels' r.2 (done ++ strs).
Proof.
  induction strs as [|x strs IH]; intros m dead labels done r Hinv Hdead.
  - simpl. intros <-. exists labels. rewrite app_nil_r. split; assumption.
  - cbn [fold_left].
    destruct (walk_exclude_str m 0 (list_ascii_of_string x)) as [m1 d] eqn:Hwalk.
    intros Hr.
    destruct (walk_exclude_str_spec _ m labels 0%Z [] m1 d Hinv
                (Z.le_refl 0) (proj1 (proj2 Hinv)) Hwalk)
      as (labels1 & Hinv1 & [added Hext] & Hg & Hd & Hld & Hpath).
    replace (done ++ x :: strs) with ((done ++ [x]) ++ strs)
      by (rewrite <- app_assoc; reflexivity).
    eapply (IH m1 ({[d]} ∪ dead) labels1 (done ++ [x]) r Hinv1); [|exact Hr].
    destruct Hdead as [Hdead1 Hdead2]. split.
    + intros d0 Hd0. apply elem_of_union in Hd0 as [Hd0|Hd0].
      * apply elem_of_singleton in Hd0. subst d0. split; [exact Hd|].
        exists x. split; [apply elem_of_app; right; apply list_elem_of_singleton;
                          reflexivity|].
        exact Hld.
      * destruct (Hdead1 d0 Hd0) as (Hpos & x0 & Hx0 & Hl). split; [exact Hpos|].
        exists x0. split; [apply elem_of_app; left; exact Hx0|].
        rewrite Hext. apply lookup_app_l_Some. exact Hl.
    + intros x0 Hx0. apply elem_of_app in Hx0 as [Hx0|Hx0].
      * destruct (Hdead2 x0 Hx0) as (d0 & Hd0 & Hp). exists d0.
        split; [apply elem_of_union; right; exact Hd0|].
        eapply path_grows; eassumption.
      * apply list_elem_of_singleton in Hx0. subst x0. exists d.
        split; [apply elem_of_union; left; apply elem_of_singleton; reflexivity|].
        exact Hpath.
Qed.

Lemma build_trie_spec excluded_strs :
  exists m dead labels,
    build_trie excluded_strs = (m, dead) /\
    trie_inv m labels /\ dead_inv m labels dead excluded_strs.
Proof.
  destruct (build_trie excluded_strs) as [m dead] eqn:Hb.
  unfold build_trie in Hb.
  destruct (build_trie_fold excluded_strs [[]] ∅ [[]] [] _ trie_inv_init
              (conj (fun d Hd => False_ind _ (not_elem_of_empty d Hd))
                    (fun x Hx => False_ind _ (not_elem_of_nil x Hx))) Hb)
    as (labels & Hinv & Hdead).
  exists m, dead, labels. auto.
Qed.

(** *** Step 2: the edges back to the start state *)

Lemma seqZ_one x : seqZ x 1 = [x].
Proof. rewrite seqZ_cons by lia. rewrite seqZ_nil by lia. reflexivity. Qed.

Lemma covered_bytes_fold edges :
  Forall single_byte edges ->
  forall (acc : gset Z) b,
    b ∈ fold_left
          (fun covered_bytes edge =>
             fold_left (fun covered_bytes b => {[b]} ∪ covered_bytes)
               (seqZ (FSM.min edge) (FSM.max edge - FSM.min edge + 1))
               covered_bytes)
          edges acc <->
    b ∈ acc \/ b ∈ FSM.min <$> edges.
Proof.
  induction 1 as [|e edges [Hmax _] _ IH]; intros acc b; simpl.
  - rewrite elem_of_nil. tauto.
  - rewrite IH, Hmax.
    replace (FSM.min e - FSM.min e + 1)%Z with 1%Z by lia.
    rewrite seqZ_one. simpl.
    rewrite elem_of_union, elem_of_singleton, elem_of_cons. tauto.
Qed.

Lemma covered_bytes_of_spec edges b :
  Forall single_byte edges ->
  b ∈ covered_bytes_of edges <-> b ∈ FSM.min <$> edges.
Proof.
  intros H. unfold covered_bytes_of. rewrite (covered_bytes_fold _ H).
  rewrite elem_of_empty. tauto.
Qed.

Lemma copy_start_edges_spec start_edges :
  forall edges (covered : gset Z),
    (forall b, b ∈ covered <-> b ∈ FSM.min <$> edges) ->
    NoDup (FSM.min <$> edges) ->
    exists added covered',
      copy_start_edges start_edges edges covered = (edges ++ added, covered') /\
      (forall b, b ∈ covered' <-> b ∈ FSM.min <$> (edges ++ added)) /\
      NoDup (FSM.min <$> (edges ++ added)) /\
      (forall e, e ∈ added -> e ∈ start_edges).
Proof.
  unfold copy_start_edges.
  induction start_edges as [|e0 start_edges IH]; intros edges covered Hcov Hnd.
  - exists [], covered. simpl. rewrite app_nil_r.
    split; [reflexivity|]. split; [exact Hcov|]. split; [exact Hnd|].
    intros e He. inversion He.
  - cbn [fold_left].
    destruct (decide (FSM.min e0 ∈ covered)) as [Hin|Hnot].
    + destruct (IH edges covered Hcov Hnd) as (added & covered' & Heq & H1 & H2 & H3).
      exists added, covered'. split; [exact Heq|]. split; [exact H1|].
      split; [exact H2|]. intros e He. right. exact (H3 e He).
    + destruct (IH (edges ++ [e0]) ({[FSM.min e0]} ∪ covered))
        as (added & covered' & Heq & H1 & H2 & H3).
      * intros b. rewrite elem_of_union, elem_of_singleton, fmap_app, elem_of_app.
        rewrite Hcov. simpl. rewrite list_elem_of_singleton. tauto.
      * rewrite fmap_app. apply NoDup_app. split; [exact Hnd|].
        split; [|apply NoDup_singleton].
        intros x Hx Hx'. simpl in Hx'. apply list_elem_of_singleton in Hx'.
        subst x. apply Hnot, Hcov, Hx.
      * exists ([e0] ++ added), covered'. rewrite app_assoc.
        split; [exact Heq|]. split; [exact H1|]. split; [exact H2|].
        intros e He. apply elem_of_app in He as [He|He].
        -- apply list_elem_of_singleton in He. subst e. left.
        -- right. exact (H3 e He).
Qed.

Lemma fill_gaps_fold (covered : gset Z) bs :
  forall edges,
    fold_left
      (fun edges b =>
         if decide (b ∈ covered) then edges
         else edges ++ [{| FSM.min := b; FSM.max := b;
                           FSM.target := exclude_start |}])
      bs edges =
    edges ++ ((fun b => {| FSM.min := b; FSM.max := b;
                           FSM.target := exclude_start |}) <$>
              filter (fun b => b ∉ covered) bs).
Proof.
  induction bs as [|b bs IH]; intros edges; simpl.
  - rewrite app_nil_r. reflexivity.
  - rewrite IH. rewrite filter_cons.
    destruct (decide (b ∈ covered)) as [Hin|Hnot].
    + rewrite decide_False by (intros H; exact (H Hin)). reflexivity.
    + rewrite decide_True by exact Hnot. rewrite <- app_assoc. reflexivity.
Qed.

Lemma fill_gaps_spec edges (covered : gset Z) :
  (forall b, b ∈ covered <-> b ∈ FSM.min <$> edges) ->
  NoDup (FSM.min <$> edges) ->
  exists gaps,
    fill_gaps edges covered = edges ++ gaps /\
    NoDup (FSM.min <$> (edges ++ gaps)) /\
    (forall b, (0 <= b < 256)%Z ->
       exists e, e ∈ edges ++ gaps /\ FSM.min e = b) /\
    (forall e, e ∈ gaps -> single_byte e /\ FSM.target e = 0%Z).
Proof.
  intros Hcov Hnd. unfold fill_gaps. rewrite fill_gaps_fold.
  set (mk := fun b => {| FSM.min := b; FSM.max := b;
                         FSM.target := exclude_start |}).
  set (bs := filter (fun b => b ∉ covered) (seqZ 0 256)).
  assert (Hmins : FSM.min <$> (mk <$> bs) = bs).
  { rewrite <- list_fmap_compose. apply list_fmap_id. }
  exists (mk <$> bs). split; [reflexivity|]. split; [|split].
  - rewrite fmap_app, Hmins. apply NoDup_app. split; [exact Hnd|]. split.
    + intros x Hx Hx'. subst bs. apply list_elem_of_filter in Hx' as [Hx' _].
      apply Hx', Hcov, Hx.
    + subst bs. apply NoDup_filter, NoDup_seqZ.
  - intros b Hb. destruct (decide (b ∈ covered)) as [Hin|Hnot].
    + apply Hcov, list_elem_of_fmap in Hin as (e & He & Hin).
      exists e. split; [apply elem_of_app; left; exact Hin|auto].
    + exists (mk b). split; [|reflexivity].
      apply elem_of_app. right. apply list_elem_of_fmap_2. subst bs.
      apply list_elem_of_filter. split; [exact Hnot|].
      apply elem_of_seqZ. lia.
  - intros e He. apply list_elem_of_fmap in He as (b & -> & Hb). subst bs.
    apply list_elem_of_filter in Hb as [_ Hb]. apply elem_of_seqZ in Hb.
    split; [|reflexivity]. split; simpl; lia.
Qed.

Lemma trie_edges_single m labels (s : nat) edges :
  trie_inv m labels -> m !! s = Some edges -> Forall single_byte edges.
Proof.
  intros (_ & _ & Hedges) Hs. apply Forall_forall. intros e He.
  destruct (Hedges _ _ Hs) as [_ H]. apply (H e He).
Qed.

Lemma start_edges_ok m labels dead edges0 e :
  trie_inv m labels -> back_edges_ok m dead 0 edges0 -> e ∈ edges0 ->
  single_byte e /\ (FSM.target e = 0%Z \/ e ∈ FSM.GetEdges m 0).
Proof.
  intros Hinv (trie0 & H0 & Hok) He.
  assert (Htrie : forall e, e ∈ trie0 ->
            single_byte e /\ (FSM.target e = 0%Z \/ e ∈ FSM.GetEdges m 0)).
  { intros e' He'. split.
    - pose proof (trie_edges_single _ _ _ _ Hinv H0) as Hs.
      rewrite Forall_forall in Hs. exact (Hs e' He').
    - right. rewrite (GetEdges_Some m 0 trie0 H0). exact He'. }
  destruct (decide (Z.of_nat 0 ∈ dead)).
  - subst edges0. exact (Htrie e He).
  - destruct Hok as (extra & -> & _ & _ & Hextra).
    apply elem_of_app in He as [He|He]; [exact (Htrie e He)|exact (Hextra e He)].
Qed.

Lemma add_back_edges_at_spec m labels dead (mk : FSM.t) (k : nat) :
  trie_inv m labels ->
  k < length m ->
  length mk = length m ->
  (forall s : nat, s < k ->
     exists edges', mk !! s = Some edges' /\ back_edges_ok m dead s edges') ->
  (forall s : nat, k <= s -> mk !! s = m !! s) ->
  length (add_back_edges_at dead mk (Z.of_nat k)) = length m /\
  (forall s : nat, s < S k ->
     exists edges', add_back_edges_at dead mk (Z.of_nat k) !! s = Some edges' /\
                    back_edges_ok m dead s edges') /\
  (forall s : nat, S k <= s ->
     add_back_edges_at dead mk (Z.of_nat k) !! s = m !! s).
Proof.
  intros Hinv Hk Hlen Hdone Htodo. unfold FSM.t in *.
  destruct (lookup_lt_is_Some_2 m k Hk) as [trie_k Htrie].
  assert (Hmk : mk !! k = Some trie_k) by (rewrite Htodo by lia; exact Htrie).
  unfold add_back_edges_at.
  destruct (decide (Z.of_nat k ∈ dead)) as [Hdead|Halive].
  - split; [exact Hlen|]. split.
    + intros s Hs. destruct (decide (s = k)) as [->|Hne].
      * exists trie_k. split; [exact Hmk|]. exists trie_k. split; [exact Htrie|].
        rewrite decide_True by exact Hdead. reflexivity.
      * apply Hdone. lia.
    + intros s Hs. apply Htodo. lia.
  - rewrite (GetEdges_lookup mk k trie_k Hmk).
    pose proof (trie_edges_single _ _ _ _ Hinv Htrie) as Hsingle.
    assert (Hnd : NoDup (FSM.min <$> trie_k)).
    { destruct Hinv as (_ & _ & Hedges). apply (Hedges _ _ Htrie). }
    assert (Hcov : forall b, b ∈ covered_bytes_of trie_k <-> b ∈ FSM.min <$> trie_k).
    { intros b. apply covered_bytes_of_spec. exact Hsingle. }
    assert (Hfinal : exists extra edges covered_bytes,
              (if (Z.of_nat k =? exclude_start)%Z
               then (trie_k, covered_bytes_of trie_k)
               else copy_start_edges (FSM.GetEdges mk exclude_start) trie_k
                      (covered_bytes_of trie_k)) = (edges, covered_bytes) /\
              fill_gaps edges covered_bytes = trie_k ++ extra /\
              NoDup (FSM.min <$> (trie_k ++ extra)) /\
              (forall b, (0 <= b < 256)%Z ->
                 exists e, e ∈ trie_k ++ extra /\ FSM.min e = b) /\
              forall e, e ∈ extra ->
                single_byte e /\ (FSM.target e = 0%Z \/ e ∈ FSM.GetEdges m 0)).
    { destruct k as [|k'].
      - destruct (fill_gaps_spec trie_k _ Hcov Hnd) as (gaps & Hfill & H1 & H2 & H3).
        exists gaps, trie_k, (covered_bytes_of trie_k).
        split; [reflexivity|]. split; [exact Hfill|].
        split; [exact H1|]. split; [exact H2|].
        intros e He. destruct (H3 e He) as [Hs Ht]. auto.
      - replace (Z.of_nat (S k') =? exclude_start)%Z with false
          by (symmetry; apply Z.eqb_neq; unfold exclude_start; lia).
        destruct (Hdone 0 (Nat.lt_0_succ k')) as (edges0 & Hmk0 & Hok0).
        change exclude_start with (Z.of_nat 0).
        rewrite (GetEdges_lookup mk 0 edges0 Hmk0).
        destruct (copy_start_edges_spec edges0 trie_k _ Hcov Hnd)
          as (added & covered' & Hcopy & Hcov' & Hnd' & Hadded).
        destruct (fill_gaps_spec _ _ Hcov' Hnd') as (gaps & Hfill & H1 & H2 & H3).
        exists (added ++ gaps), (trie_k ++ added), covered'.
        rewrite app_assoc.
        split; [exact Hcopy|]. split; [exact Hfill|].
        split; [exact H1|]. split; [exact H2|].
        intros e He. apply elem_of_app in He as [He|He].
        + eapply start_edges_ok; eauto.
        + destruct (H3 e He) as [Hs Ht]. auto. }
    destruct Hfinal as (extra & edges1 & cov1 & Hpair & Heq & Hnd' & Hall & Hextra).
    rewrite Hpair, Heq.
    unfold FSM.SetEdges. rewrite Nat2Z.id. unfold FSM.t in *.
    split; [rewrite length_insert; exact Hlen|]. split.
    + intros s Hs. destruct (decide (s = k)) as [->|Hne].
      * exists (trie_k ++ extra).
        split; [apply list_lookup_insert_eq; lia|].
        exists trie_k. split; [exact Htrie|].
        rewrite decide_False by exact Halive.
        exists extra. auto.
      * rewrite list_lookup_insert_ne by auto. apply Hdone. lia.
    + intros s Hs. rewrite list_lookup_insert_ne by lia. apply Htodo. lia.
Qed.

Lemma add_back_edges_prefix m labels dead (k : nat) :
  trie_inv m labels -> k <= length m ->
  length (fold_left (add_back_edges_at dead) (seqZ 0 (Z.of_nat k)) m) = length m /\
  (forall s : nat, s < k ->
     exists edges',
       fold_left (add_back_edges_at dead) (seqZ 0 (Z.of_nat k)) m !! s
         = Some edges' /\
       back_edges_ok m dead s edges') /\
  (forall s : nat, k <= s ->
     fold_left (add_back_edges_at dead) (seqZ 0 (Z.of_nat k)) m !! s = m !! s).
Proof.
  intros Hinv. induction k as [|k IH]; intros Hk.
  - simpl. split; [reflexivity|]. split; [intros s Hs; lia|reflexivity].
  - destruct (IH ltac:(lia)) as (Hlen & Hdone & Htodo).
    rewrite seqZ_S, fold_left_app. cbn [fold_left]. rewrite Z.add_0_l.
    eapply add_back_edges_at_spec; eauto.
Qed.

Lemma fmap_map {A B} (g : A -> B) (l : list A) : map g l = g <$> l.
Proof. reflexivity. Qed.

(** What [exclude_filter] returns. *)
Lemma exclude_filter_spec excluded_strs :
  exists m dead labels,
    trie_inv m labels /\ dead_inv m labels dead excluded_strs /\
    filter_of m dead (exclude_filter excluded_strs).
Proof.
  destruct (build_trie_spec excluded_strs) as (m & dead & labels & Hb & Hinv & Hdead).
  exists m, dead, labels. split; [exact Hinv|]. split; [exact Hdead|].
  unfold exclude_filter. rewrite Hb.
  destruct (add_back_edges_prefix m labels dead (length m) Hinv (le_n _))
    as (Hlen & Hdone & _).
  unfold add_back_edges, FSM.NumStates.
  set (m2 := fold_left (add_back_edges_at dead) (seqZ 0 (Z.of_nat (length m))) m)
    in *.
  unfold remove_dead_edges, exclude_is_end, FSM.NumStates.
  rewrite !fmap_map.
  split; [reflexivity|]. cbn [fsm ends]. unfold FSM.t in *.
  split; [rewrite length_fmap; exact Hlen|]. split.
  - intros s Hs. destruct (Hdone s Hs) as (edges' & Hs' & Hok).
    exists edges'. split; [exact Hok|].
    rewrite list_lookup_fmap, Hs'. reflexivity.
  - intros s Hs. rewrite list_lookup_fmap, length_fmap, Hlen.
    rewrite lookup_seqZ_lt by lia. rewrite Z.add_0_l. reflexivity.
Qed.

(** *** The automaton that comes out *)

Lemma back_edges_shape m labels dead (s : nat) edges' :
  trie_inv m labels -> back_edges_ok m dead s edges' ->
  Forall single_byte edges' /\ NoDup (FSM.min <$> edges') /\
  exists trie_edges, m !! s = Some trie_edges /\
                     forall e, e ∈ trie_edges -> e ∈ edges'.
Proof.
  intros Hinv (trie_s & Hs & Hok).
  pose proof (trie_edges_single _ _ _ _ Hinv Hs) as Hsingle.
  destruct (decide (Z.of_nat s ∈ dead)).
  - subst edges'. split; [exact Hsingle|]. split.
    + destruct Hinv as (_ & _ & Hedges). apply (Hedges _ _ Hs).
    + exists trie_s. auto.
  - destruct Hok as (extra & -> & Hnd & _ & Hextra). split; [|split].
    + apply Forall_app. split; [exact Hsingle|].
      apply Forall_forall. intros e He. apply (Hextra e He).
    + exact Hnd.
    + exists trie_s. split; [exact Hs|]. intros e He.
      apply elem_of_app. left. exact He.
Qed.

Lemma filter_of_edges m dead a s e :
  filter_of m dead a -> e ∈ FSM.GetEdges (fsm a) s ->
  Z.to_nat s < length m /\
  (FSM.target e ∉ dead) /\
  exists edges', back_edges_ok m dead (Z.to_nat s) edges' /\ e ∈ edges'.
Proof.
  intros (_ & Hlen & Hedges & _) He.
  apply GetEdges_elem in He as (edges & Hs & He).
  assert (Hlt : Z.to_nat s < length m).
  { rewrite <- Hlen. eapply lookup_lt_Some. exact Hs. }
  destruct (Hedges _ Hlt) as (edges' & Hok & Hs').
  unfold FSM.t in *. rewrite Hs in Hs'. injection Hs' as ->.
  apply list_elem_of_filter in He as [Hp He].
  split; [exact Hlt|]. split; [exact Hp|]. exists edges'. auto.
Qed.

Lemma min_inj_NoDup (edges : list FSM.FSMEdge) e1 e2 :
  NoDup (FSM.min <$> edges) -> e1 ∈ edges -> e2 ∈ edges ->
  FSM.min e1 = FSM.min e2 -> e1 = e2.
Proof.
  induction edges as [|e edges IH]; intros Hnd H1 H2 Heq.
  - inversion H1.
  - rewrite fmap_cons in Hnd. apply NoDup_cons in Hnd as [Hnot Hnd].
    apply elem_of_cons in H1 as [->|H1]; apply elem_of_cons in H2 as [->|H2];
      auto.
    + exfalso. apply Hnot. rewrite Heq. apply list_elem_of_fmap_2. exact H2.
    + exfalso. apply Hnot. rewrite <- Heq. apply list_elem_of_fmap_2. exact H1.
Qed.

Lemma step_elem m states ch t :
  In t (Run.step m states ch) <->
  exists s e, In s states /\ e ∈ FSM.GetEdges m s /\
              FSM.edge_has ch e = true /\ FSM.target e = t.
Proof.
  unfold Run.step. rewrite in_flat_map. split.
  - intros (s & Hs & Ht). apply in_map_iff in Ht as (e & <- & He).
    apply list_elem_of_In, list_elem_of_filter in He as [Hhas He].
    exists s, e. auto.
  - intros (s & e & Hs & He & Hhas & <-). exists s. split; [exact Hs|].
    apply in_map. apply list_elem_of_In, list_elem_of_filter. auto.
Qed.

Lemma run_snoc m states w b :
  Run.run m states (w ++ [b]) = Run.step m (Run.run m states w) b.
Proof. unfold Run.run. rewrite fold_left_app. reflexivity. Qed.

Lemma run_app m states w1 w2 :
  Run.run m states (w1 ++ w2) = Run.run m (Run.run m states w1) w2.
Proof. unfold Run.run. apply fold_left_app. Qed.

Lemma run_nil m w : Run.run m [] w = [].
Proof. induction w as [|b w IH]; [reflexivity|exact IH]. Qed.

(** The determinism that the flag [is_dfa] announces. *)
Lemma edges_deterministic (edges : list FSM.FSMEdge) ch :
  Forall single_byte edges -> NoDup (FSM.min <$> edges) ->
  forall (P : FSM.FSMEdge -> Prop) `{!forall e, Decision (P e)},
    length (filter (fun e => FSM.edge_has ch e = true) (filter P edges)) <= 1.
Proof.
  intros Hsingle Hnd P Hdec.
  destruct (filter (fun e => FSM.edge_has ch e = true) (filter P edges))
    as [|e1 [|e2 rest]] eqn:Hf; simpl; try lia.
  exfalso.
  assert (H1 : e1 ∈ filter (fun e => FSM.edge_has ch e = true) (filter P edges))
    by (rewrite Hf; left).
  assert (H2 : e2 ∈ filter (fun e => FSM.edge_has ch e = true) (filter P edges))
    by (rewrite Hf; right; left).
  assert (Hnd' : NoDup (filter (fun e => FSM.edge_has ch e = true)
                          (filter P edges))).
  { apply NoDup_filter, NoDup_filter. eapply NoDup_fmap_1. exact Hnd. }
  apply list_elem_of_filter in H1 as [Hh1 H1].
  apply list_elem_of_filter in H1 as [_ H1].
  apply list_elem_of_filter in H2 as [Hh2 H2].
  apply list_elem_of_filter in H2 as [_ H2].
  rewrite Forall_forall in Hsingle.
  apply (edge_has_single ch) in Hh1; [|exact (Hsingle _ H1)].
  apply (edge_has_single ch) in Hh2; [|exact (Hsingle _ H2)].
  assert (e1 = e2) by (eapply min_inj_NoDup; eauto; congruence).
  subst e2. rewrite Hf in Hnd'. apply NoDup_cons in Hnd' as [Hnot _].
  apply Hnot. left.
Qed.

(** X11.  The exclusion automaton is deterministic, as the flag it is built
    with says: from any state, on any byte, there is at most one next
    state. *)
Theorem exclusion_automaton_deterministic (excluded_strs : list string)
    (state ch : Z) :
  length (Run.step (fsm (exclude_filter excluded_strs)) [state] ch) <= 1.
Proof.
  destruct (exclude_filter_spec excluded_strs)
    as (m & dead & labels & Hinv & _ & Hfilter).
  unfold Run.step. simpl. rewrite app_nil_r, length_map.
  unfold FSM.GetEdges.
  destruct (fsm (exclude_filter excluded_strs) !! Z.to_nat state)
    as [edges|] eqn:Hs; simpl; [|lia].
  destruct Hfilter as (_ & Hlen & Hedges & _).
  assert (Hlt : Z.to_nat state < length m).
  { rewrite <- Hlen. eapply lookup_lt_Some. exact Hs. }
  destruct (Hedges _ Hlt) as (edges' & Hok & Hs').
  unfold FSM.t in *. rewrite Hs in Hs'. injection Hs' as ->.
  destruct (back_edges_shape _ _ _ _ _ Hinv Hok) as (Hsingle & Hnd & _).
  apply edges_deterministic; assumption.
Qed.

(** *** Strings without an excluded string are accepted *)

Lemma bytes_of_app s1 s2 :
  Run.bytes_of (s1 +:+ s2) = Run.bytes_of s1 ++ Run.bytes_of s2.
Proof.
  unfold Run.bytes_of. induction s1 as [|a s1 IH]; [reflexivity|].
  change (String a s1 +:+ s2) with (String a (s1 +:+ s2)).
  simpl. f_equal. exact IH.
Qed.

Lemma bytes_of_range s : Forall (fun b => (0 <= b < 256)%Z) (Run.bytes_of s).
Proof.
  unfold Run.bytes_of. apply Forall_forall. intros b Hb.
  apply list_elem_of_In, in_map_iff in Hb as (c & <- & _).
  apply byte_value_range.
Qed.

Lemma map_byte_value_inj l1 l2 :
  map byte_value l1 = map byte_value l2 -> l1 = l2.
Proof.
  revert l2. induction l1 as [|a l1 IH]; intros [|b l2]; simpl;
    try discriminate; [reflexivity|].
  intros [= Hab Hl]. f_equal; [apply byte_value_inj; exact Hab|auto].
Qed.

Lemma string_of_list_ascii_app l1 l2 :
  string_of_list_ascii (l1 ++ l2) =
  string_of_list_ascii l1 +:+ string_of_list_ascii l2.
Proof.
  induction l1 as [|a l1 IH]; [reflexivity|].
  simpl.
  change (String a (string_of_list_ascii l1) +:+ string_of_list_ascii l2)
    with (String a (string_of_list_ascii l1 +:+ string_of_list_ascii l2)).
  f_equal. exact IH.
Qed.

Lemma occurs_bytes x s :
  occurs (Run.bytes_of x) (Run.bytes_of s) -> occurs_in x s.
Proof.
  intros (before & after & Heq). unfold Run.bytes_of in Heq.
  apply map_eq_app in Heq as (c1 & c23 & Hs & _ & H23).
  apply map_eq_app in H23 as (c2 & c3 & -> & Hx & _).
  apply map_byte_value_inj in Hx. subst c2.
  exists (string_of_list_ascii c1), (string_of_list_ascii c3).
  rewrite <- (string_of_list_ascii_of_string s), Hs.
  rewrite !string_of_list_ascii_app, string_of_list_ascii_of_string.
  reflexivity.
Qed.

Lemma run_alive m dead labels a excluded_strs :
  trie_inv m labels -> dead_inv m labels dead excluded_strs ->
  filter_of m dead a ->
  forall w,
    Forall (fun b => (0 <= b < 256)%Z) w ->
    (forall x, x ∈ excluded_strs -> ~ occurs (Run.bytes_of x) w) ->
    exists s : nat,
      In (Z.of_nat s) (Run.run (fsm a) [0%Z] w) /\
      s < length m /\ (Z.of_nat s ∉ dead) /\
      exists l, labels !! s = Some l /\ exists k, w = k ++ l.
Proof.
  intros Hinv Hdead Hfilter.
  assert (Hnot_dead : forall (t : nat) lt w,
            labels !! t = Some lt -> (exists k, w = k ++ lt) ->
            (forall x, x ∈ excluded_strs -> ~ occurs (Run.bytes_of x) w) ->
            Z.of_nat t ∉ dead).
  { intros t lt w Ht [k Hk] Hfree Hin.
    destruct (proj1 Hdead _ Hin) as (_ & x & Hx & Hlx).
    rewrite Nat2Z.id, Ht in Hlx. injection Hlx as ->.
    apply (Hfree x Hx). exists k, []. rewrite app_nil_r. exact Hk. }
  induction w as [|b w IH] using rev_ind; intros Hrange Hfree.
  - exists 0. destruct Hinv as (Hlen & H0 & _).
    split; [left; reflexivity|]. split.
    + rewrite <- Hlen. eapply lookup_lt_Some. exact H0.
    + split; [|exists []; split; [exact H0|exists []; reflexivity]].
      eapply (Hnot_dead 0 [] []); eauto. exists []. reflexivity.
  - apply Forall_app in Hrange as [Hrange Hb].
    apply Forall_inv in Hb.
    destruct (IH Hrange) as (s & Hs & Hlt & Halive & l & Hl & k & Hk).
    { intros x Hx (before & after & Hocc). apply (Hfree x Hx).
      exists before, (after ++ [b]). rewrite Hocc, <- !app_assoc. reflexivity. }
    destruct Hfilter as (Hstart & Hlen & Hedges & Hends).
    destruct (Hedges _ Hlt) as (edges' & Hok & Hs').
    pose proof Hok as (trie_s & Htrie & Hcase).
    rewrite decide_False in Hcase by exact Halive.
    destruct Hcase as (extra & -> & Hnd & Hall & Hextra).
    destruct (Hall b Hb) as (e & He & Hmin).
    assert (Hsingle : single_byte e).
    { destruct (back_edges_shape _ _ _ _ _ Hinv Hok) as (Hsingle & _).
      rewrite Forall_forall in Hsingle. exact (Hsingle e He). }
    assert (Htarget : exists (t : nat) lt,
              FSM.target e = Z.of_nat t /\ labels !! t = Some lt /\
              exists k', w ++ [b] = k' ++ lt).
    { assert (Htrie_case : forall (s0 : nat) edges0 l0,
                m !! s0 = Some edges0 -> e ∈ edges0 -> labels !! s0 = Some l0 ->
                (exists k0, w ++ [b] = k0 ++ l0 ++ [b]) ->
                exists (t : nat) lt,
                  FSM.target e = Z.of_nat t /\ labels !! t = Some lt /\
                  exists k', w ++ [b] = k' ++ lt).
      { intros s0 edges0 l0 Hs0 He0 Hl0 Hsuf.
        destruct Hinv as (_ & _ & Hedges0).
        destruct (Hedges0 _ _ Hs0) as [_ H].
        destruct (H e He0) as (_ & Hpos & l' & Hl' & Hnext).
        rewrite Hl0 in Hl'. injection Hl' as <-. rewrite Hmin in Hnext.
        exists (Z.to_nat (FSM.target e)), (l0 ++ [b]).
        split; [rewrite Z2Nat.id by exact Hpos; reflexivity|].
        split; [exact Hnext|exact Hsuf]. }
      apply elem_of_app in He as [He|He].
      - apply (Htrie_case s trie_s l Htrie He Hl).
        exists k. rewrite Hk, <- app_assoc. reflexivity.
      - destruct (Hextra e He) as [_ [Hzero|Hstart_edge]].
        + exists 0, []. split; [exact Hzero|].
          split; [apply Hinv|]. exists (w ++ [b]). rewrite app_nil_r. reflexivity.
        + apply GetEdges_elem in Hstart_edge as (edges0 & Hs0 & He0).
          apply (Htrie_case 0 edges0 [] Hs0 He0 (proj1 (proj2 Hinv))).
          exists w. reflexivity. }
    destruct Htarget as (t & lt & Ht & Hlt' & Hsuf).
    pose proof (Hnot_dead t lt (w ++ [b]) Hlt' Hsuf Hfree) as Ht_alive.
    exists t. split; [|split; [|split]].
    + rewrite run_snoc. apply step_elem. exists (Z.of_nat s), e.
      split; [exact Hs|]. split; [|split].
      * unfold FSM.GetEdges. rewrite Nat2Z.id. unfold FSM.t in *. rewrite Hs'.
        simpl. apply list_elem_of_filter. split; [|exact He].
        rewrite Ht. exact Ht_alive.
      * apply edge_has_single; assumption.
      * exact Ht.
    + destruct Hinv as (Hlen' & _). rewrite <- Hlen'.
      eapply lookup_lt_Some. exact Hlt'.
    + exact Ht_alive.
    + exists lt. auto.
Qed.

(** X12.  The exclusion automaton never rejects too much: it accepts every
    byte string in which no excluded string occurs. *)
Theorem exclusion_accepts_clean_strings (excluded_strs : list string)
    (s : string) :
  Forall (fun e => ~ occurs_in e s) excluded_strs ->
  Run.accepts (exclude_filter excluded_strs) s = true.
Proof.
  intros Hfree.
  destruct (exclude_filter_spec excluded_strs)
    as (m & dead & labels & Hinv & Hdead & Hfilter).
  destruct (run_alive _ _ _ _ _ Hinv Hdead Hfilter (Run.bytes_of s)
              (bytes_of_range s))
    as (st & Hst & Hlt & Halive & _).
  { intros x Hx Hocc. rewrite Forall_forall in Hfree.
    apply (Hfree x Hx). apply occurs_bytes. exact Hocc. }
  destruct Hfilter as (Hstart & _ & _ & Hends).
  unfold Run.accepts. rewrite Hstart. apply existsb_exists.
  exists (Z.of_nat st). split; [exact Hst|].
  unfold IsEndState. rewrite Nat2Z.id, (Hends _ Hlt). simpl.
  apply bool_decide_eq_true_2. exact Halive.
Qed.

Lemma prefixb_spec p s :
  OccursSpec.prefixb p s = true <-> exists rest, s = p +:+ rest.
Proof.
  revert s. induction p as [|a p IH]; intros s; simpl.
  - split; [intros _; exists s; reflexivity|reflexivity].
  - destruct s as [|b s].
    + split; [discriminate|]. intros [rest H]. discriminate H.
    + rewrite andb_true_iff, Ascii.eqb_eq, IH. split.
      * intros [-> [rest ->]]. exists rest. reflexivity.
      * intros [rest H]. rewrite TreeFacts.append_cons in H. injection H as -> ->.
        eauto.
Qed.

Lemma occursb_spec e s : OccursSpec.occursb e s = true <-> occurs_in e s.
Proof.
  unfold occurs_in. induction s as [|c s IH]; simpl.
  - rewrite orb_false_r, prefixb_spec. split.
    + intros [rest H]. exists EmptyString, rest. exact H.
    + intros (before & after & H). destruct before; [|discriminate H].
      exists after. exact H.
  - rewrite orb_true_iff, prefixb_spec, IH. split.
    + intros [[rest H]|(before & after & H)].
      * exists EmptyString, rest. exact H.
      * exists (String c before), after. rewrite TreeFacts.append_cons, H. reflexivity.
    + intros (before & after & H). destruct before as [|c' before].
      * left. exists after. exact H.
      * right. rewrite TreeFacts.append_cons in H. injection H as _ H. eauto.
Qed.

Lemma exclusion_accepts_clean_strings_witness :
  Run.accepts (exclude_filter ["aab"; "ca"]) "abacb" = true.
Proof.
  apply (exclusion_accepts_clean_strings ["aab"; "ca"] "abacb").
  repeat constructor; intros H; apply occursb_spec in H; vm_compute in H;
    discriminate H.
Defined.

(** *** A string that starts with an excluded string is rejected *)

Lemma final_targets_alive m dead a s t ch :
  filter_of m dead a -> In t (Run.step (fsm a) [s] ch) -> t ∉ dead.
Proof.
  intros Hfilter Ht. apply step_elem in Ht as (s' & e & _ & He & _ & <-).
  eapply filter_of_edges in He as (_ & Halive & _); eauto.
Qed.

Lemma step_states m states ch t :
  In t (Run.step m states ch) -> exists s, In s states /\ In t (Run.step m [s] ch).
Proof.
  intros Ht. apply step_elem in Ht as (s & e & Hs & He & Hhas & Ht).
  exists s. split; [exact Hs|]. apply step_elem. exists s, e.
  split; [left; reflexivity|auto].
Qed.

Lemma run_targets_alive m dead a states w t :
  filter_of m dead a -> w <> [] -> In t (Run.run (fsm a) states w) -> t ∉ dead.
Proof.
  intros Hfilter. destruct w as [|b w _] using rev_ind; [contradiction|].
  intros _. rewrite run_snoc. intros Ht.
  apply step_states in Ht as (s & _ & Ht).
  eapply final_targets_alive; eassumption.
Qed.

Lemma run_follows_path m labels dead a :
  trie_inv m labels -> filter_of m dead a ->
  forall s bs t, path m s bs t ->
    forall states, Forall (fun x => x = s) states ->
      Forall (fun x => x = t) (Run.run (fsm a) states bs).
Proof.
  intros Hinv Hfilter s bs t Hpath.
  induction Hpath as [s|s e bs t He _ IH]; intros states Hstates.
  - exact Hstates.
  - change (Run.run (fsm a) states (FSM.min e :: bs))
      with (Run.run (fsm a) (Run.step (fsm a) states (FSM.min e)) bs).
    apply IH. apply Forall_forall. intros x Hx.
    apply list_elem_of_In, step_elem in Hx as (s' & e' & Hs' & He' & Hhas & <-).
    rewrite Forall_forall in Hstates.
    rewrite (Hstates s' (proj2 (list_elem_of_In _ _) Hs')) in He'.
    eapply filter_of_edges in He' as (Hlt & _ & edges' & Hok & He'); eauto.
    destruct (back_edges_shape _ _ _ _ _ Hinv Hok)
      as (Hsingle & Hnd & trie_s & Htrie & Hsub).
    apply GetEdges_elem in He as (trie_s' & Htrie' & He).
    unfold FSM.t in *. rewrite Htrie in Htrie'. injection Htrie' as <-.
    rewrite Forall_forall in Hsingle.
    apply (edge_has_single (FSM.min e)) in Hhas; [|exact (Hsingle _ He')].
    f_equal. eapply min_inj_NoDup; eauto.
Qed.

(** X13.  The exclusion automaton rejects every byte string that starts
    with a non-empty excluded string. *)
Theorem exclusion_rejects_excluded_prefix (excluded_strs : list string)
    (e rest : string) :
  In e excluded_strs -> e <> EmptyString ->
  Run.accepts (exclude_filter excluded_strs) (e +:+ rest) = false.
Proof.
  intros He Hne.
  destruct (exclude_filter_spec excluded_strs)
    as (m & dead & labels & Hinv & Hdead & Hfilter).
  destruct (proj2 Hdead e (proj2 (list_elem_of_In _ _) He)) as (d & Hd & Hpath).
  assert (Hempty : Run.run (fsm (exclude_filter excluded_strs)) [0%Z]
                     (Run.bytes_of e) = []).
  { destruct (Run.run (fsm (exclude_filter excluded_strs)) [0%Z] (Run.bytes_of e))
      as [|x l] eqn:Hrun; [reflexivity|]. exfalso.
    assert (Hstart : Forall (fun x => x = 0%Z) [0%Z]) by (repeat constructor).
    pose proof (run_follows_path _ _ _ _ Hinv Hfilter _ _ _ Hpath [0%Z] Hstart)
      as Hall.
    rewrite Hrun in Hall. apply Forall_inv in Hall. subst x.
    eapply (run_targets_alive _ _ _ [0%Z] (Run.bytes_of e) d Hfilter).
    - destruct e; [contradiction|discriminate].
    - rewrite Hrun. left. reflexivity.
    - exact Hd. }
  unfold Run.accepts. destruct Hfilter as (-> & _).
  rewrite bytes_of_app, run_app, Hempty, run_nil. reflexivity.
Qed.

Lemma exclusion_rejects_excluded_prefix_witness :
  Run.accepts (exclude_filter ["aab"; "ca"]) ("ca" +:+ "b") = false.
Proof.
  apply (exclusion_rejects_excluded_prefix ["aab"; "ca"] "ca" "b").
  - right. left. reflexivity.
  - discriminate.
Defined.

End ExclusionFacts.

(** ** Converter: the grammar only grows *)

Module GrammarFacts.
Import Converter ConverterSpec GrammarSpec.

Lemma grammar_extends_refl c : grammar_extends c c.
Proof.
  split; [apply ConverterFacts.exprs_grow_refl|]. split.
  - exists []. unfold rules_extended. rewrite app_nil_r. reflexivity.
  - intros fp H. exact H.
Qed.

Lemma grammar_extends_trans c1 c2 c3 :
  grammar_extends c1 c2 -> grammar_extends c2 c3 -> grammar_extends c1 c3.
Proof.
  intros (He1 & [r1 Hr1] & Hk1) (He2 & [r2 Hr2] & Hk2). split; [|split].
  - eapply ConverterFacts.exprs_grow_trans; eassumption.
  - exists (r1 ++ r2). unfold rules_extended in *.
    rewrite Hr2, Hr1, app_assoc. reflexivity.
  - intros fp H. auto.
Qed.

Lemma append_only_ret {A} (a : A) : append_only (mret a : Conv A).
Proof.
  intros c a' c' H. apply ConverterFacts.ret_inv in H as [_ ->].
  apply grammar_extends_refl.
Qed.

Lemma append_only_bind {A B} (m : Conv A) (k : A -> Conv B) :
  append_only m -> (forall a, append_only (k a)) -> append_only (m ≫= k).
Proof.
  intros Hm Hk c b c' H.
  apply ConverterFacts.bind_inv in H as (a & c1 & H1 & H2).
  eapply grammar_extends_trans; [eapply Hm|eapply Hk]; eassumption.
Qed.

Lemma append_only_fail {A} e : append_only (fail e : Conv A).
Proof. intros c a c' H. discriminate H. Qed.

Lemma append_only_lift {A} (r : Result A) : append_only (lift r).
Proof.
  intros c a c' H. unfold lift in H. destruct r; [|discriminate].
  injection H as _ <-. apply grammar_extends_refl.
Qed.

Lemma append_only_AddExpr e : append_only (on_builder (GrammarBuilder.AddExpr e)).
Proof.
  intros c id c' H. pose proof H as H'.
  apply ConverterFacts.AddExpr_inv in H as (Hg & _ & Hr).
  split; [exact Hg|]. split.
  - exists []. unfold rules_extended. rewrite app_nil_r. exact Hr.
  - unfold on_builder in H'. simpl in H'. injection H' as _ <-.
    intros fp Hfp. exact Hfp.
Qed.

Lemma append_only_AddRule name_hint body :
  append_only (AddRuleWithHint name_hint body).
Proof.
  intros c id c' H. pose proof H as H'.
  apply ConverterFacts.AddRule_inv in H as (He & Hr & _).
  split; [apply ConverterFacts.exprs_eq_grow; exact He|]. split.
  - eexists. exact Hr.
  - unfold AddRuleWithHint, on_builder in H'. simpl in H'. injection H' as _ <-.
    intros fp Hfp. exact Hfp.
Qed.

Lemma append_only_for_each {A B} (body : A -> Conv B) (items : list A) :
  Forall (fun item => append_only (body item)) items ->
  append_only (for_each body items).
Proof.
  induction 1 as [|item rest Hitem _ IH]; simpl.
  - apply append_only_ret.
  - apply append_only_bind; [exact Hitem|]. intros r.
    apply append_only_bind; [exact IH|]. intros rs. apply append_only_ret.
Qed.

Lemma append_only_for_each_all {A B} (body : A -> Conv B) (items : list A) :
  (forall item, append_only (body item)) -> append_only (for_each body items).
Proof.
  intros H. apply append_only_for_each. apply Forall_forall. intros x _. apply H.
Qed.

Ltac append_step :=
  match goal with
  | |- append_only (mret _) => apply append_only_ret
  | |- append_only (_ ≫= _) => apply append_only_bind; [|intros ?]
  | |- append_only (for_each _ _) => apply append_only_for_each_all; intros ?
  | |- append_only (fail _) => apply append_only_fail
  | |- append_only (lift _) => apply append_only_lift
  | |- append_only (on_builder (GrammarBuilder.AddExpr _)) =>
      apply append_only_AddExpr
  | |- append_only (if ?b then _ else _) => destruct b
  | |- append_only (match ?l with [] => _ | _ :: _ => _ end) => destruct l
  | |- append_only (let '(_, _) := ?p in _) => destruct p
  | |- append_only (AddByteString _) => apply append_only_AddExpr
  | |- append_only AddEmptyStr => apply append_only_AddExpr
  | |- append_only (AddCharacterClass _) => apply append_only_AddExpr
  | |- append_only (AddCharacterClassStar _ _) => apply append_only_AddExpr
  | |- append_only (AddRuleRef _) => apply append_only_AddExpr
  | |- append_only (AddSequence _) => apply append_only_AddExpr
  | |- append_only (AddChoices _) => apply append_only_AddExpr
  | |- append_only (AddTagDispatch _) => apply append_only_AddExpr
  | |- append_only (AddRuleWithHint _ _) => apply append_only_AddRule
  | |- append_only (AddEmptyRuleWithHint _) => apply append_only_AddRule
  end.

Lemma append_only_end_str_expr end_str : append_only (end_str_expr end_str).
Proof. unfold end_str_expr. repeat append_step. Qed.

Lemma append_only_end_choices_rule_ref hint ends_ :
  append_only (end_choices_rule_ref hint ends_).
Proof.
  unfold end_choices_rule_ref.
  repeat first [apply append_only_end_str_expr | append_step].
Qed.

Lemma append_only_tag_sequence begin_str content_rule_id end_ :
  append_only (tag_sequence begin_str content_rule_id end_).
Proof.
  unfold tag_sequence.
  repeat first [apply append_only_end_str_expr
               | apply append_only_end_choices_rule_ref | append_step].
Qed.

Lemma append_only_all_tags_choices tags ids :
  append_only (all_tags_choices tags ids).
Proof.
  unfold all_tags_choices. apply append_only_for_each_all. intros [it_tag tag].
  apply append_only_tag_sequence.
Qed.

Lemma append_only_triggered_tags_one_tag tags detected ids :
  append_only (triggered_tags_one_tag tags detected ids).
Proof.
  unfold triggered_tags_one_tag.
  repeat first [apply append_only_all_tags_choices
               | apply append_only_end_str_expr
               | apply append_only_end_choices_rule_ref | append_step].
Qed.

Lemma append_only_trigger_groups triggers tags ttt ids :
  append_only (trigger_groups triggers tags ttt ids).
Proof.
  unfold trigger_groups. apply append_only_for_each_all.
  intros [it_trigger trigger].
  repeat first [apply append_only_tag_sequence | append_step].
Qed.

Lemma append_only_triggered_tags_dispatch triggers tags excludes detected a s
    ttt ids :
  append_only (triggered_tags_dispatch triggers tags excludes detected a s ttt ids).
Proof.
  unfold triggered_tags_dispatch.
  repeat first [apply append_only_trigger_groups
               | apply append_only_all_tags_choices | append_step].
Qed.

Lemma append_only_tags_with_separator_single a all_tags_rule_ref_id ids :
  append_only (tags_with_separator_single a all_tags_rule_ref_id ids).
Proof. unfold tags_with_separator_single. repeat append_step. Qed.

(** [UpdateRuleBody] on a rule that is not one of [c0]. *)
Lemma update_keeps c0 c rule_id body u c' :
  grammar_extends c0 c ->
  (Z.of_nat (length (rules_of c0)) <= rule_id)%Z ->
  UpdateRuleBody rule_id body c = ROk (u, c') ->
  grammar_extends c0 c'.
Proof.
  intros (He & [tail Hr] & Hk) Hid H. pose proof H as H'.
  apply ConverterFacts.UpdateRuleBody_inv in H as (He' & Hr').
  split; [|split].
  - destruct He as [added He]. exists added. rewrite He'. exact He.
  - unfold rules_extended in *. fold (rules_of c) in Hr. fold (rules_of c0) in Hr.
    fold (rules_of c'). fold (rules_of c0).
    rewrite Hr', Hr, alter_app_r_alt by lia. eexists. reflexivity.
  - unfold UpdateRuleBody in H'. injection H' as _ <-. exact Hk.
Qed.

Lemma for_each_inv {A B} (I : Converter.t -> Prop) (body : A -> Conv B) items :
  (forall x, x ∈ items ->
     forall c a c', I c -> body x c = ROk (a, c') -> I c') ->
  forall c rs c', I c -> for_each body items c = ROk (rs, c') -> I c'.
Proof.
  induction items as [|item rest IH]; intros Hbody c rs c' Hc H; simpl in H.
  - apply ConverterFacts.ret_inv in H as [_ ->]. exact Hc.
  - apply ConverterFacts.bind_inv in H as (r & c1 & H1 & H).
    apply ConverterFacts.bind_inv in H as (rs' & c2 & H2 & H).
    apply ConverterFacts.ret_inv in H as [_ ->].
    eapply IH; [|eapply Hbody; [left|exact Hc|exact H1]|exact H2].
    intros x Hx. apply Hbody. right. exact Hx.
Qed.

Lemma empty_rules_ids {A} hint (items : list A) c0 :
  forall c ids c',
    grammar_extends c0 c ->
    for_each (fun _ => AddEmptyRuleWithHint hint) items c = ROk (ids, c') ->
    grammar_extends c0 c' /\ length ids = length items /\
    Forall (fun id => (Z.of_nat (length (rules_of c0)) <= id)%Z) ids.
Proof.
  induction items as [|item rest IH]; intros c ids c' Hc H; simpl in H.
  - apply ConverterFacts.ret_inv in H as [-> ->]. auto.
  - apply ConverterFacts.bind_inv in H as (r & c1 & H1 & H).
    apply ConverterFacts.bind_inv in H as (rs' & c2 & H2 & H).
    apply ConverterFacts.ret_inv in H as [-> ->].
    assert (Hc1 : grammar_extends c0 c1).
    { eapply grammar_extends_trans; [exact Hc|].
      eapply append_only_AddRule. exact H1. }
    apply ConverterFacts.AddRule_inv in H1 as (_ & _ & ->).
    destruct (IH _ _ _ Hc1 H2) as (Hc2 & Hlen & Hids).
    split; [exact Hc2|]. split; [simpl; rewrite Hlen; reflexivity|].
    constructor; [|exact Hids].
    destruct Hc as (_ & [tail Hr] & _). unfold rules_extended in Hr.
    fold (rules_of c) in Hr. fold (rules_of c0) in Hr.
    rewrite Hr, length_app. lia.
Qed.

(** Turns [H : m c = ROk (a, c')], for [m] made of adding methods, into
    [grammar_extends c c']. *)
Ltac extends_of H :=
  match type of H with
  | ?m ?c = ROk (?a, ?c') =>
      let Hao := fresh "Hao" in
      assert (Hao : append_only m)
        by (repeat first [apply append_only_end_str_expr | append_step]);
      apply Hao in H; clear Hao
  end.

Lemma append_only_tags_with_separator_list separator a all_tags_rule_ref_id ids :
  append_only (tags_with_separator_list separator a all_tags_rule_ref_id ids).
Proof.
  intros c rule_id c' H. unfold tags_with_separator_list in H.
  apply ConverterFacts.bind_inv in H as (sub_rule_id & c1 & Hsub & H).
  apply ConverterFacts.bind_inv in H as (end_id & c2 & H2 & H).
  apply ConverterFacts.bind_inv in H as (sep_elems & c3 & H3 & H).
  apply ConverterFacts.bind_inv in H as (sub_ref & c4 & H4 & H).
  apply ConverterFacts.bind_inv in H as (sub_seq & c5 & H5 & H).
  apply ConverterFacts.bind_inv in H as (sub_body & c6 & H6 & H).
  apply ConverterFacts.bind_inv in H as (u & c7 & H7 & H).
  assert (Hid : (Z.of_nat (length (rules_of c)) <= sub_rule_id)%Z).
  { apply ConverterFacts.AddRule_inv in Hsub as (_ & _ & ->). lia. }
  extends_of Hsub. extends_of H2. extends_of H3. extends_of H4.
  extends_of H5. extends_of H6. extends_of H.
  assert (Hc6 : grammar_extends c c6)
    by (repeat (eapply grammar_extends_trans; [eassumption|]);
        apply grammar_extends_refl).
  eapply grammar_extends_trans; [|exact H].
  eapply update_keeps; eassumption.
Qed.

Section Splice.
Context `{Collaborators}.
Hypothesis Hsplice : splice_appends.

Lemma append_only_add_sub_grammar g : append_only (add_sub_grammar g).
Proof.
  intros c id c' Hr. unfold add_sub_grammar, on_builder in Hr.
  destruct (Hsplice (grammar_builder_ c) g) as [He Hrules].
  destruct (SubGrammarAdder_Apply (grammar_builder_ c) g) as [id' b'].
  injection Hr as _ <-. split; [exact He|]. split; [exact Hrules|].
  intros fp Hfp. exact Hfp.
Qed.

Lemma append_only_cached fingerprint visit_sub :
  append_only visit_sub -> append_only (cached fingerprint visit_sub).
Proof.
  intros Hsub c id c' Hr. unfold cached in Hr.
  destruct (fingerprint_to_rule_id_ c !! fingerprint).
  - injection Hr as _ <-. apply grammar_extends_refl.
  - destruct (visit_sub c) as [[id' c1]|] eqn:Hv; [|discriminate].
    injection Hr as _ <-. apply Hsub in Hv as (He & Hrules & Hk).
    split; [exact He|]. split; [exact Hrules|].
    intros fp Hfp. simpl. apply Hk in Hfp.
    destruct (decide (fp = fingerprint)) as [->|Hne].
    + rewrite lookup_insert_eq. eauto.
    + rewrite lookup_insert_ne by auto. exact Hfp.
Qed.

Lemma append_only_regex_state_rule c0 result_fsm ids state :
  (Z.of_nat (length (rules_of c0)) <= at_ ids state)%Z ->
  forall c u c',
    grammar_extends c0 c ->
    regex_state_rule result_fsm ids state c = ROk (u, c') ->
    grammar_extends c0 c'.
Proof.
  intros Hid c u c' Hc Hr. unfold regex_state_rule in Hr.
  apply ConverterFacts.bind_inv in Hr as (end_seqs & c1 & H1 & Hr).
  apply ConverterFacts.bind_inv in Hr as (edge_seqs & c2 & H2 & Hr).
  extends_of H1. extends_of H2.
  assert (Hc2 : grammar_extends c0 c2)
    by (repeat (eapply grammar_extends_trans; [eassumption|]);
        apply grammar_extends_refl).
  destruct (end_seqs ++ edge_seqs).
  - apply ConverterFacts.bind_inv in Hr as (e & c3 & H3 & Hr).
    apply ConverterFacts.bind_inv in Hr as (sq & c4 & H4 & Hr).
    apply ConverterFacts.bind_inv in Hr as (body & c5 & H5 & Hr).
    extends_of H3. extends_of H4. extends_of H5.
    eapply update_keeps; [|exact Hid|exact Hr].
    repeat (eapply grammar_extends_trans; [eassumption|]).
    apply grammar_extends_refl.
  - apply ConverterFacts.bind_inv in Hr as (body & c3 & H3 & Hr).
    extends_of H3.
    eapply update_keeps; [|exact Hid|exact Hr].
    eapply grammar_extends_trans; eassumption.
Qed.

Lemma append_only_VisitSub_Regex pattern excluded_strs :
  append_only (VisitSub_Regex pattern excluded_strs).
Proof.
  unfold VisitSub_Regex. destruct excluded_strs as [|x xs].
  { apply append_only_add_sub_grammar. }
  destruct (RegexFSMBuilder_Build pattern) as [regex_fsm|]; [|apply append_only_fail].
  destruct (FSMWithStartEnd_Intersect _ _) as [result_fsm|];
    [|apply append_only_fail].
  destruct (FSM.NumStates (fsm result_fsm) =? 0)%Z; [apply append_only_fail|].
  intros c id c' Hr.
  apply ConverterFacts.bind_inv in Hr as (ids & c1 & H1 & Hr).
  apply ConverterFacts.bind_inv in Hr as (us & c2 & H2 & Hr).
  apply ConverterFacts.ret_inv in Hr as [_ ->].
  destruct (empty_rules_ids _ _ c _ _ _ (grammar_extends_refl c) H1)
    as (Hc1 & Hlen & Hids).
  eapply (for_each_inv (grammar_extends c)); [|exact Hc1|exact H2].
  intros state Hstate c3 u c4 Hc3 Hrule.
  eapply append_only_regex_state_rule; [|exact Hc3|exact Hrule].
  apply elem_of_seqZ in Hstate. unfold at_.
  rewrite length_seqZ in Hlen.
  destruct (lookup_lt_is_Some_2 ids (Z.to_nat state) ltac:(lia)) as [id0 Hid0].
  rewrite Hid0. simpl. rewrite Forall_forall in Hids. apply Hids.
  eapply list_elem_of_lookup_2. exact Hid0.
Qed.

Section Composite.
Variable V : Format -> Conv Z.

Lemma append_only_visit_triggered_tags triggers tags :
  Forall (fun tag => append_only (V (tag_content tag))) tags ->
  forall it_tag ttt ids,
    append_only (visit_triggered_tags V triggers tags it_tag ttt ids).
Proof.
  induction 1 as [|tag rest Htag _ IH]; intros it_tag ttt ids; simpl.
  - apply append_only_ret.
  - apply append_only_bind; [apply append_only_lift|]. intros m.
    apply append_only_bind; [exact Htag|]. intros r. apply IH.
Qed.

Lemma append_only_VisitSub_TriggeredTags triggers tags excludes detected a s :
  Forall (fun tag => append_only (V (tag_content tag))) tags ->
  append_only (VisitSub_TriggeredTags V triggers tags excludes detected a s).
Proof.
  intros Htags. unfold VisitSub_TriggeredTags.
  apply append_only_bind; [apply append_only_visit_triggered_tags; exact Htags|].
  intros [ttt ids]. destruct (a && s).
  - apply append_only_triggered_tags_one_tag.
  - apply append_only_triggered_tags_dispatch.
Qed.

Lemma append_only_VisitSub_Tag tag :
  append_only (V (tag_content tag)) -> append_only (VisitSub_Tag V tag).
Proof.
  intros Hc. unfold VisitSub_Tag.
  apply append_only_bind; [exact Hc|]. intros sub.
  apply append_only_bind; [apply append_only_tag_sequence|]. intros sq.
  repeat append_step.
Qed.

End Composite.

Lemma append_only_VisitSub_TagsWithSeparator separator detected a s
    (VT : TagFormat -> Conv Z) tags :
  Forall (fun tag => append_only (VT tag)) tags ->
  append_only (VisitSub_TagsWithSeparator separator detected a s VT tags).
Proof.
  intros Htags. unfold VisitSub_TagsWithSeparator.
  apply append_only_bind.
  { apply append_only_for_each. eapply Forall_impl; [exact Htags|].
    intros tag Htag. simpl. repeat first [exact Htag | append_step]. }
  intros choice_ids.
  apply append_only_bind; [append_step|]. intros choice_expr_id.
  apply append_only_bind; [append_step|]. intros all_tags_rule_id.
  apply append_only_bind; [append_step|]. intros all_tags_rule_ref_id.
  apply append_only_bind;
    [apply append_only_for_each_all; intros ?; append_step|].
  intros end_ids.
  destruct (s || _).
  - apply append_only_tags_with_separator_single.
  - apply append_only_tags_with_separator_list.
Qed.

Lemma append_only_Visit f : append_only (Visit f).
Proof.
  induction f using TreeFacts.Format_induction; rewrite ConverterFacts.Visit_unfold;
    apply append_only_cached; cbn [VisitSub].
  - unfold VisitSub_ConstString. repeat append_step.
  - apply append_only_add_sub_grammar.
  - apply append_only_add_sub_grammar.
  - unfold VisitSub_AnyText. repeat append_step.
  - apply append_only_add_sub_grammar.
  - apply append_only_VisitSub_Regex.
  - unfold VisitSub_Sequence.
    apply append_only_bind; [|intros ?; repeat append_step].
    apply append_only_for_each. eapply Forall_impl; [eassumption|].
    intros e He. simpl. repeat first [exact He | append_step].
  - unfold VisitSub_Or.
    apply append_only_bind; [|intros ?; repeat append_step].
    apply append_only_for_each. eapply Forall_impl; [eassumption|].
    intros e He. simpl. repeat first [exact He | append_step].
  - apply append_only_VisitSub_Tag. assumption.
  - apply append_only_VisitSub_TriggeredTags. assumption.
  - apply append_only_VisitSub_TagsWithSeparator.
    eapply Forall_impl; [eassumption|]. intros tag Htag. cbv beta.
    rewrite ConverterFacts.Visit_unfold. apply append_only_cached.
    cbn [VisitSub]. apply append_only_VisitSub_Tag. exact Htag.
Qed.

End Splice.

(** X14.  A visit of the converter only ever adds to the grammar: given
    that the splice of a sub-grammar adds after what the builder holds,
    every expression and every rule that existed before a successful
    [Visit] is still there afterwards, at the same index and unchanged,
    and every fingerprint that had a rule still has one.  The rule bodies
    that the converter rewrites are those of rules it has just created. *)
Theorem conversion_only_appends `{Collaborators} (f : Format)
    (c c' : Converter.t) (rule_id : Z) :
  splice_appends ->
  Visit f c = ROk (rule_id, c') ->
  grammar_extends c c'.
Proof. intros Hsplice Hv. eapply append_only_Visit; eassumption. Qed.

Lemma conversion_only_appends_witness :
  let c :=
    {| grammar_builder_ :=
         {| GrammarBuilder.grammar_exprs :=
              [EByteString "x"; ESequence [0%Z]; EChoices [1%Z]];
            GrammarBuilder.rules :=
              [{| name := "const_string"; body_expr_id := 2 |}] |};
       fingerprint_to_rule_id_ := {["CS:x" := 0%Z]} |} in
  exists rule_id c',
    Visit (FTag (MkTag "<a>"
             (FSequence [FGrammar "root ::= [a-z]"; FConstString "x"] false)
             ["</a>"; "</A>"])) c = ROk (rule_id, c') /\
    grammar_extends c c'.
Proof.
  intros c.
  destruct (Visit (FTag (MkTag "<a>"
              (FSequence [FGrammar "root ::= [a-z]"; FConstString "x"] false)
              ["</a>"; "</A>"])) c) as [[rule_id c']|] eqn:Hv;
    [|vm_compute in Hv; discriminate].
  exists rule_id, c'. split; [reflexivity|].
  eapply (conversion_only_appends); [|exact Hv].
  intros b g. simpl. split; [exists []; rewrite app_nil_r|eexists]; reflexivity.
Defined.

End GrammarFacts.

(** ** Analyzer and converter: every TagDispatch can stop *)

Module DispatchFacts.
Import FormatSpec AnalysisSpec Converter ConverterSpec DispatchSpec.

Lemma keeps_ret {A} (a : A) : keeps_dispatches (mret a : Conv A).
Proof. intros c a' c' Hc H. apply ConverterFacts.ret_inv in H as [_ ->]. exact Hc. Qed.

Lemma keeps_bind {A B} (m : Conv A) (k : A -> Conv B) :
  keeps_dispatches m -> (forall a, keeps_dispatches (k a)) ->
  keeps_dispatches (m ≫= k).
Proof.
  intros Hm Hk c b c' Hc H.
  apply ConverterFacts.bind_inv in H as (a & c1 & H1 & H2).
  eapply Hk; [|exact H2]. eapply Hm; eassumption.
Qed.

Lemma keeps_fail {A} e : keeps_dispatches (fail e : Conv A).
Proof. intros c a c' _ H. discriminate H. Qed.

Lemma keeps_lift {A} (r : Result A) : keeps_dispatches (lift r).
Proof.
  intros c a c' Hc H. unfold lift in H. destruct r; [|discriminate].
  injection H as _ <-. exact Hc.
Qed.

Lemma keeps_AddExpr e :
  dispatch_ok e = true ->
  keeps_dispatches (on_builder (GrammarBuilder.AddExpr e)).
Proof.
  intros He c id c' Hc H. unfold on_builder in H. simpl in H.
  injection H as _ <-. unfold dispatches_ok in *. simpl.
  rewrite forallb_app, Hc. simpl. rewrite He. reflexivity.
Qed.

Lemma keeps_AddRule name_hint body :
  keeps_dispatches (AddRuleWithHint name_hint body).
Proof.
  intros c id c' Hc H. unfold AddRuleWithHint, on_builder in H. simpl in H.
  injection H as _ <-. exact Hc.
Qed.

Lemma keeps_UpdateRuleBody rule_id body :
  keeps_dispatches (UpdateRuleBody rule_id body).
Proof.
  intros c u c' Hc H. unfold UpdateRuleBody in H. injection H as H. subst c'.
  exact Hc.
Qed.

Lemma keeps_for_each {A B} (body : A -> Conv B) (items : list A) :
  Forall (fun item => keeps_dispatches (body item)) items ->
  keeps_dispatches (for_each body items).
Proof.
  induction 1 as [|item rest Hitem _ IH]; simpl.
  - apply keeps_ret.
  - apply keeps_bind; [exact Hitem|]. intros r.
    apply keeps_bind; [exact IH|]. intros rs. apply keeps_ret.
Qed.

Lemma keeps_for_each_all {A B} (body : A -> Conv B) (items : list A) :
  (forall item, keeps_dispatches (body item)) ->
  keeps_dispatches (for_each body items).
Proof.
  intros H. apply keeps_for_each. apply Forall_forall. intros x _. apply H.
Qed.

Ltac keeps_step :=
  match goal with
  | |- keeps_dispatches (mret _) => apply keeps_ret
  | |- keeps_dispatches (_ ≫= _) => apply keeps_bind; [|intros ?]
  | |- keeps_dispatches (for_each _ _) => apply keeps_for_each_all; intros ?
  | |- keeps_dispatches (fail _) => apply keeps_fail
  | |- keeps_dispatches (lift _) => apply keeps_lift
  | |- keeps_dispatches (if ?b then _ else _) => destruct b
  | |- keeps_dispatches (let '(_, _) := ?p in _) => destruct p
  | |- keeps_dispatches (AddByteString _) => apply keeps_AddExpr; reflexivity
  | |- keeps_dispatches AddEmptyStr => apply keeps_AddExpr; reflexivity
  | |- keeps_dispatches (AddCharacterClass _) => apply keeps_AddExpr; reflexivity
  | |- keeps_dispatches (AddCharacterClassStar _ _) =>
      apply keeps_AddExpr; reflexivity
  | |- keeps_dispatches (AddRuleRef _) => apply keeps_AddExpr; reflexivity
  | |- keeps_dispatches (AddSequence _) => apply keeps_AddExpr; reflexivity
  | |- keeps_dispatches (AddChoices _) => apply keeps_AddExpr; reflexivity
  | |- keeps_dispatches (AddRuleWithHint _ _) => apply keeps_AddRule
  | |- keeps_dispatches (AddEmptyRuleWithHint _) => apply keeps_AddRule
  | |- keeps_dispatches (UpdateRuleBody _ _) => apply keeps_UpdateRuleBody
  end.

Lemma keeps_end_str_expr end_str : keeps_dispatches (end_str_expr end_str).
Proof. unfold end_str_expr. repeat keeps_step. Qed.

Lemma keeps_end_choices_rule_ref hint ends_ :
  keeps_dispatches (end_choices_rule_ref hint ends_).
Proof.
  unfold end_choices_rule_ref.
  repeat first [apply keeps_end_str_expr | keeps_step].
Qed.

Lemma keeps_tag_sequence begin_str content_rule_id end_ :
  keeps_dispatches (tag_sequence begin_str content_rule_id end_).
Proof.
  unfold tag_sequence. destruct end_ as [|e1 [|e2 rest]];
    repeat first [apply keeps_end_str_expr
                 | apply keeps_end_choices_rule_ref | keeps_step].
Qed.

Lemma keeps_all_tags_choices tags ids :
  keeps_dispatches (all_tags_choices tags ids).
Proof.
  unfold all_tags_choices. apply keeps_for_each_all. intros [it_tag tag].
  apply keeps_tag_sequence.
Qed.

Lemma keeps_triggered_tags_one_tag tags detected ids :
  keeps_dispatches (triggered_tags_one_tag tags detected ids).
Proof.
  unfold triggered_tags_one_tag.
  repeat first [apply keeps_all_tags_choices
               | apply keeps_end_str_expr
               | apply keeps_end_choices_rule_ref | keeps_step
               | match goal with
                 | |- keeps_dispatches (match ?l with [] => _ | _ :: _ => _ end) =>
                     destruct l
                 end].
Qed.

Lemma keeps_trigger_groups triggers tags ttt ids :
  keeps_dispatches (trigger_groups triggers tags ttt ids).
Proof.
  unfold trigger_groups. apply keeps_for_each_all.
  intros [it_trigger trigger].
  repeat first [apply keeps_tag_sequence | keeps_step].
Qed.

Lemma non_empty_strs_all detected :
  forallb (fun s => negb (str_empty s)) (non_empty_strs detected) = true.
Proof.
  unfold non_empty_strs. apply forallb_forall. intros s Hs.
  apply list_elem_of_In, list_elem_of_filter in Hs as [Hs _].
  rewrite Hs. reflexivity.
Qed.

Lemma can_stop_non_empty d ds :
  can_stop (d :: ds) = true ->
  bool_decide (non_empty_strs (d :: ds) = []) = false.
Proof.
  unfold can_stop. rewrite ConverterFacts.non_empty_strs_nil.
  intros H. apply orb_prop in H as [H|H].
  - apply bool_decide_eq_true in H. discriminate H.
  - unfold Analyzer.has_non_empty in H. rewrite H. reflexivity.
Qed.

Lemma keeps_triggered_tags_dispatch triggers tags excludes detected a s ttt ids :
  can_stop detected = true ->
  keeps_dispatches
    (triggered_tags_dispatch triggers tags excludes detected a s ttt ids).
Proof.
  intros Hstop. unfold triggered_tags_dispatch.
  apply keeps_bind; [apply keeps_trigger_groups|]. intros pairs.
  apply keeps_bind.
  { destruct detected as [|d ds]; apply keeps_AddExpr.
    - reflexivity.
    - simpl. rewrite (can_stop_non_empty _ _ Hstop). simpl.
      apply non_empty_strs_all. }
  intros rule_expr_id.
  repeat first [apply keeps_all_tags_choices | keeps_step].
Qed.

Lemma keeps_VisitSub_AnyText excluded detected :
  can_stop detected = true ->
  keeps_dispatches (VisitSub_AnyText excluded detected).
Proof.
  intros Hstop. unfold VisitSub_AnyText. destruct detected as [|d ds].
  - repeat keeps_step.
  - apply keeps_bind; [|intros ?; keeps_step].
    apply keeps_AddExpr. simpl. rewrite (can_stop_non_empty _ _ Hstop). simpl.
    apply non_empty_strs_all.
Qed.

Lemma keeps_tags_with_separator_single a all_tags_rule_ref_id ids :
  keeps_dispatches (tags_with_separator_single a all_tags_rule_ref_id ids).
Proof.
  unfold tags_with_separator_single.
  repeat first [keeps_step
               | match goal with
                 | |- keeps_dispatches (match ?l with [] => _ | _ :: _ => _ end) =>
                     destruct l
                 end].
Qed.

Lemma keeps_tags_with_separator_list separator a all_tags_rule_ref_id ids :
  keeps_dispatches (tags_with_separator_list separator a all_tags_rule_ref_id ids).
Proof.
  unfold tags_with_separator_list.
  repeat first [apply keeps_end_str_expr | keeps_step
               | match goal with
                 | |- keeps_dispatches (match ?l with [] => _ | _ :: _ => _ end) =>
                     destruct l
                 end].
Qed.

Lemma keeps_regex_state_rule result_fsm ids state :
  keeps_dispatches (regex_state_rule result_fsm ids state).
Proof.
  unfold regex_state_rule.
  repeat first [keeps_step
               | match goal with
                 | |- keeps_dispatches (match ?l with [] => _ | _ :: _ => _ end) =>
                     destruct l
                 end].
Qed.

Section Splice.
Context `{Collaborators}.
Hypothesis Hsplice : splice_keeps_dispatches.

Lemma keeps_add_sub_grammar g : keeps_dispatches (add_sub_grammar g).
Proof.
  intros c id c' Hc Hr. unfold add_sub_grammar, on_builder in Hr.
  pose proof (Hsplice (grammar_builder_ c) g Hc) as Hb.
  destruct (SubGrammarAdder_Apply (grammar_builder_ c) g) as [id' b'].
  injection Hr as _ <-. exact Hb.
Qed.

Lemma keeps_cached fingerprint visit_sub :
  keeps_dispatches visit_sub -> keeps_dispatches (cached fingerprint visit_sub).
Proof.
  intros Hsub c id c' Hc Hr. unfold cached in Hr.
  destruct (fingerprint_to_rule_id_ c !! fingerprint).
  - injection Hr as _ <-. exact Hc.
  - destruct (visit_sub c) as [[id' c1]|] eqn:Hv; [|discriminate].
    injection Hr as _ <-. simpl. eapply Hsub; eassumption.
Qed.

Lemma keeps_VisitSub_Regex pattern excluded_strs :
  keeps_dispatches (VisitSub_Regex pattern excluded_strs).
Proof.
  unfold VisitSub_Regex. destruct excluded_strs as [|x xs].
  { apply keeps_add_sub_grammar. }
  destruct (RegexFSMBuilder_Build pattern) as [regex_fsm|]; [|apply keeps_fail].
  destruct (FSMWithStartEnd_Intersect _ _) as [result_fsm|]; [|apply keeps_fail].
  destruct (FSM.NumStates (fsm result_fsm) =? 0)%Z; [apply keeps_fail|].
  repeat first [apply keeps_regex_state_rule | keeps_step].
Qed.

Section Composite.
Variable V : Format -> Conv Z.

Lemma keeps_visit_triggered_tags triggers tags :
  Forall (fun tag => keeps_dispatches (V (tag_content tag))) tags ->
  forall it_tag ttt ids,
    keeps_dispatches (visit_triggered_tags V triggers tags it_tag ttt ids).
Proof.
  induction 1 as [|tag rest Htag _ IH]; intros it_tag ttt ids; simpl.
  - apply keeps_ret.
  - apply keeps_bind; [apply keeps_lift|]. intros m.
    apply keeps_bind; [exact Htag|]. intros r. apply IH.
Qed.

Lemma keeps_VisitSub_TriggeredTags triggers tags excludes detected a s :
  can_stop detected = true ->
  Forall (fun tag => keeps_dispatches (V (tag_content tag))) tags ->
  keeps_dispatches (VisitSub_TriggeredTags V triggers tags excludes detected a s).
Proof.
  intros Hstop Htags. unfold VisitSub_TriggeredTags.
  apply keeps_bind; [apply keeps_visit_triggered_tags; exact Htags|].
  intros [ttt ids]. destruct (a && s).
  - apply keeps_triggered_tags_one_tag.
  - apply keeps_triggered_tags_dispatch. exact Hstop.
Qed.

Lemma keeps_VisitSub_Tag tag :
  keeps_dispatches (V (tag_content tag)) -> keeps_dispatches (VisitSub_Tag V tag).
Proof.
  intros Hc. unfold VisitSub_Tag.
  apply keeps_bind; [exact Hc|]. intros sub.
  apply keeps_bind; [apply keeps_tag_sequence|]. intros sq.
  repeat keeps_step.
Qed.

End Composite.

Lemma keeps_VisitSub_TagsWithSeparator separator detected a s
    (VT : TagFormat -> Conv Z) tags :
  Forall (fun tag => keeps_dispatches (VT tag)) tags ->
  keeps_dispatches (VisitSub_TagsWithSeparator separator detected a s VT tags).
Proof.
  intros Htags. unfold VisitSub_TagsWithSeparator.
  apply keeps_bind.
  { apply keeps_for_each. eapply Forall_impl; [exact Htags|].
    intros tag Htag. simpl. repeat first [exact Htag | keeps_step]. }
  intros choice_ids.
  apply keeps_bind; [keeps_step|]. intros choice_expr_id.
  apply keeps_bind; [keeps_step|]. intros all_tags_rule_id.
  apply keeps_bind; [keeps_step|]. intros all_tags_rule_ref_id.
  apply keeps_bind; [apply keeps_for_each_all; intros ?; keeps_step|].
  intros end_ids.
  destruct (s || _).
  - apply keeps_tags_with_separator_single.
  - apply keeps_tags_with_separator_list.
Qed.

Ltac modus :=
  match goal with
  | Himp : Forall (fun f => _ -> keeps_dispatches _) ?l, Hn : Forall _ ?l |- _ =>
      exact (TreeFacts.Forall_modus _ _ _ Himp Hn)
  end.

Lemma keeps_Visit f :
  forallb stop_strings_ok (nodes f) = true -> keeps_dispatches (Visit f).
Proof.
  induction f using TreeFacts.Format_induction; intros Hn;
    rewrite ConverterFacts.Visit_unfold; apply keeps_cached; cbn [VisitSub].
  - unfold VisitSub_ConstString. repeat keeps_step.
  - apply keeps_add_sub_grammar.
  - apply keeps_add_sub_grammar.
  - apply keeps_VisitSub_AnyText. simpl in Hn.
    apply andb_prop in Hn as [Hn _]. exact Hn.
  - apply keeps_add_sub_grammar.
  - apply keeps_VisitSub_Regex.
  - simpl in Hn. apply TreeFacts.forallb_flat_map_inv in Hn.
    unfold VisitSub_Sequence.
    apply keeps_bind; [|intros ?; repeat keeps_step].
    apply keeps_for_each. eapply Forall_impl; [modus|].
    intros e He. simpl. repeat first [exact He | keeps_step].
  - simpl in Hn. apply TreeFacts.forallb_flat_map_inv in Hn.
    unfold VisitSub_Or.
    apply keeps_bind; [|intros ?; repeat keeps_step].
    apply keeps_for_each. eapply Forall_impl; [modus|].
    intros e He. simpl. repeat first [exact He | keeps_step].
  - apply keeps_VisitSub_Tag. simpl in *. auto.
  - simpl in Hn. apply andb_prop in Hn as [Hstop Hn].
    apply TreeFacts.nodes_of_tags in Hn.
    apply keeps_VisitSub_TriggeredTags; [exact Hstop|].
    modus.
  - simpl in Hn. apply andb_prop in Hn as [_ Hn].
    apply TreeFacts.nodes_of_tags in Hn.
    apply keeps_VisitSub_TagsWithSeparator.
    eapply Forall_impl; [modus|].
    intros tag Htag. cbv beta.
    rewrite ConverterFacts.Visit_unfold. apply keeps_cached.
    cbn [VisitSub]. apply keeps_VisitSub_Tag. exact Htag.
Qed.

End Splice.

Lemma Convert_dispatches_ok `{Collaborators} (st : StructuralTag)
    (root : Z) (b : GrammarBuilder.t) :
  splice_keeps_dispatches ->
  forallb stop_strings_ok (nodes (format st)) = true ->
  Convert st = ROk (root, b) ->
  dispatches_ok b = true.
Proof.
  intros Hsplice Hn Hconv. unfold Convert in Hconv.
  assert (Hk : keeps_dispatches
                 (root_rule_id ← Visit (format st);
                  AddRootRuleAndGetGrammar root_rule_id)).
  { apply keeps_bind; [apply keeps_Visit; assumption|]. intros r.
    unfold AddRootRuleAndGetGrammar. repeat keeps_step. }
  specialize (Hk init).
  destruct ((root_rule_id ← Visit (format st);
             AddRootRuleAndGetGrammar root_rule_id) init)
    as [[root' c']|]; [|discriminate].
  injection Hconv as _ <-. eapply Hk; reflexivity.
Qed.

(** X15.  Analysis followed by conversion gives a grammar in which every
    TagDispatch can stop: it stops at the end of the text or it has a stop
    string, and none of its stop strings is empty.  The sub-grammars that
    are spliced in are asked to bring no TagDispatch that cannot stop. *)
Theorem converted_dispatches_can_stop `{Collaborators}
    (max_recursion_depth : nat) (st st' : StructuralTag)
    (root : Z) (b : GrammarBuilder.t) :
  splice_keeps_dispatches ->
  Analyzer.Analyze max_recursion_depth st = ROk st' ->
  Convert st' = ROk (root, b) ->
  dispatches_ok b = true.
Proof.
  intros Hsplice Han Hconv.
  eapply Convert_dispatches_ok; [exact Hsplice| |exact Hconv].
  eapply AnalyzerInvariants.Analyze_stop_strings. exact Han.
Qed.

Lemma converted_dispatches_can_stop_witness :
  let st :=
    {| format :=
         FTag (MkTag "<r>"
           (FSequence
              [FTriggeredTags ["<f"] [MkTag "<f>" (FConstString "x") ["</f>"]]
                 ["no"] [] false false] false)
           [EmptyString; "</r>"]) |} in
  exists st' root b,
    Analyzer.Analyze 8 st = ROk st' /\
    Convert st' = ROk (root, b) /\
    dispatches_ok b = true.
Proof.
  intros st.
  destruct (Analyzer.Analyze 8 st) as [st'|] eqn:Han;
    [|vm_compute in Han; discriminate].
  destruct (Convert st') as [[root b]|] eqn:Hconv.
  - exists st', root, b. split; [reflexivity|]. split; [exact Hconv|].
    eapply converted_dispatches_can_stop; [|exact Han|exact Hconv].
    intros b0 g Hb0. exact Hb0.
  - vm_compute in Han. injection Han as <-. vm_compute in Hconv.
    discriminate Hconv.
Defined.

End DispatchFacts.

(** ** Converter: the errors of a conversion *)

Module FailureFacts.
Import FormatSpec Converter ConverterSpec FailureSpec.

Lemma bind_err {A B} (m : Conv A) (k : A -> Conv B) c e :
  (m ≫= k) c = RErr e ->
  m c = RErr e \/ exists a c1, m c = ROk (a, c1) /\ k a c1 = RErr e.
Proof.
  rewrite ConverterFacts.bind_run.
  destruct (m c) as [[a c1]|e1].
  - intros Hk. right. eauto.
  - intros [= ->]. left. reflexivity.
Qed.

Lemma listed_bind {A B} (m : Conv A) (k : A -> Conv B) :
  fails_as_listed m -> (forall a, fails_as_listed (k a)) ->
  fails_as_listed (m ≫= k).
Proof.
  intros Hm Hk c e He. apply bind_err in He as [He|(a & c1 & _ & He)].
  - eapply Hm. exact He.
  - eapply Hk. exact He.
Qed.

Lemma listed_total {A} (m : Conv A) : total m -> fails_as_listed m.
Proof. intros Ht c e He. destruct (Ht c) as (a & c' & Hok). congruence. Qed.

Lemma listed_for_each {A B} (body : A -> Conv B) (items : list A) :
  Forall (fun item => fails_as_listed (body item)) items ->
  fails_as_listed (for_each body items).
Proof.
  induction 1 as [|item rest Hitem _ IH]; simpl.
  - apply listed_total, ConverterFacts.total_ret.
  - apply listed_bind; [exact Hitem|]. intros r.
    apply listed_bind; [exact IH|]. intros rs.
    apply listed_total, ConverterFacts.total_ret.
Qed.

Lemma listed_matched_trigger begin_ triggers :
  fails_as_listed (lift (matched_trigger begin_ triggers) : Conv Z).
Proof.
  intros c e. unfold lift. rewrite ConverterFacts.matched_trigger_spec.
  destruct (matching_triggers begin_ triggers) as [|t1 [|t2 ts]];
    [|discriminate|]; intros [= <-].
  - right. left. reflexivity.
  - left. reflexivity.
Qed.

(** The methods that cannot fail. *)

Lemma total_tags_with_separator_single a all_tags_rule_ref_id ids :
  total (tags_with_separator_single a all_tags_rule_ref_id ids).
Proof.
  unfold tags_with_separator_single. repeat ConverterFacts.total_step.
Qed.

Lemma total_tags_with_separator_list separator a all_tags_rule_ref_id ids :
  total (tags_with_separator_list separator a all_tags_rule_ref_id ids).
Proof.
  unfold tags_with_separator_list.
  repeat first [apply ConverterFacts.total_end_str_expr
               | ConverterFacts.total_step].
Qed.

Lemma total_regex_state_rule result_fsm ids state :
  total (regex_state_rule result_fsm ids state).
Proof.
  unfold regex_state_rule.
  repeat first [apply ConverterFacts.total_on_builder
               | ConverterFacts.total_step].
Qed.

Lemma total_VisitSub_AnyText excluded detected :
  total (VisitSub_AnyText excluded detected).
Proof.
  unfold VisitSub_AnyText.
  repeat first [apply ConverterFacts.total_on_builder
               | ConverterFacts.total_step].
Qed.

Lemma total_cached fingerprint visit_sub :
  total visit_sub -> total (cached fingerprint visit_sub).
Proof.
  intros Hsub c. unfold cached.
  destruct (fingerprint_to_rule_id_ c !! fingerprint); [eauto|].
  destruct (Hsub c) as (id & c' & ->). eauto.
Qed.

Lemma listed_cached fingerprint visit_sub :
  fails_as_listed visit_sub -> fails_as_listed (cached fingerprint visit_sub).
Proof.
  intros Hsub c e He. unfold cached in He.
  destruct (fingerprint_to_rule_id_ c !! fingerprint); [discriminate|].
  destruct (visit_sub c) as [[id c']|e'] eqn:Hv; [discriminate|].
  injection He as <-. eapply Hsub. exact Hv.
Qed.

Section Visitors.
Context `{Collaborators}.

Lemma regex_rules_total result_fsm :
  total (state_rule_ids ← for_each
           (fun _ => AddEmptyRuleWithHint "regex_state")
           (seqZ 0 (FSM.NumStates (fsm result_fsm)));
         _ ← for_each (regex_state_rule result_fsm state_rule_ids)
               (seqZ 0 (FSM.NumStates (fsm result_fsm)));
         mret (at_ state_rule_ids (start result_fsm))).
Proof.
  repeat first [apply total_regex_state_rule | ConverterFacts.total_step].
Qed.

Lemma listed_VisitSub_Regex pattern excluded_strs :
  fails_as_listed (VisitSub_Regex pattern excluded_strs).
Proof.
  unfold VisitSub_Regex. cbv zeta. destruct excluded_strs as [|x xs].
  { apply listed_total, ConverterFacts.total_on_builder. }
  destruct (RegexFSMBuilder_Build pattern) as [regex_fsm|what].
  2:{ intros c e [= <-]. right. right. left. eexists. reflexivity. }
  destruct (FSMWithStartEnd_Intersect _ _) as [result_fsm|what].
  2:{ intros c e [= <-]. right. right. right. left. eexists. reflexivity. }
  destruct (FSM.NumStates (fsm result_fsm) =? 0)%Z.
  { intros c e [= <-]. right. right. right. right. reflexivity. }
  apply listed_total, regex_rules_total.
Qed.

Lemma total_VisitSub_Regex pattern excluded_strs :
  node_converts (FRegex pattern excluded_strs) = true ->
  total (VisitSub_Regex pattern excluded_strs).
Proof.
  unfold VisitSub_Regex, node_converts. cbv zeta.
  destruct excluded_strs as [|x xs].
  { intros _. apply ConverterFacts.total_on_builder. }
  destruct (RegexFSMBuilder_Build pattern) as [regex_fsm|what]; [|discriminate].
  destruct (FSMWithStartEnd_Intersect _ _) as [result_fsm|what]; [|discriminate].
  destruct (FSM.NumStates (fsm result_fsm) =? 0)%Z; [discriminate|].
  intros _. apply regex_rules_total.
Qed.

Section Composite.
Variable V : Format -> Conv Z.

Lemma listed_visit_triggered_tags triggers tags :
  Forall (fun tag => fails_as_listed (V (tag_content tag))) tags ->
  forall it_tag ttt ids,
    fails_as_listed (visit_triggered_tags V triggers tags it_tag ttt ids).
Proof.
  induction 1 as [|tag rest Htag _ IH]; intros it_tag ttt ids; simpl.
  - apply listed_total, ConverterFacts.total_ret.
  - apply listed_bind; [apply listed_matched_trigger|]. intros m.
    apply listed_bind; [exact Htag|]. intros r. apply IH.
Qed.

Lemma total_visit_triggered_tags triggers tags :
  Forall (fun tag =>
            length (matching_triggers (tag_begin tag) triggers) = 1 /\
            total (V (tag_content tag))) tags ->
  forall it_tag ttt ids,
    total (visit_triggered_tags V triggers tags it_tag ttt ids).
Proof.
  induction 1 as [|tag rest [Hone Htag] _ IH]; intros it_tag ttt ids; simpl.
  - apply ConverterFacts.total_ret.
  - apply ConverterFacts.total_bind.
    + intros c. unfold lift. rewrite ConverterFacts.matched_trigger_spec.
      destruct (matching_triggers (tag_begin tag) triggers) as [|t1 [|t2 ts]];
        try discriminate.
      eauto.
    + intros m. apply ConverterFacts.total_bind; [exact Htag|]. intros r.
      apply IH.
Qed.

Lemma listed_VisitSub_TriggeredTags triggers tags excludes detected a s :
  Forall (fun tag => fails_as_listed (V (tag_content tag))) tags ->
  fails_as_listed (VisitSub_TriggeredTags V triggers tags excludes detected a s).
Proof.
  intros Htags. unfold VisitSub_TriggeredTags.
  apply listed_bind; [apply listed_visit_triggered_tags; exact Htags|].
  intros [ttt ids]. apply listed_total. destruct (a && s).
  - apply ConverterFacts.total_triggered_tags_one_tag.
  - apply ConverterFacts.total_triggered_tags_dispatch.
Qed.

Lemma total_VisitSub_TriggeredTags triggers tags excludes detected a s :
  Forall (fun tag =>
            length (matching_triggers (tag_begin tag) triggers) = 1 /\
            total (V (tag_content tag))) tags ->
  total (VisitSub_TriggeredTags V triggers tags excludes detected a s).
Proof.
  intros Htags. unfold VisitSub_TriggeredTags.
  apply ConverterFacts.total_bind;
    [apply total_visit_triggered_tags; exact Htags|].
  intros [ttt ids]. destruct (a && s).
  - apply ConverterFacts.total_triggered_tags_one_tag.
  - apply ConverterFacts.total_triggered_tags_dispatch.
Qed.

Lemma total_VisitSub_Tag tag :
  total (V (tag_content tag)) -> total (VisitSub_Tag V tag).
Proof.
  intros Hc. unfold VisitSub_Tag.
  apply ConverterFacts.total_bind; [exact Hc|]. intros sub.
  apply ConverterFacts.total_bind; [apply ConverterFacts.total_tag_sequence|].
  intros sq. repeat ConverterFacts.total_step.
Qed.

Lemma listed_VisitSub_Tag tag :
  fails_as_listed (V (tag_content tag)) -> fails_as_listed (VisitSub_Tag V tag).
Proof.
  intros Hc. unfold VisitSub_Tag.
  apply listed_bind; [exact Hc|]. intros sub. apply listed_total.
  apply ConverterFacts.total_bind; [apply ConverterFacts.total_tag_sequence|].
  intros sq. repeat ConverterFacts.total_step.
Qed.

End Composite.

Lemma total_VisitSub_TagsWithSeparator separator detected a s
    (VT : TagFormat -> Conv Z) tags :
  Forall (fun tag => total (VT tag)) tags ->
  total (VisitSub_TagsWithSeparator separator detected a s VT tags).
Proof.
  intros Htags. unfold VisitSub_TagsWithSeparator.
  apply ConverterFacts.total_bind.
  { induction Htags as [|tag rest Htag _ IH]; simpl.
    - apply ConverterFacts.total_ret.
    - repeat first [exact Htag | exact IH | ConverterFacts.total_step]. }
  intros choice_ids.
  repeat first [apply total_tags_with_separator_single
               | apply total_tags_with_separator_list
               | ConverterFacts.total_step].
Qed.

Lemma listed_VisitSub_TagsWithSeparator separator detected a s
    (VT : TagFormat -> Conv Z) tags :
  Forall (fun tag => fails_as_listed (VT tag)) tags ->
  fails_as_listed (VisitSub_TagsWithSeparator separator detected a s VT tags).
Proof.
  intros Htags. unfold VisitSub_TagsWithSeparator.
  apply listed_bind.
  { apply listed_for_each. eapply Forall_impl; [exact Htags|].
    intros tag Htag. simpl. apply listed_bind; [exact Htag|]. intros id.
    apply listed_total. repeat ConverterFacts.total_step. }
  intros choice_ids. apply listed_total.
  repeat first [apply total_tags_with_separator_single
               | apply total_tags_with_separator_list
               | ConverterFacts.total_step].
Qed.

Lemma total_for_each_Forall {A B} (body : A -> Conv B) (items : list A) :
  Forall (fun item => total (body item)) items -> total (for_each body items).
Proof.
  induction 1 as [|item rest Hitem _ IH]; simpl.
  - apply ConverterFacts.total_ret.
  - repeat first [exact Hitem | exact IH | ConverterFacts.total_step].
Qed.

Ltac modus :=
  match goal with
  | Himp : Forall (fun f => _ -> _) ?l, Hn : Forall _ ?l |- _ =>
      exact (TreeFacts.Forall_modus _ _ _ Himp Hn)
  end.

Lemma listed_Visit f : fails_as_listed (Visit f).
Proof.
  induction f using TreeFacts.Format_induction;
    rewrite ConverterFacts.Visit_unfold; apply listed_cached; cbn [VisitSub];
    try solve [apply listed_total; apply ConverterFacts.total_on_builder].
  - apply listed_total. unfold VisitSub_ConstString.
    repeat ConverterFacts.total_step.
  - apply listed_total, total_VisitSub_AnyText.
  - apply listed_VisitSub_Regex.
  - unfold VisitSub_Sequence. apply listed_bind.
    + apply listed_for_each. eapply Forall_impl; [eassumption|].
      intros e He. simpl. apply listed_bind; [exact He|]. intros id.
      apply listed_total. repeat ConverterFacts.total_step.
    + intros ids. apply listed_total. repeat ConverterFacts.total_step.
  - unfold VisitSub_Or. apply listed_bind.
    + apply listed_for_each. eapply Forall_impl; [eassumption|].
      intros e He. simpl. apply listed_bind; [exact He|]. intros id.
      apply listed_total. repeat ConverterFacts.total_step.
    + intros ids. apply listed_total. repeat ConverterFacts.total_step.
  - apply listed_VisitSub_Tag. assumption.
  - apply listed_VisitSub_TriggeredTags. assumption.
  - apply listed_VisitSub_TagsWithSeparator.
    eapply Forall_impl; [eassumption|]. intros tag Htag. cbv beta.
    rewrite ConverterFacts.Visit_unfold. apply listed_cached.
    cbn [VisitSub]. apply listed_VisitSub_Tag. exact Htag.
Qed.

Lemma total_Visit f :
  forallb node_converts (nodes f) = true -> total (Visit f).
Proof.
  induction f using TreeFacts.Format_induction; intros Hn;
    rewrite ConverterFacts.Visit_unfold; apply total_cached; cbn [VisitSub];
    try solve [apply ConverterFacts.total_on_builder].
  - unfold VisitSub_ConstString. repeat ConverterFacts.total_step.
  - apply total_VisitSub_AnyText.
  - apply total_VisitSub_Regex. simpl in Hn.
    apply andb_prop in Hn as [Hn _]. exact Hn.
  - simpl in Hn. apply TreeFacts.forallb_flat_map_inv in Hn.
    unfold VisitSub_Sequence. apply ConverterFacts.total_bind.
    + apply total_for_each_Forall. eapply Forall_impl; [modus|].
      intros e He. simpl. repeat first [exact He | ConverterFacts.total_step].
    + intros ids. repeat ConverterFacts.total_step.
  - simpl in Hn. apply TreeFacts.forallb_flat_map_inv in Hn.
    unfold VisitSub_Or. apply ConverterFacts.total_bind.
    + apply total_for_each_Forall. eapply Forall_impl; [modus|].
      intros e He. simpl. repeat first [exact He | ConverterFacts.total_step].
    + intros ids. repeat ConverterFacts.total_step.
  - apply total_VisitSub_Tag. simpl in *. auto.
  - simpl in Hn. apply andb_prop in Hn as [Hone Hn].
    apply TreeFacts.nodes_of_tags in Hn.
    apply total_VisitSub_TriggeredTags.
    rewrite forallb_forall in Hone. rewrite Forall_forall in *.
    intros tag Htag. split.
    + apply Nat.eqb_eq, Hone, list_elem_of_In, Htag.
    + auto.
  - simpl in Hn. apply TreeFacts.nodes_of_tags in Hn.
    apply total_VisitSub_TagsWithSeparator.
    eapply Forall_impl; [modus|].
    intros tag Htag. cbv beta.
    rewrite ConverterFacts.Visit_unfold. apply total_cached.
    cbn [VisitSub]. apply total_VisitSub_Tag. exact Htag.
Qed.

End Visitors.
(** X16.  The errors of a conversion.  When [Convert] returns an error it
    is one of five: a tag with several triggers, a tag with no trigger, a
    regex pattern whose automaton cannot be built, a product with the
    exclusion automaton that cannot be built, or an empty product.  And it
    returns a grammar, not an error, when in every TriggeredTags of the
    tree every tag has exactly one trigger that is a prefix of its [begin],
    and every Regex with excluded strings has a pattern automaton and a
    product with at least one state. *)
Theorem conversion_errors `{Collaborators} (st : StructuralTag) :
  (forall e, Convert st = RErr e -> conversion_error e) /\
  (forallb node_converts (nodes (format st)) = true ->
   exists root b, Convert st = ROk (root, b)).
Proof.
  unfold Convert. split.
  - intros e He.
    assert (Hl : fails_as_listed
                   (root_rule_id ← Visit (format st);
                    AddRootRuleAndGetGrammar root_rule_id)).
    { apply listed_bind; [apply listed_Visit|]. intros r. apply listed_total.
      unfold AddRootRuleAndGetGrammar. repeat ConverterFacts.total_step. }
    specialize (Hl init).
    destruct ((root_rule_id ← Visit (format st);
               AddRootRuleAndGetGrammar root_rule_id) init)
      as [[root c']|e']; [discriminate|].
    injection He as <-. apply Hl. reflexivity.
  - intros Hn.
    assert (Ht : total (root_rule_id ← Visit (format st);
                        AddRootRuleAndGetGrammar root_rule_id)).
    { apply ConverterFacts.total_bind; [apply total_Visit; exact Hn|].
      intros r. unfold AddRootRuleAndGetGrammar.
      repeat ConverterFacts.total_step. }
    destruct (Ht init) as (root & c' & ->). eauto.
Qed.

Lemma conversion_errors_witness :
  exists root b,
    Convert
      {| format :=
           FTriggeredTags ["<a"; "<b"]
             [MkTag "<a>" (FConstString "x") ["</a>"];
              MkTag "<b>" (FAnyText [] ["</b>"]) []]
             [] [] false false |} = ROk (root, b).
Proof. apply (proj2 (conversion_errors _)). reflexivity. Defined.

End FailureFacts.

(** ** Converter: every id of the grammar exists *)

Module ClosedFacts.
Import Converter ConverterSpec ClosedSpec.

Lemma in_range_spec n id :
  in_range n id = true <-> (0 <= id < Z.of_nat n)%Z.
Proof. unfold in_range. rewrite andb_true_iff. lia. Qed.

Lemma forallb_in_range n ids :
  forallb (in_range n) ids = true <->
  Forall (fun id => (0 <= id < Z.of_nat n)%Z) ids.
Proof.
  rewrite forallb_forall, Forall_forall. split; intros H x Hx.
  - apply in_range_spec, H, list_elem_of_In, Hx.
  - apply in_range_spec, H, list_elem_of_In, Hx.
Qed.

Lemma in_range_mono n n' id :
  n <= n' -> in_range n id = true -> in_range n' id = true.
Proof. rewrite !in_range_spec. lia. Qed.

Lemma expr_closed_mono n r n' r' e :
  n <= n' -> r <= r' ->
  expr_closed n r e = true -> expr_closed n' r' e = true.
Proof.
  intros Hn Hr. destruct e; simpl; try reflexivity.
  - apply in_range_mono. exact Hr.
  - rewrite !forallb_forall. intros H x Hx.
    eapply in_range_mono; [exact Hn|]. apply H, Hx.
  - rewrite !forallb_forall. intros H x Hx.
    eapply in_range_mono; [exact Hn|]. apply H, Hx.
  - rewrite !forallb_forall. intros H x Hx.
    eapply in_range_mono; [exact Hr|]. apply H, Hx.
Qed.

Lemma wf_weaken (P Q : Z -> Prop) c :
  (forall x, (0 <= x < nr c)%Z -> P x -> Q x) -> wf P c -> wf Q c.
Proof.
  intros HPQ (He & Hr & Hc). split; [exact He|]. split; [|exact Hc].
  intros i r Hi. destruct (Hr i r Hi) as [H|H]; [left; exact H|].
  right. apply HPQ; [|exact H].
  apply lookup_lt_Some in Hi. unfold nr. lia.
Qed.

(** *** The methods of the builder *)

Lemma wf_AddExpr P e c id c' :
  wf P c ->
  expr_closed (length (exprs_of c)) (length (rules_of c)) e = true ->
  on_builder (GrammarBuilder.AddExpr e) c = ROk (id, c') ->
  wf P c' /\ ne c' = (ne c + 1)%Z /\ nr c' = nr c /\ id = ne c.
Proof.
  intros (He & Hr & Hc) Hcl H. unfold on_builder in H. simpl in H.
  injection H as <- <-.
  unfold wf, ne, nr, exprs_of, rules_of in *. simpl.
  rewrite length_app. simpl. split; [|split; [|split]]; try lia.
  split; [|split].
  - apply Forall_app. split.
    + eapply Forall_impl; [exact He|]. intros x Hx.
      eapply expr_closed_mono; [| |exact Hx]; lia.
    + constructor; [|constructor].
      eapply expr_closed_mono; [| |exact Hcl]; lia.
  - intros i r Hi. destruct (Hr i r Hi) as [H|H]; [left|right; exact H].
    eapply in_range_mono; [|exact H]. lia.
  - exact Hc.
Qed.

Lemma wf_AddByteString P s c id c' :
  wf P c -> AddByteString s c = ROk (id, c') ->
  wf P c' /\ ne c' = (ne c + 1)%Z /\ nr c' = nr c /\ id = ne c.
Proof. intros Hw. apply wf_AddExpr; [exact Hw|reflexivity]. Qed.

Lemma wf_AddEmptyStr P c id c' :
  wf P c -> AddEmptyStr c = ROk (id, c') ->
  wf P c' /\ ne c' = (ne c + 1)%Z /\ nr c' = nr c /\ id = ne c.
Proof. intros Hw. apply wf_AddExpr; [exact Hw|reflexivity]. Qed.

Lemma wf_AddCharacterClass P ranges c id c' :
  wf P c -> AddCharacterClass ranges c = ROk (id, c') ->
  wf P c' /\ ne c' = (ne c + 1)%Z /\ nr c' = nr c /\ id = ne c.
Proof. intros Hw. apply wf_AddExpr; [exact Hw|reflexivity]. Qed.

Lemma wf_AddCharacterClassStar P ranges neg c id c' :
  wf P c -> AddCharacterClassStar ranges neg c = ROk (id, c') ->
  wf P c' /\ ne c' = (ne c + 1)%Z /\ nr c' = nr c /\ id = ne c.
Proof. intros Hw. apply wf_AddExpr; [exact Hw|reflexivity]. Qed.

Lemma wf_AddRuleRef P rule_id c id c' :
  wf P c -> (0 <= rule_id < nr c)%Z ->
  AddRuleRef rule_id c = ROk (id, c') ->
  wf P c' /\ ne c' = (ne c + 1)%Z /\ nr c' = nr c /\ id = ne c.
Proof.
  intros Hw Hid. apply wf_AddExpr; [exact Hw|]. simpl.
  apply in_range_spec. exact Hid.
Qed.

Lemma wf_AddSequence P elements c id c' :
  wf P c -> Forall (fun x => (0 <= x < ne c)%Z) elements ->
  AddSequence elements c = ROk (id, c') ->
  wf P c' /\ ne c' = (ne c + 1)%Z /\ nr c' = nr c /\ id = ne c.
Proof.
  intros Hw Hid. apply wf_AddExpr; [exact Hw|]. simpl.
  apply forallb_in_range. exact Hid.
Qed.

Lemma wf_AddChoices P choices c id c' :
  wf P c -> Forall (fun x => (0 <= x < ne c)%Z) choices ->
  AddChoices choices c = ROk (id, c') ->
  wf P c' /\ ne c' = (ne c + 1)%Z /\ nr c' = nr c /\ id = ne c.
Proof.
  intros Hw Hid. apply wf_AddExpr; [exact Hw|]. simpl.
  apply forallb_in_range. exact Hid.
Qed.

Lemma wf_AddTagDispatch P td c id c' :
  wf P c ->
  Forall (fun pair : string * Z => (0 <= pair.2 < nr c)%Z) (tag_rule_pairs td) ->
  AddTagDispatch td c = ROk (id, c') ->
  wf P c' /\ ne c' = (ne c + 1)%Z /\ nr c' = nr c /\ id = ne c.
Proof.
  intros Hw Hid. apply wf_AddExpr; [exact Hw|]. simpl.
  apply forallb_forall. intros p Hp. apply in_range_spec.
  rewrite Forall_forall in Hid. apply Hid, list_elem_of_In, Hp.
Qed.

Lemma wf_AddRule_gen (P : Z -> Prop) name_hint body c id c' :
  wf P c ->
  ((0 <= body < ne c)%Z \/ P (nr c)) ->
  AddRuleWithHint name_hint body c = ROk (id, c') ->
  wf P c' /\ ne c' = ne c /\ nr c' = (nr c + 1)%Z /\ id = nr c.
Proof.
  intros (He & Hr & Hc) Hb H. unfold AddRuleWithHint, on_builder in H.
  simpl in H. injection H as <- <-.
  unfold wf, ne, nr, exprs_of, rules_of in *. simpl.
  rewrite length_app. simpl. split; [|split; [|split]]; try lia.
  split; [|split].
  - eapply Forall_impl; [exact He|]. intros x Hx.
    eapply expr_closed_mono; [| |exact Hx]; lia.
  - intros i r Hi. apply lookup_app_Some in Hi as [Hi|[Hlen Hi]].
    + apply Hr. exact Hi.
    + apply list_lookup_singleton_Some in Hi as [Hi <-].
      destruct Hb as [Hb|Hb].
      * left. apply in_range_spec. exact Hb.
      * right. replace (Z.of_nat i) with
          (Z.of_nat (length (GrammarBuilder.rules (grammar_builder_ c))))
          by lia. exact Hb.
  - intros fp id Hfp. apply Hc in Hfp. lia.
Qed.

Lemma wf_AddRule P name_hint body c id c' :
  wf P c -> (0 <= body < ne c)%Z ->
  AddRuleWithHint name_hint body c = ROk (id, c') ->
  wf P c' /\ ne c' = ne c /\ nr c' = (nr c + 1)%Z /\ id = nr c.
Proof. intros Hw Hb. apply wf_AddRule_gen; [exact Hw|left; exact Hb]. Qed.

Lemma wf_AddEmptyRule (P : Z -> Prop) name_hint c id c' :
  wf P c ->
  AddEmptyRuleWithHint name_hint c = ROk (id, c') ->
  wf (fun x => P x \/ x = nr c) c' /\
  ne c' = ne c /\ nr c' = (nr c + 1)%Z /\ id = nr c.
Proof.
  intros Hw H.
  apply (wf_AddRule_gen (fun x => P x \/ x = nr c) name_hint (-1)%Z c id c').
  - eapply wf_weaken; [|exact Hw]. intros x _ Hx. left. exact Hx.
  - right. right. reflexivity.
  - exact H.
Qed.

Lemma wf_UpdateRuleBody (P : Z -> Prop) rule_id body c u c' :
  wf P c -> (0 <= body < ne c)%Z ->
  UpdateRuleBody rule_id body c = ROk (u, c') ->
  wf (fun x => P x /\ x <> rule_id) c' /\ ne c' = ne c /\ nr c' = nr c.
Proof.
  intros (He & Hr & Hc) Hb H. unfold UpdateRuleBody in H.
  injection H as H. subst c'.
  unfold wf, ne, nr, exprs_of, rules_of in *. simpl.
  rewrite length_alter. split; [|split; reflexivity].
  split; [exact He|]. split; [|exact Hc].
  intros i r Hi.
  destruct (decide (i = Z.to_nat rule_id)) as [->|Hne].
  - rewrite list_lookup_alter_eq in Hi.
    destruct (GrammarBuilder.rules (grammar_builder_ c) !! Z.to_nat rule_id)
      as [r0|]; simpl in Hi; [|discriminate].
    injection Hi as <-. left. apply in_range_spec. exact Hb.
  - rewrite list_lookup_alter_ne in Hi by auto.
    destruct (Hr i r Hi) as [Hi'|Hi']; [left; exact Hi'|].
    right. split; [exact Hi'|]. lia.
Qed.

(** *** Running a method step by step *)

(** Bounds on ids: arithmetic on the numbers of expressions and rules. *)
Ltac arith := unfold is_expr, is_rule, ne, nr in *; cbv beta in *; lia.

Ltac bounds :=
  cbv beta;
  first
    [ arith
    | match goal with
      | |- Forall _ [] => constructor
      | |- Forall _ (_ :: _) => constructor; [arith|bounds]
      | |- Forall _ (_ ++ _) => apply Forall_app; split; bounds
      | |- Forall _ (if ?b then _ else _) => destruct b; bounds
      | H : Forall _ ?l |- Forall _ ?l =>
          eapply Forall_impl; [exact H|]; cbv beta; intros; arith
      end ].

(** One step of a builder method on [H : m c = ROk (id, c')]. *)
Ltac prim H :=
  match type of H with
  | AddByteString _ _ = ROk _ => eapply wf_AddByteString in H; [|eassumption]
  | AddEmptyStr _ = ROk _ => eapply wf_AddEmptyStr in H; [|eassumption]
  | AddCharacterClass _ _ = ROk _ =>
      eapply wf_AddCharacterClass in H; [|eassumption]
  | AddCharacterClassStar _ _ _ = ROk _ =>
      eapply wf_AddCharacterClassStar in H; [|eassumption]
  | AddRuleRef _ _ = ROk _ =>
      eapply wf_AddRuleRef in H; [|eassumption|bounds]
  | AddSequence _ _ = ROk _ =>
      eapply wf_AddSequence in H; [|eassumption|bounds]
  | AddChoices _ _ = ROk _ =>
      eapply wf_AddChoices in H; [|eassumption|bounds]
  | AddRuleWithHint _ _ _ = ROk _ =>
      eapply wf_AddRule in H; [|eassumption|bounds]
  | AddTagDispatch _ _ = ROk _ =>
      eapply wf_AddTagDispatch in H; [|eassumption|simpl; bounds]
  end;
  destruct H as (? & ? & ? & ?).

(** Splits [H : (m ≫= k) c = ROk r] into the run of [m], named [H1], and
    the run of [k], which keeps the name [H]. *)
Ltac split_bind H H1 :=
  let x := fresh "x" in
  let c := fresh "c" in
  apply ConverterFacts.bind_inv in H as (x & c & H1 & H).

(** Runs the builder methods at the head of [H]. *)
Ltac run H :=
  repeat (let H1 := fresh "Hrun" in split_bind H H1; prim H1);
  first [prim H | apply ConverterFacts.ret_inv in H as [-> ->] | idtac].

(** The conclusion of a method that preserves the invariant. *)
Ltac finish :=
  split; [eassumption|]; split; [arith|]; split; [arith|bounds].

(** *** Strings and tags *)

Lemma wf_end_str_expr P end_str c id c' :
  wf P c -> end_str_expr end_str c = ROk (id, c') ->
  wf P c' /\ ne c' = (ne c + 1)%Z /\ nr c' = nr c /\ id = ne c.
Proof.
  intros Hw H. unfold end_str_expr in H.
  destruct (str_empty end_str); prim H; auto.
Qed.

(** A loop whose body keeps the invariant and returns values that satisfy
    [Q], a property that survives the growth of the tables. *)
Lemma wf_for_each {A B} P (body : A -> Conv B) (Q : B -> Converter.t -> Prop)
    (items : list A) (c0 : Converter.t) :
  (forall r c c', Q r c -> (ne c <= ne c')%Z -> (nr c <= nr c')%Z -> Q r c') ->
  (forall item c r c',
     item ∈ items -> wf P c -> (ne c0 <= ne c)%Z -> (nr c0 <= nr c)%Z ->
     body item c = ROk (r, c') ->
     wf P c' /\ (ne c <= ne c')%Z /\ (nr c <= nr c')%Z /\ Q r c') ->
  forall c rs c',
    wf P c -> (ne c0 <= ne c)%Z -> (nr c0 <= nr c)%Z ->
    for_each body items c = ROk (rs, c') ->
    wf P c' /\ (ne c <= ne c')%Z /\ (nr c <= nr c')%Z /\
    Forall (fun r => Q r c') rs.
Proof.
  intros Hstable. induction items as [|item rest IH];
    intros Hbody c rs c' Hw Hne Hnr H; simpl in H.
  - apply ConverterFacts.ret_inv in H as [-> ->].
    split; [exact Hw|]. split; [lia|]. split; [lia|constructor].
  - apply ConverterFacts.bind_inv in H as (r & c1 & H1 & H).
    apply ConverterFacts.bind_inv in H as (rs' & c2 & H2 & H).
    apply ConverterFacts.ret_inv in H as [-> ->].
    apply Hbody in H1 as (Hw1 & Hne1 & Hnr1 & Hq); [|left|assumption..].
    apply IH in H2 as (Hw2 & Hne2 & Hnr2 & Hqs); [| |assumption|lia|lia].
    2:{ intros x cx rx cx' Hx. apply Hbody. right. exact Hx. }
    split; [exact Hw2|]. split; [lia|]. split; [lia|].
    constructor; [|exact Hqs]. eapply Hstable; eassumption.
Qed.

Lemma is_expr_stable id c c' :
  is_expr id c -> (ne c <= ne c')%Z -> (nr c <= nr c')%Z -> is_expr id c'.
Proof. unfold is_expr. lia. Qed.

Lemma is_rule_stable id c c' :
  is_rule id c -> (ne c <= ne c')%Z -> (nr c <= nr c')%Z -> is_rule id c'.
Proof. unfold is_rule. lia. Qed.

(** Uses the lemma [L] of a method on [H : m c = ROk (a, c')]. *)
Ltac use L H :=
  eapply L in H; [|first [eassumption | bounds]..];
  destruct H as (? & ? & ? & ?).

(** Uses [wf_for_each] on the loop [H], with results that satisfy [Q]; the
    body is left to prove. *)
Ltac loop Q H :=
  match type of H with
  | for_each _ _ ?c = ROk _ =>
      eapply (wf_for_each _ _ Q _ c) in H;
      [destruct H as (? & ? & ? & ?)
      |first [exact is_expr_stable | exact is_rule_stable
             | intros; cbv beta in *; lia]
      |
      |first [eassumption | lia]..]
  end.

Lemma wf_end_choices_rule_ref P hint ends_ c id c' :
  wf P c -> end_choices_rule_ref hint ends_ c = ROk (id, c') ->
  wf P c' /\ (ne c <= ne c')%Z /\ (nr c <= nr c')%Z /\ (0 <= id < ne c')%Z.
Proof.
  intros Hw H. unfold end_choices_rule_ref in H.
  split_bind H Hloop. loop is_expr Hloop.
  2:{ intros end_str s r s' _ Hws Hnes Hnrs Hb. split_bind Hb Hs.
      use wf_end_str_expr Hs. run Hb. unfold is_expr. finish. }
  unfold is_expr in *. run H. finish.
Qed.

Lemma wf_tag_sequence P begin_str content_rule_id end_ c id c' :
  wf P c -> (0 <= content_rule_id < nr c)%Z ->
  tag_sequence begin_str content_rule_id end_ c = ROk (id, c') ->
  wf P c' /\ (ne c <= ne c')%Z /\ (nr c <= nr c')%Z /\ (0 <= id < ne c')%Z.
Proof.
  intros Hw Hid H. unfold tag_sequence in H.
  split_bind H Hbegin. prim Hbegin. split_bind H Href. prim Href.
  destruct end_ as [|end0 [|end1 rest]].
  - run H. finish.
  - split_bind H Hend. use wf_end_str_expr Hend. run H. finish.
  - split_bind H Hend. use wf_end_choices_rule_ref Hend. run H. finish.
Qed.

Lemma indexed_range {A} (v : list A) i x :
  (i, x) ∈ indexed v -> (0 <= i < Z.of_nat (length v))%Z.
Proof.
  unfold indexed. intros Hin. apply elem_of_zip_l in Hin.
  apply elem_of_seqZ in Hin. lia.
Qed.

Lemma at_in_range (ids : list Z) (i : Z) (bound : Z) :
  Forall (fun x => (0 <= x < bound)%Z) ids ->
  (0 <= i < Z.of_nat (length ids))%Z ->
  (0 <= at_ ids i < bound)%Z.
Proof.
  intros Hall Hi. unfold at_.
  destruct (lookup_lt_is_Some_2 ids (Z.to_nat i) ltac:(lia)) as [x Hx].
  rewrite Hx. simpl. rewrite Forall_forall in Hall. apply Hall.
  eapply list_elem_of_lookup_2. exact Hx.
Qed.

Lemma wf_all_tags_choices P tags ids c rs c' :
  wf P c ->
  Forall (fun x => (0 <= x < nr c)%Z) ids -> length ids = length tags ->
  all_tags_choices tags ids c = ROk (rs, c') ->
  wf P c' /\ (ne c <= ne c')%Z /\ (nr c <= nr c')%Z /\
  Forall (fun r => (0 <= r < ne c')%Z) rs.
Proof.
  intros Hw Hids Hlen H. unfold all_tags_choices in H.
  loop is_expr H.
  - unfold is_expr in *. auto.
  - intros [it_tag tag] s r s' Hin Hws Hnes Hnrs Hb.
    apply indexed_range in Hin.
    assert (Hat : (0 <= at_ ids it_tag < nr c)%Z)
      by (apply at_in_range; [exact Hids|lia]).
    use wf_tag_sequence Hb. finish.
Qed.

Lemma wf_triggered_tags_one_tag P tags detected ids c id c' :
  wf P c ->
  Forall (fun x => (0 <= x < nr c)%Z) ids -> length ids = length tags ->
  triggered_tags_one_tag tags detected ids c = ROk (id, c') ->
  wf P c' /\ (ne c <= ne c')%Z /\ (nr c <= nr c')%Z /\ (0 <= id < nr c')%Z.
Proof.
  intros Hw Hids Hlen H. unfold triggered_tags_one_tag in H.
  split_bind H Hall. use wf_all_tags_choices Hall.
  split_bind H Hch. prim Hch.
  split_bind H Hbody.
  destruct detected as [|end0 [|end1 rest]].
  - run Hbody. run H. finish.
  - split_bind Hbody Hsub. prim Hsub. split_bind Hbody Href. prim Href.
    split_bind Hbody Hend. use wf_end_str_expr Hend.
    run Hbody. run H. finish.
  - split_bind Hbody Hsub. prim Hsub. split_bind Hbody Href. prim Href.
    split_bind Hbody Hend. use wf_end_choices_rule_ref Hend.
    run Hbody. run H. finish.
Qed.

Lemma wf_trigger_groups P triggers tags ttt ids c pairs c' :
  wf P c ->
  Forall (fun x => (0 <= x < nr c)%Z) ids ->
  groups_in_range ttt (Z.of_nat (length ids)) ->
  trigger_groups triggers tags ttt ids c = ROk (pairs, c') ->
  wf P c' /\ (ne c <= ne c')%Z /\ (nr c <= nr c')%Z /\
  Forall (fun pair : string * Z => (0 <= pair.2 < nr c')%Z) pairs.
Proof.
  intros Hw Hids Hgroups H. unfold trigger_groups in H.
  loop (fun (pair : string * Z) c => (0 <= pair.2 < nr c)%Z) H.
  - finish.
  - intros [it_trigger trigger] s r s' Hin Hws Hnes Hnrs Hb.
    split_bind Hb Hgroup.
    assert (Hgroup_ids :
              Forall (fun tag_id => (0 <= tag_id < Z.of_nat (length ids))%Z)
                (default [] (ttt !! Z.to_nat it_trigger))).
    { destruct (ttt !! Z.to_nat it_trigger) as [group|] eqn:Hg; simpl;
        [|constructor].
      unfold groups_in_range in Hgroups. rewrite Forall_forall in Hgroups.
      apply Hgroups. eapply list_elem_of_lookup_2. exact Hg. }
    loop is_expr Hgroup.
    2:{ intros tag_id t r2 t' Hin2 Hwt Hnet Hnrt Hb2.
        rewrite Forall_forall in Hgroup_ids. apply Hgroup_ids in Hin2.
        assert (Hat : (0 <= at_ ids tag_id < nr c)%Z)
          by (apply at_in_range; [exact Hids|lia]).
        use wf_tag_sequence Hb2. finish. }
    unfold is_expr in *. run Hb. simpl. finish.
Qed.

Lemma wf_triggered_tags_dispatch P triggers tags excludes detected a s ttt ids
    c id c' :
  wf P c ->
  Forall (fun x => (0 <= x < nr c)%Z) ids -> length ids = length tags ->
  groups_in_range ttt (Z.of_nat (length ids)) ->
  triggered_tags_dispatch triggers tags excludes detected a s ttt ids c =
    ROk (id, c') ->
  wf P c' /\ (ne c <= ne c')%Z /\ (nr c <= nr c')%Z /\ (0 <= id < nr c')%Z.
Proof.
  intros Hw Hids Hlen Hgroups H. unfold triggered_tags_dispatch in H.
  split_bind H Hpairs. use wf_trigger_groups Hpairs.
  split_bind H Hdispatch.
  destruct detected as [|d ds]; prim Hdispatch;
    (split_bind H Hbody; destruct a;
     [split_bind Hbody Hall; use wf_all_tags_choices Hall; run Hbody
     |run Hbody]; run H; finish).
Qed.

Lemma wf_VisitSub_ConstString P value c id c' :
  wf P c -> VisitSub_ConstString value c = ROk (id, c') ->
  wf P c' /\ (ne c <= ne c')%Z /\ (nr c <= nr c')%Z /\ (0 <= id < nr c')%Z.
Proof. intros Hw H. unfold VisitSub_ConstString in H. run H. finish. Qed.

Lemma wf_VisitSub_AnyText P excluded detected c id c' :
  wf P c -> VisitSub_AnyText excluded detected c = ROk (id, c') ->
  wf P c' /\ (ne c <= ne c')%Z /\ (nr c <= nr c')%Z /\ (0 <= id < nr c')%Z.
Proof.
  intros Hw H. unfold VisitSub_AnyText in H.
  destruct detected as [|d ds]; run H; finish.
Qed.

(** *** TagsWithSeparator *)

Lemma wf_tags_with_separator_single P a all_tags_rule_ref_id ids c id c' :
  wf P c ->
  (0 <= all_tags_rule_ref_id < ne c)%Z ->
  Forall (fun x => (0 <= x < ne c)%Z) ids ->
  tags_with_separator_single a all_tags_rule_ref_id ids c = ROk (id, c') ->
  wf P c' /\ (ne c <= ne c')%Z /\ (nr c <= nr c')%Z /\ (0 <= id < nr c')%Z.
Proof.
  intros Hw Href Hids H. unfold tags_with_separator_single in H.
  split_bind H Hbody.
  destruct a, (negb (negb (bool_decide (ids = [])))).
  - run Hbody. run H. finish.
  - split_bind Hbody Hloop. loop is_expr Hloop.
    2:{ intros end_id s r s' Hin Hws Hnes Hnrs Hb.
        rewrite Forall_forall in Hids. apply Hids in Hin.
        run Hb. finish. }
    unfold is_expr in *. run Hbody. run H. finish.
  - run Hbody. run H. finish.
  - split_bind Hbody Hloop. loop is_expr Hloop.
    2:{ intros end_id s r s' Hin Hws Hnes Hnrs Hb.
        rewrite Forall_forall in Hids. apply Hids in Hin.
        run Hb. finish. }
    split_bind Hbody Hloop2. loop is_expr Hloop2.
    2:{ intros end_id s r s' Hin Hws Hnes Hnrs Hb.
        rewrite Forall_forall in Hids. apply Hids in Hin.
        run Hb. finish. }
    unfold is_expr in *. run Hbody. run H. finish.
Qed.

Lemma wf_tags_with_separator_list P separator a all_tags_rule_ref_id ids
    c id c' :
  wf P c ->
  (0 <= all_tags_rule_ref_id < ne c)%Z ->
  Forall (fun x => (0 <= x < ne c)%Z) ids ->
  tags_with_separator_list separator a all_tags_rule_ref_id ids c =
    ROk (id, c') ->
  wf P c' /\ (ne c <= ne c')%Z /\ (nr c <= nr c')%Z /\ (0 <= id < nr c')%Z.
Proof.
  intros Hw Href Hids H. unfold tags_with_separator_list in H.
  split_bind H Hsub. apply wf_AddEmptyRule with (P := P) in Hsub; [|exact Hw].
  destruct Hsub as (Hw1 & Hne1 & Hnr1 & Hsub).
  split_bind H Hends.
  match type of Hends with
  | _ ?c1 = ROk (?e, ?c2) =>
      assert (He : wf (fun x => P x \/ x = nr c) c2 /\
                   (ne c1 <= ne c2)%Z /\ (nr c1 <= nr c2)%Z /\
                   (0 <= e < ne c2)%Z)
  end.
  { destruct ids as [|id0 [|id1 rest]].
    - run Hends. finish.
    - run Hends. finish.
    - split_bind Hends Hloop. loop is_expr Hloop.
      2:{ intros end_id s r s' Hin Hws Hnes Hnrs Hb.
          rewrite Forall_forall in Hids. apply Hids in Hin.
          run Hb. finish. }
      unfold is_expr in *. run Hends. finish. }
  destruct He as (Hw2 & Hne2 & Hnr2 & He).
  split_bind H Hsep.
  match type of Hsep with
  | _ ?c2 = ROk (?elems, ?c3) =>
      assert (Hs : wf (fun x => P x \/ x = nr c) c3 /\
                   (ne c2 <= ne c3)%Z /\ (nr c2 <= nr c3)%Z /\
                   Forall (fun x => (0 <= x < ne c3)%Z) elems)
  end.
  { destruct (str_empty separator); run Hsep; finish. }
  destruct Hs as (Hw3 & Hne3 & Hnr3 & Hs).
  split_bind H Href1. prim Href1.
  split_bind H Hseq. prim Hseq.
  split_bind H Hbody. prim Hbody.
  split_bind H Hupd.
  eapply wf_UpdateRuleBody in Hupd; [|eassumption|bounds].
  destruct Hupd as (Hw7 & Hne7 & Hnr7).
  eapply (wf_weaken _ P) in Hw7.
  2:{ cbv beta. intros y _ [[Hy|Hy] Hy']; [exact Hy|]. exfalso. lia. }
  run H. destruct a; finish.
Qed.

(** *** Regex with excluded strings: one rule per state *)

Lemma at_seqZ base n i :
  (0 <= i < n)%Z -> at_ (seqZ base n) i = (base + i)%Z.
Proof.
  intros Hi. unfold at_. rewrite lookup_seqZ_lt by lia. simpl. lia.
Qed.

Lemma wf_empty_rules {A} hint (items : list A) :
  forall (P : Z -> Prop) c ids c',
    wf P c ->
    for_each (fun _ => AddEmptyRuleWithHint hint) items c = ROk (ids, c') ->
    wf (fun x => P x \/ (nr c <= x < nr c + Z.of_nat (length items))%Z) c' /\
    ne c' = ne c /\ nr c' = (nr c + Z.of_nat (length items))%Z /\
    ids = seqZ (nr c) (Z.of_nat (length items)).
Proof.
  induction items as [|item rest IH]; intros P c ids c' Hw H; simpl in H.
  - apply ConverterFacts.ret_inv in H as [-> ->]. simpl.
    split; [|split; [reflexivity|split; [lia|reflexivity]]].
    eapply wf_weaken; [|exact Hw]. intros x _ Hx. left. exact Hx.
  - split_bind H Hrule. split_bind H Hrest.
    apply ConverterFacts.ret_inv in H as [-> ->].
    eapply wf_AddEmptyRule in Hrule; [|exact Hw].
    destruct Hrule as (Hw1 & Hne1 & Hnr1 & ->).
    eapply IH in Hrest; [|exact Hw1].
    destruct Hrest as (Hw2 & Hne2 & Hnr2 & ->).
    split; [|split; [lia|split; [simpl length; lia|]]].
    + eapply wf_weaken; [|exact Hw2]. cbv beta. intros y _ Hy.
      simpl length. destruct Hy as [[Hy|Hy]|Hy]; [left; exact Hy|right; lia..].
    + simpl length. rewrite (seqZ_cons (nr c)) by lia. f_equal.
      rewrite Hnr1. f_equal; lia.
Qed.

Lemma edge_targets_in_range result_fsm state edge :
  states_in_range result_fsm = true ->
  edge ∈ FSM.GetEdges (fsm result_fsm) state ->
  (0 <= FSM.target edge < FSM.NumStates (fsm result_fsm))%Z.
Proof.
  unfold states_in_range, FSM.GetEdges, FSM.NumStates. intros Hs Hin.
  apply andb_prop in Hs as [_ Hs]. rewrite forallb_forall in Hs.
  destruct (fsm result_fsm !! Z.to_nat state) as [edges|] eqn:He; simpl in Hin;
    [|inversion Hin].
  apply list_elem_of_lookup_2, list_elem_of_In, Hs in He.
  rewrite forallb_forall in He.
  apply in_range_spec, He, list_elem_of_In, Hin.
Qed.

Lemma wf_regex_state_rule P result_fsm base state c u c' :
  let n := FSM.NumStates (fsm result_fsm) in
  states_in_range result_fsm = true ->
  wf P c -> (0 <= base)%Z -> (base + n <= nr c)%Z ->
  regex_state_rule result_fsm (seqZ base n) state c = ROk (u, c') ->
  wf (fun x => P x /\ x <> at_ (seqZ base n) state) c' /\
  (ne c <= ne c')%Z /\ (nr c <= nr c')%Z.
Proof.
  intros n Hfsm Hw Hbase Hn H. unfold regex_state_rule in H.
  split_bind H Hend.
  match type of Hend with
  | _ ?c0 = ROk (?seqs, ?c1) =>
      assert (He : wf P c1 /\ (ne c0 <= ne c1)%Z /\ (nr c0 <= nr c1)%Z /\
                   Forall (fun x => (0 <= x < ne c1)%Z) seqs)
  end.
  { destruct (IsEndState result_fsm state).
    - run Hend. finish.
    - apply ConverterFacts.ret_inv in Hend as [-> ->].
      split; [exact Hw|]. split; [lia|]. split; [lia|constructor]. }
  destruct He as (Hw1 & Hne1 & Hnr1 & He).
  split_bind H Hedges. loop is_expr Hedges.
  2:{ intros edge s r s' Hin Hws Hnes Hnrs Hb.
      apply list_elem_of_filter in Hin as [_ Hin].
      apply (edge_targets_in_range _ _ _ Hfsm) in Hin. fold n in Hin.
      assert (Hat : (0 <= at_ (seqZ base n) (FSM.target edge) < nr s)%Z)
        by (rewrite at_seqZ by lia; lia).
      run Hb. finish. }
  unfold is_expr in *.
  match type of H with
  | match ?l with [] => _ | _ :: _ => _ end _ = _ =>
      assert (Hl : Forall (fun y => (0 <= y < ne c1)%Z) l) by bounds;
      destruct l
  end.
  - split_bind H Hempty. prim Hempty. split_bind H Hseq. prim Hseq.
    split_bind H Hbody. prim Hbody.
    eapply wf_UpdateRuleBody in H; [|eassumption|bounds].
    destruct H as (Hw' & Hne' & Hnr'). split; [exact Hw'|]. split; arith.
  - split_bind H Hbody. prim Hbody.
    eapply wf_UpdateRuleBody in H; [|eassumption|bounds].
    destruct H as (Hw' & Hne' & Hnr'). split; [exact Hw'|]. split; arith.
Qed.

Lemma wf_regex_rules (P : Z -> Prop) result_fsm base :
  let n := FSM.NumStates (fsm result_fsm) in
  states_in_range result_fsm = true -> (0 <= base)%Z ->
  forall states k c us c',
    states = seqZ k (n - k) -> (0 <= k <= n)%Z ->
    wf (fun x => P x \/ (base + k <= x < base + n)%Z) c ->
    (base + n <= nr c)%Z ->
    for_each (regex_state_rule result_fsm (seqZ base n)) states c =
      ROk (us, c') ->
    wf P c' /\ (ne c <= ne c')%Z /\ (nr c <= nr c')%Z.
Proof.
  intros n Hfsm Hbase.
  induction states as [|state rest IH]; intros k c us c' Hstates Hk Hw Hn H;
    simpl in H.
  - apply ConverterFacts.ret_inv in H as [-> ->].
    split; [|lia].
    assert (Hkn : (n - k <= 0)%Z).
    { destruct (decide (0 < n - k)%Z) as [Hpos|]; [|lia].
      rewrite seqZ_cons in Hstates by exact Hpos. discriminate. }
    eapply wf_weaken; [|exact Hw]. cbv beta. intros x _ [Hx|Hx];
      [exact Hx|lia].
  - assert (Hpos : (0 < n - k)%Z).
    { destruct (decide (0 < n - k)%Z) as [Hpos|Hneg]; [exact Hpos|].
      rewrite seqZ_nil in Hstates by lia. discriminate. }
    rewrite seqZ_cons in Hstates by exact Hpos.
    injection Hstates as -> ->.
    split_bind H Hrule. split_bind H Hrest.
    apply ConverterFacts.ret_inv in H as [-> ->].
    eapply wf_regex_state_rule in Hrule; [|exact Hfsm|exact Hw|exact Hbase|exact Hn].
    destruct Hrule as (Hw1 & Hne1 & Hnr1).
    eapply (IH (Z.succ k)) in Hrest;
      [|f_equal; lia|lia| |lia].
    + destruct Hrest as (Hw2 & Hne2 & Hnr2). split; [exact Hw2|lia].
    + eapply wf_weaken; [|exact Hw1]. cbv beta.
      fold n. rewrite at_seqZ by lia.
      intros y _ [[Hy|Hy] Hne]; [left; exact Hy|right; lia].
Qed.

(** *** The invariant and [closed] *)

Lemma wf_closed c :
  wf none_pending c -> closed (grammar_builder_ c) = true.
Proof.
  intros (He & Hr & _). unfold closed. apply andb_true_intro. split.
  - apply forallb_forall. rewrite Forall_forall in He.
    intros e Hin. apply He, list_elem_of_In, Hin.
  - apply forallb_forall. intros r Hin.
    apply list_elem_of_In, list_elem_of_lookup_1 in Hin as [i Hi].
    destruct (Hr i r Hi) as [H|[]]. exact H.
Qed.

Lemma closed_wf b cache :
  closed b = true ->
  (forall fingerprint rule_id,
     cache !! fingerprint = Some rule_id ->
     (0 <= rule_id < Z.of_nat (length (GrammarBuilder.rules b)))%Z) ->
  wf none_pending {| grammar_builder_ := b; fingerprint_to_rule_id_ := cache |}.
Proof.
  unfold closed. intros Hc Hcache. apply andb_prop in Hc as [He Hr].
  rewrite forallb_forall in He. rewrite forallb_forall in Hr.
  split; [|split].
  - apply Forall_forall. intros e Hin. apply He, list_elem_of_In, Hin.
  - intros i r Hi. left. apply Hr, list_elem_of_In.
    eapply list_elem_of_lookup_2. exact Hi.
  - exact Hcache.
Qed.

Lemma closed_visit_cached fingerprint visit_sub :
  closed_visit visit_sub -> closed_visit (cached fingerprint visit_sub).
Proof.
  intros Hsub c id c' Hw H. unfold cached in H.
  destruct (fingerprint_to_rule_id_ c !! fingerprint) as [rule_id|] eqn:Hhit.
  - injection H as <- <-. split; [exact Hw|]. split; [lia|]. split; [lia|].
    destruct Hw as (_ & _ & Hc). eapply Hc. exact Hhit.
  - destruct (visit_sub c) as [[rule_id c1]|] eqn:Hv; [|discriminate].
    injection H as <- <-. apply Hsub in Hv as (Hw1 & Hne1 & Hnr1 & Hid);
      [|exact Hw].
    split; [|split; [exact Hne1|split; [exact Hnr1|exact Hid]]].
    destruct Hw1 as (He & Hr & Hc). split; [exact He|]. split; [exact Hr|].
    intros fp rule_id' Hfp. simpl in Hfp.
    destruct (decide (fp = fingerprint)) as [->|Hne].
    + rewrite lookup_insert_eq in Hfp. injection Hfp as <-. exact Hid.
    + rewrite lookup_insert_ne in Hfp by auto. eapply Hc. exact Hfp.
Qed.

Section Visitors.
Context `{Collaborators}.
Hypothesis Hsplice : splice_closed.
Hypothesis Hintersect : intersect_in_range.

Lemma closed_visit_add_sub_grammar g : closed_visit (add_sub_grammar g).
Proof.
  intros c id c' Hw H0. unfold add_sub_grammar, on_builder in H0.
  pose proof (Hsplice (grammar_builder_ c) g (wf_closed c Hw)) as Hs.
  cbv zeta in Hs.
  destruct (SubGrammarAdder_Apply (grammar_builder_ c) g) as [id' b'].
  simpl in Hs. destruct Hs as (Hcl & Hle_e & Hle_r & Hid).
  injection H0 as <- <-. apply in_range_spec in Hid.
  unfold ne, nr, exprs_of, rules_of. simpl.
  split; [|split; [lia|split; [lia|exact Hid]]].
  apply closed_wf; [exact Hcl|].
  intros fp rule_id Hfp. destruct Hw as (_ & _ & Hc).
  apply Hc in Hfp. unfold nr, rules_of in Hfp. lia.
Qed.

Lemma closed_visit_VisitSub_Regex pattern excluded_strs :
  closed_visit (VisitSub_Regex pattern excluded_strs).
Proof.
  unfold VisitSub_Regex. cbv zeta. destruct excluded_strs as [|x0 xs].
  { apply closed_visit_add_sub_grammar. }
  destruct (RegexFSMBuilder_Build pattern) as [regex_fsm|]; [|discriminate].
  destruct (FSMWithStartEnd_Intersect _ _) as [result_fsm|] eqn:Hi;
    [|discriminate].
  apply Hintersect in Hi.
  destruct (FSM.NumStates (fsm result_fsm) =? 0)%Z; [discriminate|].
  intros c id c' Hw Hr.
  set (n := FSM.NumStates (fsm result_fsm)) in *.
  assert (Hn : (0 <= n)%Z) by (unfold n, FSM.NumStates; lia).
  split_bind Hr Hids. split_bind Hr Hrules.
  apply ConverterFacts.ret_inv in Hr as [-> ->].
  eapply wf_empty_rules in Hids; [|exact Hw].
  rewrite length_seqZ, Z2Nat.id in Hids by exact Hn.
  destruct Hids as (Hw1 & Hne1 & Hnr1 & ->).
  eapply (wf_regex_rules none_pending result_fsm (nr c)) in Hrules;
    [|exact Hi|unfold nr; lia|f_equal; fold n; lia|fold n; lia| |fold n; lia].
  2:{ eapply wf_weaken; [|exact Hw1]. cbv beta. fold n.
      intros y _ [Hy|Hy]; [left; exact Hy|right; lia]. }
  destruct Hrules as (Hw2 & Hne2 & Hnr2).
  split; [exact Hw2|]. split; [lia|]. split; [lia|].
  unfold states_in_range in Hi. apply andb_prop in Hi as [Hstart _].
  apply in_range_spec in Hstart. rewrite at_seqZ.
  - subst n. unfold FSM.NumStates, nr in *. lia.
  - subst n. unfold FSM.NumStates. lia.
Qed.

Section Composite.
Variable V : Format -> Conv Z.

Lemma closed_visit_VisitSub_Sequence elements :
  Forall (fun element => closed_visit (V element)) elements ->
  closed_visit (VisitSub_Sequence V elements).
Proof.
  intros Helems c id c' Hw Hr. unfold VisitSub_Sequence in Hr.
  split_bind Hr Hloop. loop is_expr Hloop.
  2:{ intros element s r s' Hin Hws Hnes Hnrs Hb.
      rewrite Forall_forall in Helems. apply Helems in Hin.
      split_bind Hb Hv. apply Hin in Hv; [|exact Hws].
      destruct Hv as (? & ? & ? & ?). run Hb. finish. }
  unfold is_expr in *. run Hr. finish.
Qed.

Lemma closed_visit_VisitSub_Or elements :
  Forall (fun element => closed_visit (V element)) elements ->
  closed_visit (VisitSub_Or V elements).
Proof.
  intros Helems c id c' Hw Hr. unfold VisitSub_Or in Hr.
  split_bind Hr Hloop. loop is_expr Hloop.
  2:{ intros element s r s' Hin Hws Hnes Hnrs Hb.
      rewrite Forall_forall in Helems. apply Helems in Hin.
      split_bind Hb Hv. apply Hin in Hv; [|exact Hws].
      destruct Hv as (? & ? & ? & ?). run Hb. finish. }
  unfold is_expr in *. run Hr. finish.
Qed.

Lemma closed_visit_VisitSub_Tag tag :
  closed_visit (V (tag_content tag)) -> closed_visit (VisitSub_Tag V tag).
Proof.
  intros Hcontent c id c' Hw Hr. unfold VisitSub_Tag in Hr.
  split_bind Hr Hv. apply Hcontent in Hv; [|exact Hw].
  destruct Hv as (? & ? & ? & ?).
  split_bind Hr Hseq. use wf_tag_sequence Hseq. run Hr. finish.
Qed.

Lemma wf_visit_triggered_tags triggers tags :
  Forall (fun tag => closed_visit (V (tag_content tag))) tags ->
  forall it_tag ttt ids c ttt' ids' c',
    wf none_pending c ->
    Forall (fun x => (0 <= x < nr c)%Z) ids ->
    it_tag = Z.of_nat (length ids) ->
    groups_in_range ttt it_tag ->
    visit_triggered_tags V triggers tags it_tag ttt ids c =
      ROk ((ttt', ids'), c') ->
    wf none_pending c' /\ (ne c <= ne c')%Z /\ (nr c <= nr c')%Z /\
    (Forall (fun x => (0 <= x < nr c')%Z) ids' /\
     length ids' = length ids + length tags /\
     groups_in_range ttt' (Z.of_nat (length ids'))).
Proof.
  induction 1 as [|tag rest Htag _ IH];
    intros it_tag ttt ids c ttt' ids' c' Hw Hids Hit Hgroups Hr; simpl in Hr.
  - apply ConverterFacts.ret_inv in Hr as [[= -> ->] ->].
    split; [exact Hw|]. split; [lia|]. split; [lia|].
    split; [exact Hids|]. split; [simpl; lia|]. subst it_tag. exact Hgroups.
  - split_bind Hr Hm. unfold lift in Hm.
    destruct (matched_trigger (tag_begin tag) triggers) as [m|]; [|discriminate].
    injection Hm as <- <-.
    split_bind Hr Hv. apply Htag in Hv; [|exact Hw].
    destruct Hv as (Hw1 & Hne1 & Hnr1 & Hid).
    eapply IH in Hr; [|exact Hw1| | |].
    + destruct Hr as (Hw2 & Hne2 & Hnr2 & Hids2 & Hlen2 & Hg2).
      split; [exact Hw2|]. split; [lia|]. split; [lia|].
      split; [exact Hids2|]. split; [|exact Hg2].
      rewrite Hlen2, length_app. simpl. lia.
    + apply Forall_app. split; [|constructor; [exact Hid|constructor]].
      eapply Forall_impl; [exact Hids|]. cbv beta. intros; lia.
    + rewrite length_app. simpl. lia.
    + unfold groups_in_range, push_back_at in *. apply Forall_alter.
      * eapply Forall_impl; [exact Hgroups|]. cbv beta. intros group Hg.
        eapply Forall_impl; [exact Hg|]. cbv beta. intros; lia.
      * intros group _ Hg. apply Forall_app. split; [exact Hg|].
        constructor; [lia|constructor].
Qed.

Lemma closed_visit_VisitSub_TriggeredTags triggers tags excludes detected a s :
  Forall (fun tag => closed_visit (V (tag_content tag))) tags ->
  closed_visit (VisitSub_TriggeredTags V triggers tags excludes detected a s).
Proof.
  intros Htags c id c' Hw Hr. unfold VisitSub_TriggeredTags in Hr.
  apply ConverterFacts.bind_inv in Hr as ([ttt ids] & c1 & Hstep1 & Hr).
  eapply wf_visit_triggered_tags in Hstep1;
    [|exact Htags|exact Hw|constructor|reflexivity|].
  2:{ apply Forall_replicate. constructor. }
  destruct Hstep1 as (Hw1 & Hne1 & Hnr1 & Hids & Hlen & Hgroups).
  simpl in Hlen. destruct (a && s).
  - use wf_triggered_tags_one_tag Hr. finish.
  - use wf_triggered_tags_dispatch Hr. finish.
Qed.

End Composite.

Lemma closed_visit_VisitSub_TagsWithSeparator separator detected a s
    (VT : TagFormat -> Conv Z) tags :
  Forall (fun tag => closed_visit (VT tag)) tags ->
  closed_visit (VisitSub_TagsWithSeparator separator detected a s VT tags).
Proof.
  intros Htags c id c' Hw Hr. unfold VisitSub_TagsWithSeparator in Hr.
  split_bind Hr Hloop. loop is_expr Hloop.
  2:{ intros tag t r t' Hin Hws Hnes Hnrs Hb.
      rewrite Forall_forall in Htags. apply Htags in Hin.
      split_bind Hb Hv. apply Hin in Hv; [|exact Hws].
      destruct Hv as (? & ? & ? & ?). run Hb. finish. }
  unfold is_expr in *.
  split_bind Hr Hch. prim Hch. split_bind Hr Hrule. prim Hrule.
  split_bind Hr Href. prim Href.
  split_bind Hr Hends. loop is_expr Hends.
  2:{ intros end_str t r t' Hin Hws Hnes Hnrs Hb. prim Hb. finish. }
  unfold is_expr in *. cbv zeta in Hr.
  destruct (s || _).
  - use wf_tags_with_separator_single Hr. finish.
  - use wf_tags_with_separator_list Hr. finish.
Qed.

Lemma closed_visit_Visit f : closed_visit (Visit f).
Proof.
  induction f using TreeFacts.Format_induction;
    rewrite ConverterFacts.Visit_unfold; apply closed_visit_cached;
    cbn [VisitSub].
  - intros c id c' Hw Hr. eapply wf_VisitSub_ConstString; eassumption.
  - apply closed_visit_add_sub_grammar.
  - apply closed_visit_add_sub_grammar.
  - intros c id c' Hw Hr. eapply wf_VisitSub_AnyText; eassumption.
  - apply closed_visit_add_sub_grammar.
  - apply closed_visit_VisitSub_Regex.
  - apply closed_visit_VisitSub_Sequence. assumption.
  - apply closed_visit_VisitSub_Or. assumption.
  - apply closed_visit_VisitSub_Tag. assumption.
  - apply closed_visit_VisitSub_TriggeredTags. assumption.
  - apply closed_visit_VisitSub_TagsWithSeparator.
    eapply Forall_impl; [eassumption|]. intros tag Htag. cbv beta.
    rewrite ConverterFacts.Visit_unfold. apply closed_visit_cached.
    cbn [VisitSub]. apply closed_visit_VisitSub_Tag. exact Htag.
Qed.

End Visitors.

Lemma wf_init : wf none_pending init.
Proof.
  split; [constructor|]. split.
  - intros i r Hi. discriminate Hi.
  - intros fp id Hfp. unfold init in Hfp. simpl in Hfp.
    rewrite lookup_empty in Hfp. discriminate Hfp.
Qed.

Lemma Convert_closed `{Collaborators} (st : StructuralTag)
    (root : Z) (b : GrammarBuilder.t) :
  splice_closed -> intersect_in_range ->
  Convert st = ROk (root, b) ->
  closed b = true /\ in_range (length (GrammarBuilder.rules b)) root = true.
Proof.
  intros Hsplice Hintersect Hconv. unfold Convert in Hconv.
  destruct ((root_rule_id ← Visit (format st);
             AddRootRuleAndGetGrammar root_rule_id) init)
    as [[root' c']|] eqn:Hrun; [|discriminate].
  injection Hconv as -> <-.
  split_bind Hrun Hv.
  apply (closed_visit_Visit Hsplice Hintersect) in Hv; [|exact wf_init].
  destruct Hv as (Hw1 & Hne1 & Hnr1 & Hid).
  unfold AddRootRuleAndGetGrammar in Hrun. run Hrun.
  split.
  - apply wf_closed. eassumption.
  - apply in_range_spec. fold (rules_of c'). fold (nr c'). arith.
Qed.

(** X17.  The grammar of a conversion is closed: every rule reference, every
    element of a sequence or of a choice, every rule of a TagDispatch and
    every rule body is the id of a rule or of an expression of the grammar
    (no rule is left with the body [-1] of an empty rule), and the root id
    returned is a rule of it.  Asked of the collaborators: a sub-grammar
    spliced into a closed grammar gives a closed grammar with no entry less
    and a rule id of it, and the start state and the edge targets of a
    product automaton are states of it. *)
Theorem converted_grammar_closed `{Collaborators} (st : StructuralTag)
    (root : Z) (b : GrammarBuilder.t) :
  splice_closed -> intersect_in_range ->
  Convert st = ROk (root, b) ->
  closed b = true /\ in_range (length (GrammarBuilder.rules b)) root = true.
Proof. apply Convert_closed. Qed.

Lemma one_rule_splice_closed : @splice_closed one_rule_splice.
Proof.
  intros b g Hcl. cbv zeta.
  set (c0 := {| grammar_builder_ := b; fingerprint_to_rule_id_ := ∅ |}).
  assert (Hw0 : wf none_pending c0).
  { apply closed_wf; [exact Hcl|]. intros fp id Hfp.
    rewrite lookup_empty in Hfp. discriminate Hfp. }
  assert (Hrun : exists id c',
             (e ← AddByteString g; s ← AddSequence [e]; ch ← AddChoices [s];
              AddRuleWithHint "sub_grammar" ch) c0 = ROk (id, c') /\
             @SubGrammarAdder_Apply one_rule_splice b g =
               (id, grammar_builder_ c')).
  { eexists _, _. split; reflexivity. }
  destruct Hrun as (id & c' & Hrun & ->). simpl.
  run Hrun. split; [apply wf_closed; eassumption|].
  split; [|split].
  - unfold ne, nr, exprs_of, rules_of in *. subst c0. simpl in *. lia.
  - unfold ne, nr, exprs_of, rules_of in *. subst c0. simpl in *. lia.
  - apply in_range_spec.
    unfold ne, nr, exprs_of, rules_of in *. subst c0. simpl in *. lia.
Qed.

Lemma converted_grammar_closed_witness :
  let st :=
    {| format :=
         FTag (MkTag "<r>"
           (FSequence
              [FJSONSchema "{}";
               FTriggeredTags ["<f"] [MkTag "<f>" (FConstString "x") ["</f>"]]
                 ["no"] ["</r>"] true false;
               FTagsWithSeparator [MkTag "<g>" (FGrammar "root ::= [a-z]") ["</g>"]]
                 "," ["</r>"] false false] false)
           ["</r>"]) |} in
  exists root b,
    @Convert one_rule_splice st = ROk (root, b) /\
    closed b = true /\ in_range (length (GrammarBuilder.rules b)) root = true.
Proof.
  intros st.
  destruct (@Convert one_rule_splice st) as [[root b]|] eqn:Hconv;
    [|vm_compute in Hconv; discriminate Hconv].
  exists root, b. split; [reflexivity|].
  eapply (@converted_grammar_closed one_rule_splice);
    [exact one_rule_splice_closed| |exact Hconv].
  intros a0 b0 r Hr. discriminate Hr.
Defined.

End ClosedFacts.

(** ** The public API: what [StructuralTagToGrammar] returns *)

Module APIFacts.
Import FormatSpec AnalysisSpec Converter ConverterSpec DispatchSpec ClosedSpec.

Section API.
Context `{Collaborators}.
Variable picojson_parse : string -> json * string.
Variable serialize : json -> string.
Variables parser_depth analyzer_depth : nat.
Variable NormalizedGrammar : Type.
Variable GrammarNormalizer_Apply : Z * GrammarBuilder.t -> NormalizedGrammar.

Lemma str_empty_spec s : str_empty s = true <-> s = EmptyString.
Proof. destruct s; simpl; split; congruence. Qed.

Lemma FromJSON_json_error json_text :
  (exists message,
     API.FromJSON picojson_parse serialize parser_depth json_text =
       AErr (InvalidJSONError message)) <->
  (picojson_parse json_text).2 <> EmptyString.
Proof.
  unfold API.FromJSON. destruct (picojson_parse json_text) as [value err].
  simpl. destruct err as [|a err]; simpl.
  - split; [|congruence]. intros [message Hm].
    destruct (Parser.ParseStructuralTag serialize parser_depth value);
      discriminate Hm.
  - split; [discriminate|]. intros _. eexists. reflexivity.
Qed.

Lemma pipeline_json_error json_text :
  (exists message,
     API.StructuralTagToGrammar picojson_parse serialize parser_depth
       analyzer_depth NormalizedGrammar GrammarNormalizer_Apply json_text =
       AErr (InvalidJSONError message)) <->
  (picojson_parse json_text).2 <> EmptyString.
Proof.
  rewrite <- FromJSON_json_error. unfold API.StructuralTagToGrammar.
  destruct (API.FromJSON picojson_parse serialize parser_depth json_text)
    as [st|e].
  - split; intros [message Hm]; [|discriminate Hm].
    destruct (Analyzer.Analyze analyzer_depth st) as [st'|]; [|discriminate Hm].
    destruct (Convert st'); discriminate Hm.
  - split; intros [message Hm]; exists message; congruence.
Qed.

Lemma pipeline_stages json_text g :
  API.StructuralTagToGrammar picojson_parse serialize parser_depth
    analyzer_depth NormalizedGrammar GrammarNormalizer_Apply json_text = AOk g ->
  exists st st' root b,
    Parser.ParseStructuralTag serialize parser_depth
      (picojson_parse json_text).1 = ROk st /\
    Analyzer.Analyze analyzer_depth st = ROk st' /\
    Convert st' = ROk (root, b) /\
    g = GrammarNormalizer_Apply (root, b).
Proof.
  unfold API.StructuralTagToGrammar, API.FromJSON.
  destruct (picojson_parse json_text) as [value err]. simpl.
  destruct (negb (str_empty err)); [discriminate|].
  destruct (Parser.ParseStructuralTag serialize parser_depth value) as [st|]
    eqn:Hparse; simpl; [|discriminate].
  destruct (Analyzer.Analyze analyzer_depth st) as [st'|] eqn:Han;
    [|discriminate].
  destruct (Convert st') as [[root b]|] eqn:Hconv; [|discriminate].
  intros [= <-]. exists st, st', root, b. auto.
Qed.

End API.

(** X18.  What [StructuralTagToGrammar] returns.  It returns an
    [InvalidJSONError] exactly when [picojson::parse] reports an error, and
    no later stage ever does.  When it returns a grammar, this is the
    normalizer applied to a grammar that is closed (every id in it is a
    rule or an expression of it, no rule is empty), with a root id that is
    a rule of it, and in which every TagDispatch can stop (at the end of
    the text or at a stop string, none of them empty).  Asked of the
    collaborators: the splice of a sub-grammar keeps a grammar closed and
    brings no TagDispatch that cannot stop, and the states named by a
    product automaton are states of it. *)
Theorem structural_tag_to_grammar_result `{Collaborators}
    (picojson_parse : string -> json * string) (serialize : json -> string)
    (parser_depth analyzer_depth : nat) (NormalizedGrammar : Type)
    (GrammarNormalizer_Apply : Z * GrammarBuilder.t -> NormalizedGrammar)
    (structural_tag_json : string) :
  splice_closed -> intersect_in_range -> splice_keeps_dispatches ->
  let result :=
    API.StructuralTagToGrammar picojson_parse serialize parser_depth
      analyzer_depth NormalizedGrammar GrammarNormalizer_Apply
      structural_tag_json in
  ((exists message, result = AErr (InvalidJSONError message)) <->
   (picojson_parse structural_tag_json).2 <> EmptyString) /\
  (forall g, result = AOk g ->
     exists root b,
       g = GrammarNormalizer_Apply (root, b) /\
       closed b = true /\
       in_range (length (GrammarBuilder.rules b)) root = true /\
       dispatches_ok b = true).
Proof.
  intros Hclosed Hintersect Hdispatch result. split.
  - apply pipeline_json_error.
  - intros g Hg. apply pipeline_stages in Hg
      as (st & st' & root & b & _ & Han & Hconv & ->).
    exists root, b. split; [reflexivity|].
    destruct (ClosedFacts.Convert_closed _ _ _ Hclosed Hintersect Hconv)
      as [Hc Hroot].
    split; [exact Hc|]. split; [exact Hroot|].
    eapply DispatchFacts.Convert_dispatches_ok; [exact Hdispatch| |exact Hconv].
    eapply AnalyzerInvariants.Analyze_stop_strings. exact Han.
Qed.

Lemma structural_tag_to_grammar_result_witness :
  let picojson_parse := fun text : string =>
    if String.eqb text "{" then (JNull, "syntax error")
    else
      (JObject
         [("type", JString "structural_tag");
          ("format",
           JObject
             [("type", JString "triggered_tags");
              ("triggers", JArray [JString "<f"]);
              ("tags",
               JArray
                 [JObject
                    [("begin", JString "<f>");
                     ("content",
                      JObject [("type", JString "any_text")]);
                     ("end", JString "</f>")]])])],
       EmptyString) in
  let result :=
    @API.StructuralTagToGrammar one_rule_splice picojson_parse
      (fun _ => EmptyString) 8 8 (Z * GrammarBuilder.t) (fun g => g) "{}" in
  ((exists message, result = AErr (InvalidJSONError message)) <->
   (picojson_parse "{}").2 <> EmptyString) /\
  (forall g, result = AOk g ->
     exists root b,
       g = (root, b) /\
       closed b = true /\
       in_range (length (GrammarBuilder.rules b)) root = true /\
       dispatches_ok b = true).
Proof.
  intros picojson_parse.
  apply (@structural_tag_to_grammar_result one_rule_splice picojson_parse
           (fun _ => EmptyString) 8 8 (Z * GrammarBuilder.t) (fun g => g) "{}").
  - exact ClosedFacts.one_rule_splice_closed.
  - intros a0 b0 r Hr. discriminate Hr.
  - intros b0 g Hb0. unfold dispatches_ok in *. simpl.
    rewrite !forallb_app, Hb0. reflexivity.
Defined.

End APIFacts.
